(** * Mutable event sourcing: aggregates, repository, temporal replay and the
      composition projection of the winemaking domain.

    A shallow embedding of [eventsourcing/] and [winemaking/] and the
    properties of their specification.

    Conventions of the embedding:
    - a [datetime] is the number of microseconds since 1970-01-01T00:00:00 in
      the project's current time zone (the instant [WineLot.create] stamps on
      its creation event);
    - Python exceptions are values of [exn]; a call that may raise returns a
      [result];
    - a Python [dict] whose iteration order is observable is an
      insertion-ordered association list ([pydict]); database tables keyed by
      primary key are [gmap]s;
    - [Decimal] arithmetic is an interface ([DecimalArith]); [Q_decimal] is the
      exact instance used to evaluate concrete scenarios;
    - a [string] holds the UTF-8 encoding of a Python [str]; [len] counts its
      characters;
    - the aggregate tables are PostgreSQL tables (the event store is queried
      with [distinct("aggregate_id")]): a column stores a value as its type
      does, a [numeric(10, 2)] rounded to two places, a [varchar(n)] of at
      most [n] characters, or the statement raises [DataError];
    - the value returned by a call to [uuid.uuid4().hex] is an explicit
      argument of the function that makes the call. *)

From Stdlib Require Import ZArith QArith Ascii String List Lia.
From Stdlib Require OrderedTypeEx.
From stdpp Require Import base option list gmap strings sorting.

Local Open Scope string_scope.
Local Open Scope list_scope.
Local Open Scope Z_scope.

(** ** Exceptions and results *)

Inductive exn : Type :=
| ValueError (msg : string)
| KeyError (key : string)
| NotImplementedError
| TypeError
| DivisionByZero
| IntegrityError
| DataError
| OutOfDateVersionException
| CannotPersistAggregateView
| SubscriberError (msg : string).

Inductive result (A : Type) : Type :=
| Ok (a : A)
| Raise (e : exn).
Arguments Ok {A} a.
Arguments Raise {A} e.

Definition rbind {A B : Type} (r : result A) (k : A → result B) : result B :=
  match r with
  | Ok a => k a
  | Raise e => Raise e
  end.

#[export] Instance result_ret : MRet result := @Ok.
#[export] Instance result_bind : MBind result := fun A B k r => rbind r k.

Definition is_ok {A : Type} (r : result A) : bool :=
  match r with Ok _ => true | Raise _ => false end.

(** ** Time *)

Definition datetime : Type := Z.

(** [dt.replace(microsecond=0)] *)
Definition replace_microsecond_0 (dt : datetime) : datetime := dt - dt mod 1000000.

(** [timezone.make_aware(datetime(year=1970, month=1, day=1, hour=0, minute=0, second=0))] *)
Definition CREATION_OCCURRED_AT : datetime := 0.

(** ** Decimal arithmetic *)

Class DecimalArith (D : Type) : Type := {
  d0 : D;                        (* Decimal("0") *)
  dadd : D → D → D;
  dsub : D → D → D;
  dmul : D → D → D;
  ddiv : D → D → option D;       (* None: the division raises *)
  dltb : D → D → bool;           (* x < y *)
  dleb : D → D → bool;           (* x <= y *)
  d_lo : D;                      (* Decimal("0.9999") *)
  d_hi : D;                      (* Decimal("1.0001") *)
  (* the value a numeric(precision, scale) column stores; None: the value
     does not fit (numeric field overflow) *)
  dnumeric : nat → nat → D → option D
}.

Definition Q_ltb (x y : Q) : bool := negb (Qle_bool y x).

(** A [numeric(precision, scale)] column rounds to [scale] places, ties away
    from zero, and holds less than [10 ^ (precision - scale)] in absolute
    value. [units] is the rounded absolute value in units of [10 ^ -scale]. *)
Definition Q_numeric (precision scale : nat) (x : Q) : option Q :=
  let scaled := Qnum x * 10 ^ Z.of_nat scale in
  let units := (2 * Z.abs scaled + Zpos (Qden x)) / (2 * Zpos (Qden x)) in
  if 10 ^ Z.of_nat precision <=? units then None
  else Some (Qred (Qmake (Z.sgn scaled * units) (Z.to_pos (10 ^ Z.of_nat scale)))).

#[export] Instance Q_decimal : DecimalArith Q := {|
  d0 := 0%Q;
  dadd x y := Qred (x + y)%Q;
  dsub x y := Qred (x - y)%Q;
  dmul x y := Qred (x * y)%Q;
  ddiv x y := if Qeq_bool y 0%Q then None else Some (Qred (x / y)%Q);
  dltb := Q_ltb;
  dleb := Qle_bool;
  d_lo := 0.9999%Q;
  d_hi := 1.0001%Q;
  dnumeric := Q_numeric
|}.

(** ** Text *)

(** The bytes [10xxxxxx], which continue a character. *)
Definition is_continuation_byte (c : Ascii.ascii) : bool :=
  let n := Ascii.nat_of_ascii c in ((128 <=? n) && (n <? 192))%nat.

(** [len(s)] *)
Definition len (s : string) : nat :=
  length (List.filter (fun c => negb (is_continuation_byte c)) (list_ascii_of_string s)).

(** What is left of a string after its first [n] characters. *)
Fixpoint drop_characters (n : nat) (s : list Ascii.ascii) : list Ascii.ascii :=
  match s with
  | [] => []
  | c :: s' =>
      if is_continuation_byte c then drop_characters n s'
      else match n with
           | O => s
           | S n' => drop_characters n' s'
           end
  end.

(** The value a [varchar(n)] column stores: a longer string is an error,
    unless the characters in excess are all spaces, which are cut off. *)
Definition varchar (n : nat) (s : string) : result string :=
  if (len s <=? n)%nat then Ok s
  else
    let chars := list_ascii_of_string s in
    let excess := drop_characters n chars in
    if forallb (fun c => bool_decide (c = " "%char)) excess
    then Ok (string_of_list_ascii (take (length chars - length excess) chars))
    else Raise DataError.

(** ** Insertion-ordered dictionaries *)

Section pydict.
Context {K V : Type} `{EqDecision K}.

Definition pydict : Type := list (K * V).

Fixpoint dict_get (k : K) (d : pydict) : option V :=
  match d with
  | [] => None
  | (k', v) :: d' => if decide (k = k') then Some v else dict_get k d'
  end.

(** [d[k] = v]: an existing key keeps its position, a new one goes last. *)
Fixpoint dict_set (k : K) (v : V) (d : pydict) : pydict :=
  match d with
  | [] => [(k, v)]
  | (k', v') :: d' =>
      if decide (k = k') then (k', v) :: d' else (k', v') :: dict_set k v d'
  end.

Definition dict_keys (d : pydict) : list K := map fst d.
Definition dict_values (d : pydict) : list V := map snd d.

Definition dict_mem (k : K) (d : pydict) : bool :=
  match dict_get k d with Some _ => true | None => false end.

End pydict.
Arguments pydict : clear implicits.

(** ** eventsourcing/models.py, eventsourcing/domain_events.py *)

Section records.
(** [E]: the aggregate events; [F]: the domain columns of an aggregate;
    [M]: the aggregate classes (an event store class is named by the
    aggregate class it belongs to). *)
Context {E F M : Type}.

(** A row object of an event store ([AggregateEventModel]). [ev_model] is
    the class of the row, [event_data] the event the JSON column decodes to
    ([get_event_data]). *)
Record AggregateEventModel : Type := {
  ev_model : M;
  ev_id : Z;
  aggregate_id : string;
  event_data : E;
  created_at : datetime;
  occurred_at : datetime;
  sequence_number : option string
}.

(** An instance of an [AggregateModel] subclass. [version] is [None] on a
    fresh instance; [_persistable] is [None] while the attribute is unset. *)
Record AggregateModel : Type := {
  model : M;
  pk : string;
  version : option Z;
  adding : bool;
  is_before_creation : bool;
  _persistable : option bool;
  _recorded_events : list E;
  _deleted_event_models : list AggregateEventModel;
  fields : F
}.

Definition with_pk (a : AggregateModel) (v : string) : AggregateModel :=
  {| model := model a; pk := v; version := version a; adding := adding a;
     is_before_creation := is_before_creation a; _persistable := _persistable a;
     _recorded_events := _recorded_events a;
     _deleted_event_models := _deleted_event_models a; fields := fields a |}.

Definition with_version (a : AggregateModel) (v : option Z) : AggregateModel :=
  {| model := model a; pk := pk a; version := v; adding := adding a;
     is_before_creation := is_before_creation a; _persistable := _persistable a;
     _recorded_events := _recorded_events a;
     _deleted_event_models := _deleted_event_models a; fields := fields a |}.

Definition with_adding (a : AggregateModel) (v : bool) : AggregateModel :=
  {| model := model a; pk := pk a; version := version a; adding := v;
     is_before_creation := is_before_creation a; _persistable := _persistable a;
     _recorded_events := _recorded_events a;
     _deleted_event_models := _deleted_event_models a; fields := fields a |}.

Definition with_persistable (a : AggregateModel) (v : option bool) : AggregateModel :=
  {| model := model a; pk := pk a; version := version a; adding := adding a;
     is_before_creation := is_before_creation a; _persistable := v;
     _recorded_events := _recorded_events a;
     _deleted_event_models := _deleted_event_models a; fields := fields a |}.

Definition with_recorded_events (a : AggregateModel) (v : list E) : AggregateModel :=
  {| model := model a; pk := pk a; version := version a; adding := adding a;
     is_before_creation := is_before_creation a; _persistable := _persistable a;
     _recorded_events := v;
     _deleted_event_models := _deleted_event_models a; fields := fields a |}.

Definition with_fields (a : AggregateModel) (v : F) : AggregateModel :=
  {| model := model a; pk := pk a; version := version a; adding := adding a;
     is_before_creation := is_before_creation a; _persistable := _persistable a;
     _recorded_events := _recorded_events a;
     _deleted_event_models := _deleted_event_models a; fields := v |}.

(** A row of an aggregate table: the [version] column and the domain
    columns ([id] is the key of the table). *)
Record StoredAggregate : Type := {
  row_version : Z;
  row_fields : F
}.

End records.
Arguments AggregateEventModel : clear implicits.
Arguments AggregateModel : clear implicits.
Arguments StoredAggregate : clear implicits.

(** What the concrete aggregate classes and the settings provide. [U] is what
    a handler reads from outside the aggregate and the event (the hex of a
    fresh [uuid4]). *)
Class Aggregates (E F U M : Type) `{Countable M} : Type := {
  (** the domain columns of [type(self)()] *)
  blank : M → F;
  (** [validate_<kind>_context] and [apply_<kind>], looked up by the
      snake-case name of the event class; [None] when the aggregate class has
      no such method *)
  validate_handler : M → E → option (AggregateModel E F M → result unit);
  apply_handler : M → E → option (AggregateModel E F M → U → result (AggregateModel E F M));
  (** the attributes of an event that [store] reads; [None] when the event
      class does not have the attribute *)
  event_aggregate_id : E → string;
  event_occurred_at : E → option datetime;
  event_sequence_number : E → option string;
  (** whether writing these domain columns under this key breaks a
      uniqueness constraint of the aggregate table *)
  violates_unique : M → string → F → gmap (M * string) (StoredAggregate F) → bool;
  (** the domain columns as the aggregate table stores them, each as the
      type of its column does, or the exception of the statement when a value
      does not fit its column *)
  stored_columns : M → F → result F;
  (** [model_class.get_event_model()], called on the class *)
  class_get_event_model : M → result M;
  (** what the subscribers registered for the class of an event do with it:
      [None] when every [handle] returns, the exception when one raises *)
  subscribers_handle : E → option exn
}.

Section eventsourcing.
Context {E F U M : Type} `{Countable M} `{!Aggregates E F U M}.

Local Abbreviation Row := (AggregateEventModel E M).
Local Abbreviation Agg := (AggregateModel E F M).

(** [type(self)()] *)
Definition new_instance (m : M) : Agg :=
  {| model := m; pk := ""; version := None; adding := true;
     is_before_creation := false; _persistable := None;
     _recorded_events := []; _deleted_event_models := []; fields := blank m |}.

Definition identity (self : Agg) : Agg :=
  with_adding (with_version (with_pk (new_instance (model self)) (pk self)) (version self)) false.

Definition get_aggregate_id (self : Agg) : string := pk self.

Definition mark_for_backdating (self : Agg) : Agg :=
  {| model := model self; pk := pk self; version := version self; adding := adding self;
     is_before_creation := true; _persistable := _persistable self;
     _recorded_events := _recorded_events self;
     _deleted_event_models := _deleted_event_models self; fields := fields self |}.

Definition is_persistable (self : Agg) : bool :=
  match _persistable self with None => true | Some b => b end.

Definition confirm_version (self : Agg) (v : option Z) : result unit :=
  if decide (version self = v) then Ok tt else Raise OutOfDateVersionException.

Definition _validate_event_context (self : Agg) (event : E) : result unit :=
  match validate_handler (model self) event with
  | Some fn => fn self
  | None => Ok tt
  end.

Definition _apply_event (self : Agg) (event : E) (u : U) : result Agg :=
  match apply_handler (model self) event with
  | None => Raise NotImplementedError
  | Some fn => fn self u
  end.

Definition load (self : Agg) (event : E) (u : U) : result Agg :=
  _ ← _validate_event_context self event;
  _apply_event self event u.

(** Loading a sequence of stored events, one after the other, as every
    replay loop does. [omega] gives the draw made while a row is loaded. *)
Fixpoint load_all (omega : Row → U) (self : Agg) (events : list Row) : result Agg :=
  match events with
  | [] => Ok self
  | event :: rest =>
      self' ← load self (event_data event) (omega event);
      load_all omega self' rest
  end.

(** *** Event store queries *)

(** [F("sequence_number").asc(nulls_first=True)] *)
Definition sequence_number_leb (a b : option string) : bool :=
  match a, b with
  | None, _ => true
  | Some _, None => false
  | Some x, Some y => String.leb x y
  end.

(** [ordering = ["occurred_at", F("sequence_number").asc(nulls_first=True), "id"]] *)
Definition canonical_leb (r1 r2 : Row) : bool :=
  if occurred_at r1 <? occurred_at r2 then true
  else if occurred_at r2 <? occurred_at r1 then false
  else if decide (sequence_number r1 = sequence_number r2) then ev_id r1 <=? ev_id r2
  else sequence_number_leb (sequence_number r1) (sequence_number r2).

(** [order_by("aggregate_id", "occurred_at", F("sequence_number").asc(nulls_first=True), "id")] *)
Definition by_aggregate_leb (r1 r2 : Row) : bool :=
  if String.ltb (aggregate_id r1) (aggregate_id r2) then true
  else if String.ltb (aggregate_id r2) (aggregate_id r1) then false
  else canonical_leb r1 r2.

Fixpoint insert_sorted (leb : Row → Row → bool) (r : Row) (l : list Row) : list Row :=
  match l with
  | [] => [r]
  | r' :: l' => if leb r r' then r :: l else r' :: insert_sorted leb r l'
  end.

Definition order_by (leb : Row → Row → bool) (l : list Row) : list Row :=
  foldr (insert_sorted leb) [] l.

(** Evaluating [event_store.objects.filter(p)] on the event rows: the
    matching rows of that store in the default ordering. *)
Definition objects_filter (event_store : M) (p : Row → bool) (rows : list Row) : list Row :=
  order_by canonical_leb
    (List.filter (fun r => bool_decide (ev_model r = event_store) && p r) rows).

(** [.distinct("aggregate_id")]: the first row of every aggregate. *)
Fixpoint distinct_aggregate_id (seen : list string) (l : list Row) : list Row :=
  match l with
  | [] => []
  | r :: l' =>
      if bool_decide (aggregate_id r ∈ seen) then distinct_aggregate_id seen l'
      else r :: distinct_aggregate_id (aggregate_id r :: seen) l'
  end.

(** SQL comparisons with a nullable column: a NULL satisfies none. *)
Definition sequence_number__lte (r : Row) (s : string) : bool :=
  match sequence_number r with Some x => String.leb x s | None => false end.
Definition sequence_number__lt (r : Row) (s : string) : bool :=
  match sequence_number r with Some x => String.ltb x s | None => false end.
Definition sequence_number__gt (r : Row) (s : string) : bool :=
  match sequence_number r with Some x => String.ltb s x | None => false end.


(** *** The state of a process

    Aggregate instances are Python objects: the repository, the dictionaries
    returned by the replay functions and the callers hold references to them
    and see each other's mutations. [heap] holds the instances, a [ref] is an
    index into it. *)

Definition ref : Type := nat.

(** [AggregateRepository]. The keys of [_new_aggregate_events] are aggregate
    instances, which hash and compare by class and primary key; the entry of
    a key records the instance that was inserted as the key. The attribute
    [_deleted_event_models] of the repository is [_deleted_event_stores]
    here, the name being taken by the attribute of the aggregate. *)
Record AggregateRepository : Type := {
  _events : list E;
  _new_aggregate_events : pydict (M * string) (ref * list E);
  _event_stores : pydict M (list E);
  _deleted_event_stores : pydict M (list Row)
}.

Record Database : Type := {
  aggregate_rows : gmap (M * string) (StoredAggregate F);
  event_rows : list Row;
  next_event_id : Z
}.

(** What is observable from outside the transaction. *)
Inductive Effect : Type :=
| Dispatched (event : E)
| Committed
| RolledBack.

Record World : Type := {
  heap : list Agg;
  repository : AggregateRepository;
  db : Database;
  now : datetime;
  trace : list Effect
}.

Definition with_heap (w : World) (h : list Agg) : World :=
  {| heap := h; repository := repository w; db := db w; now := now w; trace := trace w |}.
Definition with_repository (w : World) (r : AggregateRepository) : World :=
  {| heap := heap w; repository := r; db := db w; now := now w; trace := trace w |}.
Definition with_db (w : World) (d : Database) : World :=
  {| heap := heap w; repository := repository w; db := d; now := now w; trace := trace w |}.
Definition with_trace (w : World) (t : list Effect) : World :=
  {| heap := heap w; repository := repository w; db := db w; now := now w; trace := t |}.

(** Stateful code that may raise; what it did before raising stays done. *)
Definition St (A : Type) : Type := World → result A * World.

Definition st_ret {A : Type} (a : A) : St A := fun w => (Ok a, w).
Definition st_raise {A : Type} (e : exn) : St A := fun w => (Raise e, w).
Definition st_bind {A B : Type} (c : St A) (k : A → St B) : St B :=
  fun w => match c w with
           | (Ok a, w') => k a w'
           | (Raise e, w') => (Raise e, w')
           end.
Definition st_get : St World := fun w => (Ok w, w).
Definition st_modify (f : World → World) : St unit := fun w => (Ok tt, f w).
Definition st_lift {A : Type} (r : result A) : St A := fun w => (r, w).

Notation "x <- c1 ;; c2" := (st_bind c1 (fun x => c2))
  (at level 100, c1 at next level, right associativity).
Notation "c1 ;;; c2" := (st_bind c1 (fun _ => c2))
  (at level 100, right associativity).

Fixpoint for_each {X : Type} (l : list X) (body : X → St unit) : St unit :=
  match l with
  | [] => st_ret tt
  | x :: l' => body x ;;; for_each l' body
  end.

(** Reading and writing an instance through a reference. A reference
    outside the heap does not arise; reading one is reported as [TypeError]. *)
Definition deref (r : ref) : St Agg :=
  fun w => match heap w !! r with
           | Some a => (Ok a, w)
           | None => (Raise TypeError, w)
           end.
Definition assign (r : ref) (a : Agg) : St unit :=
  st_modify (fun w => with_heap w (<[r := a]> (heap w))).
Definition alloc (a : Agg) : St ref :=
  fun w => (Ok (length (heap w)), with_heap w (heap w ++ [a])).

(** *** [AggregateModel.persist] *)

Definition get_recorded_events (self : Agg) : list E := _recorded_events self.
Definition get_deleted_event_models (self : Agg) : list Row := _deleted_event_models self.

(** [id = models.CharField(primary_key=True, max_length=26, editable=False)]:
    the value the [id] column stores. *)
Definition stored_id (self : Agg) : result string := varchar 26 (pk self).

(** [objects.filter(pk=key)]: the row with this id. No row has an id that
    the column cannot hold. *)
Definition filter_pk (model_class : M) (key : string)
    (rows : gmap (M * string) (StoredAggregate F)) : option (StoredAggregate F) :=
  if (len key <=? 26)%nat then rows !! (model_class, key) else None.

(** [persist] of one instance against the aggregate table: the outcome, the
    instance and the table afterwards. The columns written by the update are
    the fields with [editable] set, the domain columns: [id] and [version] are
    declared [editable=False]. The values of the statement are converted to
    the types of their columns before any row is looked at. *)
Definition persist_instance (self : Agg) (rows : gmap (M * string) (StoredAggregate F))
    : result unit * Agg * gmap (M * string) (StoredAggregate F) :=
  if negb (is_persistable self) then (Raise CannotPersistAggregateView, self, rows)
  else if adding self then
    let self1 := with_version self (Some 1) in
    match stored_id self, stored_columns (model self) (fields self) with
    | Raise e, _ | Ok _, Raise e => (Raise e, self1, rows)
    | Ok key, Ok columns =>
        match rows !! (model self, key) with
        | Some _ => (Raise IntegrityError, self1, rows)
        | None =>
            if violates_unique (model self) key columns rows
            then (Raise IntegrityError, self1, rows)
            else (Ok tt, with_adding self1 false,
                  <[(model self, key) := {| row_version := 1; row_fields := columns |}]> rows)
        end
    end
  else
    match version self with
    | None => (Raise TypeError, self, rows)
    | Some current_version =>
        let self1 := with_version self (Some (current_version + 1)) in
        match stored_columns (model self) (fields self) with
        | Raise e => (Raise e, self1, rows)
        | Ok columns =>
            match filter_pk (model self) (pk self) rows with
            | Some row =>
                if row_version row =? current_version then
                  if violates_unique (model self) (pk self) columns rows
                  then (Raise IntegrityError, self1, rows)
                  else (Ok tt, self1,
                        <[(model self, pk self) :=
                            {| row_version := row_version row; row_fields := columns |}]> rows)
                else (Raise OutOfDateVersionException, self1, rows)
            | None => (Raise OutOfDateVersionException, self1, rows)
            end
        end
    end.

(** The number of rows the compare-and-update of [persist] matches. *)
Definition updated_rows (self : Agg) (rows : gmap (M * string) (StoredAggregate F)) : Z :=
  match version self, filter_pk (model self) (pk self) rows with
  | Some current_version, Some row => if row_version row =? current_version then 1 else 0
  | _, _ => 0
  end.

Definition with_aggregate_rows (d : Database) (rows : gmap (M * string) (StoredAggregate F)) : Database :=
  {| aggregate_rows := rows; event_rows := event_rows d; next_event_id := next_event_id d |}.

Definition AggregateModel_persist (r : ref) : St unit :=
  self <- deref r ;;
  fun w =>
    let '(res, self', rows') := persist_instance self (aggregate_rows (db w)) in
    (res, with_db (with_heap w (<[r := self']> (heap w))) (with_aggregate_rows (db w) rows')).

(** [model_class.objects.filter(id=pk).first()]: a new instance built from the
    row, or [None]. *)
Definition from_db (model_class : M) (key : string) (row : StoredAggregate F) : Agg :=
  {| model := model_class; pk := key; version := Some (row_version row); adding := false;
     is_before_creation := false; _persistable := None;
     _recorded_events := []; _deleted_event_models := []; fields := row_fields row |}.

Definition objects_first (model_class : M) (key : string) : St (option ref) :=
  w <- st_get ;;
  match aggregate_rows (db w) !! (model_class, key) with
  | None => st_ret None
  | Some row => r <- alloc (from_db model_class key row) ;; st_ret (Some r)
  end.

(** *** [EventStoreManagerMixin.store] and the deletion of rows *)

Definition store_row (event_store : M) (n : Z) (t : datetime) (event : E) : Row :=
  {| ev_model := event_store; ev_id := n;
     aggregate_id := event_aggregate_id event;
     event_data := event;
     created_at := t;
     occurred_at := default t (event_occurred_at event);
     sequence_number := event_sequence_number event |}.

Fixpoint store_rows (event_store : M) (n : Z) (t : datetime) (events : list E) : list Row :=
  match events with
  | [] => []
  | event :: rest => store_row event_store n t event :: store_rows event_store (n + 1) t rest
  end.

Definition store (event_store : M) (events : list E) : St unit :=
  st_modify (fun w =>
    with_db w {| aggregate_rows := aggregate_rows (db w);
                 event_rows := event_rows (db w)
                               ++ store_rows event_store (next_event_id (db w)) (now w) events;
                 next_event_id := next_event_id (db w) + Z.of_nat (length events) |}).

(** [event_model.objects.filter(id__in=ids).delete()] *)
Definition delete_events (event_store : M) (ids : list Z) : St unit :=
  st_modify (fun w =>
    with_db w {| aggregate_rows := aggregate_rows (db w);
                 event_rows := List.filter
                   (fun r => negb (bool_decide (ev_model r = event_store) && bool_decide (ev_id r ∈ ids)))
                   (event_rows (db w));
                 next_event_id := next_event_id (db w) |}).

(** *** eventsourcing/notification_bus.py *)

Definition dispatch (event : E) : St unit :=
  st_modify (fun w => with_trace w (trace w ++ [Dispatched event])) ;;;
  match subscribers_handle event with
  | Some e => st_raise e
  | None => st_ret tt
  end.

Definition dispatch_all (events : list E) : St unit := for_each events dispatch.

(** *** eventsourcing/aggregate_repository.py *)

Definition get_event_model (aggregate : Agg) : M := model aggregate.

Definition empty_repository : AggregateRepository :=
  {| _events := []; _new_aggregate_events := []; _event_stores := [];
     _deleted_event_stores := [] |}.

(** [add], for the instance [aggregate] held at reference [r]. *)
Definition add (r : ref) (aggregate : Agg) (self : AggregateRepository) : AggregateRepository :=
  let key := (model aggregate, pk aggregate) in
  let '(key_ref, new_events) := default (r, []) (dict_get key (_new_aggregate_events self)) in
  let added_events := drop (length new_events) (get_recorded_events aggregate) in
  {| _events := _events self ++ added_events;
     _new_aggregate_events :=
       dict_set key (key_ref, new_events ++ added_events) (_new_aggregate_events self);
     _event_stores :=
       dict_set (get_event_model aggregate)
         (default [] (dict_get (get_event_model aggregate) (_event_stores self)) ++ added_events)
         (_event_stores self);
     _deleted_event_stores :=
       dict_set (get_event_model aggregate)
         (default [] (dict_get (get_event_model aggregate) (_deleted_event_stores self))
          ++ get_deleted_event_models aggregate)
         (_deleted_event_stores self) |}.

Definition mark_aggregate_event_edited (r : ref) (aggregate : Agg) (event : Row)
    (self : AggregateRepository) : AggregateRepository :=
  let key := (model aggregate, pk aggregate) in
  {| _events := _events self;
     _new_aggregate_events :=
       if dict_mem key (_new_aggregate_events self) then _new_aggregate_events self
       else dict_set key (r, []) (_new_aggregate_events self);
     _event_stores := _event_stores self;
     _deleted_event_stores :=
       dict_set (ev_model event)
         (default [] (dict_get (ev_model event) (_deleted_event_stores self)) ++ [event])
         (_deleted_event_stores self) |}.

Definition clear : St unit :=
  st_modify (fun w => with_repository w empty_repository).

(** Steps 1 to 3 of [persist]: the aggregates, the appended events, the
    deleted events. *)
Definition persist_changes (self : AggregateRepository) : St unit :=
  for_each (dict_values (_new_aggregate_events self))
    (fun entry => AggregateModel_persist (fst entry)) ;;;
  for_each (_event_stores self) (fun entry => store (fst entry) (snd entry)) ;;;
  for_each (_deleted_event_stores self)
    (fun entry =>
       match map ev_id (snd entry) with
       | [] => st_ret tt
       | ids => delete_events (fst entry) ids
       end).

Definition persist : St unit :=
  w <- st_get ;;
  let self := repository w in
  persist_changes self ;;;
  dispatch_all (_events self) ;;;
  clear.

(** [with atomic(): body]: the block takes the database as it is on entry,
    restores it when it is left by an exception and commits when it is left
    normally. *)
Definition atomic {R : Type} (body : St R) : St R :=
  fun w =>
    match body w with
    | (Ok response, w') => (Ok response, with_trace w' (trace w' ++ [Committed]))
    | (Raise e, w') => (Raise e, with_trace (with_db w' (db w)) (trace w' ++ [RolledBack]))
    end.

(** [try: body except Exception as e: handler; raise e] *)
Definition try_except_reraise {R : Type} (body : St R) (handler : St unit) : St R :=
  fun w =>
    match body w with
    | (Ok response, w') => (Ok response, w')
    | (Raise e, w') =>
        match handler w' with
        | (Ok _, w'') => (Raise e, w'')
        | (Raise e', w'') => (Raise e', w'')
        end
    end.

Definition store_aggregate_changes {R : Type} (f : St R) : St R :=
  atomic (try_except_reraise (response <- f ;; persist ;;; st_ret response) clear).

(** [AggregateModel.apply] on the instance at [r]. *)
Definition apply (r : ref) (event : E) (u : U) : St unit :=
  self <- deref r ;;
  loaded <- st_lift (load self event u) ;;
  let self' := with_recorded_events loaded (get_recorded_events loaded ++ [event]) in
  assign r self' ;;;
  if is_persistable self'
  then st_modify (fun w => with_repository w (add r self' (repository w)))
  else st_ret tt.

(** *** eventsourcing/aggregates.py *)

Fixpoint fold_st {X A : Type} (l : list X) (acc : A) (body : X → A → St A) : St A :=
  match l with
  | [] => st_ret acc
  | x :: l' => acc' <- body x acc ;; fold_st l' acc' body
  end.

(** The first loop of [load_editable_aggregates_at_time_and_point] and of
    [load_editable_aggregates_at_time]; the accumulator is
    [(event_store, aggregates_by_id)]. *)
Definition collect_editable (agg : ref) (acc : option M * pydict string ref)
    : St (option M * pydict string ref) :=
  a <- deref agg ;;
  let event_store := match fst acc with Some m => Some m | None => Some (get_event_model a) end in
  if adding a then
    assign agg (mark_for_backdating a) ;;;
    st_ret (event_store, dict_set (get_aggregate_id a) agg (snd acc))
  else
    r <- alloc (identity a) ;;
    st_ret (event_store, dict_set (get_aggregate_id a) r (snd acc)).

(** [aggregates_by_id[event.aggregate_id].load(event.get_event_data())] *)
Definition load_onto (aggregates_by_id : pydict string ref) (omega : Row → U) (event : Row)
    : St unit :=
  match dict_get (aggregate_id event) aggregates_by_id with
  | None => st_raise (KeyError (aggregate_id event))
  | Some r =>
      a <- deref r ;;
      a' <- st_lift (load a (event_data event) (omega event)) ;;
      assign r a'
  end.

(** The body of the last loop of the [load_editable_*] functions. *)
Definition load_initial (aggregates_by_id : pydict string ref) (omega : Row → U) (event : Row)
    : St unit :=
  match dict_get (aggregate_id event) aggregates_by_id with
  | None => st_raise (KeyError (aggregate_id event))
  | Some r =>
      a <- deref r ;;
      a' <- st_lift (load a (event_data event) (omega event)) ;;
      assign r (mark_for_backdating a')
  end.

Definition mark_edited (aggregates_by_id : pydict string ref) (event : Row) : St unit :=
  match dict_get (aggregate_id event) aggregates_by_id with
  | None => st_raise (KeyError (aggregate_id event))
  | Some r =>
      a <- deref r ;;
      st_modify (fun w => with_repository w (mark_aggregate_event_edited r a event (repository w)))
  end.

(** The queries of [load_editable_aggregates_at_time_and_point] and of
    [load_editable_aggregates_at_time], for [aggregates_by_id.keys()]. *)
Definition events_after_and_including (event_store : M) (keys : list string)
    (t : datetime) (s : string) (rows : list Row) : list Row :=
  objects_filter event_store
    (fun r => bool_decide (aggregate_id r ∈ keys)
              && ((occurred_at r <? t) || ((occurred_at r =? t) && sequence_number__lte r s)))
    rows.

Definition events_before_or_including (event_store : M) (keys : list string)
    (t : datetime) (rows : list Row) : list Row :=
  objects_filter event_store
    (fun r => bool_decide (aggregate_id r ∈ keys) && (occurred_at r <=? t))
    rows.

(** [initial_events_before] of [load_editable_aggregates_at_time_and_point]:
    the rows of the aggregates that were not rebuilt, without those at the
    sequence number, ordered by aggregate and canonical order, and of these
    the first of each aggregate. *)
Definition initial_candidates (event_store : M) (keys : list string)
    (rebuilt_aggregate_ids : gset string) (s : string) (rows : list Row) : list Row :=
  order_by by_aggregate_leb
    (List.filter
       (fun r => bool_decide (ev_model r = event_store)
                 && bool_decide (aggregate_id r ∈ keys)
                 && negb (bool_decide (aggregate_id r ∈ rebuilt_aggregate_ids))
                 && negb (bool_decide (sequence_number r = Some s)))
       rows).

Definition initial_events_before (event_store : M) (keys : list string)
    (rebuilt_aggregate_ids : gset string) (s : string) (rows : list Row) : list Row :=
  distinct_aggregate_id [] (initial_candidates event_store keys rebuilt_aggregate_ids s rows).

(** The body of the loop over [events_after_and_including]; the accumulator
    is [rebuilt_aggregate_ids]. *)
Definition rebuild_or_mark (aggregates_by_id : pydict string ref) (s : string)
    (omega : Row → U) (event : Row) (rebuilt_aggregate_ids : gset string)
    : St (gset string) :=
  if bool_decide (sequence_number event = Some s) then
    mark_edited aggregates_by_id event ;;; st_ret rebuilt_aggregate_ids
  else
    load_onto aggregates_by_id omega event ;;;
    st_ret ({[aggregate_id event]} ∪ rebuilt_aggregate_ids).

Definition load_editable_aggregates_at_time_and_point (aggregates : list ref)
    (t : datetime) (s : string) (omega : Row → U) : St (pydict string ref) :=
  acc <- fold_st aggregates (None, []) collect_editable ;;
  match acc with
  | (_, []) => st_ret []
  | (None, _) => st_raise TypeError
  | (Some event_store, aggregates_by_id) =>
      w <- st_get ;;
      let events_after_and_including :=
        events_after_and_including event_store (dict_keys aggregates_by_id) t s (event_rows (db w)) in
      rebuilt_aggregate_ids <-
        fold_st events_after_and_including (∅ : gset string)
          (rebuild_or_mark aggregates_by_id s omega) ;;
      let initial_events_before :=
        initial_events_before event_store (dict_keys aggregates_by_id) rebuilt_aggregate_ids s
          (event_rows (db w)) in
      for_each initial_events_before (load_initial aggregates_by_id omega) ;;;
      st_ret aggregates_by_id
  end.

Definition load_editable_aggregates_at_time (aggregates : list ref)
    (t : datetime) (omega : Row → U) : St (pydict string ref) :=
  acc <- fold_st aggregates (None, []) collect_editable ;;
  match acc with
  | (_, []) => st_ret []
  | (None, _) => st_raise TypeError
  | (Some event_store, aggregates_by_id) =>
      w <- st_get ;;
      let events_before_or_including :=
        events_before_or_including event_store (dict_keys aggregates_by_id) t (event_rows (db w)) in
      rebuilt_aggregate_ids <-
        fold_st events_before_or_including (∅ : gset string)
          (fun event rebuilt =>
             load_onto aggregates_by_id omega event ;;;
             st_ret ({[aggregate_id event]} ∪ rebuilt)) ;;
      let initial_events_before :=
        distinct_aggregate_id []
          (order_by by_aggregate_leb
             (List.filter
                (fun r => bool_decide (ev_model r = event_store)
                          && bool_decide (aggregate_id r ∈ dict_keys aggregates_by_id)
                          && negb (bool_decide (aggregate_id r ∈ rebuilt_aggregate_ids)))
                (event_rows (db w)))) in
      for_each initial_events_before (load_initial aggregates_by_id omega) ;;;
      st_ret aggregates_by_id
  end.

(** [load_aggregate_states_before] *)

(** The first loop; the accumulator is [(aggregate_ids, model, event_store)]. *)
Definition collect_ids (agg : ref) (acc : gset string * option M * option M)
    : St (gset string * option M * option M) :=
  a <- deref agg ;;
  let '(aggregate_ids, model_class, event_store) := acc in
  st_ret ({[pk a]} ∪ aggregate_ids,
          match model_class with Some m => Some m | None => Some (model a) end,
          match event_store with Some m => Some m | None => Some (get_event_model a) end).

(** [model.objects.filter(pk__in=aggregate_ids)]. The query has no ordering;
    the rows come in the order of [map_to_list]. *)
Definition objects_filter_pk__in (model_class : M) (aggregate_ids : gset string)
    (rows : gmap (M * string) (StoredAggregate F)) : list (string * StoredAggregate F) :=
  omap (fun kv : (M * string) * StoredAggregate F =>
          if bool_decide (fst (fst kv) = model_class)
             && bool_decide (snd (fst kv) ∈ aggregate_ids)
          then Some (snd (fst kv), snd kv) else None)
       (map_to_list rows).

(** [identity = reloaded_agg.identity(); identity._persistable = False] *)
Definition view_of_row (model_class : M) (reloaded_agg : string * StoredAggregate F) : Agg :=
  with_persistable
    (identity (from_db model_class (fst reloaded_agg) (snd reloaded_agg))) (Some false).

Definition reload_identity (model_class : M) (reloaded_agg : string * StoredAggregate F)
    (identities : pydict string ref) : St (pydict string ref) :=
  r <- alloc (view_of_row model_class reloaded_agg) ;;
  st_ret (dict_set (fst reloaded_agg) r identities).

Definition events_before (event_store : M) (keys : list string) (t : datetime)
    (s : option string) (rows : list Row) : list Row :=
  objects_filter event_store
    (fun r => bool_decide (aggregate_id r ∈ keys)
              && match s with
                 | Some s =>
                     (occurred_at r <? t) || ((occurred_at r =? t) && sequence_number__lt r s)
                 | None => occurred_at r <? t
                 end)
    rows.

Definition load_aggregate_states_before (aggregates : list ref) (t : datetime)
    (s : option string) (omega : Row → U) : St (pydict string ref) :=
  acc <- fold_st aggregates (∅, None, None) collect_ids ;;
  let '(aggregate_ids, model_class, event_store) := acc in
  if bool_decide (aggregate_ids = ∅) then st_ret []
  else
    match model_class, event_store with
    | Some model_class, Some event_store =>
        w <- st_get ;;
        identities <-
          fold_st (objects_filter_pk__in model_class aggregate_ids (aggregate_rows (db w)))
            ([] : pydict string ref) (reload_identity model_class) ;;
        let events_before :=
          events_before event_store (dict_keys identities) t s (event_rows (db w)) in
        rebuilt_aggregate_ids <-
          fold_st events_before (∅ : gset string)
            (fun event rebuilt =>
               load_onto identities omega event ;;;
               st_ret ({[aggregate_id event]} ∪ rebuilt)) ;;
        let first_events_after :=
          distinct_aggregate_id []
            (order_by by_aggregate_leb
               (List.filter
                  (fun r => bool_decide (ev_model r = event_store)
                            && bool_decide (aggregate_id r ∈ dict_keys identities)
                            && negb (bool_decide (aggregate_id r ∈ rebuilt_aggregate_ids)))
                  (event_rows (db w)))) in
        for_each first_events_after (load_initial identities omega) ;;;
        st_ret identities
    | _, _ => st_raise TypeError
    end.

Definition reapply_downstream_events_from (aggregate : ref) (t : datetime) (s : string)
    (omega : Row → U) : St unit :=
  a <- deref aggregate ;;
  w <- st_get ;;
  let events :=
    objects_filter (get_event_model a)
      (fun r => bool_decide (aggregate_id r = get_aggregate_id a)
                && ((t <? occurred_at r) || ((occurred_at r =? t) && sequence_number__gt r s)))
      (event_rows (db w)) in
  for_each events (fun event =>
    a <- deref aggregate ;;
    a' <- st_lift (load a (event_data event) (omega event)) ;;
    assign aggregate a').

(** lib/iter.py: [chunk] *)
Fixpoint chunk_from {T : Type} (size : nat) (generator lst : list T) : list (list T) :=
  match generator with
  | [] => match lst with [] => [] | _ => [lst] end
  | item :: rest =>
      let lst' := lst ++ [item] in
      if (length lst' =? size)%nat then lst' :: chunk_from size rest []
      else chunk_from size rest lst'
  end.
Definition chunk {T : Type} (generator : list T) (size : nat) : list (list T) :=
  chunk_from size generator [].

Fixpoint insert_pk (x : string * Z) (l : list (string * Z)) : list (string * Z) :=
  match l with
  | [] => [x]
  | y :: l' => if String.leb (fst x) (fst y) then x :: l else y :: insert_pk x l'
  end.

(** [cursor(model_class.objects.all().only("pk", "version"), "pk")] on a table
    that does not change while it is iterated: the primary keys and versions
    of the class in ascending primary-key order. *)
Definition cursor_pk_version (model_class : M) (model_id : option string)
    (rows : gmap (M * string) (StoredAggregate F)) : list (string * Z) :=
  foldr insert_pk []
    (omap (fun kv : (M * string) * StoredAggregate F =>
             if bool_decide (fst (fst kv) = model_class)
                && match model_id with
                   | Some i => bool_decide (i = "") || bool_decide (snd (fst kv) = i)
                   | None => true
                   end
             then Some (snd (fst kv), row_version (snd kv)) else None)
          (map_to_list rows)).

(** The instance Django builds from a row fetched with [only("pk", "version")]
    and its [identity()]. *)
Definition identity_of_row (model_class : M) (instance : string * Z) : Agg :=
  identity (with_adding (with_version (with_pk (new_instance model_class) (fst instance))
                           (Some (snd instance))) false).

Definition rebuild_chunk (model_class event_model : M) (chunk_instances : list (string * Z))
    (omega : Row → U) : St unit :=
  rebuilt_instances <-
    fold_st chunk_instances ([] : pydict string ref)
      (fun instance acc =>
         r <- alloc (identity_of_row model_class instance) ;;
         st_ret (dict_set (fst instance) r acc)) ;;
  w <- st_get ;;
  let events :=
    objects_filter event_model
      (fun r => bool_decide (aggregate_id r ∈ map fst chunk_instances))
      (event_rows (db w)) in
  for_each events (load_onto rebuilt_instances omega) ;;;
  atomic (for_each (dict_values rebuilt_instances) AggregateModel_persist).

Definition rebuild_aggregates (model_class : M) (chunk_size : nat) (model_id : option string)
    (omega : Row → U) : St unit :=
  event_model <- st_lift (class_get_event_model model_class) ;;
  w <- st_get ;;
  for_each (chunk (cursor_pk_version model_class model_id (aggregate_rows (db w))) chunk_size)
    (fun chunk_instances => rebuild_chunk model_class event_model chunk_instances omega).

End eventsourcing.

Notation "x <- c1 ;; c2" := (st_bind c1 (fun x => c2))
  (at level 100, c1 at next level, right associativity).
Notation "c1 ;;; c2" := (st_bind c1 (fun _ => c2))
  (at level 100, right associativity).

(** ** lib/db/iterators/cursor.py *)

(** How a generator ends: it returns, or [results[-2]] raises. *)
Inductive generator_end : Type :=
| StopIteration
| IndexError.

(** A key of [cursor]: the column the name stands for, and whether the name
    carries a "-". *)
Record CursorKey (T K : Type) : Type := {
  lookup : T → K;
  descending : bool
}.
Arguments lookup {T K} _ _.
Arguments descending {T K} _.

Section cursor.
Context {T K1 K2 : Type} `{EqDecision K1}.
(** The comparison [<] of the database on the two columns. *)
Variable lt1 : K1 → K1 → bool.
Variable lt2 : K2 → K2 → bool.

(** [x] satisfies [<lookup>__gt=last] (or [__lt], for a descending key). *)
Definition beyond {K : Type} (lt : K → K → bool) (key : CursorKey T K) (last x : T) : bool :=
  if descending key then lt (lookup key x) (lookup key last)
  else lt (lookup key last) (lookup key x).

(** [qset.order_by(primary_key)] and [qset.order_by(primary_key, tiebreaker_key)]:
    whether [x] may come before [y]. *)
Definition cursor_precedes (primary : CursorKey T K1) (tiebreaker : option (CursorKey T K2))
    (x y : T) : bool :=
  if beyond lt1 primary x y then true
  else if beyond lt1 primary y x then false
  else match tiebreaker with
       | Some tiebreaker => negb (beyond lt2 tiebreaker y x)
       | None => true
       end.

Definition cursor_order_by (primary : CursorKey T K1) (tiebreaker : option (CursorKey T K2))
    (qset : list T) : list T :=
  merge_sort (fun x y => cursor_precedes primary tiebreaker x y) qset.

(** The filter of [next_qset]. *)
Definition cursor_next (primary : CursorKey T K1) (tiebreaker : option (CursorKey T K2))
    (last_used x : T) : bool :=
  match tiebreaker with
  | Some tiebreaker =>
      beyond lt1 primary last_used x
      || (bool_decide (lookup primary x = lookup primary last_used)
          && beyond lt2 tiebreaker last_used x)
  | None => beyond lt1 primary last_used x
  end.

(** [results[-2]] *)
Definition cursor_last_used (results : list T) : option T :=
  if (length results <? 2)%nat then None else results !! (length results - 2)%nat.

(** [while len(results) > size:], by recursion on a bound on the number of
    iterations; [None] when the bound is reached. *)
Fixpoint cursor_pages (fuel : nat) (primary : CursorKey T K1)
    (tiebreaker : option (CursorKey T K2)) (size : nat) (qset results : list T)
    : option (list T * generator_end) :=
  if (length results <=? size)%nat then Some ([], StopIteration)
  else
    match fuel with
    | O => None
    | S fuel' =>
        match cursor_last_used results with
        | None => Some ([], IndexError)
        | Some last_used =>
            let results :=
              take (S size)
                (cursor_order_by primary tiebreaker
                   (List.filter (cursor_next primary tiebreaker last_used) qset)) in
            match cursor_pages fuel' primary tiebreaker size qset results with
            | Some (items, e) => Some (take size results ++ items, e)
            | None => None
            end
        end
    end.

(** [cursor(qset, primary_key, tiebreaker_key, size)] on a table that does
    not change while it is iterated: the items it yields and how it ends.
    With a size of at least 1 every iteration but the last yields an item,
    so the loop makes at most one iteration per row. *)
Definition cursor (qset : list T) (primary : CursorKey T K1)
    (tiebreaker : option (CursorKey T K2)) (size : nat) : option (list T * generator_end) :=
  let results := take (S size) (cursor_order_by primary tiebreaker qset) in
  match cursor_pages (length qset) primary tiebreaker size qset results with
  | Some (items, e) => Some (take size results ++ items, e)
  | None => None
  end.

End cursor.

(** *** The cursor of [rebuild_aggregates] *)

Section rebuild_cursor_queryset.
Context {F M : Type} `{Countable M}.

(** [cursor(all_instances, "pk")]: the key is the primary key, ascending, and
    there is no tiebreaker. *)
Definition pk_key : CursorKey (string * Z) string := {| lookup := fst; descending := false |}.

(** [all_instances]: the rows of the class (the one of [model_id] when it is
    given), with [only("pk", "version")], in the order the table gives them. *)
Definition all_instances (model_class : M) (model_id : option string)
    (rows : gmap (M * string) (StoredAggregate F)) : list (string * Z) :=
  omap (fun kv : (M * string) * StoredAggregate F =>
          if bool_decide (fst (fst kv) = model_class)
             && match model_id with
                | Some i => bool_decide (i = "") || bool_decide (snd (fst kv) = i)
                | None => true
                end
          then Some (snd (fst kv), row_version (snd kv)) else None)
       (map_to_list rows).

End rebuild_cursor_queryset.

(** ** winemaking/types.py *)

Record LotComponent : Type := {
  variety : string;
  appellation : string;
  vintage : Z
}.

#[export] Instance LotComponent_eq_dec : EqDecision LotComponent.
Proof. solve_decision. Defined.

(** The aggregate classes of the application. *)
Inductive Model : Type := WineLot | Action.

#[export] Instance Model_eq_dec : EqDecision Model.
Proof. solve_decision. Defined.

#[export] Instance Model_countable : Countable Model.
Proof.
  refine (inj_countable' (fun m => match m with WineLot => true | Action => false end)
            (fun b : bool => if b then WineLot else Action) _).
  by intros [].
Defined.

Inductive WineLotEventType : Type :=
| CREATED | UPDATED | DELETED | VOLUME_BLENDED | VOLUME_RECEIVED
| VOLUME_REMEASURED | VOLUME_BOTTLED | VOLUME_MOVED.

#[export] Instance WineLotEventType_eq_dec : EqDecision WineLotEventType.
Proof. solve_decision. Defined.

Section winemaking.
Context {D : Type} `{!DecimalArith D}.
Record ComponentAmount : Type := {
  component : LotComponent;
  percent : D
}.

Record Composition : Type := {
  components : pydict LotComponent D
}.

(** [sum(values)] *)
Definition dsum (values : list D) : D := fold_left dadd values d0.

(** [Composition(components=...)]: the model validator runs on every
    construction. *)
Definition validate_percentages (obj : Composition) : result Composition :=
  let total := dsum (dict_values (components obj)) in
  if negb (dltb d_lo total && dltb total d_hi)
  then Raise (ValueError "Total percentage must be 100")
  else Ok obj.

Definition Composition_new (components : pydict LotComponent D) : result Composition :=
  validate_percentages {| components := components |}.

(** ** winemaking/events/wine_lot.py *)

Inductive WineLotEvent : Type :=
| WineLotCreated (aggregate_id : string) (code : string)
    (components : list ComponentAmount) (occurred_at : datetime)
| WineLotUpdated (aggregate_id : string) (code_before code_after : string)
| WineLotDeleted (aggregate_id : string) (occurred_at : datetime)
| VolumeBlended (aggregate_id action_id : string) (occurred_at : datetime)
    (volumes : pydict string D) (volume_received : D)
| VolumeReceived (aggregate_id action_id : string) (occurred_at : datetime) (volume : D)
| VolumeRemeasured (aggregate_id action_id : string) (occurred_at : datetime) (volume : D)
| VolumeBottled (aggregate_id action_id : string) (occurred_at : datetime) (volume : D)
| VolumeMoved (aggregate_id action_id : string) (occurred_at : datetime) (volume : D)
    (to_wine_lot_id : string).

Definition event_type (event : WineLotEvent) : WineLotEventType :=
  match event with
  | WineLotCreated _ _ _ _ => CREATED
  | WineLotUpdated _ _ _ => UPDATED
  | WineLotDeleted _ _ => DELETED
  | VolumeBlended _ _ _ _ _ => VOLUME_BLENDED
  | VolumeReceived _ _ _ _ => VOLUME_RECEIVED
  | VolumeRemeasured _ _ _ _ => VOLUME_REMEASURED
  | VolumeBottled _ _ _ _ => VOLUME_BOTTLED
  | VolumeMoved _ _ _ _ _ => VOLUME_MOVED
  end.

Definition wine_lot_event_aggregate_id (event : WineLotEvent) : string :=
  match event with
  | WineLotCreated a _ _ _ | WineLotUpdated a _ _ | WineLotDeleted a _
  | VolumeBlended a _ _ _ _ | VolumeReceived a _ _ _ | VolumeRemeasured a _ _ _
  | VolumeBottled a _ _ _ | VolumeMoved a _ _ _ _ => a
  end.

(** [Timestamped.occurred_at] *)
Definition wine_lot_event_occurred_at (event : WineLotEvent) : option datetime :=
  match event with
  | WineLotUpdated _ _ _ => None
  | WineLotCreated _ _ _ t | WineLotDeleted _ t
  | VolumeBlended _ _ t _ _ | VolumeReceived _ _ t _ | VolumeRemeasured _ _ t _
  | VolumeBottled _ _ t _ | VolumeMoved _ _ t _ _ => Some t
  end.

(** [ActionSequenced.sequence_number] *)
Definition wine_lot_event_sequence_number (event : WineLotEvent) : option string :=
  match event with
  | WineLotCreated _ _ _ _ | WineLotUpdated _ _ _ | WineLotDeleted _ _ => None
  | VolumeBlended _ s _ _ _ | VolumeReceived _ s _ _ | VolumeRemeasured _ s _ _
  | VolumeBottled _ s _ _ | VolumeMoved _ s _ _ _ => Some s
  end.

(** [WineLotCreated.composition] *)
Definition composition (components : list ComponentAmount) : result Composition :=
  Composition_new
    (fold_left
       (fun acc c =>
          dict_set {| variety := variety (component c);
                      appellation := appellation (component c);
                      vintage := vintage (component c) |} (percent c) acc)
       components []).

(** ** winemaking/models/wine_lot.py *)

Record WineLotFields : Type := {
  code : string;
  volume : D;
  deleted_at : option datetime
}.

Local Abbreviation Lot := (AggregateModel WineLotEvent WineLotFields Model).
Local Abbreviation EventRow := (AggregateEventModel WineLotEvent Model).

Definition with_code (self : Lot) (v : string) : Lot :=
  with_fields self
    {| code := v; volume := volume (fields self); deleted_at := deleted_at (fields self) |}.
Definition with_volume (self : Lot) (v : D) : Lot :=
  with_fields self
    {| code := code (fields self); volume := v; deleted_at := deleted_at (fields self) |}.
Definition with_deleted_at (self : Lot) (v : option datetime) : Lot :=
  with_fields self
    {| code := code (fields self); volume := volume (fields self); deleted_at := v |}.

Definition validate_volume_moved_context (self : Lot) (event_volume : D) : result unit :=
  if dltb (dsub (volume (fields self)) event_volume) d0
  then Raise (ValueError "Moved volume cannot exceed current volume.")
  else Ok tt.

Definition validate_volume_bottled_context (self : Lot) (event_volume : D) : result unit :=
  if dltb (dsub (volume (fields self)) event_volume) d0
  then Raise (ValueError "Bottled volume cannot exceed current volume.")
  else Ok tt.

Definition apply_wine_lot_created (self : Lot) (aggregate_id code : string) : Lot :=
  with_code (with_pk self aggregate_id) code.

Definition apply_wine_lot_updated (self : Lot) (code_after : string) : Lot :=
  with_code self code_after.

(** [uuid4_hex] is the value of [uuid.uuid4().hex] in this call. *)
Definition apply_wine_lot_deleted (self : Lot) (occurred_at : datetime) (uuid4_hex : string) : Lot :=
  with_deleted_at
    (with_code self (String.append (code (fields self)) (String.append "!" uuid4_hex)))
    (Some occurred_at).

Definition apply_volume_received (self : Lot) (event_volume : D) : Lot :=
  with_volume self (dadd (volume (fields self)) event_volume).
Definition apply_volume_remeasured (self : Lot) (event_volume : D) : Lot :=
  with_volume self event_volume.
Definition apply_volume_bottled (self : Lot) (event_volume : D) : Lot :=
  with_volume self (dsub (volume (fields self)) event_volume).
Definition apply_volume_blended (self : Lot) (volume_received : D) : Lot :=
  with_volume self (dadd (volume (fields self)) volume_received).
Definition apply_volume_moved (self : Lot) (event_volume : D) : Lot :=
  with_volume self (dsub (volume (fields self)) event_volume).

(** The methods [hasattr] finds on [WineLot] for each event class. *)
Definition wine_lot_validate_handler (event : WineLotEvent) : option (Lot → result unit) :=
  match event with
  | VolumeMoved _ _ _ v _ => Some (fun self => validate_volume_moved_context self v)
  | VolumeBottled _ _ _ v => Some (fun self => validate_volume_bottled_context self v)
  | _ => None
  end.

Definition wine_lot_apply_handler (event : WineLotEvent) : option (Lot → string → result Lot) :=
  Some (fun self uuid4_hex =>
    Ok match event with
       | WineLotCreated a c _ _ => apply_wine_lot_created self a c
       | WineLotUpdated _ _ c => apply_wine_lot_updated self c
       | WineLotDeleted _ t => apply_wine_lot_deleted self t uuid4_hex
       | VolumeBlended _ _ _ _ v => apply_volume_blended self v
       | VolumeReceived _ _ _ v => apply_volume_received self v
       | VolumeRemeasured _ _ _ v => apply_volume_remeasured self v
       | VolumeBottled _ _ _ v => apply_volume_bottled self v
       | VolumeMoved _ _ _ v _ => apply_volume_moved self v
       end).

(** [code = models.CharField(max_length=100, unique=True)] *)
Definition code_taken (key : Model * string) (c : string)
    (rows : gmap (Model * string) (StoredAggregate WineLotFields)) : bool :=
  existsb
    (fun kv : (Model * string) * StoredAggregate WineLotFields =>
       negb (bool_decide (fst kv = key))
       && bool_decide (fst (fst kv) = WineLot)
       && bool_decide (code (row_fields (snd kv)) = c))
    (map_to_list rows).

(** [code = models.CharField(max_length=100, unique=True)],
    [volume = models.DecimalField(max_digits=10, decimal_places=2, ...)],
    [deleted_at = models.DateTimeField(null=True)]: the columns of a lot as
    the table stores them. *)
Definition WineLot_columns (f : WineLotFields) : result WineLotFields :=
  code' ← varchar 100 (code f);
  match dnumeric 10 2 (volume f) with
  | None => Raise DataError
  | Some volume' => Ok {| code := code'; volume := volume'; deleted_at := deleted_at f |}
  end.

(** [settings.BUSES_NOTIFICATION_SUBSCRIBERS], as what the subscribers of an
    event do when it is dispatched. *)
Variable subscribers : WineLotEvent → option exn.

#[local] Instance winemaking : Aggregates WineLotEvent WineLotFields string Model := {|
  blank := fun _ => {| code := ""; volume := d0; deleted_at := None |};
  validate_handler := fun m event =>
    match m with WineLot => wine_lot_validate_handler event | Action => None end;
  apply_handler := fun m event =>
    match m with WineLot => wine_lot_apply_handler event | Action => None end;
  event_aggregate_id := wine_lot_event_aggregate_id;
  event_occurred_at := wine_lot_event_occurred_at;
  event_sequence_number := wine_lot_event_sequence_number;
  violates_unique := fun m k f rows =>
    match m with WineLot => code_taken (m, k) (code f) rows | Action => false end;
  stored_columns := fun m f => match m with WineLot => WineLot_columns f | Action => Ok f end;
  (* [def get_event_model(cls)] of [WineLot] and of [Action] is not a class
     method: called on the class it lacks its argument *)
  class_get_event_model := fun _ => Raise TypeError;
  subscribers_handle := subscribers
|}.

Local Abbreviation WineWorld := (@World WineLotEvent WineLotFields Model).
Local Abbreviation WineSt := (@St WineLotEvent WineLotFields Model).

(** [_CODE_REGEX = r"^[A-Z0-9]{1}[A-Z0-9_-]{0,48}[A-Z0-9]{1}$"] *)
Definition is_upper_alnum (c : Ascii.ascii) : bool :=
  let n := Ascii.nat_of_ascii c in
  ((48 <=? n) && (n <=? 57) || (65 <=? n) && (n <=? 90))%nat.

Definition is_code_char (c : Ascii.ascii) : bool :=
  is_upper_alnum c || bool_decide (c = "_"%char) || bool_decide (c = "-"%char).

(** [re.match(_CODE_REGEX, code)]: [$] also matches before a final newline. *)
Definition matches_CODE_REGEX (code : string) : bool :=
  let chars := list_ascii_of_string code in
  let chars := match rev chars with
               | c :: before => if bool_decide (c = "010"%char) then rev before else chars
               | [] => chars
               end in
  match chars with
  | first :: rest =>
      match rev rest with
      | last :: middle =>
          is_upper_alnum first && is_upper_alnum last
          && forallb is_code_char middle && (length middle <=? 48)%nat
      | [] => false
      end
  | [] => false
  end.

Definition _validate_code (code : string) : result unit :=
  if bool_decide (code = "") then Raise (ValueError "Code must be a non-empty string.")
  else if ((len code <? 2) || (50 <? len code))%nat
  then Raise (ValueError "Code must be between 2 and 50 characters long.")
  else if negb (matches_CODE_REGEX code)
  then Raise (ValueError "Code must consist of uppercase alphanumeric characters, hyphens, or underscores.")
  else Ok tt.

(** [WineLot.create]; [next_id] is the value of [cls.next_id()]. No handler
    of the events applied below draws a uuid, except in [destroy]. *)
Definition WineLot_create (next_id : string) (code : string) (composition : Composition)
    : WineSt ref :=
  _ <- st_lift (_validate_code code) ;;
  let event :=
    WineLotCreated next_id code
      (map (fun cp => {| component := fst cp; percent := snd cp |}) (components composition))
      CREATION_OCCURRED_AT in
  instance <- alloc (new_instance WineLot) ;;
  apply instance event "" ;;;
  st_ret instance.

Definition WineLot_update (self : ref) (code' : string) : WineSt unit :=
  lot <- deref self ;;
  match deleted_at (fields lot) with
  | Some _ => st_raise (ValueError "Cannot update a deleted wine lot.")
  | None =>
      _ <- st_lift (_validate_code code') ;;
      apply self (WineLotUpdated (pk lot) (code (fields lot)) code') ""
  end.

Definition WineLot_destroy (self : ref) (uuid4_hex : string) : WineSt unit :=
  lot <- deref self ;;
  match deleted_at (fields lot) with
  | Some _ => st_raise (ValueError "Wine lot has already been deleted.")
  | None =>
      w <- st_get ;;
      apply self (WineLotDeleted (pk lot) (now w)) uuid4_hex
  end.

Definition WineLot_blend_in_volume (self : ref) (action_id : string) (effective_at : datetime)
    (volume_received : D) (volumes : pydict string D) : WineSt unit :=
  lot <- deref self ;;
  match deleted_at (fields lot) with
  | Some _ => st_raise (ValueError "Cannot blend into a deleted wine lot.")
  | None =>
      if dleb volume_received d0 then st_raise (ValueError "Volume must be greater than zero.")
      else apply self (VolumeBlended (pk lot) action_id effective_at volumes volume_received) ""
  end.

Definition WineLot_receive_volume (self : ref) (action_id : string) (effective_at : datetime)
    (volume : D) : WineSt unit :=
  lot <- deref self ;;
  match deleted_at (fields lot) with
  | Some _ => st_raise (ValueError "Cannot adjust volume of a deleted wine lot.")
  | None => apply self (VolumeReceived (pk lot) action_id effective_at volume) ""
  end.

Definition WineLot_move_volume (self : ref) (action_id : string) (effective_at : datetime)
    (volume : D) (to_wine_lot_id : string) : WineSt unit :=
  lot <- deref self ;;
  match deleted_at (fields lot) with
  | Some _ => st_raise (ValueError "Cannot move volume from a deleted wine lot.")
  | None =>
      if dltb volume d0 then st_raise (ValueError "Volume must be non-negative.")
      else apply self (VolumeMoved (pk lot) action_id effective_at volume to_wine_lot_id) ""
  end.

Definition WineLot_remeasure (self : ref) (action_id : string) (effective_at : datetime)
    (volume : D) : WineSt unit :=
  lot <- deref self ;;
  match deleted_at (fields lot) with
  | Some _ => st_raise (ValueError "Cannot re-measure a deleted wine lot.")
  | None =>
      if dltb volume d0 then st_raise (ValueError "Volume must be non-negative.")
      else apply self (VolumeRemeasured (pk lot) action_id effective_at volume) ""
  end.

Definition WineLot_bottle (self : ref) (action_id : string) (effective_at : datetime)
    (volume : D) : WineSt unit :=
  lot <- deref self ;;
  match deleted_at (fields lot) with
  | Some _ => st_raise (ValueError "Cannot bottle a deleted wine lot.")
  | None =>
      if dleb volume d0 then st_raise (ValueError "Volume must be greater than zero.")
      else apply self (VolumeBottled (pk lot) action_id effective_at volume) ""
  end.

(** ** winemaking/use_cases/calculate_composition.py *)

(** [for comp, pct in composition.components.items():
       new_components[comp] = new_components.get(comp, Decimal("0")) + pct * weight] *)
Definition add_weighted (weight : D) (components : pydict LotComponent D)
    (new_components : pydict LotComponent D) : pydict LotComponent D :=
  fold_left
    (fun acc cp =>
       dict_set (fst cp) (dadd (default d0 (dict_get (fst cp) acc)) (dmul (snd cp) weight)) acc)
    components new_components.

(** The loop over [event_data.volumes.items()]. *)
Fixpoint add_blended (new_total_volume : D) (lot_compositions : gmap string Composition)
    (volumes : pydict string D) (new_components : pydict LotComponent D)
    : result (pydict LotComponent D) :=
  match volumes with
  | [] => Ok new_components
  | (blended_lot_id, blend_volume) :: rest =>
      if dleb blend_volume d0 then add_blended new_total_volume lot_compositions rest new_components
      else
        match ddiv blend_volume new_total_volume with
        | None => Raise DivisionByZero
        | Some blend_weight =>
            match lot_compositions !! blended_lot_id with
            | None => Raise (KeyError blended_lot_id)
            | Some blend_composition =>
                add_blended new_total_volume lot_compositions rest
                  (add_weighted blend_weight (components blend_composition) new_components)
            end
        end
  end.

(** The [VOLUME_BLENDED] branch up to the construction of the new
    composition. *)
Definition blend (lot_volume : D) (lot_composition : Composition) (volumes : pydict string D)
    (lot_compositions : gmap string Composition) : result Composition :=
  let blended_total := fold_left dadd (dict_values volumes) d0 in
  let new_total_volume := dadd lot_volume blended_total in
  new_components ←
    (if dltb d0 lot_volume then
       match ddiv lot_volume new_total_volume with
       | None => Raise DivisionByZero
       | Some current_weight => Ok (add_weighted current_weight (components lot_composition) [])
       end
     else Ok []);
  new_components ← add_blended new_total_volume lot_compositions volumes new_components;
  Composition_new new_components.

(** The [VOLUME_BLENDED] branch of the loop body: the compositions after an
    event of a kind other than [CREATED]. *)
Definition update_composition (lot : Lot) (event : EventRow) (data : WineLotEvent)
    (lot_compositions : gmap string Composition) : result (gmap string Composition) :=
  match data with
  | VolumeBlended _ _ _ volumes _ =>
      match lot_compositions !! aggregate_id event with
      | None => Raise (KeyError (aggregate_id event))
      | Some lot_composition =>
          new_composition ←
            blend (volume (fields lot)) lot_composition volumes lot_compositions;
          Ok (<[aggregate_id event := new_composition]> lot_compositions)
      end
  | _ => Ok lot_compositions
  end.

(** The loop body after the [CREATED] branch. *)
Definition build_other (omega : EventRow → string) (event : EventRow) (data : WineLotEvent)
    (st : gmap string Composition * gmap string Lot)
    : result (gmap string Composition * gmap string Lot) :=
  match snd st !! aggregate_id event with
  | None => Raise (KeyError (aggregate_id event))
  | Some lot =>
      lot_compositions' ← update_composition lot event data (fst st);
      lot' ← load lot data (omega event);
      Ok (lot_compositions', <[aggregate_id event := lot']> (snd st))
  end.

(** The body of the loop over [relevant_events]; the state is
    [(lot_compositions, lots)]. *)
Definition build_step (omega : EventRow → string) (event : EventRow)
    (st : gmap string Composition * gmap string Lot)
    : result (gmap string Composition * gmap string Lot) :=
  match event_data event with
  | WineLotCreated _ _ comps _ =>
      c ← composition comps;
      lot ← load (new_instance WineLot) (event_data event) (omega event);
      Ok (<[aggregate_id event := c]> (fst st), <[aggregate_id event := lot]> (snd st))
  | data => build_other omega event data st
  end.

Fixpoint build_loop (omega : EventRow → string) (events : list EventRow)
    (st : gmap string Composition * gmap string Lot)
    : result (gmap string Composition * gmap string Lot) :=
  match events with
  | [] => Ok st
  | event :: rest => st' ← build_step omega event st; build_loop omega rest st'
  end.

(** The query of [_build_lot_compositions]. *)
Definition relevant_events (rows : list EventRow) (lot_ids : gset string)
    (effective_at : option datetime) (action_id : option string) : list EventRow :=
  match effective_at with
  | Some effective_at =>
      match action_id with
      | Some action_id =>
          objects_filter WineLot
            (fun r => bool_decide (aggregate_id r ∈ lot_ids)
                      && ((occurred_at r <? effective_at)
                          || ((occurred_at r =? effective_at) && sequence_number__lte r action_id)))
            rows
      | None =>
          objects_filter WineLot
            (fun r => bool_decide (aggregate_id r ∈ lot_ids) && (occurred_at r <=? effective_at))
            rows
      end
  | None => objects_filter WineLot (fun r => bool_decide (aggregate_id r ∈ lot_ids)) rows
  end.

Definition _build_lot_compositions (rows : list EventRow) (omega : EventRow → string)
    (lot_ids : gset string) (effective_at : option datetime) (action_id : option string)
    : result (gmap string Composition) :=
  st ← build_loop omega (relevant_events rows lot_ids effective_at action_id) (∅, ∅);
  Ok (fst st).

(** The query of [_get_all_lot_ids] for the lot [current]. *)
Definition blend_events (rows : list EventRow) (current : string)
    (effective_at : option datetime) (action_id : option string) : list EventRow :=
  let is_blend (r : EventRow) :=
    bool_decide (aggregate_id r = current)
    && bool_decide (event_type (event_data r) = VOLUME_BLENDED) in
  match effective_at with
  | Some effective_at =>
      match action_id with
      | Some action_id =>
          objects_filter WineLot
            (fun r => is_blend r
                      && ((occurred_at r <? effective_at)
                          || ((occurred_at r =? effective_at) && sequence_number__lte r action_id)))
            rows
      | None =>
          objects_filter WineLot (fun r => is_blend r && (occurred_at r <=? effective_at)) rows
      end
  | None => objects_filter WineLot is_blend rows
  end.

(** The two inner loops of the search: the sources of the blends into the
    current lot join [discovered] and the queue when they are new. *)
Definition discover (events : list EventRow) (acc : gset string * list string)
    : gset string * list string :=
  fold_left
    (fun acc event =>
       match event_data event with
       | VolumeBlended _ _ _ volumes _ =>
           fold_left
             (fun acc source_lot_id =>
                if bool_decide (source_lot_id ∈ fst acc) then acc
                else ({[source_lot_id]} ∪ fst acc, snd acc ++ [source_lot_id]))
             (dict_keys volumes) acc
       | _ => acc
       end)
    events acc.

(** [while queue:], by recursion on a bound on the number of iterations. *)
Fixpoint search (fuel : nat) (rows : list EventRow) (effective_at : option datetime)
    (action_id : option string) (discovered : gset string) (queue : list string)
    : option (gset string) :=
  match queue with
  | [] => Some discovered
  | current :: queue' =>
      match fuel with
      | O => None
      | S fuel' =>
          let '(discovered', queue'') :=
            discover (blend_events rows current effective_at action_id) (discovered, queue') in
          search fuel' rows effective_at action_id discovered' queue''
      end
  end.

(** Every lot that enters the queue is the target or a source of a stored
    blend, and enters once: the loop makes at most one iteration more than
    there are sources ([_get_all_lot_ids_returns]). *)
Definition source_lot_ids (rows : list EventRow) : list string :=
  flat_map
    (fun r => match event_data r with
              | VolumeBlended _ _ _ volumes _ => dict_keys volumes
              | _ => []
              end)
    rows.

Definition _get_all_lot_ids (rows : list EventRow) (lot_id : string)
    (effective_at : option datetime) (action_id : option string) : option (gset string) :=
  search (S (length (source_lot_ids rows))) rows effective_at action_id {[lot_id]} [lot_id].

Definition calculate_composition (d : @Database WineLotEvent WineLotFields Model _ _)
    (omega : EventRow → string) (lot_id : string)
    (effective_at : option datetime) (action_id : option string) : result Composition :=
  let effective_at := replace_microsecond_0 <$> effective_at in
  if bool_decide (action_id ≠ None) && bool_decide (effective_at = None)
  then Raise (ValueError "effective_at must be provided when action_id is specified.")
  else
    match aggregate_rows d !! (WineLot, lot_id) with
    | None => Raise (ValueError (String.append "Wine lot with ID "
                                   (String.append lot_id " does not exist.")))
    | Some lot =>
        match _get_all_lot_ids (event_rows d) lot_id effective_at action_id with
        | None => Raise TypeError
        | Some lot_ids =>
            lot_compositions ←
              _build_lot_compositions (event_rows d) omega lot_ids effective_at action_id;
            match lot_compositions !! lot_id with
            | Some c => Ok c
            | None => Raise (KeyError lot_id)
            end
        end
    end.

End winemaking.

(** ** The Action aggregate

    [Action] lives in an event store of its own; its definitions are kept in
    a module, as several of its attributes share their names with those of
    [WineLot]. *)

Module action.

(** *** eventsourcing/domain_events.py *)

Record ValueChange (V : Type) : Type := {
  before : V;
  after : V
}.
Arguments before {V} _.
Arguments after {V} _.

(** *** winemaking/types.py *)

Inductive ActionType : Type := RECEIVE_VOLUME | BLEND | REMEASURE | BOTTLE.

#[export] Instance ActionType_eq_dec : EqDecision ActionType.
Proof. solve_decision. Defined.

(** The value of the choice, as [f"{self.action_type}"] prints it. *)
Definition ActionType_value (t : ActionType) : string :=
  match t with
  | RECEIVE_VOLUME => "RECEIVE_VOLUME"
  | BLEND => "BLEND"
  | REMEASURE => "REMEASURE"
  | BOTTLE => "BOTTLE"
  end.

Section action.
Context {D : Type} `{!DecimalArith D}.

(** *** winemaking/events/action.py *)

Inductive ActionRecordedData : Type :=
| ReceiveVolumeRecordedData (wine_lot_id : string) (volume : D)
| MeasureVolumeRecordedData (wine_lot_id : string) (volume : D)
| BlendRecordedData (blend_volumes : pydict string D) (receiving_wine_lot_id : string)
    (blended_volume : D)
| BottleRecordedData (wine_lot_id : string) (volume_bottled : D) (bottles : Z).

Inductive ActionEditedData : Type :=
| ReceiveVolumeEditedData (wine_lot_id : ValueChange string) (volume : ValueChange D)
| MeasureVolumeEditedData (wine_lot_id : ValueChange string) (volume : ValueChange D)
| BlendEditedData (blend_volumes : ValueChange (pydict string D))
    (receiving_wine_lot_id : ValueChange string) (blended_volume : ValueChange D)
| BottleEditedData (wine_lot_id : ValueChange string) (volume_bottled : ValueChange D)
    (bottles : ValueChange Z).

Inductive ActionEvent : Type :=
| ActionRecorded (aggregate_id : string) (effective_at recorded_at : datetime)
    (details : ActionRecordedData)
| ActionEdited (aggregate_id : string) (edited_at : datetime) (details : ActionEditedData)
| ActionDeleted (aggregate_id : string) (deleted_at : datetime).

Definition action_event_aggregate_id (event : ActionEvent) : string :=
  match event with
  | ActionRecorded a _ _ _ | ActionEdited a _ _ | ActionDeleted a _ => a
  end.

(** *** winemaking/models/action.py *)

(** [ReceiveVolumeData], [MeasureVolumeData], [BlendData], [BottleData] *)
Inductive ActionData : Type :=
| ReceiveVolumeData (wine_lot_id : string) (volume : D)
| MeasureVolumeData (wine_lot_id : string) (volume : D)
| BlendData (blend_volumes : pydict string D) (receiving_wine_lot_id : string)
    (blended_volume : D)
| BottleData (wine_lot_id : string) (volume_bottled : D) (bottles : Z).

(** The attributes of an [Action]. A field that has not been assigned is
    [None] ([action_type] is then the empty string); [details] is
    [self.details.data]; [recorded_at] is an attribute that
    [apply_action_recorded] sets, not a column. *)
Record ActionFields : Type := {
  effective_at : option datetime;
  deleted_at : option datetime;
  updated_at : option datetime;
  action_type : option ActionType;
  involved_wine_lot_ids : option (list string);
  revision_number : Z;
  details : option ActionData;
  recorded_at : option datetime
}.

Local Abbreviation Act := (AggregateModel ActionEvent ActionFields Model).

(** What reading an attribute of [self.details.data] gives; [None] when the
    object has no such attribute. *)
Definition data_wine_lot_id (data : option ActionData) : option string :=
  match data with
  | Some (ReceiveVolumeData i _) | Some (MeasureVolumeData i _) | Some (BottleData i _ _) => Some i
  | _ => None
  end.
Definition data_volume (data : option ActionData) : option D :=
  match data with
  | Some (ReceiveVolumeData _ v) | Some (MeasureVolumeData _ v) => Some v
  | _ => None
  end.
Definition data_blend_volumes (data : option ActionData) : option (pydict string D) :=
  match data with Some (BlendData volumes _ _) => Some volumes | _ => None end.
Definition data_receiving_wine_lot_id (data : option ActionData) : option string :=
  match data with Some (BlendData _ i _) => Some i | _ => None end.
Definition data_blended_volume (data : option ActionData) : option D :=
  match data with Some (BlendData _ _ v) => Some v | _ => None end.
Definition data_volume_bottled (data : option ActionData) : option D :=
  match data with Some (BottleData _ v _) => Some v | _ => None end.
Definition data_bottles (data : option ActionData) : option Z :=
  match data with Some (BottleData _ _ n) => Some n | _ => None end.

Definition apply_action_recorded (self : Act) (aggregate_id : string)
    (event_effective_at event_recorded_at : datetime) (event_details : ActionRecordedData)
    : Act :=
  let '(type, data, involved) :=
    match event_details with
    | ReceiveVolumeRecordedData wine_lot_id volume =>
        (RECEIVE_VOLUME, ReceiveVolumeData wine_lot_id volume, [wine_lot_id])
    | MeasureVolumeRecordedData wine_lot_id volume =>
        (REMEASURE, MeasureVolumeData wine_lot_id volume, [wine_lot_id])
    | BlendRecordedData blend_volumes receiving_wine_lot_id blended_volume =>
        (BLEND, BlendData blend_volumes receiving_wine_lot_id blended_volume,
         receiving_wine_lot_id :: dict_keys blend_volumes)
    | BottleRecordedData wine_lot_id volume_bottled bottles =>
        (BOTTLE, BottleData wine_lot_id volume_bottled bottles, [wine_lot_id])
    end in
  with_fields (with_pk self aggregate_id)
    {| effective_at := Some event_effective_at;
       deleted_at := None;
       updated_at := updated_at (fields self);
       action_type := Some type;
       involved_wine_lot_ids := Some involved;
       revision_number := 0;
       details := Some data;
       recorded_at := Some event_recorded_at |}.

Definition apply_action_edited (self : Act) (event_edited_at : datetime)
    (event_details : ActionEditedData) : Act :=
  let '(data, involved) :=
    match event_details with
    | ReceiveVolumeEditedData wine_lot_id volume =>
        (ReceiveVolumeData (after wine_lot_id) (after volume), [after wine_lot_id])
    | MeasureVolumeEditedData wine_lot_id volume =>
        (MeasureVolumeData (after wine_lot_id) (after volume), [after wine_lot_id])
    | BlendEditedData blend_volumes receiving_wine_lot_id blended_volume =>
        (BlendData (after blend_volumes) (after receiving_wine_lot_id) (after blended_volume),
         after receiving_wine_lot_id :: dict_keys (after blend_volumes))
    | BottleEditedData wine_lot_id volume_bottled bottles =>
        (BottleData (after wine_lot_id) (after volume_bottled) (after bottles),
         [after wine_lot_id])
    end in
  with_fields self
    {| effective_at := effective_at (fields self);
       deleted_at := deleted_at (fields self);
       updated_at := Some event_edited_at;
       action_type := action_type (fields self);
       involved_wine_lot_ids := Some involved;
       revision_number := revision_number (fields self) + 1;
       details := Some data;
       recorded_at := recorded_at (fields self) |}.

Definition apply_action_deleted (self : Act) (event_deleted_at : datetime) : Act :=
  with_fields self
    {| effective_at := effective_at (fields self);
       deleted_at := Some event_deleted_at;
       updated_at := updated_at (fields self);
       action_type := action_type (fields self);
       involved_wine_lot_ids := involved_wine_lot_ids (fields self);
       revision_number := revision_number (fields self);
       details := details (fields self);
       recorded_at := recorded_at (fields self) |}.

(** The methods [hasattr] finds on [Action] for each event class. *)
Definition action_apply_handler (event : ActionEvent) : option (Act → unit → result Act) :=
  Some (fun self _ =>
    Ok match event with
       | ActionRecorded a t r d => apply_action_recorded self a t r d
       | ActionEdited _ t d => apply_action_edited self t d
       | ActionDeleted _ t => apply_action_deleted self t
       end).

(** [effective_at = models.DateTimeField()],
    [action_type = models.CharField(choices=ActionType, max_length=255, null=False)],
    [revision_number = models.PositiveIntegerField(default=0)] and the two
    schema fields: the columns of an action as the table stores them. A
    column without [null=True] holds no NULL; a positive integer column holds
    0 to 2147483647. [recorded_at] is an attribute of the instance and no
    column. *)
Definition Action_columns (f : ActionFields) : result ActionFields :=
  match effective_at f, action_type f, involved_wine_lot_ids f, details f with
  | Some _, Some _, Some _, Some _ =>
      if 2147483647 <? revision_number f then Raise DataError
      else if revision_number f <? 0 then Raise IntegrityError
      else Ok {| effective_at := effective_at f; deleted_at := deleted_at f;
                 updated_at := updated_at f; action_type := action_type f;
                 involved_wine_lot_ids := involved_wine_lot_ids f;
                 revision_number := revision_number f; details := details f;
                 recorded_at := None |}
  | _, _, _, _ => Raise IntegrityError
  end.

Variable subscribers : ActionEvent → option exn.

(** The events of an action have neither [occurred_at] nor
    [sequence_number]. *)
#[local] Instance actions : Aggregates ActionEvent ActionFields unit Model := {|
  blank := fun _ =>
    {| effective_at := None; deleted_at := None; updated_at := None; action_type := None;
       involved_wine_lot_ids := None; revision_number := 0; details := None;
       recorded_at := None |};
  validate_handler := fun _ _ => None;
  apply_handler := fun m event =>
    match m with Action => action_apply_handler event | WineLot => None end;
  event_aggregate_id := action_event_aggregate_id;
  event_occurred_at := fun _ => None;
  event_sequence_number := fun _ => None;
  violates_unique := fun _ _ _ _ => false;
  stored_columns := fun _ => Action_columns;
  class_get_event_model := fun _ => Raise TypeError;
  subscribers_handle := subscribers
|}.

Local Abbreviation ActSt := (@St ActionEvent ActionFields Model _ _).

(** The body shared by the [record_*] class methods; [next_id] is the value
    of [cls.next_id()], [timezone.now()] the time of the world. *)
Definition record_action (next_id : string) (effective_at : option datetime)
    (event_details : ActionRecordedData) : ActSt ref :=
  w <- st_get ;;
  let event :=
    ActionRecorded next_id (default (now w) effective_at) (now w) event_details in
  action <- alloc (new_instance Action) ;;
  apply action event tt ;;;
  st_ret action.

(** [wine_lot] is given by [wine_lot.id], [blend_volumes] by the ids of its
    keys. *)
Definition Action_record_receive_volume (next_id : string) (wine_lot : string) (volume : D)
    (effective_at : option datetime) : ActSt ref :=
  record_action next_id effective_at (ReceiveVolumeRecordedData wine_lot volume).

Definition Action_record_remeasure (next_id : string) (wine_lot : string) (volume : D)
    (effective_at : option datetime) : ActSt ref :=
  record_action next_id effective_at (MeasureVolumeRecordedData wine_lot volume).

(** [x == 0] on decimals *)
Definition is_zero (x : D) : bool := dleb x d0 && dleb d0 x.

Definition Action_record_blend (next_id : string) (blend_volumes : pydict string D)
    (receiving_wine_lot : string) (blended_volume : D) (effective_at : option datetime)
    : ActSt ref :=
  if dleb blended_volume d0
  then st_raise (ValueError "Blended volume must be greater than zero.")
  else
    let total_moved_volume := dsum (dict_values blend_volumes) in
    if is_zero total_moved_volume
    then st_raise (ValueError "Total blended volume cannot be zero.")
    else record_action next_id effective_at
           (BlendRecordedData blend_volumes receiving_wine_lot blended_volume).

Definition Action_record_bottle (next_id : string) (wine_lot : string) (volume_bottled : D)
    (bottles : Z) (effective_at : option datetime) : ActSt ref :=
  record_action next_id effective_at (BottleRecordedData wine_lot volume_bottled bottles).

Definition Action_destroy (self : ref) : ActSt unit :=
  a <- deref self ;;
  match deleted_at (fields a) with
  | Some _ => st_raise (ValueError "Action has already been deleted.")
  | None =>
      w <- st_get ;;
      apply self (ActionDeleted (pk a) (now w)) tt
  end.

(** The guards shared by the [edit_*] methods. *)
Definition cannot_edit_as (a : Act) (kind : string) : exn :=
  ValueError
    (String.append "Cannot edit a "
       (String.append (default "" (ActionType_value <$> action_type (fields a)))
          (String.append " action as a " (String.append kind ".")))).

(** An attribute that [self.details.data] does not have: [AttributeError],
    reported as [TypeError]. *)
Definition Action_edit_receive_volume (self : ref) (wine_lot : string) (volume : D)
    : ActSt unit :=
  a <- deref self ;;
  if negb (bool_decide (action_type (fields a) = Some RECEIVE_VOLUME))
  then st_raise (cannot_edit_as a "volume receipt")
  else match deleted_at (fields a) with
       | Some _ => st_raise (ValueError "Cannot edit a deleted action.")
       | None =>
           w <- st_get ;;
           match data_wine_lot_id (details (fields a)), data_volume (details (fields a)) with
           | Some current_wine_lot_id, Some current_volume =>
               apply self
                 (ActionEdited (pk a) (now w)
                    (ReceiveVolumeEditedData
                       {| before := current_wine_lot_id; after := wine_lot |}
                       {| before := current_volume; after := volume |})) tt
           | _, _ => st_raise TypeError
           end
       end.

Definition Action_edit_remeasure (self : ref) (wine_lot : string) (volume : D)
    : ActSt unit :=
  a <- deref self ;;
  if negb (bool_decide (action_type (fields a) = Some REMEASURE))
  then st_raise (cannot_edit_as a "volume remeasurement")
  else match deleted_at (fields a) with
       | Some _ => st_raise (ValueError "Cannot edit a deleted action.")
       | None =>
           w <- st_get ;;
           match data_wine_lot_id (details (fields a)), data_volume (details (fields a)) with
           | Some current_wine_lot_id, Some current_volume =>
               apply self
                 (ActionEdited (pk a) (now w)
                    (MeasureVolumeEditedData
                       {| before := current_wine_lot_id; after := wine_lot |}
                       {| before := current_volume; after := volume |})) tt
           | _, _ => st_raise TypeError
           end
       end.

Definition Action_edit_blend (self : ref) (blend_volumes : pydict string D)
    (receiving_wine_lot : string) (blended_volume : D) : ActSt unit :=
  a <- deref self ;;
  if negb (bool_decide (action_type (fields a) = Some BLEND))
  then st_raise (cannot_edit_as a "blend")
  else match deleted_at (fields a) with
       | Some _ => st_raise (ValueError "Cannot edit a deleted action.")
       | None =>
           if dleb blended_volume d0
           then st_raise (ValueError "Blended volume must be greater than zero.")
           else if is_zero (dsum (dict_values blend_volumes))
           then st_raise (ValueError "Total blended volume cannot be zero.")
           else
             w <- st_get ;;
             match data_blend_volumes (details (fields a)),
                   data_receiving_wine_lot_id (details (fields a)),
                   data_blended_volume (details (fields a)) with
             | Some current_blend_volumes, Some current_receiving, Some current_blended =>
                 apply self
                   (ActionEdited (pk a) (now w)
                      (BlendEditedData
                         {| before := current_blend_volumes; after := blend_volumes |}
                         {| before := current_receiving; after := receiving_wine_lot |}
                         {| before := current_blended; after := blended_volume |})) tt
             | _, _, _ => st_raise TypeError
             end
       end.

Definition Action_edit_bottle (self : ref) (wine_lot : string) (volume_bottled : D)
    (bottles : Z) : ActSt unit :=
  a <- deref self ;;
  if negb (bool_decide (action_type (fields a) = Some BOTTLE))
  then st_raise (cannot_edit_as a "bottling")
  else match deleted_at (fields a) with
       | Some _ => st_raise (ValueError "Cannot edit a deleted action.")
       | None =>
           w <- st_get ;;
           match data_wine_lot_id (details (fields a)),
                 data_volume_bottled (details (fields a)),
                 data_bottles (details (fields a)) with
           | Some current_wine_lot_id, Some current_volume_bottled, Some current_bottles =>
               apply self
                 (ActionEdited (pk a) (now w)
                    (BottleEditedData
                       {| before := current_wine_lot_id; after := wine_lot |}
                       {| before := current_volume_bottled; after := volume_bottled |}
                       {| before := current_bottles; after := bottles |})) tt
           | _, _, _ => st_raise TypeError
           end
       end.

End action.
End action.

(** * Properties *)

(** ** Dictionaries *)

Section pydict_properties.
Context {K V : Type} `{EqDecision K}.
Implicit Types (k : K) (v : V) (d : pydict K V).

Lemma dict_get_set_eq k v d : dict_get k (dict_set k v d) = Some v.
Proof.
  induction d as [|[k' v'] d IH]; simpl.
  - by rewrite decide_True.
  - destruct (decide (k = k')) as [->|Hne]; simpl.
    + by rewrite decide_True.
    + by rewrite decide_False.
Qed.

Lemma dict_get_set_ne k k' v d : k ≠ k' → dict_get k' (dict_set k v d) = dict_get k' d.
Proof.
  intros Hne. induction d as [|[k0 v0] d IH]; simpl.
  - by rewrite decide_False.
  - destruct (decide (k = k0)) as [->|Hne0]; simpl.
    + by rewrite !decide_False.
    + destruct (decide (k' = k0)); done.
Qed.

Lemma dict_set_same k v d : dict_get k d = Some v → dict_set k v d = d.
Proof.
  induction d as [|[k0 v0] d IH]; simpl; [done|].
  destruct (decide (k = k0)) as [->|Hne].
  - by intros [= ->].
  - intros Hget. by rewrite IH.
Qed.

Lemma dict_keys_set_mem k v d :
  dict_mem k d = true → dict_keys (dict_set k v d) = dict_keys d.
Proof.
  unfold dict_mem, dict_keys. induction d as [|[k0 v0] d IH]; simpl; [done|].
  destruct (decide (k = k0)) as [->|Hne]; simpl; [done|].
  intros Hmem. by rewrite IH.
Qed.

Lemma dict_get_Some_keys k v d : dict_get k d = Some v → k ∈ dict_keys d.
Proof.
  unfold dict_keys. induction d as [|[k0 v0] d IH]; simpl; [done|].
  destruct (decide (k = k0)) as [->|Hne]; [intros _; left|intros Hget; right; auto].
Qed.

Lemma dict_get_None_keys k d : dict_get k d = None ↔ k ∉ dict_keys d.
Proof.
  unfold dict_keys. induction d as [|[k0 v0] d IH]; simpl.
  - split; [intros _; apply not_elem_of_nil|done].
  - rewrite not_elem_of_cons. destruct (decide (k = k0)) as [->|Hne].
    + split; [done|intros [? _]; done].
    + rewrite IH. tauto.
Qed.

Lemma dict_keys_set k v d :
  dict_keys (dict_set k v d) = if dict_mem k d then dict_keys d else dict_keys d ++ [k].
Proof.
  unfold dict_mem, dict_keys. induction d as [|[k0 v0] d IH]; simpl; [done|].
  destruct (decide (k = k0)) as [->|Hne]; simpl; [done|].
  rewrite IH. by destruct (dict_get k d).
Qed.

End pydict_properties.

(** ** The repository buffers ([AggregateRepository.add]) *)

Section repository_properties.
Context {E F U M : Type} `{Countable M} `{!Aggregates E F U M}.
Local Abbreviation Agg := (AggregateModel E F M).
Local Abbreviation Repo := (@AggregateRepository E M).

(** [new_events[aggregate]] and [event_store_appends[event_model]], empty for
    a key that is not there yet. *)
Definition buffered_for (aggregate : Agg) (self : Repo) : list E :=
  default [] (snd <$> dict_get (model aggregate, pk aggregate) (_new_aggregate_events self)).

Definition appends_for (aggregate : Agg) (self : Repo) : list E :=
  default [] (dict_get (get_event_model aggregate) (_event_stores self)).

(** What happens to one instance between two commits: it records events
    (as [apply] does before it calls [add]) and it is added. *)
Inductive repository_op : Type :=
| Record_event (event : E)
| Add.

Definition repository_step (r : ref) (st : Agg * Repo) (op : repository_op) : Agg * Repo :=
  match op with
  | Record_event event =>
      (with_recorded_events (fst st) (get_recorded_events (fst st) ++ [event]), snd st)
  | Add => (fst st, add r (fst st) (snd st))
  end.

Definition repository_run (r : ref) (ops : list repository_op) (st : Agg * Repo) : Agg * Repo :=
  fold_left (repository_step r) ops st.

Lemma add_new_events (r : ref) (aggregate : Agg) (self : Repo) :
  buffered_for aggregate (add r aggregate self)
  = buffered_for aggregate self
    ++ drop (length (buffered_for aggregate self)) (get_recorded_events aggregate).
Proof.
  unfold buffered_for, add.
  destruct (dict_get (model aggregate, pk aggregate) (_new_aggregate_events self))
    as [[key_ref new_events]|] eqn:Hget; simpl; by rewrite dict_get_set_eq.
Qed.

Lemma add_event_stores (r : ref) (aggregate : Agg) (self : Repo) :
  appends_for aggregate (add r aggregate self)
  = appends_for aggregate self
    ++ drop (length (buffered_for aggregate self)) (get_recorded_events aggregate).
Proof.
  unfold appends_for, buffered_for, add.
  destruct (dict_get (model aggregate, pk aggregate) (_new_aggregate_events self))
    as [[key_ref new_events]|] eqn:Hget; simpl; by rewrite dict_get_set_eq.
Qed.

Lemma add_events (r : ref) (aggregate : Agg) (self : Repo) :
  _events (add r aggregate self)
  = _events self
    ++ drop (length (buffered_for aggregate self)) (get_recorded_events aggregate).
Proof.
  unfold buffered_for, add.
  by destruct (dict_get (model aggregate, pk aggregate) (_new_aggregate_events self))
    as [[key_ref new_events]|] eqn:Hget.
Qed.

Lemma add_nothing_new (r : ref) (aggregate : Agg) (self : Repo) :
  (length (get_recorded_events aggregate) ≤ length (buffered_for aggregate self))%nat →
  is_Some (dict_get (model aggregate, pk aggregate) (_new_aggregate_events self)) →
  is_Some (dict_get (get_event_model aggregate) (_event_stores self)) →
  _new_aggregate_events (add r aggregate self) = _new_aggregate_events self
  ∧ _event_stores (add r aggregate self) = _event_stores self
  ∧ _events (add r aggregate self) = _events self.
Proof.
  unfold buffered_for, add. intros Hlen [[key_ref new_events] Hnew] [appended Happ].
  rewrite Hnew in Hlen |- *. simpl in *. rewrite Happ. simpl.
  rewrite drop_ge by done. rewrite !app_nil_r.
  split_and!; [by apply dict_set_same|by apply dict_set_same|done].
Qed.

Lemma add_registers (r : ref) (aggregate : Agg) (self : Repo) :
  is_Some (dict_get (model aggregate, pk aggregate) (_new_aggregate_events (add r aggregate self)))
  ∧ is_Some (dict_get (get_event_model aggregate) (_event_stores (add r aggregate self))).
Proof.
  unfold add.
  destruct (default _ _) as [key_ref new_events]; simpl.
  rewrite !dict_get_set_eq. eauto.
Qed.

Lemma repository_step_pk (r : ref) (st : Agg * Repo) op :
  model (fst (repository_step r st op)) = model (fst st)
  ∧ pk (fst (repository_step r st op)) = pk (fst st).
Proof. by destruct op. Qed.

(** While an instance records and is added, the three buffers hold the same
    events: the first ones it has recorded, in order. *)
Lemma repository_run_prefix (r : ref) ops (st : Agg * Repo) :
  (∃ rest, get_recorded_events (fst st) = buffered_for (fst st) (snd st) ++ rest) →
  appends_for (fst st) (snd st) = buffered_for (fst st) (snd st) →
  _events (snd st) = buffered_for (fst st) (snd st) →
  let st' := repository_run r ops st in
  (∃ rest, get_recorded_events (fst st') = buffered_for (fst st') (snd st') ++ rest)
  ∧ appends_for (fst st') (snd st') = buffered_for (fst st') (snd st')
  ∧ _events (snd st') = buffered_for (fst st') (snd st').
Proof.
  revert st. induction ops as [|op ops IH]; intros [a repo]; simpl; [done|].
  intros [rest Hrest] Happ Hev. destruct op as [event|]; apply IH; simpl in *.
  - exists (rest ++ [event]). unfold buffered_for in *. simpl. by rewrite Hrest, (assoc_L (++)).
  - done.
  - done.
  - exists []. rewrite add_new_events, app_nil_r.
    rewrite Hrest at 2. by rewrite drop_app_length.
  - by rewrite add_event_stores, add_new_events, Happ.
  - by rewrite add_events, add_new_events, Hev.
Qed.

Lemma repository_run_recorded (r : ref) ops (st : Agg * Repo) :
  ∃ later, get_recorded_events (fst (repository_run r ops st))
           = get_recorded_events (fst st) ++ later.
Proof.
  revert st. induction ops as [|op ops IH]; intros st; simpl.
  - exists []. by rewrite app_nil_r.
  - destruct (IH (repository_step r st op)) as [later Hlater].
    unfold repository_run in *. simpl. rewrite Hlater.
    destruct op as [event|]; simpl.
    + exists ([event] ++ later). by rewrite (assoc_L (++)).
    + by exists later.
Qed.

(** C9, as the code has it. [add] appends to [new_events],
    [event_store_appends] and [all_notifications] exactly the recorded events
    of the aggregate beyond those already buffered for it; a second [add]
    with nothing new recorded leaves the three buffers as they are; and
    within a unit of work, that is starting with the empty buffers that
    [clear] leaves, however one instance records events and is added, after
    an [add] each buffer holds its recorded events once, in order. These are
    all the events the instance has ever recorded: [clear] empties the
    buffers and not the recorded events of the instance, so in a second unit
    of work the buffers start with the events of the first one again. *)
Theorem add_buffers_exactly_the_new_suffix (r : ref) (aggregate : Agg) (self : Repo) :
  let suffix := drop (length (buffered_for aggregate self)) (get_recorded_events aggregate) in
  let self' := add r aggregate self in
  (buffered_for aggregate self' = buffered_for aggregate self ++ suffix
   ∧ appends_for aggregate self' = appends_for aggregate self ++ suffix
   ∧ _events self' = _events self ++ suffix)
  ∧ (_new_aggregate_events (add r aggregate self') = _new_aggregate_events self'
     ∧ _event_stores (add r aggregate self') = _event_stores self'
     ∧ _events (add r aggregate self') = _events self')
  ∧ (∀ ops : list repository_op,
       let st := repository_run r (ops ++ [Add]) (aggregate, empty_repository) in
       buffered_for (fst st) (snd st) = get_recorded_events (fst st)
       ∧ appends_for (fst st) (snd st) = get_recorded_events (fst st)
       ∧ _events (snd st) = get_recorded_events (fst st))
  ∧ (∀ ops ops' : list repository_op,
       let st := repository_run r (ops ++ [Add]) (aggregate, empty_repository) in
       let st' := repository_run r (ops' ++ [Add]) (fst st, empty_repository) in
       ∃ later,
         buffered_for (fst st') (snd st') = _events (snd st) ++ later
         ∧ appends_for (fst st') (snd st') = _events (snd st) ++ later
         ∧ _events (snd st') = _events (snd st) ++ later).
Proof.
  assert (∀ (a : Agg) (ops : list repository_op),
            let st := repository_run r (ops ++ [Add]) (a, empty_repository) in
            buffered_for (fst st) (snd st) = get_recorded_events (fst st)
            ∧ appends_for (fst st) (snd st) = get_recorded_events (fst st)
            ∧ _events (snd st) = get_recorded_events (fst st)) as Hunit.
  { intros a ops. simpl. unfold repository_run. rewrite fold_left_app. simpl.
    pose proof (repository_run_prefix r ops (a, empty_repository)) as Hrun.
    simpl in Hrun.
    destruct Hrun as ([rest Hrest] & Happ & Hev);
      [by exists (get_recorded_events a)|done|done|].
    unfold repository_run in *.
    destruct (fold_left (repository_step r) ops _) as [a' repo]. simpl in *.
    rewrite add_event_stores, add_events, add_new_events, Happ, Hev.
    assert (drop (length (buffered_for a' repo)) (get_recorded_events a') = rest) as ->.
    { rewrite Hrest. apply drop_app_length. }
    by rewrite <- Hrest. }
  simpl. split_and!.
  - apply add_new_events.
  - apply add_event_stores.
  - apply add_events.
  - apply add_nothing_new; try apply add_registers.
    rewrite add_new_events, length_app, length_drop. lia.
  - apply add_nothing_new; try apply add_registers.
    rewrite add_new_events, length_app, length_drop. lia.
  - apply add_nothing_new; try apply add_registers.
    rewrite add_new_events, length_app, length_drop. lia.
  - intros ops. apply Hunit.
  - intros ops ops'.
    destruct (Hunit aggregate ops) as (_ & _ & Hfirst).
    destruct (Hunit (fst (repository_run r (ops ++ [Add]) (aggregate, empty_repository))) ops')
      as (Hnew & Happ & Hev).
    destruct (repository_run_recorded r (ops' ++ [Add])
                (fst (repository_run r (ops ++ [Add]) (aggregate, empty_repository)),
                 empty_repository)) as [later Hlater].
    exists later. simpl in *. rewrite Hnew, Happ, Hev, Hfirst. by rewrite Hlater.
Qed.

End repository_properties.

(** ** The unit of work ([store_aggregate_changes], [AggregateRepository.persist]) *)

Section unit_of_work_properties.
Context {E F U M : Type} `{Countable M} `{!Aggregates E F U M}.
Local Abbreviation WorldT := (@World E F M _ _).
Local Abbreviation StT := (@St E F M _ _).

(** The events handed to the bus by [dispatch_all]: all of them up to and
    including the first one a subscriber raises on. *)
Fixpoint dispatched_of (events : list E) : list E :=
  match events with
  | [] => []
  | event :: rest =>
      event :: match subscribers_handle event with
               | Some _ => []
               | None => dispatched_of rest
               end
  end.

Fixpoint dispatch_failure (events : list E) : option exn :=
  match events with
  | [] => None
  | event :: rest =>
      match subscribers_handle event with
      | Some e => Some e
      | None => dispatch_failure rest
      end
  end.

(** A piece of code leaves the trace and the repository alone, whether it
    returns or raises. *)
Definition quiet {A : Type} (c : StT A) : Prop :=
  ∀ w : WorldT, trace (snd (c w)) = trace w ∧ repository (snd (c w)) = repository w.

Lemma quiet_bind {A B : Type} (c : StT A) (k : A → StT B) :
  quiet c → (∀ a, quiet (k a)) → quiet (st_bind c k).
Proof.
  intros Hc Hk w. unfold st_bind. specialize (Hc w).
  destruct (c w) as [[a|e] w1]; simpl in *; [|done].
  destruct (Hk a w1) as [-> ->]. done.
Qed.

Lemma quiet_for_each {X : Type} (l : list X) (body : X → StT unit) :
  (∀ x, quiet (body x)) → quiet (for_each l body).
Proof.
  intros Hbody. induction l as [|x l IH]; simpl; [done|].
  apply quiet_bind; auto.
Qed.

Lemma quiet_AggregateModel_persist (r : ref) : quiet (AggregateModel_persist (U:=U) r).
Proof.
  intros w. unfold AggregateModel_persist, st_bind, deref.
  destruct (heap w !! r) as [a|]; simpl; [|done].
  by destruct (persist_instance a (aggregate_rows (db w))) as [[res a'] rows'].
Qed.

Lemma quiet_persist_changes (self : @AggregateRepository E M) :
  quiet (persist_changes (U:=U) self).
Proof.
  unfold persist_changes.
  repeat (apply quiet_bind; [|intros _]); apply quiet_for_each; intros entry.
  - apply quiet_AggregateModel_persist.
  - done.
  - by destruct (map ev_id entry.2).
Qed.

Lemma dispatch_all_spec (events : list E) (w : WorldT) :
  dispatch_all events w
  = (match dispatch_failure events with Some e => Raise e | None => Ok tt end,
     with_trace w (trace w ++ map Dispatched (dispatched_of events))).
Proof.
  unfold dispatch_all. revert w. induction events as [|event rest IH]; intros w; simpl.
  - unfold st_ret. destruct w; simpl. by rewrite app_nil_r.
  - unfold st_bind at 1. unfold dispatch at 1. unfold st_bind, st_modify. simpl.
    destruct (subscribers_handle event) as [e|]; simpl.
    + done.
    + rewrite IH. simpl. by rewrite <- (assoc_L (++)).
Qed.

Lemma dispatched_of_no_failure (events : list E) :
  dispatch_failure events = None → dispatched_of events = events.
Proof.
  induction events as [|event rest IH]; simpl; [done|].
  destruct (subscribers_handle event); [done|]. intros Hnone. by rewrite IH.
Qed.

Lemma store_aggregate_changes_unfold {R : Type} (f : StT R) (w : WorldT) :
  store_aggregate_changes (U:=U) f w
  = match f w with
    | (Raise e, w1) =>
        (Raise e,
         with_trace (with_db (with_repository w1 empty_repository) (db w))
           (trace w1 ++ [RolledBack]))
    | (Ok response, w1) =>
        match persist_changes (U:=U) (repository w1) w1 with
        | (Raise e, w2) =>
            (Raise e,
             with_trace (with_db (with_repository w2 empty_repository) (db w))
               (trace w2 ++ [RolledBack]))
        | (Ok _, w2) =>
            let w3 := with_trace w2
                        (trace w2 ++ map Dispatched (dispatched_of (_events (repository w1)))) in
            match dispatch_failure (_events (repository w1)) with
            | Some e =>
                (Raise e,
                 with_trace (with_db (with_repository w3 empty_repository) (db w))
                   (trace w3 ++ [RolledBack]))
            | None =>
                (Ok response,
                 with_trace (with_repository w3 empty_repository) (trace w3 ++ [Committed]))
            end
        end
    end.
Proof.
  unfold store_aggregate_changes, atomic, try_except_reraise, persist, clear, st_bind, st_get,
    st_modify, st_ret.
  destruct (f w) as [[response|e] w1]; [|done].
  destruct (persist_changes (repository w1) w1) as [[[]|e] w2]; [|done].
  rewrite dispatch_all_spec.
  by destruct (dispatch_failure (_events (repository w1))).
Qed.

(** C2, as the code has it. The notifications are dispatched inside the
    transaction, after steps 1 to 3 and before the commit. When the body or
    one of steps 1 to 3 raises, no row changes and [persist] dispatches
    nothing; when a subscriber raises in step 4, no row changes either, but
    the notifications up to and including the failing one have been
    dispatched. *)
Theorem notifications_are_dispatched_before_the_commit {R : Type} (f : StT R) (w : WorldT) :
  let out := store_aggregate_changes (U:=U) f w in
  match f w with
  | (Raise e, w1) =>
      fst out = Raise e ∧ db (snd out) = db w
      ∧ trace (snd out) = trace w1 ++ [RolledBack]
  | (Ok response, w1) =>
      match persist_changes (U:=U) (repository w1) w1 with
      | (Raise e, w2) =>
          fst out = Raise e ∧ db (snd out) = db w
          ∧ trace (snd out) = trace w1 ++ [RolledBack]
      | (Ok _, w2) =>
          match dispatch_failure (_events (repository w1)) with
          | Some e =>
              fst out = Raise e ∧ db (snd out) = db w
              ∧ trace (snd out)
                = trace w1 ++ map Dispatched (dispatched_of (_events (repository w1)))
                  ++ [RolledBack]
          | None =>
              fst out = Ok response ∧ db (snd out) = db w2
              ∧ trace (snd out)
                = trace w1 ++ map Dispatched (_events (repository w1)) ++ [Committed]
          end
      end
  end.
Proof.
  cbv zeta. rewrite store_aggregate_changes_unfold.
  destruct (f w) as [[response|e] w1]; [|done].
  pose proof (quiet_persist_changes (repository w1) w1) as [Htrace Hrepo].
  destruct (persist_changes (repository w1) w1) as [[[]|e] w2]; simpl in *.
  - destruct (dispatch_failure (_events (repository w1))) as [e|] eqn:Hfail; simpl.
    + rewrite Htrace. by rewrite <- (assoc_L (++)).
    + rewrite Htrace, (dispatched_of_no_failure _ Hfail). by rewrite <- (assoc_L (++)).
  - by rewrite Htrace.
Qed.

End unit_of_work_properties.

(** ** Event store queries *)

Section query_properties.
Context {E F U M : Type} `{Countable M} `{!Aggregates E F U M}.
Local Abbreviation EvRow := (AggregateEventModel E M).

Lemma insert_sorted_Permutation (leb : EvRow → EvRow → bool) (r : EvRow) (l : list EvRow) :
  insert_sorted leb r l ≡ₚ r :: l.
Proof.
  induction l as [|r' l IH]; simpl; [done|].
  destruct (leb r r'); [done|]. rewrite IH. apply Permutation_swap.
Qed.

Lemma order_by_Permutation (leb : EvRow → EvRow → bool) (l : list EvRow) :
  order_by leb l ≡ₚ l.
Proof.
  unfold order_by. induction l as [|r l IH]; simpl; [done|].
  by rewrite insert_sorted_Permutation, IH.
Qed.

Lemma elem_of_List_filter {X : Type} (p : X → bool) (l : list X) (x : X) :
  x ∈ List.filter p l ↔ x ∈ l ∧ p x = true.
Proof. rewrite !list_elem_of_In. apply filter_In. Qed.

Lemma elem_of_objects_filter (event_store : M) (p : EvRow → bool) (rows : list EvRow) (r : EvRow) :
  r ∈ objects_filter event_store p rows ↔ r ∈ rows ∧ ev_model r = event_store ∧ p r = true.
Proof.
  unfold objects_filter. rewrite order_by_Permutation, elem_of_List_filter.
  rewrite andb_true_iff, bool_decide_eq_true. tauto.
Qed.

Lemma sequence_number__lte_true (r : EvRow) (s : string) :
  sequence_number__lte r s = true ↔ ∃ x, sequence_number r = Some x ∧ String.leb x s = true.
Proof.
  unfold sequence_number__lte. destruct (sequence_number r) as [x|].
  - split; [eauto|]. by intros (y & [= <-] & Hy).
  - split; [done|]. by intros (y & [=] & _).
Qed.

Lemma objects_filter_ext (event_store : M) (p q : EvRow → bool) (rows : list EvRow) :
  (∀ r, p r = q r) → objects_filter event_store p rows = objects_filter event_store q rows.
Proof.
  intros Hpq. unfold objects_filter. f_equal. apply filter_ext. intros r. by rewrite Hpq.
Qed.

End query_properties.

(** ** Chunks ([lib/iter.py]) *)

Section chunk_properties.
Context {T : Type}.

Lemma chunk_from_concat (size : nat) (generator lst : list T) :
  concat (chunk_from size generator lst) = lst ++ generator.
Proof.
  revert lst. induction generator as [|item rest IH]; intros lst; simpl.
  - destruct lst; simpl; by rewrite ?app_nil_r.
  - destruct (length (lst ++ [item]) =? size)%nat; simpl; rewrite IH; simpl;
      by rewrite <- (assoc_L (++)).
Qed.

Lemma chunk_from_nonempty (size : nat) (generator lst : list T) :
  Forall (fun c => c ≠ []) (chunk_from size generator lst).
Proof.
  revert lst. induction generator as [|item rest IH]; intros lst; simpl.
  - destruct lst; [apply Forall_nil_2|]. by apply Forall_singleton.
  - destruct (length (lst ++ [item]) =? size)%nat; [|apply IH].
    apply Forall_cons. split; [|apply IH]. by destruct lst.
Qed.

Lemma chunk_from_lengths (size : nat) (generator lst : list T) :
  (length lst < size)%nat →
  ∀ i c, chunk_from size generator lst !! i = Some c →
         (length c ≤ size)%nat
         ∧ ((S i < length (chunk_from size generator lst))%nat → length c = size).
Proof.
  revert lst. induction generator as [|item rest IH]; intros lst Hlst i c; simpl.
  - destruct lst as [|x lst]; [done|]. destruct i; [|done]. intros [= <-]. simpl in *. split; lia.
  - destruct (length (lst ++ [item]) =? size)%nat eqn:Hfull.
    + apply Nat.eqb_eq in Hfull. destruct i as [|i]; simpl.
      * intros [= <-]. split; lia.
      * intros Hc. destruct (IH [] ltac:(simpl; lia) i c Hc) as [Hle Heq]. split; [done|]. lia.
    + apply Nat.eqb_neq in Hfull. apply IH. rewrite length_app in *. simpl in *. lia.
Qed.

Lemma chunk_from_count (size : nat) (generator lst : list T) :
  (0 < size)%nat → (length lst < size)%nat →
  length (chunk_from size generator lst)
  = ((length lst + length generator + size - 1) / size)%nat.
Proof.
  intros Hsize. revert lst.
  induction generator as [|item rest IH]; intros lst Hlst; cbn [chunk_from].
  - destruct lst as [|x lst]; cbn [length] in *.
    + symmetry. apply Nat.div_small. lia.
    + replace (S (length lst) + 0 + size - 1)%nat with (length lst + 1 * size)%nat by lia.
      rewrite Nat.div_add by lia. by rewrite Nat.div_small by lia.
  - destruct (length (lst ++ [item]) =? size)%nat eqn:Hfull.
    + apply Nat.eqb_eq in Hfull. rewrite length_app in Hfull. cbn [length] in *.
      rewrite IH by (cbn [length]; lia). cbn [length].
      replace (length lst + S (length rest) + size - 1)%nat
        with (0 + length rest + size - 1 + 1 * size)%nat by lia.
      rewrite Nat.div_add by lia. lia.
    + apply Nat.eqb_neq in Hfull. rewrite length_app in Hfull. cbn [length] in *.
      rewrite IH by (rewrite length_app; cbn [length]; lia).
      rewrite length_app. cbn [length]. f_equal. lia.
Qed.

(** X1. Whatever the size, the chunks of [chunk] are not empty and their
    concatenation is the input; for a size of at least 1 no chunk is longer
    than the size, every chunk but the last has exactly that length, and there
    are ⌈n / size⌉ chunks. *)
Theorem chunk_splits_the_input_into_full_chunks (generator : list T) (size : nat) :
  concat (chunk generator size) = generator
  ∧ Forall (fun c => c ≠ []) (chunk generator size)
  ∧ ((0 < size)%nat →
     (∀ i c, chunk generator size !! i = Some c →
             (length c ≤ size)%nat
             ∧ ((S i < length (chunk generator size))%nat → length c = size))
     ∧ length (chunk generator size) = ((length generator + size - 1) / size)%nat).
Proof.
  unfold chunk. split_and!.
  - apply chunk_from_concat.
  - apply chunk_from_nonempty.
  - intros Hsize. split.
    + by apply chunk_from_lengths.
    + by rewrite chunk_from_count.
Qed.

Lemma chunk_from_size_0 (generator lst : list T) :
  lst ++ generator ≠ [] → chunk_from 0 generator lst = [lst ++ generator].
Proof.
  revert lst. induction generator as [|item rest IH]; intros lst; simpl.
  - rewrite app_nil_r. by destruct lst.
  - intros _. rewrite length_app. simpl.
    replace (length lst + 1 =? 0)%nat with false by (symmetry; apply Nat.eqb_neq; lia).
    rewrite IH, <- (assoc_L (++)); [done|]. by destruct lst.
Qed.

(** X2. With a size of 0 the list never reaches the size it is compared with:
    [chunk] yields the whole input as one chunk, and nothing for an empty
    input. *)
Theorem chunk_of_size_0_is_one_chunk (generator : list T) :
  chunk generator 0 = match generator with [] => [] | _ => [generator] end.
Proof.
  unfold chunk. destruct generator as [|item rest]; [done|].
  by rewrite chunk_from_size_0.
Qed.

End chunk_properties.

(** ** Cursor pagination ([lib/db/iterators/cursor.py]) *)

Section cursor_properties.
Context {T K1 K2 : Type} `{EqDecision K1} `{EqDecision K2}.
Variable lt1 : K1 → K1 → bool.
Variable lt2 : K2 → K2 → bool.

(** A strict total order, as the comparison of a database column is. *)
Record strict_total {K : Type} (lt : K → K → bool) : Prop := {
  strict_irreflexive : ∀ a, lt a a = false;
  strict_transitive : ∀ a b c, lt a b = true → lt b c = true → lt a c = true;
  strict_connected : ∀ a b, a ≠ b → lt a b = true ∨ lt b a = true
}.

Variable primary : CursorKey T K1.
Variable tiebreaker : option (CursorKey T K2).
Hypothesis lt1_strict_total : strict_total lt1.
Hypothesis lt2_strict_total : strict_total lt2.

Local Abbreviation next := (cursor_next lt1 lt2 primary tiebreaker).
Local Abbreviation precedes := (cursor_precedes lt1 lt2 primary tiebreaker).

Lemma strict_asymmetric {K : Type} (lt : K → K → bool) (a b : K) :
  strict_total lt → lt a b = true → lt b a = false.
Proof.
  intros Hlt Hab. destruct (lt b a) eqn:Hba; [|done].
  by rewrite <- (strict_irreflexive lt Hlt a), (strict_transitive lt Hlt a b a).
Qed.

Lemma beyond_strict_total {K : Type} (lt : K → K → bool) (key : CursorKey T K) :
  strict_total lt →
  (∀ x, beyond lt key x x = false)
  ∧ (∀ x y z, beyond lt key x y = true → beyond lt key y z = true → beyond lt key x z = true)
  ∧ (∀ x y, lookup key x ≠ lookup key y → beyond lt key x y = true ∨ beyond lt key y x = true)
  ∧ (∀ x y, beyond lt key x y = true → beyond lt key y x = false)
  ∧ (∀ x y, lookup key x = lookup key y → beyond lt key x y = false).
Proof.
  intros Hlt. unfold beyond. destruct (descending key); split_and!.
  - intros x. apply (strict_irreflexive lt Hlt).
  - intros x y z Hxy Hyz. by apply (strict_transitive lt Hlt _ (lookup key y)).
  - intros x y Hne. destruct (strict_connected lt Hlt _ _ Hne); auto.
  - intros x y. by apply strict_asymmetric.
  - intros x y ->. apply (strict_irreflexive lt Hlt).
  - intros x. apply (strict_irreflexive lt Hlt).
  - intros x y z Hxy Hyz. by apply (strict_transitive lt Hlt _ (lookup key y)).
  - intros x y Hne. destruct (strict_connected lt Hlt _ _ Hne); auto.
  - intros x y. by apply strict_asymmetric.
  - intros x y ->. apply (strict_irreflexive lt Hlt).
Qed.

(** The key that has to be unique: the primary key, with the tiebreaker when
    there is one. *)
Definition same_cursor_key (x y : T) : Prop :=
  lookup primary x = lookup primary y
  ∧ match tiebreaker with
    | Some tiebreaker => lookup tiebreaker x = lookup tiebreaker y
    | None => True
    end.

Lemma next_irreflexive (x y : T) : same_cursor_key x y → next x y = false.
Proof.
  destruct (beyond_strict_total lt1 primary lt1_strict_total) as (_ & _ & _ & _ & Heq1).
  unfold same_cursor_key, cursor_next. intros [Hp Ht]. rewrite (Heq1 _ _ Hp).
  destruct tiebreaker as [tb|]; [|done].
  destruct (beyond_strict_total lt2 tb lt2_strict_total) as (_ & _ & _ & _ & Heq2).
  by rewrite (Heq2 _ _ Ht), andb_false_r.
Qed.

Lemma next_transitive (x y z : T) : next x y = true → next y z = true → next x z = true.
Proof.
  destruct (beyond_strict_total lt1 primary lt1_strict_total) as (_ & Htrans1 & _ & _ & _).
  unfold cursor_next. destruct tiebreaker as [tb|]; [|apply Htrans1].
  destruct (beyond_strict_total lt2 tb lt2_strict_total) as (_ & Htrans2 & _ & _ & _).
  rewrite !orb_true_iff, !andb_true_iff, !bool_decide_eq_true.
  intros [Hxy|[Hxy Hxy']] [Hyz|[Hyz Hyz']].
  - left. by eapply Htrans1.
  - left. unfold beyond in *. by rewrite Hyz.
  - left. unfold beyond in *. by rewrite <- Hxy.
  - right. split; [congruence|]. by eapply Htrans2.
Qed.

Lemma next_connected (x y : T) : ¬ same_cursor_key x y → next x y = true ∨ next y x = true.
Proof.
  destruct (beyond_strict_total lt1 primary lt1_strict_total) as (_ & _ & Hconn1 & _ & _).
  unfold same_cursor_key, cursor_next. intros Hne.
  destruct (decide (lookup primary x = lookup primary y)) as [Hp|Hp].
  - destruct tiebreaker as [tb|]; [|by destruct Hne].
    destruct (beyond_strict_total lt2 tb lt2_strict_total) as (_ & _ & Hconn2 & _ & _).
    destruct (Hconn2 x y) as [Hxy|Hyx]; [by intros ?; apply Hne|..].
    + left. by rewrite Hxy, bool_decide_eq_true_2, orb_true_r.
    + right. by rewrite Hyx, bool_decide_eq_true_2, orb_true_r.
  - destruct (Hconn1 x y Hp) as [Hxy|Hyx]; [left|right];
      destruct tiebreaker; by rewrite ?Hxy, ?Hyx.
Qed.

Lemma next_asymmetric (x y : T) : next x y = true → next y x = false.
Proof.
  intros Hxy. destruct (next y x) eqn:Hyx; [|done].
  rewrite <- (next_irreflexive x x); [|by split; [|destruct tiebreaker]].
  by rewrite (next_transitive x y x).
Qed.

(** The order of [order_by] is the order of the filter. *)
Lemma precedes_next (x y : T) : precedes x y = negb (next y x).
Proof.
  destruct (beyond_strict_total lt1 primary lt1_strict_total)
    as (_ & _ & Hconn1 & Hasym1 & Heq1).
  unfold cursor_precedes, cursor_next.
  destruct (beyond lt1 primary x y) eqn:Hxy.
  - rewrite (Hasym1 _ _ Hxy). destruct tiebreaker as [tb|]; [|done]. simpl.
    rewrite bool_decide_eq_false_2; [done|]. intros Heq. by rewrite (Heq1 _ _ Heq) in Hxy.
  - destruct (beyond lt1 primary y x) eqn:Hyx; [by destruct tiebreaker|].
    destruct tiebreaker as [tb|]; [|done]. simpl.
    rewrite bool_decide_eq_true_2; [done|].
    destruct (decide (lookup primary x = lookup primary y)) as [|Hne]; [done|].
    destruct (Hconn1 x y Hne); congruence.
Qed.

Lemma next_same_key (x y z : T) : same_cursor_key x y → next x z = next y z.
Proof.
  unfold same_cursor_key, cursor_next, beyond. intros [-> Ht].
  destruct tiebreaker as [tb|]; [|done]. by rewrite Ht.
Qed.

#[local] Instance same_cursor_key_dec (x y : T) : Decision (same_cursor_key x y).
Proof. unfold same_cursor_key. destruct tiebreaker; apply _. Defined.

#[local] Instance precedes_total : Total (fun x y : T => Is_true (precedes x y)).
Proof.
  intros x y. rewrite !precedes_next. destruct (next y x) eqn:Hyx; [|by left].
  right. by rewrite (next_asymmetric _ _ Hyx).
Qed.

#[local] Instance precedes_transitive : Transitive (fun x y : T => Is_true (precedes x y)).
Proof.
  intros x y z. rewrite !precedes_next.
  destruct (next y x) eqn:Hyx; [done|]. destruct (next z y) eqn:Hzy; [done|].
  destruct (next z x) eqn:Hzx; [|done]. intros _ _.
  destruct (decide (same_cursor_key z y)) as [Hsame|Hdiff].
  - by rewrite (next_same_key _ _ _ Hsame), Hyx in Hzx.
  - destruct (next_connected z y Hdiff) as [?|Hyz]; [congruence|].
    by rewrite (next_transitive y z x) in Hyx.
Qed.

(** The rows of [qset] differ in the key. *)
Definition unique_cursor_key (qset : list T) : Prop :=
  ∀ i j x y, qset !! i = Some x → qset !! j = Some y → same_cursor_key x y → i = j.

Lemma unique_cursor_key_Permutation (l1 l2 : list T) :
  l1 ≡ₚ l2 → unique_cursor_key l1 → unique_cursor_key l2.
Proof.
  intros Hperm Hunique. symmetry in Hperm.
  apply Permutation_inj in Hperm as (_ & f & Hinj & Hf).
  intros i j x y Hi Hj Hsame. rewrite Hf in Hi, Hj. apply Hinj. by eapply Hunique.
Qed.

Lemma unique_cursor_key_cons (x : T) (l : list T) :
  unique_cursor_key (x :: l) →
  unique_cursor_key l ∧ ∀ y, y ∈ l → ¬ same_cursor_key x y.
Proof.
  intros Hunique. split.
  - intros i j a b Hi Hj Hsame. by injection (Hunique (S i) (S j) a b Hi Hj Hsame).
  - intros y Hy Hsame. apply list_elem_of_lookup in Hy as [j Hj].
    by specialize (Hunique 0%nat (S j) x y eq_refl Hj Hsame).
Qed.

Lemma filter_all {X : Type} (p : X → bool) (l : list X) :
  Forall (fun x => p x = true) l → List.filter p l = l.
Proof. induction 1 as [|x l Hx _ IH]; simpl; [done|]. by rewrite Hx, IH. Qed.

Lemma filter_Permutation {X : Type} (p : X → bool) (l1 l2 : list X) :
  l1 ≡ₚ l2 → List.filter p l1 ≡ₚ List.filter p l2.
Proof.
  induction 1 as [|x l1 l2 _ IH|x y l|l1 l2 l3 _ IH1 _ IH2]; simpl.
  - done.
  - destruct (p x); by rewrite IH.
  - destruct (p x), (p y); try done. apply Permutation_swap.
  - by rewrite IH1.
Qed.

(** In the ordered rows, the rows after a row are the rows its filter keeps. *)
Lemma filter_next_drop (s : list T) (i : nat) (last_used : T) :
  StronglySorted (fun x y => Is_true (precedes x y)) s → unique_cursor_key s →
  s !! i = Some last_used →
  List.filter (next last_used) s = drop (S i) s.
Proof.
  intros Hsorted. revert i. induction Hsorted as [|a s Hsorted IH Ha]; intros i Hunique; [done|].
  apply unique_cursor_key_cons in Hunique as [Hunique Hfresh].
  destruct i as [|i]; simpl.
  - intros [= <-]. rewrite next_irreflexive by (by split; [|destruct tiebreaker]).
    apply filter_all. rewrite Forall_forall in Ha |- *. intros x Hx.
    specialize (Ha x Hx). rewrite precedes_next in Ha.
    destruct (next_connected a x (Hfresh x Hx)) as [?|Hxa]; [done|]. by rewrite Hxa in Ha.
  - intros Hlast. rewrite Forall_forall in Ha.
    specialize (Ha last_used (list_elem_of_lookup_2 _ _ _ Hlast)).
    rewrite precedes_next in Ha. destruct (next last_used a); [done|]. by apply IH.
Qed.

Section pages.
Variable qset : list T.
Hypothesis qset_unique : unique_cursor_key qset.

Local Abbreviation ordered := (cursor_order_by lt1 lt2 primary tiebreaker qset).

Lemma ordered_sorted : StronglySorted (fun x y => Is_true (precedes x y)) ordered.
Proof. apply StronglySorted_merge_sort; apply _. Qed.

Lemma ordered_Permutation : ordered ≡ₚ qset.
Proof. apply merge_sort_Permutation. Qed.

Lemma next_page (i : nat) (last_used : T) :
  ordered !! i = Some last_used →
  cursor_order_by lt1 lt2 primary tiebreaker (List.filter (next last_used) qset)
  = drop (S i) ordered.
Proof.
  intros Hlast.
  assert (unique_cursor_key ordered) as Hunique.
  { eapply unique_cursor_key_Permutation; [|done]. symmetry. apply ordered_Permutation. }
  apply (StronglySorted_unique_strong (fun x y => Is_true (precedes x y))).
  - intros x y Hx Hy Hxy Hyx. rewrite precedes_next in Hxy, Hyx.
    apply list_elem_of_lookup in Hy as [j Hj]. rewrite lookup_drop in Hj.
    unfold cursor_order_by in Hx. rewrite merge_sort_Permutation in Hx.
    apply elem_of_List_filter in Hx as [Hx _]. rewrite <- ordered_Permutation in Hx.
    apply list_elem_of_lookup in Hx as [k Hk].
    destruct (decide (same_cursor_key x y)) as [Hsame|Hdiff].
    + assert (k = (S i + j)%nat) as -> by (by eapply Hunique). congruence.
    + destruct (next_connected x y Hdiff) as [H1|H1]; by rewrite H1 in *.
  - apply StronglySorted_merge_sort; apply _.
  - pose proof ordered_sorted as Hsorted. rewrite <- (take_drop (S i) ordered) in Hsorted.
    by apply StronglySorted_app_1_r in Hsorted.
  - unfold cursor_order_by at 1. rewrite merge_sort_Permutation.
    rewrite <- (filter_next_drop ordered i last_used ordered_sorted Hunique Hlast).
    apply filter_Permutation. symmetry. apply ordered_Permutation.
Qed.

(** The loop from any page on: with a size of at least 1 it yields the rest
    of the ordered rows. *)
Lemma cursor_pages_rest (size fuel j : nat) :
  (0 < size)%nat → (length ordered ≤ j + fuel)%nat →
  cursor_pages lt1 lt2 fuel primary tiebreaker size qset (take (S size) (drop j ordered))
  = Some (drop (j + size) ordered, StopIteration).
Proof.
  intros Hsize. revert j. induction fuel as [|fuel IH]; intros j Hfuel; simpl.
  - rewrite length_take, length_drop.
    replace (S size `min` (length ordered - j) <=? size)%nat with true
      by (symmetry; apply Nat.leb_le; lia).
    by rewrite drop_ge by lia.
  - rewrite length_take, length_drop.
    destruct (S size `min` (length ordered - j) <=? size)%nat eqn:Hlen.
    { apply Nat.leb_le in Hlen. by rewrite drop_ge by lia. }
    apply Nat.leb_gt in Hlen.
    unfold cursor_last_used. rewrite length_take, length_drop.
    replace (S size `min` (length ordered - j) <? 2)%nat with false
      by (symmetry; apply Nat.ltb_ge; lia).
    replace (S size `min` (length ordered - j) - 2)%nat with (size - 1)%nat by lia.
    rewrite lookup_take_lt by lia. rewrite lookup_drop.
    destruct (ordered !! (j + (size - 1))%nat) as [last_used|] eqn:Hlast.
    2: { apply lookup_ge_None in Hlast. lia. }
    rewrite (next_page _ _ Hlast).
    replace (S (j + (size - 1))) with (j + size)%nat by lia.
    rewrite IH by lia. f_equal. f_equal.
    rewrite take_take, Nat.min_l by lia.
    rewrite <- (drop_drop ordered size (j + size)). apply take_drop.
Qed.

Lemma cursor_ordered (size : nat) :
  (0 < size)%nat →
  cursor lt1 lt2 qset primary tiebreaker size = Some (ordered, StopIteration).
Proof.
  intros Hsize. unfold cursor. cbv zeta.
  pose proof (cursor_pages_rest size (length qset) 0 Hsize) as Hrest.
  rewrite drop_0 in Hrest. rewrite Hrest by (rewrite ordered_Permutation; lia).
  rewrite take_take, Nat.min_l by lia. cbn [Nat.add]. by rewrite take_drop.
Qed.

End pages.

(** The key of a row: the primary key, with the tiebreaker when there is
    one. *)
Definition cursor_key (x : T) : K1 * option K2 :=
  (lookup primary x, (fun tiebreaker => lookup tiebreaker x) <$> tiebreaker).

Lemma NoDup_cursor_key (qset : list T) :
  NoDup (map cursor_key qset) → unique_cursor_key qset.
Proof.
  intros Hnodup i j x y Hi Hj [Hp Ht].
  apply (NoDup_lookup (map cursor_key qset) i j (cursor_key x)); [done|..].
  - by rewrite list_lookup_fmap, Hi.
  - rewrite list_lookup_fmap, Hj. simpl. f_equal. unfold cursor_key. rewrite Hp.
    destruct tiebreaker; simpl; by rewrite ?Ht.
Qed.

(** X3. On rows that differ in the key (the primary key, with the tiebreaker
    when there is one), and with a page size of at least 1, [cursor] yields
    what the ordered queryset holds, every row once and in order, and
    returns. *)
Theorem cursor_yields_the_ordered_queryset (qset : list T) (size : nat) :
  NoDup (map cursor_key qset) → (0 < size)%nat →
  ∃ yielded,
    cursor lt1 lt2 qset primary tiebreaker size = Some (yielded, StopIteration)
    ∧ yielded = cursor_order_by lt1 lt2 primary tiebreaker qset
    ∧ yielded ≡ₚ qset
    ∧ StronglySorted (fun x y => next y x = false) yielded.
Proof.
  intros Hnodup Hsize. apply NoDup_cursor_key in Hnodup.
  exists (cursor_order_by lt1 lt2 primary tiebreaker qset). split_and!.
  - by apply cursor_ordered.
  - done.
  - apply merge_sort_Permutation.
  - pose proof (ordered_sorted qset) as Hsorted.
    induction Hsorted as [|x l _ IH Hx]; constructor; [done|].
    eapply Forall_impl; [exact Hx|]. intros y Hy. cbv beta in Hy.
    rewrite precedes_next in Hy. by destruct (next y x).
Qed.

End cursor_properties.

(** X4. With a page size of 0 [cursor] yields nothing: on an empty queryset
    it returns, on any other one [results[-2]] raises [IndexError] in the
    first iteration. *)
Theorem cursor_of_size_0_yields_nothing {T K1 K2 : Type} `{EqDecision K1}
    (lt1 : K1 → K1 → bool) (lt2 : K2 → K2 → bool) (qset : list T)
    (primary : CursorKey T K1) (tiebreaker : option (CursorKey T K2)) :
  cursor lt1 lt2 qset primary tiebreaker 0
  = Some ([], match qset with [] => StopIteration | _ => IndexError end).
Proof.
  unfold cursor. cbv zeta.
  assert (length (cursor_order_by lt1 lt2 primary tiebreaker qset) = length qset) as Hlength.
  { unfold cursor_order_by. by rewrite merge_sort_Permutation. }
  destruct (cursor_order_by lt1 lt2 primary tiebreaker qset) as [|x ordered];
    destruct qset as [|y qset]; done.
Qed.

(** *** The cursor of [rebuild_aggregates], as a cursor *)

Lemma String_compare_refl (a : string) : (a ?= a)%string = Eq.
Proof. exact (proj2 (OrderedTypeEx.String_as_OT.cmp_eq a a) eq_refl). Qed.

Lemma String_compare_trans (a b c : string) :
  (a ?= b)%string = Lt → (b ?= c)%string = Lt → (a ?= c)%string = Lt.
Proof.
  intros Hab Hbc.
  apply (proj2 (OrderedTypeEx.String_as_OT.cmp_lt a c)).
  apply (OrderedTypeEx.String_as_OT.lt_trans a b c).
  - exact (proj1 (OrderedTypeEx.String_as_OT.cmp_lt a b) Hab).
  - exact (proj1 (OrderedTypeEx.String_as_OT.cmp_lt b c) Hbc).
Qed.

Lemma String_ltb_strict_total : strict_total String.ltb.
Proof.
  split.
  - intros a. unfold String.ltb. by rewrite String_compare_refl.
  - intros a b c. unfold String.ltb.
    destruct (a ?= b)%string eqn:Hab; try done.
    destruct (b ?= c)%string eqn:Hbc; try done. intros _ _.
    by rewrite (String_compare_trans a b c).
  - intros a b Hne. unfold String.ltb. rewrite (String.compare_antisym a b).
    destruct (b ?= a)%string eqn:Hba; simpl; auto.
    apply String.compare_eq_iff in Hba. by destruct Hne.
Qed.

Lemma Sorted_weaken {A : Type} (R1 R2 : relation A) (l : list A) :
  (∀ x y, R1 x y → R2 x y) → Sorted R1 l → Sorted R2 l.
Proof.
  intros Himpl. induction 1 as [|x l _ IH Hhd]; constructor; [done|].
  destruct Hhd; constructor; auto.
Qed.

Lemma unit_strict_total : strict_total (fun _ _ : unit => false).
Proof. split; try done. by intros [] []. Qed.

Section rebuild_cursor.
Context {F M : Type} `{Countable M}.

Local Abbreviation pk_precedes :=
  (fun x y : string * Z =>
     Is_true (cursor_precedes String.ltb (fun _ _ : unit => false) pk_key None x y)).

Lemma pk_precedes_leb (x y : string * Z) : pk_precedes x y ↔ String.leb (fst x) (fst y) = true.
Proof.
  cbv beta. rewrite (precedes_next String.ltb (fun _ _ : unit => false) pk_key None
             String_ltb_strict_total).
  unfold cursor_next, beyond, String.leb, String.ltb. simpl.
  rewrite (String.compare_antisym (fst x) (fst y)).
  by destruct (fst y ?= fst x)%string.
Qed.

Lemma insert_pk_Permutation (x : string * Z) (l : list (string * Z)) : insert_pk x l ≡ₚ x :: l.
Proof.
  induction l as [|y l IH]; simpl; [done|].
  destruct (String.leb (fst x) (fst y)); [done|]. rewrite IH. apply Permutation_swap.
Qed.

Lemma insert_pk_Sorted (x : string * Z) (l : list (string * Z)) :
  Sorted pk_precedes l → Sorted pk_precedes (insert_pk x l).
Proof.
  induction 1 as [|y l Hsorted IH Hy]; simpl.
  - by repeat constructor.
  - destruct (String.leb (fst x) (fst y)) eqn:Hxy.
    + constructor; [by constructor|]. constructor. by apply pk_precedes_leb.
    + constructor; [done|].
      assert (pk_precedes y x) as Hyx.
      { apply pk_precedes_leb. by destruct (String.leb_total (fst x) (fst y)) as [?|?]; [congruence|]. }
      destruct l as [|z l]; simpl in *; [by constructor|].
      destruct (String.leb (fst x) (fst z)); constructor; [done|by inversion Hy].
Qed.

Lemma foldr_insert_pk_Permutation (l : list (string * Z)) : foldr insert_pk [] l ≡ₚ l.
Proof. induction l as [|x l IH]; simpl; [done|]. by rewrite insert_pk_Permutation, IH. Qed.

Lemma foldr_insert_pk_Sorted (l : list (string * Z)) : Sorted pk_precedes (foldr insert_pk [] l).
Proof. induction l as [|x l IH]; simpl; [constructor|]. by apply insert_pk_Sorted. Qed.

Lemma all_instances_unique (model_class : M) (model_id : option string)
    (rows : gmap (M * string) (StoredAggregate F)) :
  NoDup (map fst (all_instances model_class model_id rows)).
Proof.
  unfold all_instances.
  pose proof (NoDup_fst_map_to_list rows) as Hnodup.
  induction (map_to_list rows) as [|[[m k] row] l IH]; simpl; [apply NoDup_nil_2|].
  apply NoDup_cons in Hnodup as [Hfresh Hnodup]. specialize (IH Hnodup).
  destruct (bool_decide (m = model_class) && _) eqn:Hkeep; simpl; [|done].
  apply NoDup_cons. split; [|done]. intros Hin. apply Hfresh.
  apply andb_true_iff in Hkeep as [Hm _]. apply bool_decide_eq_true in Hm as ->.
  apply list_elem_of_fmap in Hin as ([k' version'] & -> & Hin).
  apply list_elem_of_omap in Hin as ([[m' k''] row'] & Hin & Hsome). simpl in Hsome.
  destruct (bool_decide (m' = model_class) && _) eqn:Hkeep'; [|done].
  injection Hsome as <- <-. apply andb_true_iff in Hkeep' as [Hm' _].
  apply bool_decide_eq_true in Hm' as ->.
  apply list_elem_of_fmap. by exists (model_class, k'', row').
Qed.

(** X5. On a table that does not change meanwhile, the cursor of
    [rebuild_aggregates] yields, whatever its page size (1000 in the code),
    every aggregate of the class once, in the order of the primary keys. *)
Theorem rebuild_cursor_yields_every_aggregate_once (model_class : M)
    (model_id : option string) (rows : gmap (M * string) (StoredAggregate F)) (size : nat) :
  (0 < size)%nat →
  cursor String.ltb (fun _ _ : unit => false) (all_instances model_class model_id rows)
    pk_key None size
  = Some (cursor_pk_version model_class model_id rows, StopIteration)
  ∧ cursor_pk_version model_class model_id rows ≡ₚ all_instances model_class model_id rows
  ∧ NoDup (map fst (cursor_pk_version model_class model_id rows))
  ∧ Sorted (fun x y => String.leb (fst x) (fst y) = true)
      (cursor_pk_version model_class model_id rows).
Proof.
  intros Hsize.
  change (cursor_pk_version model_class model_id rows)
    with (foldr insert_pk [] (all_instances model_class model_id rows)).
  pose proof (all_instances_unique model_class model_id rows) as Hunique.
  pose proof (foldr_insert_pk_Permutation (all_instances model_class model_id rows)) as Hperm.
  pose proof (foldr_insert_pk_Sorted (all_instances model_class model_id rows)) as Hsorted.
  split_and!; [|done|by rewrite Hperm|].
  2: { eapply Sorted_weaken; [|exact Hsorted]. intros x y. apply pk_precedes_leb. }
  rewrite (cursor_ordered String.ltb (fun _ _ : unit => false) pk_key None
             String_ltb_strict_total unit_strict_total
             (all_instances model_class model_id rows)); [|clear Hperm Hsorted|done].
  2: { apply NoDup_cursor_key. apply (NoDup_fmap_1 fst).
       rewrite <- list_fmap_compose. exact Hunique. }
  f_equal. f_equal. symmetry.
  pose proof (precedes_transitive String.ltb (fun _ _ : unit => false) pk_key None
                String_ltb_strict_total unit_strict_total) as Htrans.
  apply (Sorted_unique_strong pk_precedes); [|done| |].
  - intros x y Hx Hy Hxy Hyx. apply pk_precedes_leb in Hxy, Hyx.
    pose proof (String.leb_antisym _ _ Hxy Hyx) as Hpk.
    rewrite Hperm in Hx. unfold cursor_order_by in Hy. rewrite merge_sort_Permutation in Hy.
    apply list_elem_of_lookup in Hx as [i Hi], Hy as [j Hj].
    assert (i = j) as ->; [|congruence].
    apply (NoDup_lookup _ i j (fst x) Hunique); rewrite list_lookup_fmap.
    + by rewrite Hi.
    + by rewrite Hj, Hpk.
  - apply Sorted_merge_sort.
    apply (precedes_total String.ltb (fun _ _ : unit => false) pk_key None
             String_ltb_strict_total unit_strict_total).
  - rewrite Hperm. unfold cursor_order_by. by rewrite merge_sort_Permutation.
Qed.

End rebuild_cursor.

(** ** Temporal replay ([load_editable_aggregates_at_time_and_point]) *)

Section replay_properties.
Context {E F U M : Type} `{Countable M} `{!Aggregates E F U M}.
Local Abbreviation Agg := (AggregateModel E F M).
Local Abbreviation EvRow := (AggregateEventModel E M).
Local Abbreviation WorldT := (@World E F M _ _).
Local Abbreviation StT := (@St E F M _ _).

(** The instance the replay starts from: the caller's instance, marked for
    backdating, when it is not persisted yet, [identity()] otherwise. *)
Definition editable_seed (a : Agg) : Agg :=
  if adding a then mark_for_backdating a else identity a.

(** The instance a dictionary of references gives for a key. *)
Definition object_at (by_id : pydict string ref) (h : list Agg) (k : string) : option Agg :=
  r ← dict_get k by_id; h !! r.

Definition dict_inj (by_id : pydict string ref) : Prop :=
  ∀ k1 k2 r, dict_get k1 by_id = Some r → dict_get k2 by_id = Some r → k1 = k2.

Definition not_at (s : string) (r : EvRow) : bool :=
  negb (bool_decide (sequence_number r = Some s)).

Definition of_aggregate (k : string) (r : EvRow) : bool :=
  bool_decide (aggregate_id r = k).

Lemma object_at_insert (by_id : pydict string ref) (h : list Agg) (k k' : string) (r : ref)
    (a a' : Agg) :
  dict_inj by_id → dict_get k by_id = Some r → h !! r = Some a →
  object_at by_id (<[r := a']> h) k' = if decide (k' = k) then Some a' else object_at by_id h k'.
Proof.
  intros Hinj Hk Hr. unfold object_at. destruct (decide (k' = k)) as [->|Hne].
  - rewrite Hk. simpl. apply list_lookup_insert_eq. by eapply lookup_lt_Some.
  - destruct (dict_get k' by_id) as [r'|] eqn:Hk'; simpl; [|done].
    apply list_lookup_insert_ne. intros ->. apply Hne. by eapply Hinj.
Qed.

Lemma rebuild_or_mark_unfold (by_id : pydict string ref) (s : string) (omega : EvRow → U)
    (event : EvRow) (rebuilt : gset string) (w : WorldT) :
  rebuild_or_mark by_id s omega event rebuilt w
  = match dict_get (aggregate_id event) by_id with
    | None => (Raise (KeyError (aggregate_id event)), w)
    | Some r =>
        match heap w !! r with
        | None => (Raise TypeError, w)
        | Some a =>
            if not_at s event then
              match load a (event_data event) (omega event) with
              | Ok a' => (Ok ({[aggregate_id event]} ∪ rebuilt), with_heap w (<[r := a']> (heap w)))
              | Raise e => (Raise e, w)
              end
            else
              (Ok rebuilt,
               with_repository w (mark_aggregate_event_edited r a event (repository w)))
        end
    end.
Proof.
  unfold rebuild_or_mark, not_at, mark_edited, load_onto, st_bind, deref, st_lift, assign,
    st_modify, st_raise, st_ret.
  destruct (bool_decide (sequence_number event = Some s)); simpl;
    destruct (dict_get (aggregate_id event) by_id) as [r|]; try done;
    destruct (heap w !! r) as [a|]; try done.
  by destruct (load a (event_data event) (omega event)).
Qed.

Lemma mark_deleted_stores (r : ref) (a : Agg) (event : EvRow)
    (self : @AggregateRepository E M) (m : M) :
  default [] (dict_get m (_deleted_event_stores (mark_aggregate_event_edited r a event self)))
  = default [] (dict_get m (_deleted_event_stores self))
    ++ (if bool_decide (ev_model event = m) then [event] else []).
Proof.
  unfold mark_aggregate_event_edited. simpl. case_bool_decide as Hm.
  - subst m. by rewrite dict_get_set_eq.
  - rewrite dict_get_set_ne by done. by rewrite app_nil_r.
Qed.

Lemma rebuild_loop_spec (by_id : pydict string ref) (s : string) (omega : EvRow → U)
    (events : list EvRow) (rebuilt rebuilt' : gset string) (w w' : WorldT) :
  dict_inj by_id →
  fold_st events rebuilt (rebuild_or_mark by_id s omega) w = (Ok rebuilt', w') →
  db w' = db w
  ∧ length (heap w') = length (heap w)
  ∧ rebuilt' = list_to_set (map aggregate_id (List.filter (not_at s) events)) ∪ rebuilt
  ∧ (∀ k a, object_at by_id (heap w) k = Some a →
       ∃ a', object_at by_id (heap w') k = Some a'
             ∧ load_all omega a
                 (List.filter (fun r => of_aggregate k r && not_at s r) events) = Ok a')
  ∧ (∀ m, default [] (dict_get m (_deleted_event_stores (repository w')))
          = default [] (dict_get m (_deleted_event_stores (repository w)))
            ++ List.filter (fun r => bool_decide (ev_model r = m) && negb (not_at s r)) events).
Proof.
  intros Hinj. revert rebuilt w.
  induction events as [|event rest IH]; intros rebuilt w; simpl.
  - intros [= <- <-]. split_and!; try done.
    + simpl. by rewrite (left_id_L ∅ (∪)).
    + eauto.
    + intros m. by rewrite app_nil_r.
  - unfold st_bind at 1. rewrite rebuild_or_mark_unfold.
    destruct (dict_get (aggregate_id event) by_id) as [r|] eqn:Hr; [|done].
    destruct (heap w !! r) as [a|] eqn:Ha; [|done].
    destruct (not_at s event) eqn:Hat.
    + destruct (load a (event_data event) (omega event)) as [a1|x] eqn:Hload; [|done].
      intros Hrest. apply IH in Hrest as (Hdb & Hlen & Hrebuilt & Hobj & Hdel).
      cbn [heap with_heap db repository] in *.
      split_and!.
      * done.
      * by rewrite Hlen, length_insert.
      * rewrite Hrebuilt. simpl. rewrite (assoc_L (∪)). f_equal. apply (comm_L (∪)).
      * intros k a0 Hk.
        destruct (Hobj k (if decide (k = aggregate_id event) then a1 else a0))
          as (a' & Hfinal & Hall).
        { rewrite (object_at_insert by_id (heap w) (aggregate_id event) k r a a1) by done.
          by destruct (decide (k = aggregate_id event)). }
        exists a'. split; [done|].
        unfold of_aggregate at 1. destruct (decide (k = aggregate_id event)) as [->|Hne].
        -- rewrite bool_decide_eq_true_2 by done. simpl.
           assert (a0 = a) as ->.
           { unfold object_at in Hk. rewrite Hr in Hk. simpl in Hk. congruence. }
           by rewrite Hload.
        -- by rewrite bool_decide_eq_false_2 by done.
      * intros m. rewrite Hdel. by rewrite andb_false_r.
    + intros Hrest. apply IH in Hrest as (Hdb & Hlen & Hrebuilt & Hobj & Hdel).
      split_and!; try done.
      * intros k a0 Hk. destruct (Hobj k a0 Hk) as (a' & Hfinal & Hall).
        exists a'. split; [done|]. by rewrite andb_false_r.
      * intros m. rewrite Hdel. cbn [repository with_repository].
        rewrite mark_deleted_stores, <- (assoc_L (++)).
        by destruct (bool_decide (ev_model event = m)).
Qed.

Lemma load_initial_unfold (by_id : pydict string ref) (omega : EvRow → U) (event : EvRow)
    (w : WorldT) :
  load_initial by_id omega event w
  = match dict_get (aggregate_id event) by_id with
    | None => (Raise (KeyError (aggregate_id event)), w)
    | Some r =>
        match heap w !! r with
        | None => (Raise TypeError, w)
        | Some a =>
            match load a (event_data event) (omega event) with
            | Ok a' => (Ok tt, with_heap w (<[r := mark_for_backdating a']> (heap w)))
            | Raise e => (Raise e, w)
            end
        end
    end.
Proof.
  unfold load_initial, st_bind, deref, st_lift, assign, st_modify, st_raise.
  destruct (dict_get (aggregate_id event) by_id) as [r|]; [|done].
  destruct (heap w !! r) as [a|]; [|done].
  by destruct (load a (event_data event) (omega event)).
Qed.

Lemma filter_of_aggregate_nil (k : string) (l : list EvRow) :
  k ∉ map aggregate_id l → List.filter (of_aggregate k) l = [].
Proof.
  induction l as [|r l IH]; simpl; [done|].
  rewrite not_elem_of_cons. intros [Hne Hnot]. unfold of_aggregate at 1.
  rewrite bool_decide_eq_false_2 by done. by apply IH.
Qed.

(** The last loop: an aggregate with a row among the initial events is
    seeded with that row and marked for backdating, the others stay. *)
Lemma initial_loop_spec (by_id : pydict string ref) (omega : EvRow → U)
    (initial : list EvRow) (w w' : WorldT) :
  dict_inj by_id → NoDup (map aggregate_id initial) →
  for_each initial (load_initial by_id omega) w = (Ok tt, w') →
  db w' = db w ∧ repository w' = repository w
  ∧ (∀ k a, object_at by_id (heap w) k = Some a →
       ∃ a', object_at by_id (heap w') k = Some a'
             ∧ match List.filter (of_aggregate k) initial with
               | [] => Ok a
               | first :: _ =>
                   loaded ← load a (event_data first) (omega first);
                   Ok (mark_for_backdating loaded)
               end = Ok a').
Proof.
  intros Hinj. revert w. induction initial as [|event rest IH]; intros w Hnodup; simpl.
  - intros [= <-]. split_and!; eauto.
  - apply NoDup_cons in Hnodup as [Hfresh Hnodup].
    unfold st_bind at 1. rewrite load_initial_unfold.
    destruct (dict_get (aggregate_id event) by_id) as [r|] eqn:Hr; [|done].
    destruct (heap w !! r) as [a|] eqn:Ha; [|done].
    destruct (load a (event_data event) (omega event)) as [a1|x] eqn:Hload; [|done].
    intros Hrest. apply IH in Hrest as (Hdb & Hrepo & Hobj); [|done].
    cbn [heap with_heap db repository] in *.
    split_and!; try done.
    intros k a0 Hk.
    destruct (Hobj k (if decide (k = aggregate_id event) then mark_for_backdating a1 else a0))
      as (a' & Hfinal & Hseed).
    { rewrite (object_at_insert by_id (heap w) (aggregate_id event) k r a _) by done.
      by destruct (decide (k = aggregate_id event)). }
    exists a'. split; [done|].
    unfold of_aggregate at 1. destruct (decide (k = aggregate_id event)) as [->|Hne].
    + rewrite bool_decide_eq_true_2 by done.
      assert (a0 = a) as ->.
      { unfold object_at in Hk. rewrite Hr in Hk. simpl in Hk. congruence. }
      rewrite Hload. simpl. by rewrite filter_of_aggregate_nil in Hseed.
    + by rewrite bool_decide_eq_false_2 by done.
Qed.

Lemma distinct_aggregate_id_spec (seen : list string) (l : list EvRow) :
  NoDup (map aggregate_id (distinct_aggregate_id seen l))
  ∧ (∀ k, k ∈ seen → k ∉ map aggregate_id (distinct_aggregate_id seen l))
  ∧ (∀ k, k ∉ seen →
       List.filter (of_aggregate k) (distinct_aggregate_id seen l)
       = option_list (head (List.filter (of_aggregate k) l))).
Proof.
  revert seen. induction l as [|r l IH]; intros seen; simpl.
  - split_and!; [apply NoDup_nil_2|intros k _; apply not_elem_of_nil|done].
  - case_bool_decide as Hseen.
    + destruct (IH seen) as (Hnodup & Hnot & Hfirst). split_and!; try done.
      intros k Hk. rewrite Hfirst by done.
      destruct (of_aggregate k r) eqn:Hof; [|done].
      apply bool_decide_eq_true in Hof as <-. done.
    + destruct (IH (aggregate_id r :: seen)) as (Hnodup & Hnot & Hfirst). split_and!.
      * simpl. apply NoDup_cons. split; [|done]. apply Hnot. left.
      * intros k Hk. simpl. rewrite not_elem_of_cons. split; [by intros ->|].
        apply Hnot. by right.
      * intros k Hk. simpl. destruct (of_aggregate k r) eqn:Hof; simpl.
        -- f_equal. apply filter_of_aggregate_nil. apply Hnot.
           apply bool_decide_eq_true in Hof as <-. left.
        -- apply Hfirst. apply bool_decide_eq_false in Hof.
           rewrite not_elem_of_cons. split; [by intros ->|done].
Qed.

Lemma collect_editable_unfold (agg : ref) (acc : option M * pydict string ref) (w : WorldT) :
  collect_editable agg acc w
  = match heap w !! agg with
    | None => (Raise TypeError, w)
    | Some a =>
        let event_store :=
          match fst acc with Some m => Some m | None => Some (get_event_model a) end in
        if adding a then
          (Ok (event_store, dict_set (pk a) agg (snd acc)),
           with_heap w (<[agg := mark_for_backdating a]> (heap w)))
        else
          (Ok (event_store, dict_set (pk a) (length (heap w)) (snd acc)),
           with_heap w (heap w ++ [identity a]))
    end.
Proof.
  unfold collect_editable, st_bind, deref, assign, alloc, st_modify, st_ret, get_aggregate_id.
  destruct (heap w !! agg) as [a|]; [|done]. by destruct (adding a).
Qed.

(** The state of the first loop after the aggregates [processed], which
    were in the heap [h0] when the loop started. *)
Record collected (h0 : list Agg) (processed : list ref) (by_id : pydict string ref)
    (h : list Agg) : Prop := {
  collected_length : (length h0 ≤ length h)%nat;
  collected_untouched :
    ∀ r, r ∉ processed → (r < length h0)%nat → h !! r = h0 !! r;
  collected_seed :
    ∀ r a, r ∈ processed → h0 !! r = Some a →
           object_at by_id h (pk a) = Some (editable_seed a);
  collected_refs :
    ∀ k r', dict_get k by_id = Some r' →
            (r' < length h)%nat ∧ (r' ∈ processed ∨ (length h0 ≤ r')%nat);
  collected_keys : dict_keys by_id = omap (fun r => pk <$> h0 !! r) processed;
  collected_inj : dict_inj by_id
}.

Lemma dict_set_inj (by_id : pydict string ref) (k : string) (r : ref) :
  dict_inj by_id → (∀ k', dict_get k' by_id ≠ Some r) → dict_inj (dict_set k r by_id).
Proof.
  intros Hinj Hfresh k1 k2 r'.
  destruct (decide (k = k1)) as [<-|Hne1], (decide (k = k2)) as [<-|Hne2]; try done.
  - rewrite dict_get_set_eq, dict_get_set_ne by done. intros [= <-] Hk2. by destruct (Hfresh k2).
  - rewrite dict_get_set_eq, dict_get_set_ne by done. intros Hk1 [= <-]. by destruct (Hfresh k1).
  - rewrite !dict_get_set_ne by done. apply Hinj.
Qed.

Lemma collected_step (h0 : list Agg) (processed : list ref) (by_id : pydict string ref)
    (h : list Agg) (r : ref) (a : Agg) :
  collected h0 processed by_id h →
  h0 !! r = Some a → r ∉ processed →
  pk a ∉ omap (fun r => pk <$> h0 !! r) processed →
  collected h0 (processed ++ [r])
    (dict_set (pk a) (if adding a then r else length h) by_id)
    (if adding a then <[r := mark_for_backdating a]> h else h ++ [identity a]).
Proof.
  intros [Hlen Hsame Hseed Hrefs Hkeys Hinj] Hr Hnew Hpk.
  assert (r < length h0)%nat as Hlt by (by eapply lookup_lt_Some).
  assert (dict_get (pk a) by_id = None) as Hnone.
  { apply dict_get_None_keys. by rewrite Hkeys. }
  assert (∀ k r', dict_get k by_id = Some r' → r' ≠ r) as Hother.
  { intros k r' Hk ->. destruct (Hrefs _ _ Hk) as [_ [?|?]]; [done|lia]. }
  assert (h !! r = Some a) as Hhr by (rewrite Hsame; done).
  split.
  - destruct (adding a); [rewrite length_insert|rewrite length_app]; simpl; lia.
  - intros r2. rewrite not_elem_of_app, not_elem_of_cons. intros (Hr2 & Hne & _) Hlt2.
    destruct (adding a).
    + rewrite list_lookup_insert_ne by done. by apply Hsame.
    + rewrite lookup_app_l by lia. by apply Hsame.
  - intros r2 a2. rewrite elem_of_app, list_elem_of_singleton. intros [Hr2| ->] Ha2.
    + assert (pk a2 ≠ pk a) as Hne.
      { intros Heq. apply Hpk. rewrite <- Heq. apply list_elem_of_omap. exists r2.
        split; [done|]. by rewrite Ha2. }
      specialize (Hseed r2 a2 Hr2 Ha2). unfold object_at in *.
      rewrite dict_get_set_ne by done.
      destruct (dict_get (pk a2) by_id) as [r2'|] eqn:Hget; simpl in *; [|done].
      destruct (adding a).
      * rewrite list_lookup_insert_ne; [done|]. intros <-. by eapply Hother.
      * rewrite lookup_app_l; [done|]. by eapply lookup_lt_Some.
    + assert (a2 = a) as -> by congruence.
      unfold object_at, editable_seed. rewrite dict_get_set_eq. simpl.
      destruct (adding a).
      * apply list_lookup_insert_eq. by eapply lookup_lt_Some.
      * by rewrite list_lookup_middle.
  - intros k r'. destruct (decide (pk a = k)) as [<-|Hne].
    + rewrite dict_get_set_eq. intros [= <-]. destruct (adding a).
      * rewrite length_insert. split; [by eapply lookup_lt_Some|].
        left. rewrite elem_of_app, list_elem_of_singleton. by right.
      * rewrite length_app. simpl. split; [lia|]. by right.
    + rewrite dict_get_set_ne by done. intros Hk. destruct (Hrefs _ _ Hk) as [Hlt' Hor].
      split.
      * destruct (adding a); [rewrite length_insert|rewrite length_app]; lia.
      * destruct Hor as [?|?]; [left|by right]. rewrite elem_of_app. by left.
  - rewrite dict_keys_set. unfold dict_mem. rewrite Hnone, Hkeys, omap_app. simpl.
    by rewrite Hr.
  - apply dict_set_inj; [done|]. intros k' Hk'. destruct (adding a).
    + by eapply Hother.
    + destruct (Hrefs _ _ Hk') as [Hlt' _]. lia.
Qed.

Lemma collected_start (h0 : list Agg) : collected h0 [] [] h0.
Proof.
  split; simpl; try done. intros r a Hr. by apply elem_of_nil in Hr.
Qed.

Lemma collect_loop_spec (h0 : list Agg) (aggregates processed : list ref)
    (acc acc' : option M * pydict string ref) (w w' : WorldT) :
  fold_st aggregates acc collect_editable w = (Ok acc', w') →
  Forall (fun r => is_Some (h0 !! r)) aggregates →
  NoDup (omap (fun r => pk <$> h0 !! r) (processed ++ aggregates)) →
  NoDup (processed ++ aggregates) →
  collected h0 processed (snd acc) (heap w) →
  db w' = db w ∧ repository w' = repository w
  ∧ collected h0 (processed ++ aggregates) (snd acc') (heap w')
  ∧ fst acc' = match fst acc, aggregates with
               | Some m, _ => Some m
               | None, r :: _ => get_event_model <$> h0 !! r
               | None, [] => None
               end.
Proof.
  revert processed acc w. induction aggregates as [|r rest IH]; intros processed acc w; simpl.
  - intros [= <- <-] _ _ _ Hinv. rewrite app_nil_r. split_and!; try done. by destruct (fst acc).
  - unfold st_bind at 1. rewrite collect_editable_unfold.
    intros Hfold Hvalid Hpks Hrefs Hinv.
    apply Forall_cons in Hvalid as [[a Ha] Hvalid].
    assert (r ∉ processed) as Hnew.
    { apply NoDup_app in Hrefs as (_ & Hdisj & _). intros Hin. apply (Hdisj r Hin). left. }
    assert (pk a ∉ omap (fun r => pk <$> h0 !! r) processed) as Hpk.
    { rewrite omap_app in Hpks. apply NoDup_app in Hpks as (_ & Hdisj & _).
      intros Hin. apply (Hdisj _ Hin). simpl. rewrite Ha. simpl. left. }
    assert (heap w !! r = Some a) as Hhr.
    { rewrite (collected_untouched _ _ _ _ Hinv); [done..|]. by eapply lookup_lt_Some. }
    rewrite Hhr in Hfold. cbn zeta in Hfold.
    pose proof (collected_step h0 processed (snd acc) (heap w) r a Hinv Ha Hnew Hpk) as Hstep.
    rewrite (cons_middle r processed rest), (assoc_L (++)) in Hpks, Hrefs |- *.
    destruct (adding a); apply (IH (processed ++ [r])) in Hfold as (Hdb & Hrepo & Hinv' & Hes);
      try done.
    + split_and!; try done. rewrite Hes. simpl. rewrite Ha. by destruct (fst acc).
    + split_and!; try done. rewrite Hes. simpl. rewrite Ha. by destruct (fst acc).
Qed.

(** What the replay makes of the aggregate with key [k], from its seed: the
    fold, in canonical order, of its rows in the window that do not carry the
    sequence number; then, when no aggregate row was folded, its first row
    that does not carry the sequence number, and the mark for backdating. *)
Definition replayed_at_point (omega : EvRow → U) (event_store : M) (keys : list string)
    (t : datetime) (s : string) (rows : list EvRow) (k : string) (seed : Agg) : result Agg :=
  let fetched := events_after_and_including event_store keys t s rows in
  let rebuilt : gset string :=
    list_to_set (map aggregate_id (List.filter (not_at s) fetched)) in
  state ← load_all omega seed (List.filter (fun r => of_aggregate k r && not_at s r) fetched);
  match head (List.filter (of_aggregate k) (initial_candidates event_store keys rebuilt s rows)) with
  | None => Ok state
  | Some first =>
      loaded ← load state (event_data first) (omega first);
      Ok (mark_for_backdating loaded)
  end.

Lemma NoDup_omap_inv {X Y : Type} (f : X → option Y) (l : list X) :
  Forall (fun x => is_Some (f x)) l → NoDup (omap f l) → NoDup l.
Proof.
  induction l as [|x l IH]; simpl; [intros _ _; apply NoDup_nil_2|].
  intros Hall. apply Forall_cons in Hall as [[y Hy] Hall]. rewrite Hy.
  intros Hnodup. apply NoDup_cons in Hnodup as [Hnot Hnodup].
  apply NoDup_cons. split; [|by apply IH].
  intros Hin. apply Hnot. apply list_elem_of_omap. by exists x.
Qed.

(** An aggregate with a folded row is not seeded: its state is the fold. *)
Lemma replayed_at_point_rebuilt (omega : EvRow → U) (event_store : M) (keys : list string)
    (t : datetime) (s : string) (rows : list EvRow) (k : string) (seed : Agg) :
  List.filter (fun r => of_aggregate k r && not_at s r)
    (events_after_and_including event_store keys t s rows) ≠ [] →
  replayed_at_point omega event_store keys t s rows k seed
  = load_all omega seed
      (List.filter (fun r => of_aggregate k r && not_at s r)
         (events_after_and_including event_store keys t s rows)).
Proof.
  intros Hfolded. unfold replayed_at_point. cbv zeta.
  destruct (load_all omega seed _) as [state|x]; [|done].
  change (Ok state ≫= ?f) with (f state). cbv beta.
  rewrite filter_of_aggregate_nil; [done|].
  intros Hin. apply list_elem_of_fmap in Hin as (candidate & -> & Hin).
  unfold initial_candidates in Hin.
  rewrite order_by_Permutation, elem_of_List_filter, !andb_true_iff in Hin.
  destruct Hin as (_ & (_ & Hfresh) & _).
  apply negb_true_iff, bool_decide_eq_false in Hfresh. apply Hfresh.
  destruct (List.filter _ _) as [|r l] eqn:Hrows; [done|].
  assert (r ∈ r :: l) as Hr by left. rewrite <- Hrows in Hr.
  apply elem_of_List_filter in Hr as (Hr & Hboth).
  apply andb_true_iff in Hboth as (Hof & Hat). apply bool_decide_eq_true in Hof as <-.
  apply elem_of_list_to_set, list_elem_of_fmap. exists r. split; [done|].
  by apply elem_of_List_filter.
Qed.

(** The last loop of [persist_changes]: the rows queued in the deletion
    buffer leave the event store, the others stay. *)
Lemma delete_loop_spec (deleted : pydict M (list EvRow)) (w : WorldT) :
  ∃ w', for_each deleted
          (fun entry =>
             match map ev_id (snd entry) with
             | [] => st_ret tt
             | ids => delete_events (fst entry) ids
             end) w = (Ok tt, w')
        ∧ ∀ r, r ∈ event_rows (db w') ↔
               r ∈ event_rows (db w)
               ∧ ¬ ∃ entry, entry ∈ deleted ∧ fst entry = ev_model r
                            ∧ ev_id r ∈ map ev_id (snd entry).
Proof.
  revert w. induction deleted as [|entry rest IH]; intros w; simpl.
  - exists w. split; [done|]. intros r. split; [|tauto].
    intros Hr. split; [done|]. intros (entry & Hin & _). by apply elem_of_nil in Hin.
  - unfold st_bind at 1.
    assert (∃ w1, match map ev_id (snd entry) with
                  | [] => st_ret tt
                  | ids => delete_events (fst entry) ids
                  end w = (Ok tt, w1)
                  ∧ ∀ r, r ∈ event_rows (db w1) ↔
                         r ∈ event_rows (db w)
                         ∧ ¬ (fst entry = ev_model r ∧ ev_id r ∈ map ev_id (snd entry)))
      as (w1 & -> & Hw1).
    { destruct (map ev_id (snd entry)) as [|i ids] eqn:Hids.
      - exists w. split; [done|]. intros r. rewrite elem_of_nil. tauto.
      - eexists. split; [reflexivity|]. intros r. cbn [db with_db event_rows].
        rewrite elem_of_List_filter, negb_true_iff, andb_false_iff, !bool_decide_eq_false.
        split; intros [Hr Hnot]; (split; [done|]).
        + intros [Hm Hi]. destruct Hnot as [Hnot|Hnot]; by apply Hnot.
        + destruct (decide (ev_model r = fst entry)) as [Hm|Hm]; [|by left].
          right. intros Hi. by apply Hnot. }
    destruct (IH w1) as (w' & -> & Hw'). exists w'. split; [done|].
    intros r. rewrite Hw', Hw1. split.
    + intros [[Hr Hentry] Hrest]. split; [done|].
      intros (entry' & Hin & Hm & Hi). apply elem_of_cons in Hin as [->|Hin].
      * by apply Hentry.
      * apply Hrest. by exists entry'.
    + intros [Hr Hnot]. split_and!; [done|..].
      * intros [Hm Hi]. apply Hnot. exists entry. split_and!; [left|done..].
      * intros (entry' & Hin & Hm & Hi). apply Hnot. exists entry'.
        split_and!; [by right|done..].
Qed.

(** What the replay leaves when it returns. *)
Lemma editable_replay_spec
    (aggregates : list ref) (t : datetime) (s : string) (omega : EvRow → U)
    (w w' : WorldT) (by_id : pydict string ref) (first : ref) (a0 : Agg) :
  load_editable_aggregates_at_time_and_point aggregates t s omega w = (Ok by_id, w') →
  Forall (fun r => is_Some (heap w !! r)) aggregates →
  NoDup (omap (fun r => pk <$> heap w !! r) aggregates) →
  head aggregates = Some first → heap w !! first = Some a0 →
  let event_store := get_event_model a0 in
  let keys := omap (fun r => pk <$> heap w !! r) aggregates in
  let fetched := events_after_and_including event_store keys t s (event_rows (db w)) in
  dict_keys by_id = keys
  ∧ db w' = db w
  ∧ (∀ r a, r ∈ aggregates → heap w !! r = Some a →
       ∃ final,
         object_at by_id (heap w') (pk a) = Some final
         ∧ replayed_at_point omega event_store keys t s (event_rows (db w)) (pk a)
             (editable_seed a) = Ok final)
  ∧ (∀ m, default [] (dict_get m (_deleted_event_stores (repository w')))
          = default [] (dict_get m (_deleted_event_stores (repository w)))
            ++ List.filter (fun r => bool_decide (ev_model r = m) && negb (not_at s r)) fetched).
Proof.
  intros Hrun Hvalid Hpks Hfirst Ha0. cbv zeta.
  unfold load_editable_aggregates_at_time_and_point in Hrun.
  unfold st_bind at 1 in Hrun.
  destruct (fold_st aggregates (None, []) collect_editable w) as [[[es by_id1]|x] w1] eqn:Hcollect;
    [|done].
  apply (collect_loop_spec (heap w) aggregates []) in Hcollect
    as (Hdb1 & Hrepo1 & Hinv & Hes); simpl in *; try done.
  2: { eapply NoDup_omap_inv; [|exact Hpks].
       eapply Forall_impl; [exact Hvalid|]. intros r Hr. by apply fmap_is_Some. }
  2: { apply collected_start. }
  destruct aggregates as [|r0 rest]; [done|]. injection Hfirst as ->.
  rewrite Ha0 in Hes. simpl in Hes. subst es.
  pose proof (collected_keys _ _ _ _ Hinv) as Hkeys.
  destruct by_id1 as [|entry by_id1'] eqn:Hby.
  { exfalso. simpl in Hkeys. by rewrite Ha0 in Hkeys. }
  rewrite <- Hby in *. clear Hby entry by_id1'.
  assert (∃ entry rest', by_id1 = entry :: rest') as (entry & rest' & Hshape).
  { destruct by_id1; [|eauto]. simpl in Hkeys. by rewrite Ha0 in Hkeys. }
  rewrite Hshape in Hrun. rewrite <- Hshape in Hrun. clear Hshape entry rest'.
  unfold st_bind at 1, st_get at 1 in Hrun.
  unfold st_bind at 1 in Hrun.
  destruct (fold_st _ ∅ (rebuild_or_mark by_id1 s omega) w1) as [[rebuilt|x] w2] eqn:Hloop;
    [|done].
  apply rebuild_loop_spec in Hloop as (Hdb2 & Hlen2 & Hrebuilt & Hobj2 & Hdel2);
    [|by apply (collected_inj _ _ _ _ Hinv)].
  unfold st_bind at 1 in Hrun.
  destruct (for_each _ (load_initial by_id1 omega) w2) as [[[]|x] w3] eqn:Hinitial; [|done].
  injection Hrun as <- <-.
  unfold initial_events_before in Hinitial.
  destruct (distinct_aggregate_id_spec []
              (initial_candidates (get_event_model a0) (dict_keys by_id1) rebuilt s
                 (event_rows (db w1)))) as (Hnodup & _ & Hfirst).
  apply initial_loop_spec in Hinitial as (Hdb3 & Hrepo3 & Hobj3);
    [|by apply (collected_inj _ _ _ _ Hinv)|done].
  rewrite (right_id_L ∅ (∪)) in Hrebuilt. rewrite Hdb1, Hkeys in *.
  split_and!.
  - done.
  - by rewrite Hdb3, Hdb2.
  - intros r a Hr Ha.
    pose proof (collected_seed _ _ _ _ Hinv r a Hr Ha) as Hseed.
    destruct (Hobj2 _ _ Hseed) as (a2 & Ha2 & Hfold).
    destruct (Hobj3 _ _ Ha2) as (a3 & Ha3 & Hinit).
    exists a3. split; [done|]. unfold replayed_at_point. cbv zeta.
    rewrite Hfold, <- Hrebuilt. rewrite Hfirst in Hinit by apply not_elem_of_nil.
    change (Ok a2 ≫= ?k) with (k a2). cbv beta.
    by destruct (head _).
  - intros m. by rewrite Hrepo3, Hdel2, Hrepo1.
Qed.

(** The first loop returns. *)
Lemma collect_loop_returns (h0 : list Agg) (aggregates processed : list ref)
    (acc : option M * pydict string ref) (w : WorldT) :
  Forall (fun r => is_Some (h0 !! r)) aggregates →
  NoDup (omap (fun r => pk <$> h0 !! r) (processed ++ aggregates)) →
  NoDup (processed ++ aggregates) →
  collected h0 processed (snd acc) (heap w) →
  ∃ acc' w', fold_st aggregates acc collect_editable w = (Ok acc', w').
Proof.
  revert processed acc w. induction aggregates as [|r rest IH]; intros processed acc w; simpl.
  - eauto.
  - unfold st_bind at 1. rewrite collect_editable_unfold.
    intros Hvalid Hpks Hrefs Hinv.
    apply Forall_cons in Hvalid as [[a Ha] Hvalid].
    assert (r ∉ processed) as Hnew.
    { apply NoDup_app in Hrefs as (_ & Hdisj & _). intros Hin. apply (Hdisj r Hin). left. }
    assert (pk a ∉ omap (fun r => pk <$> h0 !! r) processed) as Hpk.
    { rewrite omap_app in Hpks. apply NoDup_app in Hpks as (_ & Hdisj & _).
      intros Hin. apply (Hdisj _ Hin). simpl. rewrite Ha. simpl. left. }
    assert (heap w !! r = Some a) as Hhr.
    { rewrite (collected_untouched _ _ _ _ Hinv); [done..|]. by eapply lookup_lt_Some. }
    rewrite Hhr. cbn zeta.
    pose proof (collected_step h0 processed (snd acc) (heap w) r a Hinv Ha Hnew Hpk) as Hstep.
    rewrite (cons_middle r processed rest), (assoc_L (++)) in Hpks, Hrefs.
    destruct (adding a); by apply (IH (processed ++ [r])).
Qed.

(** The instances a dictionary of references reaches come from the input. *)
Lemma collected_origin (h0 : list Agg) (processed : list ref) (by_id : pydict string ref)
    (h : list Agg) (k : string) (r' : ref) :
  collected h0 processed by_id h → dict_get k by_id = Some r' →
  ∃ r a, r ∈ processed ∧ h0 !! r = Some a ∧ pk a = k
         ∧ object_at by_id h k = Some (editable_seed a).
Proof.
  intros Hinv Hk. apply dict_get_Some_keys in Hk.
  rewrite (collected_keys _ _ _ _ Hinv) in Hk.
  apply list_elem_of_omap in Hk as (r & Hr & Hpk).
  destruct (h0 !! r) as [a|] eqn:Ha; [|done]. injection Hpk as <-.
  exists r, a. split_and!; try done. by eapply collected_seed.
Qed.

(** Every row of [events] belongs to an aggregate of the dictionary. *)
Definition covered (by_id : pydict string ref) (h : list Agg) (events : list EvRow) : Prop :=
  ∀ event, event ∈ events → is_Some (object_at by_id h (aggregate_id event)).

Lemma covered_insert (by_id : pydict string ref) (h : list Agg) (events : list EvRow)
    (k : string) (r : ref) (a a' : Agg) :
  dict_inj by_id → dict_get k by_id = Some r → h !! r = Some a →
  covered by_id h events → covered by_id (<[r := a']> h) events.
Proof.
  intros Hinj Hk Hr Hcovered event Hevent.
  rewrite (object_at_insert by_id h k (aggregate_id event) r a a') by done.
  destruct (decide (aggregate_id event = k)); [done|]. by apply Hcovered.
Qed.

(** The loop over the window returns when the rows of each aggregate load. *)
Lemma rebuild_loop_returns (by_id : pydict string ref) (s : string) (omega : EvRow → U)
    (events : list EvRow) (rebuilt : gset string) (w : WorldT) :
  dict_inj by_id → covered by_id (heap w) events →
  (∀ k a, object_at by_id (heap w) k = Some a →
     is_ok (load_all omega a (List.filter (fun r => of_aggregate k r && not_at s r) events))
     = true) →
  ∃ rebuilt' w', fold_st events rebuilt (rebuild_or_mark by_id s omega) w = (Ok rebuilt', w').
Proof.
  intros Hinj. revert rebuilt w.
  induction events as [|event rest IH]; intros rebuilt w Hcovered Hloads; simpl; [eauto|].
  unfold st_bind at 1. rewrite rebuild_or_mark_unfold.
  destruct (Hcovered event) as [a Ha]; [left|].
  assert (covered by_id (heap w) rest) as Hrest.
  { intros event' Hin. apply Hcovered. by right. }
  pose proof Ha as Hobj. unfold object_at in Ha.
  destruct (dict_get (aggregate_id event) by_id) as [r|] eqn:Hr; [|done]. simpl in Ha.
  rewrite Ha. destruct (not_at s event) eqn:Hat.
  - pose proof (Hloads _ _ Hobj) as Hload. simpl in Hload. unfold of_aggregate at 1 in Hload.
    rewrite bool_decide_eq_true_2, Hat in Hload by done. simpl in Hload.
    destruct (load a (event_data event) (omega event)) as [a1|x] eqn:Hstep; [|done].
    apply IH; cbn [heap with_heap].
    + by eapply covered_insert.
    + intros k a'.
      rewrite (object_at_insert by_id (heap w) (aggregate_id event) k r a a1) by done.
      destruct (decide (k = aggregate_id event)) as [->|Hne].
      * by intros [= <-].
      * intros Hk. specialize (Hloads k a' Hk). simpl in Hloads.
        unfold of_aggregate at 1 in Hloads. by rewrite bool_decide_eq_false_2 in Hloads by done.
  - apply IH; cbn [heap with_repository]; [done|].
    intros k a' Hk. specialize (Hloads k a' Hk). simpl in Hloads.
    by rewrite Hat, andb_false_r in Hloads.
Qed.

(** The last loop returns when the first row of each aggregate loads. *)
Lemma initial_loop_returns (by_id : pydict string ref) (omega : EvRow → U)
    (initial : list EvRow) (w : WorldT) :
  dict_inj by_id → NoDup (map aggregate_id initial) → covered by_id (heap w) initial →
  (∀ k a first rest, object_at by_id (heap w) k = Some a →
     List.filter (of_aggregate k) initial = first :: rest →
     is_ok (load a (event_data first) (omega first)) = true) →
  ∃ w', for_each initial (load_initial by_id omega) w = (Ok tt, w').
Proof.
  intros Hinj. revert w.
  induction initial as [|event rest IH]; intros w Hnodup Hcovered Hloads; simpl; [eauto|].
  apply NoDup_cons in Hnodup as [Hfresh Hnodup].
  unfold st_bind at 1. rewrite load_initial_unfold.
  destruct (Hcovered event) as [a Ha]; [left|].
  assert (covered by_id (heap w) rest) as Hrest.
  { intros event' Hin. apply Hcovered. by right. }
  pose proof Ha as Hobj. unfold object_at in Ha.
  destruct (dict_get (aggregate_id event) by_id) as [r|] eqn:Hr; [|done]. simpl in Ha.
  rewrite Ha.
  pose proof (Hloads (aggregate_id event) a event
                (List.filter (of_aggregate (aggregate_id event)) rest) Hobj) as Hload.
  simpl in Hload. unfold of_aggregate at 1 in Hload.
  rewrite bool_decide_eq_true_2 in Hload by done. specialize (Hload eq_refl).
  destruct (load a (event_data event) (omega event)) as [a1|x] eqn:Hstep; [|done].
  apply IH; cbn [heap with_heap]; [done|by eapply covered_insert|].
  intros k a' first rest'.
  rewrite (object_at_insert by_id (heap w) (aggregate_id event) k r a _) by done.
  destruct (decide (k = aggregate_id event)) as [->|Hne].
  - intros _. by rewrite filter_of_aggregate_nil.
  - intros Hk Hfilter. apply (Hloads k a' first rest' Hk). simpl.
    unfold of_aggregate at 1. by rewrite bool_decide_eq_false_2 by done.
Qed.

Lemma elem_of_distinct_aggregate_id (seen : list string) (l : list EvRow) (r : EvRow) :
  r ∈ distinct_aggregate_id seen l → r ∈ l.
Proof.
  revert seen. induction l as [|r' l IH]; intros seen; simpl; [done|].
  case_bool_decide.
  - intros Hin. right. by eapply IH.
  - rewrite elem_of_cons. intros [->|Hin]; [left|right; by eapply IH].
Qed.

Lemma dict_get_is_Some_keys {V : Type} (k : string) (d : pydict string V) :
  k ∈ dict_keys d → is_Some (dict_get k d).
Proof.
  intros Hk. destruct (dict_get k d) eqn:Hget; [done|].
  by apply dict_get_None_keys in Hget.
Qed.

(** The replay returns when the rows it folds load. *)
Lemma editable_replay_returns (aggregates : list ref) (t : datetime) (s : string)
    (omega : EvRow → U) (w : WorldT) (first : ref) (a0 : Agg) :
  Forall (fun r => is_Some (heap w !! r)) aggregates →
  NoDup (omap (fun r => pk <$> heap w !! r) aggregates) →
  head aggregates = Some first → heap w !! first = Some a0 →
  (∀ r a, r ∈ aggregates → heap w !! r = Some a →
     is_ok (replayed_at_point omega (get_event_model a0)
              (omap (fun r => pk <$> heap w !! r) aggregates) t s (event_rows (db w))
              (pk a) (editable_seed a)) = true) →
  ∃ by_id w', load_editable_aggregates_at_time_and_point aggregates t s omega w = (Ok by_id, w').
Proof.
  intros Hvalid Hpks Hfirst Ha0 Hall.
  assert (NoDup aggregates) as Hrefs.
  { eapply NoDup_omap_inv; [|exact Hpks].
    eapply Forall_impl; [exact Hvalid|]. intros r Hr. by apply fmap_is_Some. }
  unfold load_editable_aggregates_at_time_and_point. unfold st_bind at 1.
  destruct (fold_st aggregates (None, []) collect_editable w)
    as [[[es by_id1]|x] w1] eqn:Hcollect.
  2: { destruct (collect_loop_returns (heap w) aggregates [] (None, []) w)
         as (acc1 & w0 & Hreturns); [done..|apply collected_start|].
       pose proof (eq_trans (eq_sym Hreturns) Hcollect). discriminate. }
  apply (collect_loop_spec (heap w) aggregates []) in Hcollect
    as (Hdb1 & Hrepo1 & Hinv & Hes); [|done..|apply collected_start].
  cbn [fst snd app] in Hinv, Hes.
  destruct aggregates as [|r0 rest]; [done|]. injection Hfirst as ->.
  rewrite Ha0 in Hes. cbn [fmap option_fmap option_map] in Hes. subst es.
  pose proof (collected_keys _ _ _ _ Hinv) as Hkeys.
  pose proof (collected_inj _ _ _ _ Hinv) as Hinj.
  assert (∃ entry rest', by_id1 = entry :: rest') as (entry & rest' & Hshape).
  { destruct by_id1; [|eauto]. cbn in Hkeys. by rewrite Ha0 in Hkeys. }
  rewrite Hshape. rewrite <- Hshape. clear Hshape entry rest'.
  unfold st_bind at 1, st_get at 1. unfold st_bind at 1.
  rewrite Hdb1, Hkeys.
  set (keys := omap (fun r => pk <$> heap w !! r) (first :: rest)) in *.
  set (fetched := events_after_and_including (get_event_model a0) keys t s (event_rows (db w))).
  assert (∀ k, k ∈ keys → ∃ r a,
            r ∈ first :: rest ∧ heap w !! r = Some a ∧ pk a = k
            ∧ object_at by_id1 (heap w1) k = Some (editable_seed a)) as Horigin.
  { intros k Hk. rewrite <- Hkeys in Hk. apply dict_get_is_Some_keys in Hk as [r' Hr'].
    by eapply collected_origin. }
  assert (∀ k a, object_at by_id1 (heap w1) k = Some a → k ∈ keys) as Hdomain.
  { intros k a Hk. unfold object_at in Hk.
    destruct (dict_get k by_id1) as [r'|] eqn:Hget; [|done].
    rewrite <- Hkeys. by eapply dict_get_Some_keys. }
  destruct (rebuild_loop_returns by_id1 s omega fetched ∅ w1) as (rebuilt & w2 & Hloop).
  { done. }
  { intros event Hevent. apply elem_of_objects_filter in Hevent as (_ & _ & Hp).
    apply andb_true_iff in Hp as [Hk _]. apply bool_decide_eq_true in Hk.
    destruct (Horigin _ Hk) as (r & a & _ & _ & _ & ->). done. }
  { intros k a Hk. destruct (Horigin k (Hdomain _ _ Hk)) as (r & a' & Hr & Ha' & <- & Hseed).
    assert (a = editable_seed a') as -> by congruence.
    specialize (Hall r a' Hr Ha'). unfold replayed_at_point in Hall. cbv zeta in Hall.
    fold keys fetched in Hall. by destruct (load_all omega (editable_seed a') _). }
  rewrite Hloop.
  apply rebuild_loop_spec in Hloop as (Hdb2 & Hlen2 & Hrebuilt & Hobj2 & Hdel2); [|done].
  rewrite (right_id_L ∅ (∪)) in Hrebuilt.
  unfold st_bind at 1. unfold initial_events_before.
  destruct (distinct_aggregate_id_spec []
              (initial_candidates (get_event_model a0) keys rebuilt s (event_rows (db w))))
    as (Hnodup & _ & Hhead).
  destruct (initial_loop_returns by_id1 omega
              (distinct_aggregate_id []
                 (initial_candidates (get_event_model a0) keys rebuilt s (event_rows (db w))))
              w2) as (w3 & Hinitial).
  { done. }
  { done. }
  { intros event Hevent. apply elem_of_distinct_aggregate_id in Hevent.
    unfold initial_candidates in Hevent.
    rewrite order_by_Permutation, elem_of_List_filter, !andb_true_iff in Hevent.
    destruct Hevent as (_ & ((_ & Hk) & _) & _). apply bool_decide_eq_true in Hk.
    destruct (Horigin _ Hk) as (r & a & _ & _ & _ & Hseed).
    destruct (Hobj2 _ _ Hseed) as (a2 & -> & _). done. }
  { intros k a first' rest' Hk Hfilter.
    assert (k ∈ keys) as Hkey.
    { unfold object_at in Hk. destruct (dict_get k by_id1) as [r'|] eqn:Hget; [|done].
      rewrite <- Hkeys. by eapply dict_get_Some_keys. }
    destruct (Horigin k Hkey) as (r & a' & Hr & Ha' & <- & Hseed).
    destruct (Hobj2 _ _ Hseed) as (a2 & Ha2 & Hfold).
    assert (a = a2) as -> by congruence.
    specialize (Hall r a' Hr Ha'). unfold replayed_at_point in Hall. cbv zeta in Hall.
    fold keys fetched in Hall. rewrite Hfold, <- Hrebuilt in Hall.
    change (Ok a2 ≫= ?f) with (f a2) in Hall. cbv beta in Hall.
    rewrite Hhead in Hfilter by apply not_elem_of_nil.
    destruct (head _) as [candidate|]; [|done]. injection Hfilter as -> _.
    by destruct (load a2 (event_data first') (omega first')). }
  rewrite Hinitial. eauto.
Qed.

(** C3, as the code has it. For distinct input aggregates,
    [load_editable_aggregates_at_time_and_point] returns exactly when
    [replayed_at_point] gives a state for each of them, and then the
    dictionary it returns has their ids as keys, the database is as before,
    and the state of each input aggregate is [replayed_at_point]: starting
    from [identity()] when the aggregate is persisted (from the instance
    itself, marked for backdating, when it is not), the fold by [load] of its
    rows with [occurred_at < t], or with [occurred_at = t] and a sequence
    number that is not NULL and at most [s], except the rows whose sequence
    number is [s]; an aggregate of which no row was folded is then loaded with
    its first row whose sequence number is not [s] and marked for backdating.
    The rows of the window whose sequence number is [s] are not folded: each
    is appended to the deletion buffer of the repository for its event
    store. *)
Theorem editable_replay_folds_the_window_without_the_edited_events
    (aggregates : list ref) (t : datetime) (s : string) (omega : EvRow → U)
    (w : WorldT) (first : ref) (a0 : Agg) :
  Forall (fun r => is_Some (heap w !! r)) aggregates →
  NoDup (omap (fun r => pk <$> heap w !! r) aggregates) →
  head aggregates = Some first → heap w !! first = Some a0 →
  let event_store := get_event_model a0 in
  let keys := omap (fun r => pk <$> heap w !! r) aggregates in
  let fetched := events_after_and_including event_store keys t s (event_rows (db w)) in
  let replayed (a : Agg) :=
    replayed_at_point omega event_store keys t s (event_rows (db w)) (pk a) (editable_seed a) in
  ((∀ r a, r ∈ aggregates → heap w !! r = Some a → is_ok (replayed a) = true) →
   is_ok (fst (load_editable_aggregates_at_time_and_point aggregates t s omega w)) = true)
  ∧ ∀ by_id w',
      load_editable_aggregates_at_time_and_point aggregates t s omega w = (Ok by_id, w') →
      dict_keys by_id = keys
      ∧ db w' = db w
      ∧ (∀ r a, r ∈ aggregates → heap w !! r = Some a →
           ∃ final, object_at by_id (heap w') (pk a) = Some final ∧ replayed a = Ok final)
      ∧ (∀ m, default [] (dict_get m (_deleted_event_stores (repository w')))
              = default [] (dict_get m (_deleted_event_stores (repository w)))
                ++ List.filter (fun r => bool_decide (ev_model r = m) && negb (not_at s r))
                     fetched).
Proof.
  intros Hvalid Hpks Hfirst Ha0. cbv zeta. split.
  - intros Hall.
    destruct (editable_replay_returns aggregates t s omega w first a0 Hvalid Hpks Hfirst Ha0 Hall)
      as (by_id & w' & ->).
    done.
  - intros by_id w' Hrun.
    exact (editable_replay_spec aggregates t s omega w w' by_id first a0
             Hrun Hvalid Hpks Hfirst Ha0).
Qed.

End replay_properties.

(** ** Temporal replay at a time ([load_editable_aggregates_at_time]) *)

Section at_time_properties.
Context {E F U M : Type} `{Countable M} `{!Aggregates E F U M}.
Local Abbreviation Agg := (AggregateModel E F M).
Local Abbreviation EvRow := (AggregateEventModel E M).
Local Abbreviation WorldT := (@World E F M _ _).

Lemma load_onto_unfold (by_id : pydict string ref) (omega : EvRow → U) (event : EvRow)
    (w : WorldT) :
  load_onto by_id omega event w
  = match dict_get (aggregate_id event) by_id with
    | None => (Raise (KeyError (aggregate_id event)), w)
    | Some r =>
        match heap w !! r with
        | None => (Raise TypeError, w)
        | Some a =>
            match load a (event_data event) (omega event) with
            | Ok a' => (Ok tt, with_heap w (<[r := a']> (heap w)))
            | Raise e => (Raise e, w)
            end
        end
    end.
Proof.
  unfold load_onto, st_bind, deref, st_lift, assign, st_modify, st_raise.
  destruct (dict_get (aggregate_id event) by_id) as [r|]; [|done].
  destruct (heap w !! r) as [a|]; [|done].
  by destruct (load a (event_data event) (omega event)).
Qed.

(** The loop over the events up to the time: every event is loaded onto the
    instance of its aggregate. *)
Lemma at_time_loop_spec (by_id : pydict string ref) (omega : EvRow → U)
    (events : list EvRow) (rebuilt rebuilt' : gset string) (w w' : WorldT) :
  dict_inj by_id →
  fold_st events rebuilt
    (fun event rebuilt =>
       load_onto by_id omega event ;;;
       st_ret ({[aggregate_id event]} ∪ rebuilt)) w = (Ok rebuilt', w') →
  db w' = db w ∧ repository w' = repository w
  ∧ rebuilt' = list_to_set (map aggregate_id events) ∪ rebuilt
  ∧ (∀ k a, object_at by_id (heap w) k = Some a →
       ∃ a', object_at by_id (heap w') k = Some a'
             ∧ load_all omega a (List.filter (of_aggregate k) events) = Ok a').
Proof.
  intros Hinj. revert rebuilt w.
  induction events as [|event rest IH]; intros rebuilt w; simpl.
  - intros [= <- <-]. split_and!; try done.
    + by rewrite (left_id_L ∅ (∪)).
    + eauto.
  - unfold st_bind at 1. unfold st_bind at 1. rewrite load_onto_unfold.
    destruct (dict_get (aggregate_id event) by_id) as [r|] eqn:Hr; [|done].
    destruct (heap w !! r) as [a|] eqn:Ha; [|done].
    destruct (load a (event_data event) (omega event)) as [a1|x] eqn:Hload; [|done].
    unfold st_ret at 1.
    intros Hrest. apply IH in Hrest as (Hdb & Hrepo & Hrebuilt & Hobj).
    cbn [heap with_heap db repository] in *.
    split_and!; try done.
    + rewrite Hrebuilt. rewrite (assoc_L (∪)). f_equal. apply (comm_L (∪)).
    + intros k a0 Hk.
      destruct (Hobj k (if decide (k = aggregate_id event) then a1 else a0))
        as (a' & Hfinal & Hall).
      { rewrite (object_at_insert by_id (heap w) (aggregate_id event) k r a a1) by done.
        by destruct (decide (k = aggregate_id event)). }
      exists a'. split; [done|].
      unfold of_aggregate at 1. destruct (decide (k = aggregate_id event)) as [->|Hne].
      * rewrite bool_decide_eq_true_2 by done. simpl.
        assert (a0 = a) as ->.
        { unfold object_at in Hk. rewrite Hr in Hk. simpl in Hk. congruence. }
        by rewrite Hload.
      * by rewrite bool_decide_eq_false_2 by done.
Qed.

(** The rows [load_editable_aggregates_at_time] seeds from: those of the
    aggregates without an event up to the time, ordered by aggregate and
    default order. *)
Definition seed_candidates (event_store : M) (keys : list string) (t : datetime)
    (rows : list EvRow) : list EvRow :=
  let rebuilt : gset string :=
    list_to_set (map aggregate_id (events_before_or_including event_store keys t rows)) in
  order_by by_aggregate_leb
    (List.filter
       (fun r => bool_decide (ev_model r = event_store)
                 && bool_decide (aggregate_id r ∈ keys)
                 && negb (bool_decide (aggregate_id r ∈ rebuilt)))
       rows).

(** What the replay makes of the aggregate with key [k], from its seed: the
    fold of its events up to the time; or, when it has none, its first
    event, and the mark for backdating. *)
Definition replayed_at_time (omega : EvRow → U) (event_store : M) (keys : list string)
    (t : datetime) (rows : list EvRow) (k : string) (seed : Agg) : result Agg :=
  match List.filter (of_aggregate k) (events_before_or_including event_store keys t rows) with
  | [] =>
      match head (List.filter (of_aggregate k) (seed_candidates event_store keys t rows)) with
      | None => Ok seed
      | Some first =>
          loaded ← load seed (event_data first) (omega first);
          Ok (mark_for_backdating loaded)
      end
  | events => load_all omega seed events
  end.

(** X17. When [load_editable_aggregates_at_time] returns, the dictionary has
    the keys of the aggregates in their order, and the instance of each is,
    from its seed, the fold of its events that occurred up to the time; an
    aggregate without such an event is loaded with its first stored event, if
    it has one, and marked for backdating. Nothing is stored or buffered: the
    rows and the repository are as before. *)
Theorem replay_at_a_time_folds_the_events_up_to_it
    (aggregates : list ref) (t : datetime) (omega : EvRow → U)
    (w w' : WorldT) (by_id : pydict string ref) (first : ref) (a0 : Agg) :
  load_editable_aggregates_at_time aggregates t omega w = (Ok by_id, w') →
  Forall (fun r => is_Some (heap w !! r)) aggregates →
  NoDup (omap (fun r => pk <$> heap w !! r) aggregates) →
  head aggregates = Some first → heap w !! first = Some a0 →
  let event_store := get_event_model a0 in
  let keys := omap (fun r => pk <$> heap w !! r) aggregates in
  dict_keys by_id = keys
  ∧ db w' = db w ∧ repository w' = repository w
  ∧ (∀ r a, r ∈ aggregates → heap w !! r = Some a →
       ∃ final,
         object_at by_id (heap w') (pk a) = Some final
         ∧ replayed_at_time omega event_store keys t (event_rows (db w)) (pk a)
             (editable_seed a) = Ok final).
Proof.
  intros Hrun Hvalid Hpks Hfirst Ha0. cbv zeta.
  unfold load_editable_aggregates_at_time in Hrun.
  unfold st_bind at 1 in Hrun.
  destruct (fold_st aggregates (None, []) collect_editable w) as [[[es by_id1]|x] w1] eqn:Hcollect;
    [|done].
  apply (collect_loop_spec (heap w) aggregates []) in Hcollect
    as (Hdb1 & Hrepo1 & Hinv & Hes); simpl in *; try done.
  2: { eapply NoDup_omap_inv; [|exact Hpks].
       eapply Forall_impl; [exact Hvalid|]. intros r Hr. by apply fmap_is_Some. }
  2: { apply collected_start. }
  destruct aggregates as [|r0 rest]; [done|]. injection Hfirst as ->.
  rewrite Ha0 in Hes. simpl in Hes. subst es.
  pose proof (collected_keys _ _ _ _ Hinv) as Hkeys.
  assert (∃ entry rest', by_id1 = entry :: rest') as (entry & rest' & Hshape).
  { destruct by_id1; [|eauto]. simpl in Hkeys. by rewrite Ha0 in Hkeys. }
  rewrite Hshape in Hrun. rewrite <- Hshape in Hrun. clear Hshape entry rest'.
  unfold st_bind at 1, st_get at 1 in Hrun.
  unfold st_bind at 1 in Hrun.
  match type of Hrun with context [fold_st ?evs ∅ ?body w1] =>
    destruct (fold_st evs ∅ body w1) as [[rebuilt|x] w2] eqn:Hloop; [|done]
  end.
  apply at_time_loop_spec in Hloop as (Hdb2 & Hrepo2 & Hrebuilt & Hobj2);
    [|by apply (collected_inj _ _ _ _ Hinv)].
  unfold st_bind at 1 in Hrun.
  destruct (for_each _ (load_initial by_id1 omega) w2) as [[[]|x] w3] eqn:Hinitial; [|done].
  injection Hrun as <- <-.
  match type of Hinitial with context [distinct_aggregate_id [] ?l] =>
    destruct (distinct_aggregate_id_spec [] l) as (Hnodup & _ & Hhead)
  end.
  apply initial_loop_spec in Hinitial as (Hdb3 & Hrepo3 & Hobj3);
    [|by apply (collected_inj _ _ _ _ Hinv)|done].
  rewrite (right_id_L ∅ (∪)) in Hrebuilt. rewrite Hdb1, Hkeys in *.
  split_and!.
  - done.
  - by rewrite Hdb3, Hdb2.
  - by rewrite Hrepo3, Hrepo2.
  - intros r a Hr Ha.
    pose proof (collected_seed _ _ _ _ Hinv r a Hr Ha) as Hseed.
    destruct (Hobj2 _ _ Hseed) as (a2 & Ha2 & Hfold).
    destruct (Hobj3 _ _ Ha2) as (a3 & Ha3 & Hinit).
    exists a3. split; [done|]. unfold replayed_at_time, seed_candidates. cbv zeta.
    rewrite Hhead in Hinit by apply not_elem_of_nil. rewrite Hrebuilt in Hinit.
    destruct (List.filter (of_aggregate (pk a)) (events_before_or_including _ _ _ _))
      as [|event events] eqn:Hmine.
    + simpl in Hfold. injection Hfold as <-. by destruct (head _).
    + rewrite Hfold. rewrite filter_of_aggregate_nil in Hinit; [done|].
      intros Hin. apply list_elem_of_fmap in Hin as (candidate & Hk & Hin).
      rewrite order_by_Permutation, elem_of_List_filter, !andb_true_iff in Hin.
      destruct Hin as (_ & _ & Hfresh).
      apply negb_true_iff, bool_decide_eq_false in Hfresh. apply Hfresh.
      assert (event ∈ event :: events) as Hevent by left. rewrite <- Hmine in Hevent.
      apply elem_of_List_filter in Hevent as (Hevent & Hof).
      apply bool_decide_eq_true in Hof. rewrite <- Hk, <- Hof.
      apply elem_of_list_to_set, list_elem_of_fmap. by exists event.
Qed.

End at_time_properties.

(** ** Downstream replay ([reapply_downstream_events_from]) *)

Section downstream_properties.
Context {E F U M : Type} `{Countable M} `{!Aggregates E F U M}.
Local Abbreviation Agg := (AggregateModel E F M).
Local Abbreviation EvRow := (AggregateEventModel E M).
Local Abbreviation WorldT := (@World E F M _ _).

(** The query of [reapply_downstream_events_from]. *)
Definition events_downstream (event_store : M) (id : string) (t : datetime) (s : string)
    (rows : list EvRow) : list EvRow :=
  objects_filter event_store
    (fun r => bool_decide (aggregate_id r = id)
              && ((t <? occurred_at r) || ((occurred_at r =? t) && sequence_number__gt r s)))
    rows.

Lemma load_step_unfold (aggregate : ref) (event : E) (u : U) (w : WorldT) :
  (a <- deref aggregate ;;
   a' <- st_lift (load a event u) ;;
   assign aggregate a') w
  = match heap w !! aggregate with
    | None => (Raise TypeError, w)
    | Some a =>
        match load a event u with
        | Ok a' => (Ok tt, with_heap w (<[aggregate := a']> (heap w)))
        | Raise e => (Raise e, w)
        end
    end.
Proof.
  unfold st_bind, deref, st_lift, assign, st_modify.
  destruct (heap w !! aggregate) as [a|]; [|done]. by destruct (load a event u).
Qed.

Lemma load_loop_spec (aggregate : ref) (omega : EvRow → U) (events : list EvRow)
    (a : Agg) (w : WorldT) :
  heap w !! aggregate = Some a →
  ∃ res w',
    for_each events (fun event =>
      a <- deref aggregate ;;
      a' <- st_lift (load a (event_data event) (omega event)) ;;
      assign aggregate a') w = (res, w')
    ∧ db w' = db w ∧ repository w' = repository w ∧ trace w' = trace w
    ∧ (∀ r, r ≠ aggregate → heap w' !! r = heap w !! r)
    ∧ match load_all omega a events with
      | Ok a' => res = Ok tt ∧ heap w' !! aggregate = Some a'
      | Raise e => res = Raise e
      end.
Proof.
  revert a w. induction events as [|event rest IH]; intros a w Ha; simpl.
  - exists (Ok tt), w. by split_and!.
  - unfold st_bind at 1. rewrite load_step_unfold, Ha.
    destruct (load a (event_data event) (omega event)) as [a1|e] eqn:Hload;
      unfold mbind, result_bind; simpl.
    2: { exists (Raise e), w. by split_and!. }
    set (w1 := with_heap w (<[aggregate := a1]> (heap w))).
    assert (heap w1 !! aggregate = Some a1) as Ha1.
    { apply list_lookup_insert_eq. by eapply lookup_lt_Some. }
    destruct (IH a1 w1 Ha1) as (res & w' & Hrun & Hdb & Hrepo & Htrace & Hframe & Hres).
    exists res, w'. split_and!; try done.
    intros r Hr. rewrite Hframe by done. by apply list_lookup_insert_ne.
Qed.

Lemma reapply_downstream_unfold (aggregate : ref) (t : datetime) (s : string)
    (omega : EvRow → U) (w : WorldT) (a : Agg) :
  heap w !! aggregate = Some a →
  reapply_downstream_events_from aggregate t s omega w
  = for_each (events_downstream (get_event_model a) (pk a) t s (event_rows (db w)))
      (fun event =>
         a <- deref aggregate ;;
         a' <- st_lift (load a (event_data event) (omega event)) ;;
         assign aggregate a') w.
Proof.
  intros Ha. unfold reapply_downstream_events_from, st_bind at 1, deref at 1. by rewrite Ha.
Qed.

Lemma String_ltb_leb (x s : string) : String.ltb s x = negb (String.leb x s).
Proof.
  unfold String.ltb, String.leb. rewrite (String.compare_antisym s x).
  by destruct (String.compare x s).
Qed.

(** X18. [reapply_downstream_events_from] loads onto the aggregate, in the
    default order, the stored events of that aggregate that occurred after
    the time, or at the time with a greater sequence number, and nothing
    else: the result is their fold from the state the aggregate is in. The
    events are loaded, not applied: the rows, the repository and every other
    instance are as before, also when a load raises. *)
Theorem downstream_replay_folds_the_later_events
    (aggregate : ref) (t : datetime) (s : string) (omega : EvRow → U) (w : WorldT) (a : Agg) :
  heap w !! aggregate = Some a →
  let downstream := events_downstream (get_event_model a) (pk a) t s (event_rows (db w)) in
  let out := reapply_downstream_events_from aggregate t s omega w in
  db (snd out) = db w ∧ repository (snd out) = repository w ∧ trace (snd out) = trace w
  ∧ (∀ r, r ≠ aggregate → heap (snd out) !! r = heap w !! r)
  ∧ match load_all omega a downstream with
    | Ok a' => fst out = Ok tt ∧ heap (snd out) !! aggregate = Some a'
    | Raise e => fst out = Raise e
    end
  ∧ (∀ r, r ∈ downstream ↔
          r ∈ event_rows (db w) ∧ ev_model r = model a ∧ aggregate_id r = pk a
          ∧ (t < occurred_at r
             ∨ occurred_at r = t
               ∧ ∃ x, sequence_number r = Some x ∧ String.leb x s = false)).
Proof.
  intros Ha. cbv zeta. rewrite (reapply_downstream_unfold aggregate t s omega w a Ha).
  destruct (load_loop_spec aggregate omega
              (events_downstream (get_event_model a) (pk a) t s (event_rows (db w))) a w Ha)
    as (res & w' & Hrun & Hdb & Hrepo & Htrace & Hframe & Hres).
  rewrite Hrun. simpl.
  split_and!; try done.
  intros r. unfold events_downstream. rewrite elem_of_objects_filter.
  rewrite andb_true_iff, orb_true_iff, andb_true_iff, bool_decide_eq_true, Z.ltb_lt, Z.eqb_eq.
  unfold get_event_model, sequence_number__gt.
  destruct (sequence_number r) as [x|].
  - rewrite String_ltb_leb, negb_true_iff. split.
    + intros (? & ? & ? & [?|[? ?]]); split_and!; eauto.
    + intros (? & ? & ? & [?|[? (y & [= <-] & ?)]]); split_and!; eauto.
  - split.
    + intros (? & ? & ? & [?|[? ?]]); split_and!; eauto. done.
    + intros (? & ? & ? & [?|[? (y & [=] & ?)]]); split_and!; eauto.
Qed.

(** X19. The window of [load_editable_aggregates_at_time_and_point] and the
    window of [reapply_downstream_events_from] at the same point do not
    overlap, and together they hold every stored event of the aggregate but
    those that occurred at the time itself and carry no sequence number:
    such an event is neither folded before the edit nor replayed after it. *)
Theorem replay_windows_leave_out_unsequenced_events_at_the_time
    (event_store : M) (keys : list string) (id : string) (t : datetime) (s : string)
    (rows : list EvRow) (r : EvRow) :
  id ∈ keys → r ∈ rows → ev_model r = event_store → aggregate_id r = id →
  let before := events_after_and_including event_store keys t s rows in
  let after := events_downstream event_store id t s rows in
  ¬ (r ∈ before ∧ r ∈ after)
  ∧ (¬ (r ∈ before ∨ r ∈ after) ↔ occurred_at r = t ∧ sequence_number r = None).
Proof.
  intros Hid Hr Hmodel Hagg. cbv zeta.
  assert (r ∈ events_after_and_including event_store keys t s rows
          ↔ occurred_at r < t ∨ occurred_at r = t ∧ sequence_number__lte r s = true) as ->.
  { unfold events_after_and_including. rewrite elem_of_objects_filter.
    rewrite andb_true_iff, orb_true_iff, andb_true_iff, bool_decide_eq_true.
    rewrite Z.ltb_lt, Z.eqb_eq, Hagg. tauto. }
  assert (r ∈ events_downstream event_store id t s rows
          ↔ t < occurred_at r ∨ occurred_at r = t ∧ sequence_number__gt r s = true) as ->.
  { unfold events_downstream. rewrite elem_of_objects_filter.
    rewrite andb_true_iff, orb_true_iff, andb_true_iff, bool_decide_eq_true.
    rewrite Z.ltb_lt, Z.eqb_eq. tauto. }
  unfold sequence_number__lte, sequence_number__gt.
  destruct (sequence_number r) as [x|].
  - rewrite String_ltb_leb.
    destruct (String.leb x s); simpl;
      destruct (Z.lt_trichotomy (occurred_at r) t) as [?|[?|?]];
      intuition (try lia; try congruence).
  - destruct (Z.lt_trichotomy (occurred_at r) t) as [?|[?|?]];
      intuition (try lia; try congruence).
Qed.

(** X20. The window of [load_editable_aggregates_at_time] some time after
    [t] and the window of [reapply_downstream_events_from] at [t] overlap:
    an event of the aggregate that occurred after [t] and within the delay,
    or at [t] with a greater sequence number, is in both, so a caller that
    loads the first window and then replays the second, as the backdated
    [record_receive_volume] and [record_blend_lot] do with a delay of one
    second, loads such an event twice. *)
Theorem backdating_windows_overlap
    (event_store : M) (keys : list string) (id : string) (t delay : datetime) (s : string)
    (rows : list EvRow) (r : EvRow) :
  0 ≤ delay → id ∈ keys →
  (r ∈ events_before_or_including event_store keys (t + delay) rows
   ∧ r ∈ events_downstream event_store id t s rows)
  ↔ r ∈ rows ∧ ev_model r = event_store ∧ aggregate_id r = id
    ∧ (t < occurred_at r ≤ t + delay
       ∨ occurred_at r = t ∧ ∃ x, sequence_number r = Some x ∧ String.leb x s = false).
Proof.
  intros Hdelay Hid.
  unfold events_before_or_including, events_downstream. rewrite !elem_of_objects_filter.
  rewrite !andb_true_iff, orb_true_iff, andb_true_iff, !bool_decide_eq_true.
  rewrite Z.leb_le, Z.ltb_lt, Z.eqb_eq.
  unfold sequence_number__gt. destruct (sequence_number r) as [x|].
  - rewrite String_ltb_leb, negb_true_iff. split.
    + intros [(? & ? & ? & ?) (_ & _ & ? & Hlater)]. split_and!; [done..|].
      destruct Hlater as [?|[? ?]]; [left; lia|right; eauto].
    + intros (? & ? & <- & Hlater). split_and!; try done.
      * destruct Hlater as [?|[? _]]; lia.
      * destruct Hlater as [?|[? (y & [= <-] & ?)]]; [left; lia|by right].
  - split.
    + intros [(? & ? & ? & ?) (_ & _ & ? & Hlater)]. split_and!; [done..|].
      destruct Hlater as [?|[? ?]]; [left; lia|done].
    + intros (? & ? & <- & Hlater). split_and!; try done.
      * destruct Hlater as [?|[? _]]; lia.
      * destruct Hlater as [?|[? (y & [=] & ?)]]. left; lia.
Qed.

End downstream_properties.

(** ** Views ([load_aggregate_states_before]) *)

Section view_properties.
Context {E F U M : Type} `{Countable M} `{!Aggregates E F U M}.
Local Abbreviation Agg := (AggregateModel E F M).
Local Abbreviation EvRow := (AggregateEventModel E M).
Local Abbreviation WorldT := (@World E F M _ _).
Local Abbreviation StT := (@St E F M _ _).
Local Abbreviation Table := (gmap (M * string) (StoredAggregate F)).

(** A piece of code that writes only to the instances of a dictionary. *)
Definition writes_only_to {A : Type} (by_id : pydict string ref) (c : StT A) : Prop :=
  ∀ w : WorldT,
    trace (snd (c w)) = trace w
    ∧ ∀ r, (∀ k, dict_get k by_id ≠ Some r) → heap (snd (c w)) !! r = heap w !! r.

Lemma writes_only_to_bind {A B : Type} (by_id : pydict string ref) (c : StT A)
    (k : A → StT B) :
  writes_only_to by_id c → (∀ a, writes_only_to by_id (k a)) →
  writes_only_to by_id (st_bind c k).
Proof.
  intros Hc Hk w. unfold st_bind. specialize (Hc w).
  destruct (c w) as [[a|e] w1]; simpl in *; [|done].
  destruct (Hk a w1) as [-> Hheap]. destruct Hc as [-> Hheap1].
  split; [done|]. intros r Hr. by rewrite Hheap, Hheap1.
Qed.

Lemma writes_only_to_for_each {X : Type} (by_id : pydict string ref) (l : list X)
    (body : X → StT unit) :
  (∀ x, writes_only_to by_id (body x)) → writes_only_to by_id (for_each l body).
Proof.
  intros Hbody. induction l as [|x l IH]; simpl; [done|].
  apply writes_only_to_bind; auto.
Qed.

Lemma writes_only_to_fold_st {X A : Type} (by_id : pydict string ref) (l : list X) (acc : A)
    (body : X → A → StT A) :
  (∀ x acc, writes_only_to by_id (body x acc)) → writes_only_to by_id (fold_st l acc body).
Proof.
  intros Hbody. revert acc. induction l as [|x l IH]; intros acc; simpl; [done|].
  apply writes_only_to_bind; auto.
Qed.

Lemma writes_only_to_load_onto (by_id : pydict string ref) (omega : EvRow → U)
    (event : EvRow) :
  writes_only_to by_id (load_onto by_id omega event).
Proof.
  intros w. rewrite load_onto_unfold.
  destruct (dict_get (aggregate_id event) by_id) as [r|] eqn:Hr; [|done].
  destruct (heap w !! r) as [a|]; [|done].
  destruct (load a (event_data event) (omega event)); [|done]. simpl.
  split; [done|]. intros r' Hr'. apply list_lookup_insert_ne. intros <-. by eapply Hr'.
Qed.

Lemma writes_only_to_load_initial (by_id : pydict string ref) (omega : EvRow → U)
    (event : EvRow) :
  writes_only_to by_id (load_initial by_id omega event).
Proof.
  intros w. rewrite load_initial_unfold.
  destruct (dict_get (aggregate_id event) by_id) as [r|] eqn:Hr; [|done].
  destruct (heap w !! r) as [a|]; [|done].
  destruct (load a (event_data event) (omega event)); [|done]. simpl.
  split; [done|]. intros r' Hr'. apply list_lookup_insert_ne. intros <-. by eapply Hr'.
Qed.

(** The first loop reads the primary keys and the class of the first
    aggregate, and changes nothing. *)
Lemma collect_ids_loop (aggregates : list ref) (acc : gset string * option M * option M)
    (w : WorldT) :
  Forall (fun r => is_Some (heap w !! r)) aggregates →
  fold_st aggregates acc collect_ids w
  = (Ok (list_to_set (omap (fun r => pk <$> heap w !! r) aggregates) ∪ fst (fst acc),
         match snd (fst acc) with
         | Some m => Some m
         | None => model <$> (head aggregates ≫= (heap w !!.))
         end,
         match snd acc with
         | Some m => Some m
         | None => get_event_model <$> (head aggregates ≫= (heap w !!.))
         end), w).
Proof.
  revert acc. induction aggregates as [|r rest IH]; intros [[ids m] es] Hvalid; simpl.
  - unfold st_ret. rewrite (left_id_L ∅ (∪)). by destruct m, es.
  - apply Forall_cons in Hvalid as [[a Ha] Hvalid].
    unfold st_bind at 1. unfold collect_ids, st_bind, deref, st_ret. rewrite Ha. simpl.
    rewrite IH by done. simpl.
    replace (list_to_set (omap (fun r0 => pk <$> heap w !! r0) rest) ∪ ({[pk a]} ∪ ids))
      with ({[pk a]} ∪ list_to_set (omap (fun r0 => pk <$> heap w !! r0) rest) ∪ ids)
      by (rewrite (assoc_L (∪)); f_equal; apply (comm_L (∪))).
    by destruct m, es.
Qed.

Lemma elem_of_objects_filter_pk__in (model_class : M) (ids : gset string) (rows : Table)
    (k : string) (row : StoredAggregate F) :
  (k, row) ∈ objects_filter_pk__in model_class ids rows
  ↔ k ∈ ids ∧ rows !! (model_class, k) = Some row.
Proof.
  unfold objects_filter_pk__in. rewrite list_elem_of_omap. split.
  - intros ([[m k'] row'] & Hin & Hsome). simpl in Hsome.
    destruct (bool_decide (m = model_class) && bool_decide (k' ∈ ids)) eqn:Hkeep; [|done].
    injection Hsome as <- <-. apply andb_true_iff in Hkeep as [Hm Hk].
    apply bool_decide_eq_true in Hm as ->. apply bool_decide_eq_true in Hk.
    split; [done|]. by apply elem_of_map_to_list in Hin.
  - intros [Hk Hrow]. exists (model_class, k, row). split; [by apply elem_of_map_to_list|].
    simpl. by rewrite !bool_decide_eq_true_2.
Qed.

Lemma objects_filter_pk__in_unique (model_class : M) (ids : gset string) (rows : Table) :
  NoDup (map fst (objects_filter_pk__in model_class ids rows)).
Proof.
  unfold objects_filter_pk__in.
  pose proof (NoDup_fst_map_to_list rows) as Hnodup.
  induction (map_to_list rows) as [|[[m k] row] l IH]; simpl; [apply NoDup_nil_2|].
  apply NoDup_cons in Hnodup as [Hfresh Hnodup]. specialize (IH Hnodup).
  destruct (bool_decide (m = model_class) && _) eqn:Hkeep; simpl; [|done].
  apply NoDup_cons. split; [|done]. intros Hin. apply Hfresh.
  apply andb_true_iff in Hkeep as [Hm _]. apply bool_decide_eq_true in Hm as ->.
  apply list_elem_of_fmap in Hin as ([k' row'] & -> & Hin).
  apply list_elem_of_omap in Hin as ([[m' k''] row''] & Hin & Hsome). simpl in Hsome.
  destruct (bool_decide (m' = model_class) && _) eqn:Hkeep'; [|done].
  injection Hsome as <- <-. apply andb_true_iff in Hkeep' as [Hm' _].
  apply bool_decide_eq_true in Hm' as ->.
  apply list_elem_of_fmap. by exists (model_class, k'', row'').
Qed.

(** The second loop: one fresh view per reloaded row. *)
Lemma reload_loop_spec (model_class : M) (reloaded : list (string * StoredAggregate F))
    (acc : pydict string ref) (w : WorldT) :
  NoDup (dict_keys acc ++ map fst reloaded) → dict_inj acc →
  (∀ k r, dict_get k acc = Some r → (r < length (heap w))%nat) →
  ∃ by_id w',
    fold_st reloaded acc (reload_identity model_class) w = (Ok by_id, w')
    ∧ db w' = db w ∧ repository w' = repository w ∧ trace w' = trace w
    ∧ (∃ views, heap w' = heap w ++ views)
    ∧ dict_inj by_id
    ∧ dict_keys by_id = dict_keys acc ++ map fst reloaded
    ∧ (∀ k r, dict_get k by_id = Some r →
         dict_get k acc = Some r ∨ (length (heap w) ≤ r < length (heap w'))%nat)
    ∧ (∀ k a, object_at acc (heap w) k = Some a → object_at by_id (heap w') k = Some a)
    ∧ (∀ reloaded_agg, reloaded_agg ∈ reloaded →
         object_at by_id (heap w') (fst reloaded_agg)
         = Some (view_of_row model_class reloaded_agg)).
Proof.
  revert acc w. induction reloaded as [|x rest IH]; intros acc w Hkeys Hinj Hrefs; simpl.
  - exists acc, w. rewrite app_nil_r. split_and!; try done.
    + exists []. by rewrite app_nil_r.
    + intros k r Hk. by left.
    + intros y Hy. by apply elem_of_nil in Hy.
  - unfold st_bind at 1. unfold reload_identity at 1, st_bind, alloc, st_ret.
    cbv beta iota.
    set (w1 := with_heap w (heap w ++ [view_of_row model_class x])).
    assert (fst x ∉ dict_keys acc) as Hfresh.
    { apply NoDup_app in Hkeys as (_ & Hdisj & _). intros Hin. apply (Hdisj _ Hin). left. }
    assert (dict_get (fst x) acc = None) as Hnone by (by apply dict_get_None_keys).
    destruct (IH (dict_set (fst x) (length (heap w)) acc) w1)
      as (by_id & w' & Hrun & Hdb & Hrepo & Htrace & [views Hheap] & Hinj' & Hkeys' & Hrefs'
          & Hold & Hnew).
    { rewrite dict_keys_set. unfold dict_mem. rewrite Hnone.
      rewrite <- (assoc_L (++)). exact Hkeys. }
    { apply dict_set_inj; [done|]. intros k' Hk'. apply Hrefs in Hk'. lia. }
    { intros k r. destruct (decide (fst x = k)) as [<-|Hne].
      - rewrite dict_get_set_eq. intros [= <-]. unfold w1. simpl. rewrite length_app. simpl. lia.
      - rewrite dict_get_set_ne by done. intros Hk. apply Hrefs in Hk.
        unfold w1. simpl. rewrite length_app. lia. }
    exists by_id, w'. split; [exact Hrun|]. clear Hrun. unfold w1 in *. simpl in *.
    split_and!; try done.
    + exists (view_of_row model_class x :: views). by rewrite Hheap, <- (assoc_L (++)).
    + rewrite Hkeys', dict_keys_set. unfold dict_mem. rewrite Hnone.
      by rewrite <- (assoc_L (++)).
    + intros k r Hk. apply Hrefs' in Hk as [Hk|Hk].
      * destruct (decide (fst x = k)) as [<-|Hne].
        -- rewrite dict_get_set_eq in Hk. injection Hk as <-. right.
           rewrite Hheap, !length_app. simpl. lia.
        -- rewrite dict_get_set_ne in Hk by done. by left.
      * right. rewrite length_app in Hk. simpl in Hk. lia.
    + intros k a Hk. apply Hold. unfold object_at in *.
      destruct (dict_get k acc) as [r|] eqn:Hr; [|done]. simpl in Hk.
      rewrite dict_get_set_ne by (intros <-; congruence). rewrite Hr. simpl.
      rewrite lookup_app_l; [done|]. by eapply lookup_lt_Some.
    + intros y Hy. apply elem_of_cons in Hy as [->|Hy]; [|by apply Hnew].
      apply Hold. unfold object_at. rewrite dict_get_set_eq. simpl.
      by rewrite list_lookup_middle.
Qed.

(** What the function makes of the view of the aggregate with key [k]: the
    fold of its events before the point; or, when it has none, its first
    stored event, and the mark for backdating. *)
Definition state_before (omega : EvRow → U) (event_store : M) (keys : list string)
    (t : datetime) (s : option string) (rows : list EvRow) (k : string) (seed : Agg)
    : result Agg :=
  match List.filter (of_aggregate k) (events_before event_store keys t s rows) with
  | [] =>
      let rebuilt : gset string :=
        list_to_set (map aggregate_id (events_before event_store keys t s rows)) in
      match head (List.filter (of_aggregate k)
                    (order_by by_aggregate_leb
                       (List.filter
                          (fun r => bool_decide (ev_model r = event_store)
                                    && bool_decide (aggregate_id r ∈ keys)
                                    && negb (bool_decide (aggregate_id r ∈ rebuilt)))
                          rows))) with
      | None => Ok seed
      | Some first =>
          loaded ← load seed (event_data first) (omega first);
          Ok (mark_for_backdating loaded)
      end
  | events => load_all omega seed events
  end.

Lemma load_all_keeps_persistable (omega : EvRow → U) (events : list EvRow) (a a' : Agg) :
  (∀ a event u a', load a event u = Ok a' → _persistable a' = _persistable a) →
  load_all omega a events = Ok a' → _persistable a' = _persistable a.
Proof.
  intros Hkeeps. revert a. induction events as [|event rest IH]; intros a; simpl.
  - by intros [= <-].
  - destruct (load a (event_data event) (omega event)) as [a1|x] eqn:Hload; [|done].
    intros Hrest. apply IH in Hrest. rewrite Hrest. by eapply Hkeeps.
Qed.

(** X21. [load_aggregate_states_before] returns views of the stored
    aggregates among those it is given, and of no others: an aggregate that has no
    row is left out without an error. The view of an aggregate is a fresh
    instance: from [identity()] of its row, with [_persistable] false, the
    fold of its events before the point (strictly before the time, or at the
    time with a smaller sequence number when one is given); an aggregate
    without such an event is loaded with its first stored event and marked
    for backdating. The instances it is given, the rows and the repository
    are as before. When the handlers of the class leave [_persistable]
    alone, a view is not persistable: [persist] raises
    [CannotPersistAggregateView] on it and writes nothing. *)
Theorem views_are_folds_of_the_events_before
    (aggregates : list ref) (t : datetime) (s : option string) (omega : EvRow → U)
    (w w' : WorldT) (by_id : pydict string ref) (first : ref) (a0 : Agg) :
  load_aggregate_states_before aggregates t s omega w = (Ok by_id, w') →
  Forall (fun r => is_Some (heap w !! r)) aggregates →
  head aggregates = Some first → heap w !! first = Some a0 →
  let ids : gset string := list_to_set (omap (fun r => pk <$> heap w !! r) aggregates) in
  db w' = db w ∧ repository w' = repository w ∧ trace w' = trace w
  ∧ (∀ r, (r < length (heap w))%nat → heap w' !! r = heap w !! r)
  ∧ (∀ k, k ∈ dict_keys by_id ↔ k ∈ ids ∧ is_Some (aggregate_rows (db w) !! (model a0, k)))
  ∧ (∀ k row, k ∈ ids → aggregate_rows (db w) !! (model a0, k) = Some row →
       ∃ final,
         object_at by_id (heap w') k = Some final
         ∧ state_before omega (get_event_model a0) (dict_keys by_id) t s (event_rows (db w)) k
             (view_of_row (model a0) (k, row)) = Ok final)
  ∧ ((∀ a event u a', load a event u = Ok a' → _persistable a' = _persistable a) →
     ∀ k r view, dict_get k by_id = Some r → heap w' !! r = Some view →
       is_persistable view = false
       ∧ ∀ rows, persist_instance view rows = (Raise CannotPersistAggregateView, view, rows)).
Proof.
  intros Hrun Hvalid Hfirst Ha0. cbv zeta.
  unfold load_aggregate_states_before in Hrun. unfold st_bind at 1 in Hrun.
  rewrite collect_ids_loop in Hrun by done. simpl in Hrun.
  rewrite Hfirst in Hrun. simpl in Hrun. rewrite Ha0 in Hrun. simpl in Hrun.
  rewrite (right_id_L ∅ (∪)) in Hrun.
  set (ids := list_to_set (omap (fun r => pk <$> heap w !! r) aggregates) : gset string) in *.
  case_bool_decide as Hempty.
  { exfalso. destruct aggregates as [|r0 rest]; [done|]. injection Hfirst as ->.
    assert (pk a0 ∈ ids) as Hin.
    { unfold ids. simpl. rewrite Ha0. simpl. set_solver. }
    rewrite Hempty in Hin. by apply elem_of_empty in Hin. }
  unfold st_bind at 1, st_get at 1 in Hrun. unfold st_bind at 1 in Hrun.
  destruct (reload_loop_spec (model a0)
              (objects_filter_pk__in (model a0) ids (aggregate_rows (db w))) [] w)
    as (by_id1 & w1 & Hreload & Hdb1 & Hrepo1 & Htrace1 & [views Hheap1] & Hinj & Hkeys
        & Hrefs & _ & Hviews).
  { simpl. apply objects_filter_pk__in_unique. }
  { by intros k1 k2 r. }
  { by intros k r. }
  rewrite Hreload in Hrun. unfold st_bind at 1 in Hrun.
  match type of Hrun with context [fold_st ?evs ∅ ?body w1] =>
    pose proof (writes_only_to_fold_st by_id1 evs (∅ : gset string) body) as Hframe2;
    destruct (fold_st evs ∅ body w1) as [[rebuilt|x] w2] eqn:Hloop; [|done]
  end.
  specialize (Hframe2 ltac:(intros x acc; apply writes_only_to_bind;
                             [apply writes_only_to_load_onto|done]) w1).
  rewrite Hloop in Hframe2. simpl in Hframe2. destruct Hframe2 as [Htrace2 Hheap2].
  apply at_time_loop_spec in Hloop as (Hdb2 & Hrepo2 & Hrebuilt & Hobj2); [|done].
  unfold st_bind at 1 in Hrun.
  match type of Hrun with context [for_each ?evs ?body w2] =>
    pose proof (writes_only_to_for_each by_id1 evs body) as Hframe3;
    destruct (for_each evs body w2) as [[[]|x] w3] eqn:Hinitial; [|done]
  end.
  specialize (Hframe3 ltac:(intros x; apply writes_only_to_load_initial) w2).
  rewrite Hinitial in Hframe3. simpl in Hframe3. destruct Hframe3 as [Htrace3 Hheap3].
  injection Hrun as <- <-.
  match type of Hinitial with context [distinct_aggregate_id [] ?l] =>
    destruct (distinct_aggregate_id_spec [] l) as (Hnodup & _ & Hhead)
  end.
  apply initial_loop_spec in Hinitial as (Hdb3 & Hrepo3 & Hobj3); [|done..].
  rewrite (right_id_L ∅ (∪)) in Hrebuilt. simpl in Hkeys.
  assert (∀ k row, k ∈ ids → aggregate_rows (db w) !! (model a0, k) = Some row →
            ∃ final,
              object_at by_id1 (heap w3) k = Some final
              ∧ state_before omega (get_event_model a0) (dict_keys by_id1) t s
                  (event_rows (db w)) k (view_of_row (model a0) (k, row)) = Ok final)
    as Hstates.
  { intros k row Hk Hrow.
    assert (object_at by_id1 (heap w1) k = Some (view_of_row (model a0) (k, row))) as Hseed.
    { apply (Hviews (k, row)). by apply elem_of_objects_filter_pk__in. }
    destruct (Hobj2 _ _ Hseed) as (a2 & Ha2 & Hfold).
    destruct (Hobj3 _ _ Ha2) as (a3 & Ha3 & Hinit).
    exists a3. split; [done|]. unfold state_before. cbv zeta.
    rewrite Hhead in Hinit by apply not_elem_of_nil. rewrite Hrebuilt in Hinit.
    unfold get_event_model in *.
    destruct (List.filter (of_aggregate k) (events_before _ _ _ _ _))
      as [|event events] eqn:Hmine.
    + simpl in Hfold. injection Hfold as <-.
      match type of Hinit with context [option_list ?found] =>
        match goal with |- context [head ?l] => change (head l) with found end;
        by destruct found
      end.
    + rewrite Hfold. rewrite filter_of_aggregate_nil in Hinit; [done|].
      intros Hin. apply list_elem_of_fmap in Hin as (candidate & Hcandidate & Hin).
      rewrite order_by_Permutation, elem_of_List_filter, !andb_true_iff in Hin.
      destruct Hin as (_ & _ & Hfresh).
      apply negb_true_iff, bool_decide_eq_false in Hfresh. apply Hfresh.
      assert (event ∈ event :: events) as Hevent by left. rewrite <- Hmine in Hevent.
      apply elem_of_List_filter in Hevent as (Hevent & Hof).
      apply bool_decide_eq_true in Hof. rewrite <- Hcandidate, <- Hof.
      apply elem_of_list_to_set, list_elem_of_fmap. by exists event. }
  assert (∀ k, k ∈ dict_keys by_id1
               ↔ k ∈ ids ∧ is_Some (aggregate_rows (db w) !! (model a0, k))) as Hstored.
  { intros k. rewrite Hkeys, list_elem_of_fmap. split.
    + intros ([k' row] & -> & Hin). apply elem_of_objects_filter_pk__in in Hin as [? ?].
      split; [done|]. by eexists.
    + intros [Hk [row Hrow]]. exists (k, row). split; [done|].
      by apply elem_of_objects_filter_pk__in. }
  split_and!.
  - by rewrite Hdb3, Hdb2.
  - by rewrite Hrepo3, Hrepo2.
  - by rewrite Htrace3, Htrace2.
  - intros r Hr.
    assert (∀ k, dict_get k by_id1 ≠ Some r) as Hother.
    { intros k Hk. apply Hrefs in Hk as [Hk|Hk]; [done|lia]. }
    rewrite Hheap3, Hheap2, Hheap1 by done. by apply lookup_app_l.
  - exact Hstored.
  - exact Hstates.
  - intros Hkeeps k r view Hk Hview.
    assert (k ∈ dict_keys by_id1) as Hin by (by eapply dict_get_Some_keys).
    apply Hstored in Hin as [Hin [row Hrow]].
    destruct (Hstates k row Hin Hrow) as (final & Hfinal & Hstate).
    unfold object_at in Hfinal. rewrite Hk in Hfinal. simpl in Hfinal.
    assert (final = view) as -> by congruence.
    assert (_persistable view = Some false) as Hnot.
    { unfold state_before in Hstate. cbv zeta in Hstate.
      destruct (List.filter (of_aggregate k) (events_before _ _ _ _ _)) as [|event events].
      - match type of Hstate with context [head ?l] => destruct (head l) as [first'|] end;
          [|by injection Hstate as <-].
        destruct (load _ (event_data first') (omega first')) as [loaded|x] eqn:Hload; [|done].
        injection Hstate as <-. simpl. by rewrite (Hkeeps _ _ _ _ Hload).
      - by rewrite (load_all_keeps_persistable omega _ _ _ Hkeeps Hstate). }
    split.
    + unfold is_persistable. by rewrite Hnot.
    + intros rows. unfold persist_instance, is_persistable. by rewrite Hnot.
Qed.

End view_properties.

(** ** The composition projection *)

Section composition_properties.
Context {D : Type} `{!DecimalArith D}.
Variable subscribers : @WineLotEvent D → option exn.
#[local] Existing Instance winemaking.
Local Abbreviation LotRow := (AggregateEventModel (@WineLotEvent D) Model).
Local Abbreviation Lot := (AggregateModel (@WineLotEvent D) (@WineLotFields D) Model).

Lemma relevant_events_effective_at
    (rows : list LotRow) (lot_ids : gset string) (effective_at : datetime) (r : LotRow) :
  r ∈ relevant_events rows lot_ids (Some effective_at) None
  ↔ r ∈ rows ∧ ev_model r = WineLot ∧ aggregate_id r ∈ lot_ids ∧ occurred_at r ≤ effective_at.
Proof.
  unfold relevant_events. rewrite elem_of_objects_filter.
  rewrite andb_true_iff, bool_decide_eq_true, Z.leb_le. tauto.
Qed.

Lemma relevant_events_action_id
    (rows : list LotRow) (lot_ids : gset string) (effective_at : datetime) (action_id : string)
    (r : LotRow) :
  r ∈ relevant_events rows lot_ids (Some effective_at) (Some action_id)
  ↔ r ∈ rows ∧ ev_model r = WineLot ∧ aggregate_id r ∈ lot_ids
    ∧ (occurred_at r < effective_at
       ∨ (occurred_at r = effective_at
          ∧ ∃ x, sequence_number r = Some x ∧ String.leb x action_id = true)).
Proof.
  unfold relevant_events. rewrite elem_of_objects_filter.
  rewrite andb_true_iff, orb_true_iff, andb_true_iff, bool_decide_eq_true.
  rewrite Z.ltb_lt, Z.eqb_eq, sequence_number__lte_true. tauto.
Qed.

Lemma relevant_events_after_and_including
    (rows : list LotRow) (lot_ids : gset string) (effective_at : datetime) (action_id : string) :
  relevant_events rows lot_ids (Some effective_at) (Some action_id)
  = events_after_and_including WineLot (elements lot_ids) effective_at action_id rows.
Proof.
  unfold relevant_events, events_after_and_including. apply objects_filter_ext.
  intros r. f_equal. apply bool_decide_ext. by rewrite elem_of_elements.
Qed.

Lemma relevant_events_before_or_including
    (rows : list LotRow) (lot_ids : gset string) (effective_at : datetime) :
  relevant_events rows lot_ids (Some effective_at) None
  = events_before_or_including WineLot (elements lot_ids) effective_at rows.
Proof.
  unfold relevant_events, events_before_or_including. apply objects_filter_ext.
  intros r. f_equal. apply bool_decide_ext. by rewrite elem_of_elements.
Qed.

Lemma replace_microsecond_0_whole_second (t : datetime) :
  replace_microsecond_0 t mod 1000000 = 0
  ∧ replace_microsecond_0 t ≤ t < replace_microsecond_0 t + 1000000.
Proof.
  unfold replace_microsecond_0.
  pose proof (Z.mod_pos_bound t 1000000 ltac:(lia)) as Hbound.
  split; [|lia].
  rewrite (Z.div_mod t 1000000) at 1 by lia.
  replace (1000000 * (t `div` 1000000) + t `mod` 1000000 - t `mod` 1000000)
    with ((t `div` 1000000) * 1000000) by lia.
  apply Z.mod_mul. lia.
Qed.

Lemma replace_microsecond_0_idemp (t : datetime) :
  replace_microsecond_0 (replace_microsecond_0 t) = replace_microsecond_0 t.
Proof.
  destruct (replace_microsecond_0_whole_second t) as [Hmod _].
  unfold replace_microsecond_0 at 1. rewrite Hmod. lia.
Qed.

(** *** The search of [_get_all_lot_ids] ends *)

Lemma size_list_to_set_le (l : list string) :
  (size (list_to_set l : gset string) ≤ length l)%nat.
Proof.
  induction l as [|x l IH]; [by rewrite list_to_set_nil, size_empty|].
  rewrite list_to_set_cons, size_union_alt, size_singleton. cbn [length].
  assert (size ((list_to_set l : gset string) ∖ {[x]}) ≤ size (list_to_set l : gset string))%nat
    as Hle by (apply subseteq_size, subseteq_difference_l; done).
  lia.
Qed.

(** The lots named as a source by some stored blend and not discovered yet,
    plus the lots in the queue: the bound on the iterations that are left. *)
Definition iterations_left (rows : list LotRow) (acc : gset string * list string) : nat :=
  (length (snd acc)
   + size ((list_to_set (source_lot_ids rows) : gset string) ∖ fst acc))%nat.

Lemma discover_sources_iterations_left (rows : list LotRow) (ids : list string)
    (acc : gset string * list string) :
  (∀ id, id ∈ ids → id ∈ source_lot_ids rows) →
  iterations_left rows
    (fold_left
       (fun acc source_lot_id =>
          if bool_decide (source_lot_id ∈ fst acc) then acc
          else ({[source_lot_id]} ∪ fst acc, snd acc ++ [source_lot_id]))
       ids acc)
  = iterations_left rows acc.
Proof.
  revert acc. induction ids as [|id ids IH]; intros acc Hids; simpl; [done|].
  rewrite IH by (intros id' Hin; apply Hids; by right).
  case_bool_decide as Hseen; [done|].
  unfold iterations_left. simpl. rewrite length_app. simpl.
  assert ((list_to_set (source_lot_ids rows) : gset string) ∖ fst acc
          = {[id]} ∪ list_to_set (source_lot_ids rows) ∖ ({[id]} ∪ fst acc)) as ->.
  { apply set_eq. intros x. rewrite elem_of_union, !elem_of_difference, elem_of_union,
      elem_of_singleton, elem_of_list_to_set.
    split.
    - intros [Hx Hnot]. destruct (decide (x = id)) as [->|Hne]; [by left|].
      right. split; [done|]. by intros [?|?].
    - intros [->|[Hx Hnot]].
      + split; [|done]. apply Hids. left.
      + split; [done|]. intros Hin. apply Hnot. by right. }
  rewrite (size_union (C := gset string) {[id]}
             (list_to_set (source_lot_ids rows) ∖ ({[id]} ∪ fst acc))), size_singleton; [lia|].
  apply disjoint_singleton_l. rewrite elem_of_difference, elem_of_union, elem_of_singleton.
  intros [_ Hnot]. apply Hnot. by left.
Qed.

Lemma discover_iterations_left (rows events : list LotRow) (acc : gset string * list string) :
  (∀ event, event ∈ events → event ∈ rows) →
  iterations_left rows (discover events acc) = iterations_left rows acc.
Proof.
  unfold discover. revert acc.
  induction events as [|event events IH]; intros acc Hevents; simpl; [done|].
  rewrite IH by (intros event' Hin; apply Hevents; by right).
  destruct (event_data event) eqn:Hdata; try done.
  apply discover_sources_iterations_left. intros id Hid.
  unfold source_lot_ids. rewrite list_elem_of_In. apply in_flat_map.
  exists event. split; [apply list_elem_of_In, Hevents; left|].
  rewrite Hdata. by apply list_elem_of_In.
Qed.

Lemma blend_events_stored (rows : list LotRow) (current : string)
    (effective_at : option datetime) (action_id : option string) (event : LotRow) :
  event ∈ blend_events rows current effective_at action_id → event ∈ rows.
Proof.
  unfold blend_events.
  destruct effective_at as [t|]; [destruct action_id as [s|]|];
    rewrite elem_of_objects_filter; tauto.
Qed.

Lemma search_returns (rows : list LotRow) (effective_at : option datetime)
    (action_id : option string) (fuel : nat) (discovered : gset string) (queue : list string) :
  (iterations_left rows (discovered, queue) ≤ fuel)%nat →
  is_Some (search fuel rows effective_at action_id discovered queue).
Proof.
  revert discovered queue. induction fuel as [|fuel IH]; intros discovered queue.
  - destruct queue as [|current queue]; simpl; [done|]. unfold iterations_left. simpl. lia.
  - destruct queue as [|current queue]; simpl; [done|]. intros Hleft.
    pose proof (discover_iterations_left rows
                  (blend_events rows current effective_at action_id) (discovered, queue)
                  (blend_events_stored rows current effective_at action_id)) as Hstep.
    destruct (discover _ _) as [discovered' queue']. apply IH. rewrite Hstep.
    unfold iterations_left in *. simpl in *. lia.
Qed.

(** [_get_all_lot_ids] returns: the bound on the iterations is enough. *)
Lemma _get_all_lot_ids_returns (rows : list LotRow) (lot_id : string)
    (effective_at : option datetime) (action_id : option string) :
  is_Some (_get_all_lot_ids rows lot_id effective_at action_id).
Proof.
  apply search_returns. unfold iterations_left. simpl.
  pose proof (size_list_to_set_le (source_lot_ids rows)) as Hsize.
  assert (size ((list_to_set (source_lot_ids rows) : gset string) ∖ {[lot_id]})
          ≤ size (list_to_set (source_lot_ids rows) : gset string))%nat
    as Hle by (apply subseteq_size, subseteq_difference_l; done).
  lia.
Qed.

(** C8. [calculate_composition] raises [ValueError] when [action_id] is given
    without [effective_at], raises [ValueError] when the lot does not exist,
    and otherwise runs the discovery, which returns, and the fold with
    [effective_at] cut down to the whole second it falls in. *)
Theorem calculate_composition_checks_then_truncates
    (d : @Database (@WineLotEvent D) (@WineLotFields D) Model _ _) (omega : LotRow → string)
    (lot_id : string) (effective_at : option datetime) (action_id : option string) :
  (∀ a, calculate_composition subscribers d omega lot_id None (Some a)
        = Raise (ValueError "effective_at must be provided when action_id is specified."))
  ∧ (aggregate_rows d !! (WineLot, lot_id) = None →
     ∃ msg, calculate_composition subscribers d omega lot_id effective_at action_id
            = Raise (ValueError msg))
  ∧ (is_Some (aggregate_rows d !! (WineLot, lot_id)) →
     action_id = None ∨ is_Some effective_at →
     let cutoff := replace_microsecond_0 <$> effective_at in
     ∃ lot_ids,
       _get_all_lot_ids (event_rows d) lot_id cutoff action_id = Some lot_ids
       ∧ calculate_composition subscribers d omega lot_id effective_at action_id
         = (lot_compositions ←
              _build_lot_compositions subscribers (event_rows d) omega lot_ids cutoff action_id;
            match lot_compositions !! lot_id with
            | Some c => Ok c
            | None => Raise (KeyError lot_id)
            end))
  ∧ (∀ t, effective_at = Some t →
          replace_microsecond_0 t mod 1000000 = 0
          ∧ replace_microsecond_0 t ≤ t < replace_microsecond_0 t + 1000000
          ∧ calculate_composition subscribers d omega lot_id (Some t) action_id
            = calculate_composition subscribers d omega lot_id (Some (replace_microsecond_0 t)) action_id).
Proof.
  split_and!.
  - done.
  - intros Hnone. unfold calculate_composition. rewrite Hnone.
    destruct (bool_decide _ && bool_decide _); eauto.
  - intros [lot Hlot] Hargs. cbv zeta.
    destruct (_get_all_lot_ids_returns (event_rows d) lot_id
                (replace_microsecond_0 <$> effective_at) action_id) as [lot_ids Hids].
    exists lot_ids. split; [done|].
    unfold calculate_composition. cbv zeta. rewrite Hlot, Hids.
    destruct Hargs as [->|[t ->]]; [done|]. simpl. by rewrite andb_false_r.
  - intros t _. destruct (replace_microsecond_0_whole_second t) as [Hmod Hle].
    split_and!; try done; try lia.
    unfold calculate_composition. simpl. by rewrite replace_microsecond_0_idemp.
Qed.

(** *** The tolerance of [Composition] *)

(** [Decimal("0.9999") < sum(components.values()) < Decimal("1.0001")] *)
Definition within_tolerance (c : @Composition D) : Prop :=
  dltb d_lo (dsum (dict_values (components c))) = true
  ∧ dltb (dsum (dict_values (components c))) d_hi = true.

Lemma Composition_new_within (cs : pydict LotComponent D) (c : @Composition D) :
  Composition_new cs = Ok c → within_tolerance c ∧ components c = cs.
Proof.
  unfold Composition_new, validate_percentages, within_tolerance. simpl.
  destruct (dltb d_lo (dsum (dict_values cs))) eqn:Hlo;
    destruct (dltb (dsum (dict_values cs)) d_hi) eqn:Hhi; simpl; try done.
  by intros [= <-].
Qed.

Lemma rbind_Ok {A B : Type} (r : result A) (k : A → result B) (b : B) :
  (r ≫= k) = Ok b → ∃ a, r = Ok a ∧ k a = Ok b.
Proof. destruct r as [a|e]; [eauto|done]. Qed.

Lemma blend_within (lot_volume : D) (lot_composition : @Composition D)
    (volumes : pydict string D) (lot_compositions : gmap string (@Composition D))
    (c : @Composition D) :
  blend lot_volume lot_composition volumes lot_compositions = Ok c → within_tolerance c.
Proof.
  unfold blend. intros Hblend.
  apply rbind_Ok in Hblend as (cs0 & _ & Hblend).
  apply rbind_Ok in Hblend as (cs1 & _ & Hblend).
  by apply Composition_new_within in Hblend as [? _].
Qed.

Definition all_within (lot_compositions : gmap string (@Composition D)) : Prop :=
  ∀ lot_id c, lot_compositions !! lot_id = Some c → within_tolerance c.

Lemma all_within_insert lot_id c (lot_compositions : gmap string (@Composition D)) :
  within_tolerance c → all_within lot_compositions →
  all_within (<[lot_id := c]> lot_compositions).
Proof.
  intros Hc Hall k c'. rewrite lookup_insert. case_decide; [by intros [= <-]|apply Hall].
Qed.

Lemma build_other_within (omega : LotRow → string) (event : LotRow) (data : @WineLotEvent D)
    (st st' : gmap string (@Composition D) * gmap string Lot) :
  all_within (fst st) → build_other subscribers omega event data st = Ok st' →
  all_within (fst st').
Proof.
  destruct st as [lot_compositions lots]. unfold build_other. simpl. intros Hall Hstep.
  destruct (lots !! aggregate_id event) as [lot|]; [|done].
  apply rbind_Ok in Hstep as (comps' & Hcomps & Hstep).
  apply rbind_Ok in Hstep as (lot' & _ & [= <-]). simpl.
  unfold update_composition in Hcomps.
  destruct data; try (by injection Hcomps as <-).
  destruct (lot_compositions !! aggregate_id event) as [lot_composition|]; [|done].
  apply rbind_Ok in Hcomps as (new_composition & Hblend & [= <-]).
  apply all_within_insert; [|done]. by eapply blend_within.
Qed.

Lemma build_step_within (omega : LotRow → string) (event : LotRow)
    (st st' : gmap string (@Composition D) * gmap string Lot) :
  all_within (fst st) → build_step subscribers omega event st = Ok st' → all_within (fst st').
Proof.
  unfold build_step. intros Hall Hstep.
  destruct (event_data event) eqn:Hev; try (by eapply build_other_within).
  apply rbind_Ok in Hstep as (c & Hc & Hstep).
  apply rbind_Ok in Hstep as (lot & _ & [= <-]). simpl.
  apply all_within_insert; [|done].
  unfold composition in Hc. by apply Composition_new_within in Hc as [? _].
Qed.

Lemma build_loop_within (omega : LotRow → string) (events : list LotRow)
    (st st' : gmap string (@Composition D) * gmap string Lot) :
  all_within (fst st) → build_loop subscribers omega events st = Ok st' → all_within (fst st').
Proof.
  revert st. induction events as [|event rest IH]; intros st Hall; simpl.
  - by intros [= <-].
  - intros Hloop. apply rbind_Ok in Hloop as (st1 & Hstep & Hloop).
    eapply IH; [|done]. by eapply build_step_within.
Qed.

(** C7. Every composition the blend fold produces sums to strictly between
    0.9999 and 1.0001, whatever the sums on the [Created] events and on the
    source lots were, and so does every [Composition] the program constructs:
    the validator runs on each construction and the fold raises instead of
    producing a composition outside the tolerance. *)
Theorem compositions_sum_to_one_within_tolerance
    (rows : list LotRow) (omega : LotRow → string) (lot_ids : gset string)
    (effective_at : option datetime) (action_id : option string)
    (lot_compositions : gmap string (@Composition D)) :
  _build_lot_compositions subscribers rows omega lot_ids effective_at action_id
  = Ok lot_compositions →
  (∀ lot_id c, lot_compositions !! lot_id = Some c → within_tolerance c)
  ∧ (∀ cs c, Composition_new cs = Ok c → within_tolerance c)
  ∧ (∀ comps c, composition comps = Ok c → within_tolerance c).
Proof.
  intros Hbuild. split_and!.
  - unfold _build_lot_compositions in Hbuild.
    apply rbind_Ok in Hbuild as (st & Hloop & [= <-]).
    eapply build_loop_within; [|done]. intros k c. simpl. by rewrite lookup_empty.
  - intros cs c Hc. by apply Composition_new_within in Hc as [? _].
  - intros cs c Hc. unfold composition in Hc. by apply Composition_new_within in Hc as [? _].
Qed.

(** *** The blend formula *)

(** The shares a composition contributes to component [c] at a weight, in
    the order of its entries. *)
Definition weighted_shares (c : LotComponent) (weight : D) (components : pydict LotComponent D)
    : list D :=
  map (fun cp => dmul (snd cp) weight) (List.filter (fun cp => bool_decide (fst cp = c)) components).

(** The shares of the source lots with a positive blend volume. *)
Definition blended_shares (c : LotComponent) (new_total_volume : D)
    (lot_compositions : gmap string (@Composition D)) (volumes : pydict string D) : list D :=
  flat_map
    (fun bv =>
       if dleb (snd bv) d0 then []
       else match ddiv (snd bv) new_total_volume, lot_compositions !! fst bv with
            | Some blend_weight, Some blend_composition =>
                weighted_shares c blend_weight (components blend_composition)
            | _, _ => []
            end)
    volumes.

(** The shares of the existing contents: none unless the lot holds a positive
    volume. *)
Definition current_shares (c : LotComponent) (lot_volume new_total_volume : D)
    (lot_composition : @Composition D) : list D :=
  if dltb d0 lot_volume then
    match ddiv lot_volume new_total_volume with
    | Some current_weight => weighted_shares c current_weight (components lot_composition)
    | None => []
    end
  else [].

(** The entry of a component that receives these shares: their sum, added
    from the left onto what was there, and no entry when there is no share. *)
Definition accumulate (start : option D) (shares : list D) : option D :=
  match shares with
  | [] => start
  | _ => Some (fold_left dadd shares (default d0 start))
  end.

Lemma accumulate_Some (y : D) (shares : list D) :
  accumulate (Some y) shares = Some (fold_left dadd shares y).
Proof. by destruct shares. Qed.

Lemma accumulate_app (start : option D) (l1 l2 : list D) :
  accumulate (accumulate start l1) l2 = accumulate start (l1 ++ l2).
Proof.
  destruct l1 as [|x l1]; [done|].
  change (accumulate start (x :: l1)) with (Some (fold_left dadd (x :: l1) (default d0 start))).
  rewrite accumulate_Some. simpl. by rewrite fold_left_app.
Qed.

Lemma add_weighted_get (c : LotComponent) (weight : D) (components acc : pydict LotComponent D) :
  dict_get c (add_weighted weight components acc)
  = accumulate (dict_get c acc) (weighted_shares c weight components).
Proof.
  unfold add_weighted, weighted_shares.
  revert acc. induction components as [|[c' pct] rest IH]; intros acc; simpl; [done|].
  rewrite IH. destruct (decide (c' = c)) as [->|Hne].
  - rewrite bool_decide_eq_true_2 by done. simpl.
    by rewrite dict_get_set_eq, accumulate_Some.
  - rewrite bool_decide_eq_false_2 by done. by rewrite dict_get_set_ne.
Qed.

Lemma add_blended_get (c : LotComponent) (new_total_volume : D)
    (lot_compositions : gmap string (@Composition D)) (volumes : pydict string D)
    (acc acc' : pydict LotComponent D) :
  add_blended new_total_volume lot_compositions volumes acc = Ok acc' →
  dict_get c acc'
  = accumulate (dict_get c acc) (blended_shares c new_total_volume lot_compositions volumes).
Proof.
  unfold blended_shares.
  revert acc. induction volumes as [|[blended_lot_id blend_volume] rest IH]; intros acc; simpl.
  - by intros [= <-].
  - destruct (dleb blend_volume d0); [apply IH|].
    destruct (ddiv blend_volume new_total_volume) as [blend_weight|]; [|done].
    destruct (lot_compositions !! blended_lot_id) as [blend_composition|]; [|done].
    intros Hrest. rewrite (IH _ Hrest), add_weighted_get. apply accumulate_app.
Qed.

Lemma blend_get (c : LotComponent) (lot_volume : D) (lot_composition : @Composition D)
    (volumes : pydict string D) (lot_compositions : gmap string (@Composition D))
    (new_composition : @Composition D) :
  blend lot_volume lot_composition volumes lot_compositions = Ok new_composition →
  let new_total_volume := dadd lot_volume (fold_left dadd (dict_values volumes) d0) in
  dict_get c (components new_composition)
  = accumulate None
      (current_shares c lot_volume new_total_volume lot_composition
       ++ blended_shares c new_total_volume lot_compositions volumes).
Proof.
  unfold blend, current_shares. intros Hblend. simpl.
  apply rbind_Ok in Hblend as (cs0 & Hcs0 & Hblend).
  apply rbind_Ok in Hblend as (cs1 & Hcs1 & Hblend).
  apply Composition_new_within in Hblend as [_ ->].
  rewrite (add_blended_get c _ _ _ _ _ Hcs1), <- accumulate_app. f_equal.
  destruct (dltb d0 lot_volume).
  - destruct (ddiv lot_volume _) as [current_weight|]; [|done].
    injection Hcs0 as <-. by rewrite add_weighted_get.
  - by injection Hcs0 as <-.
Qed.

(** C6, as the code has it. A [VolumeBlended] event replaces the composition
    of its lot: each component gets the sum of its shares, which are the
    existing composition scaled by [V_old / V_new] when [V_old] is positive
    (nothing of the existing composition otherwise) followed by, for each
    source lot with a positive blend volume, that lot's current composition
    scaled by [blend_volume / V_new]. A [Created] event sets the composition of
    its lot; every other kind of event leaves the compositions as they are. *)
Theorem blend_replaces_the_composition_by_the_weighted_mix
    (omega : LotRow → string) (event : LotRow)
    (lot_compositions : gmap string (@Composition D)) (lots : gmap string Lot)
    (st' : gmap string (@Composition D) * gmap string Lot) :
  build_step subscribers omega event (lot_compositions, lots) = Ok st' →
  match event_data event with
  | WineLotCreated _ _ comps _ =>
      ∃ c, composition comps = Ok c ∧ fst st' = <[aggregate_id event := c]> lot_compositions
  | VolumeBlended _ _ _ volumes _ =>
      ∃ lot lot_composition new_composition,
        lots !! aggregate_id event = Some lot
        ∧ lot_compositions !! aggregate_id event = Some lot_composition
        ∧ fst st' = <[aggregate_id event := new_composition]> lot_compositions
        ∧ let V_old := volume (fields lot) in
          let V_new := dadd V_old (fold_left dadd (dict_values volumes) d0) in
          ∀ c, dict_get c (components new_composition)
               = accumulate None
                   (current_shares c V_old V_new lot_composition
                    ++ blended_shares c V_new lot_compositions volumes)
  | _ => fst st' = lot_compositions
  end.
Proof.
  unfold build_step. simpl. intros Hstep.
  destruct (event_data event) eqn:Hev.
  - apply rbind_Ok in Hstep as (c & Hc & Hstep).
    apply rbind_Ok in Hstep as (lot & _ & [= <-]). eauto.
  - unfold build_other in Hstep. simpl in Hstep.
    destruct (lots !! aggregate_id event) as [lot|]; [|done].
    apply rbind_Ok in Hstep as (lot' & _ & [= <-]). done.
  - unfold build_other in Hstep. simpl in Hstep.
    destruct (lots !! aggregate_id event) as [lot|]; [|done].
    apply rbind_Ok in Hstep as (lot' & _ & [= <-]). done.
  - unfold build_other in Hstep. simpl in Hstep.
    destruct (lots !! aggregate_id event) as [lot|]; [|done].
    apply rbind_Ok in Hstep as (comps' & Hcomps & Hstep).
    apply rbind_Ok in Hstep as (lot' & _ & [= <-]). simpl.
    destruct (lot_compositions !! aggregate_id event) as [lot_composition|]; [|done].
    apply rbind_Ok in Hcomps as (new_composition & Hblend & [= <-]).
    exists lot, lot_composition, new_composition. split_and!; try done.
    intros c. by apply blend_get.
  - unfold build_other in Hstep. simpl in Hstep.
    destruct (lots !! aggregate_id event) as [lot|]; [|done].
    apply rbind_Ok in Hstep as (lot' & _ & [= <-]). done.
  - unfold build_other in Hstep. simpl in Hstep.
    destruct (lots !! aggregate_id event) as [lot|]; [|done].
    apply rbind_Ok in Hstep as (lot' & _ & [= <-]). done.
  - unfold build_other in Hstep. simpl in Hstep.
    destruct (lots !! aggregate_id event) as [lot|]; [|done].
    apply rbind_Ok in Hstep as (lot' & Hl & Hstep). by injection Hstep as <-.
  - unfold build_other in Hstep. simpl in Hstep.
    destruct (lots !! aggregate_id event) as [lot|]; [|done].
    apply rbind_Ok in Hstep as (lot' & Hl & Hstep). by injection Hstep as <-.
Qed.

(** The blend as the specification words it: the existing composition scaled
    by [V_old / V_new], plus, for each source lot with a positive blend
    volume, that lot's composition scaled by [blend_volume / V_new]. *)
Definition scaled (weight : D) (components : pydict LotComponent D) : pydict LotComponent D :=
  map (fun cp => (fst cp, dmul (snd cp) weight)) components.

Definition plus (a b : pydict LotComponent D) : pydict LotComponent D :=
  fold_left
    (fun acc cp => dict_set (fst cp) (dadd (default d0 (dict_get (fst cp) acc)) (snd cp)) acc)
    b a.

Definition spec_blend (V_old : D) (existing : @Composition D) (volumes : pydict string D)
    (lot_compositions : gmap string (@Composition D)) : option (pydict LotComponent D) :=
  let V_new := dadd V_old (dsum (dict_values volumes)) in
  current_weight ← ddiv V_old V_new;
  fold_left
    (fun acc bv =>
       acc ← acc;
       if dltb d0 (snd bv) then
         blend_weight ← ddiv (snd bv) V_new;
         source ← lot_compositions !! fst bv;
         Some (plus acc (scaled blend_weight (components source)))
       else Some acc)
    volumes (Some (scaled current_weight (components existing))).

(** *** The cutoff of the projection and of the replay *)

(** The window of the replay at the whole second of [t] lies in its window
    at [t]: it holds the rows of that window that occurred before the whole
    second, or at it with a sequence number that is at most [s]. *)
Lemma events_after_and_including_whole_second
    (keys : list string) (t : datetime) (s : string) (rows : list LotRow) (r : LotRow) :
  r ∈ events_after_and_including WineLot keys (replace_microsecond_0 t) s rows
  ↔ r ∈ events_after_and_including WineLot keys t s rows
    ∧ (occurred_at r < replace_microsecond_0 t
       ∨ (occurred_at r = replace_microsecond_0 t
          ∧ ∃ x, sequence_number r = Some x ∧ String.leb x s = true)).
Proof.
  destruct (replace_microsecond_0_whole_second t) as [_ [Hle _]].
  unfold events_after_and_including. rewrite !elem_of_objects_filter.
  rewrite !andb_true_iff, !orb_true_iff, !andb_true_iff, !bool_decide_eq_true.
  rewrite !Z.ltb_lt, !Z.eqb_eq, !sequence_number__lte_true.
  split.
  - intros (Hin & Hmodel & Hkey & Hcut). split; [|done].
    split_and!; try done. destruct Hcut as [Hlt|[Heq Hseq]].
    + left. lia.
    + destruct (decide (replace_microsecond_0 t = t)) as [Hwhole|Hpart].
      * right. split; [congruence|done].
      * left. lia.
  - intros [(Hin & Hmodel & Hkey & _) Hcut]. done.
Qed.

#[local] Instance cutoff_aggregates :
  Aggregates (@WineLotEvent D) (@WineLotFields D) string Model := winemaking subscribers.

(** C5, as the code has it. The cutoff of the composition projection is the
    cutoff of the write-side replay, applied at the whole second. With
    [effective_at] only, [_build_lot_compositions] selects the rows with
    [occurred_at ≤ effective_at]; with [effective_at] and [action_id] it
    selects those with [occurred_at < effective_at], or
    [occurred_at = effective_at] and a sequence number (not NULL) that is
    [≤ action_id]; on the same lots and cutoff it fetches the rows that
    [load_editable_aggregates_at_time_and_point] (resp.
    [load_editable_aggregates_at_time]) fetches. [calculate_composition]
    replaces [effective_at] by its whole second first: its result at
    [effective_at] is its result at that second, the composition folded from
    the window of the replay at that second. The replay takes the time as it
    is given: when it returns, the rows it has queued for deletion are the
    rows of its window at that time that carry the sequence number, and the
    state of each aggregate is folded from that window. The window at the
    whole second lies in the window at the time, and the two are the same
    when the time is a whole second. *)
Theorem composition_cutoff_is_the_replay_cutoff
    (w : @World (@WineLotEvent D) (@WineLotFields D) Model _ _) (omega : LotRow → string)
    (lot_ids : gset string) (effective_at : datetime) (action_id : string) :
  let rows := event_rows (db w) in
  let whole_second := replace_microsecond_0 effective_at in
  (∀ r, r ∈ relevant_events rows lot_ids (Some effective_at) None
        ↔ r ∈ rows ∧ ev_model r = WineLot ∧ aggregate_id r ∈ lot_ids
          ∧ occurred_at r ≤ effective_at)
  ∧ (∀ r, r ∈ relevant_events rows lot_ids (Some effective_at) (Some action_id)
          ↔ r ∈ rows ∧ ev_model r = WineLot ∧ aggregate_id r ∈ lot_ids
            ∧ (occurred_at r < effective_at
               ∨ (occurred_at r = effective_at
                  ∧ ∃ x, sequence_number r = Some x ∧ String.leb x action_id = true)))
  ∧ relevant_events rows lot_ids (Some effective_at) (Some action_id)
    = events_after_and_including WineLot (elements lot_ids) effective_at action_id rows
  ∧ relevant_events rows lot_ids (Some effective_at) None
    = events_before_or_including WineLot (elements lot_ids) effective_at rows
  ∧ (∀ lot_id action,
       calculate_composition subscribers (db w) omega lot_id (Some effective_at) action
       = calculate_composition subscribers (db w) omega lot_id (Some whole_second) action)
  ∧ (∀ lot_id,
       is_Some (aggregate_rows (db w) !! (WineLot, lot_id)) →
       ∃ found,
         _get_all_lot_ids rows lot_id (Some whole_second) (Some action_id) = Some found
         ∧ calculate_composition subscribers (db w) omega lot_id (Some effective_at) (Some action_id)
           = (st ← build_loop subscribers omega
                     (events_after_and_including WineLot (elements found) whole_second
                        action_id rows) (∅, ∅);
              match fst st !! lot_id with
              | Some c => Ok c
              | None => Raise (KeyError lot_id)
              end))
  ∧ (∀ aggregates by_id w' first a0,
       load_editable_aggregates_at_time_and_point aggregates effective_at action_id omega w
       = (Ok by_id, w') →
       Forall (fun r => is_Some (heap w !! r)) aggregates →
       NoDup (omap (fun r => pk <$> heap w !! r) aggregates) →
       head aggregates = Some first → heap w !! first = Some a0 →
       let keys := omap (fun r => pk <$> heap w !! r) aggregates in
       let fetched :=
         events_after_and_including (get_event_model a0) keys effective_at action_id rows in
       (∀ m, default [] (dict_get m (_deleted_event_stores (repository w')))
             = default [] (dict_get m (_deleted_event_stores (repository w)))
               ++ List.filter
                    (fun r => bool_decide (ev_model r = m)
                              && bool_decide (sequence_number r = Some action_id))
                    fetched)
       ∧ (∀ r a, r ∈ aggregates → heap w !! r = Some a →
            ∃ final,
              object_at by_id (heap w') (pk a) = Some final
              ∧ replayed_at_point omega (get_event_model a0) keys effective_at action_id
                  rows (pk a) (editable_seed a) = Ok final))
  ∧ (∀ keys r,
       r ∈ events_after_and_including WineLot keys whole_second action_id rows
       ↔ r ∈ events_after_and_including WineLot keys effective_at action_id rows
         ∧ (occurred_at r < whole_second
            ∨ (occurred_at r = whole_second
               ∧ ∃ x, sequence_number r = Some x ∧ String.leb x action_id = true)))
  ∧ (effective_at mod 1000000 = 0 →
     ∀ keys,
       events_after_and_including WineLot keys whole_second action_id rows
       = events_after_and_including WineLot keys effective_at action_id rows).
Proof.
  cbv zeta. split_and!.
  - apply relevant_events_effective_at.
  - apply relevant_events_action_id.
  - apply relevant_events_after_and_including.
  - apply relevant_events_before_or_including.
  - intros lot_id action. unfold calculate_composition.
    change (replace_microsecond_0 <$> Some ?t) with (Some (replace_microsecond_0 t)).
    by rewrite replace_microsecond_0_idemp.
  - intros lot_id [lot Hlot].
    destruct (_get_all_lot_ids_returns (event_rows (db w)) lot_id
                (Some (replace_microsecond_0 effective_at)) (Some action_id))
      as [found Hfound].
    exists found. split; [exact Hfound|].
    unfold calculate_composition.
    change (replace_microsecond_0 <$> Some ?t) with (Some (replace_microsecond_0 t)).
    rewrite Hlot, Hfound. simpl. unfold _build_lot_compositions.
    rewrite relevant_events_after_and_including.
    by destruct (build_loop subscribers omega _ _).
  - intros aggregates by_id w' first a0 Hrun Hvalid Hpks Hfirst Ha0. cbv zeta.
    destruct (editable_replay_spec aggregates effective_at action_id omega w w' by_id first a0
                Hrun Hvalid Hpks Hfirst Ha0) as (_ & _ & Hstates & Hmarked).
    split; [|exact Hstates].
    intros m. rewrite Hmarked. f_equal. apply List.filter_ext. intros r.
    unfold not_at. by rewrite negb_involutive.
  - intros keys r. apply events_after_and_including_whole_second.
  - intros Hwhole keys. unfold replace_microsecond_0. rewrite Hwhole. by rewrite Z.sub_0_r.
Qed.

End composition_properties.

(** ** The search of [_get_all_lot_ids] finds the upstream lots *)

Section upstream_lots.
Context {D : Type} `{!DecimalArith D}.
Local Abbreviation LotRow := (AggregateEventModel (@WineLotEvent D) Model).

(** A stored blend, within the cutoff, moved volume from [source] into
    [target]. *)
Definition blended_from (rows : list LotRow) (effective_at : option datetime)
    (action_id : option string) (target source : string) : Prop :=
  ∃ event, event ∈ blend_events rows target effective_at action_id
           ∧ match event_data event with
             | VolumeBlended _ _ _ volumes _ => source ∈ dict_keys volumes
             | _ => False
             end.

Lemma discover_sources_spec (ids : list string) (acc : gset string * list string) :
  let acc' :=
    fold_left
      (fun acc source_lot_id =>
         if bool_decide (source_lot_id ∈ fst acc) then acc
         else ({[source_lot_id]} ∪ fst acc, snd acc ++ [source_lot_id]))
      ids acc in
  (∀ y, y ∈ fst acc' ↔ y ∈ fst acc ∨ y ∈ ids)
  ∧ (∀ y, y ∈ snd acc' ↔ y ∈ snd acc ∨ (y ∈ fst acc' ∧ y ∉ fst acc)).
Proof.
  cbv zeta. revert acc. induction ids as [|id ids IH]; intros acc; simpl.
  - split; intros y; [rewrite elem_of_nil|]; tauto.
  - destruct (IH (if bool_decide (id ∈ fst acc) then acc
                  else ({[id]} ∪ fst acc, snd acc ++ [id]))) as [Hd Hq].
    split; intros y.
    + rewrite Hd, elem_of_cons. case_bool_decide as Hseen; simpl.
      * split; [tauto|]. intros [?|[->|?]]; tauto.
      * rewrite elem_of_union, elem_of_singleton. tauto.
    + rewrite Hq, Hd. case_bool_decide as Hseen; simpl; [tauto|].
      rewrite elem_of_app, list_elem_of_singleton, elem_of_union, elem_of_singleton.
      destruct (decide (y = id)) as [->|Hne]; [tauto|]. tauto.
Qed.

Lemma discover_spec (events : list LotRow) (acc : gset string * list string) :
  (∀ y, y ∈ fst (discover events acc) ↔
        y ∈ fst acc
        ∨ ∃ event, event ∈ events
                   ∧ match event_data event with
                     | VolumeBlended _ _ _ volumes _ => y ∈ dict_keys volumes
                     | _ => False
                     end)
  ∧ (∀ y, y ∈ snd (discover events acc) ↔
          y ∈ snd acc ∨ (y ∈ fst (discover events acc) ∧ y ∉ fst acc)).
Proof.
  unfold discover. revert acc. induction events as [|event events IH]; intros acc; simpl.
  - split; intros y; [|tauto]. split; [by left|]. intros [?|(event & Hin & _)]; [done|].
    by apply elem_of_nil in Hin.
  - match goal with |- context [fold_left ?f events ?acc1] =>
      destruct (IH acc1) as [Hd Hq]; set (acc' := acc1) in *
    end.
    assert ((∀ y, y ∈ fst acc' ↔
                  y ∈ fst acc
                  ∨ match event_data event with
                    | VolumeBlended _ _ _ volumes _ => y ∈ dict_keys volumes
                    | _ => False
                    end)
            ∧ (∀ y, y ∈ snd acc' ↔ y ∈ snd acc ∨ (y ∈ fst acc' ∧ y ∉ fst acc)))
      as [Hd1 Hq1].
    { unfold acc'. destruct (event_data event); try (split; intros y; tauto).
      apply discover_sources_spec. }
    split; intros y.
    + rewrite Hd, Hd1. split.
      * intros [[?|?]|(event' & Hin & Hsource)]; [by left|right..].
        -- exists event. split; [left|done].
        -- exists event'. split; [by right|done].
      * intros [?|(event' & Hin & Hsource)]; [by left; left|].
        apply elem_of_cons in Hin as [->|Hin]; [by left; right|].
        right. by exists event'.
    + rewrite Hq, Hq1. split.
      * intros [[?|[? ?]]|[? Hnew]]; [by left|right..].
        -- split; [|done]. apply Hd. by left.
        -- split; [done|]. intros Hold. apply Hnew. apply Hd1. by left.
      * intros [?|[Hin Hnew]]; [by left; left|].
        destruct (decide (y ∈ fst acc')) as [Hmid|Hmid]; [left; right|right]; done.
Qed.

(** What the search keeps true: every discovered lot is upstream of the
    target, the queue holds discovered lots, and the sources of a discovered
    lot that has left the queue are discovered. *)
Record searching (rows : list LotRow) (effective_at : option datetime)
    (action_id : option string) (lot_id : string)
    (discovered : gset string) (queue : list string) : Prop := {
  searching_target : lot_id ∈ discovered;
  searching_sound :
    ∀ x, x ∈ discovered → rtc (blended_from rows effective_at action_id) lot_id x;
  searching_queue : ∀ x, x ∈ queue → x ∈ discovered;
  searching_closed :
    ∀ x y, x ∈ discovered → x ∉ queue →
           blended_from rows effective_at action_id x y → y ∈ discovered
}.

Lemma closed_holds_the_reachable (rows : list LotRow) (effective_at : option datetime)
    (action_id : option string) (discovered : gset string) (x z : string) :
  (∀ x y, x ∈ discovered → blended_from rows effective_at action_id x y → y ∈ discovered) →
  rtc (blended_from rows effective_at action_id) x z → x ∈ discovered → z ∈ discovered.
Proof. intros Hclosed Hreach. induction Hreach; eauto. Qed.

Lemma search_spec (rows : list LotRow) (effective_at : option datetime)
    (action_id : option string) (lot_id : string) (fuel : nat)
    (discovered : gset string) (queue : list string) (lot_ids : gset string) :
  searching rows effective_at action_id lot_id discovered queue →
  search fuel rows effective_at action_id discovered queue = Some lot_ids →
  ∀ x, x ∈ lot_ids ↔ rtc (blended_from rows effective_at action_id) lot_id x.
Proof.
  revert discovered queue.
  induction fuel as [|fuel IH]; intros discovered queue [Hid Hsound Hqueue Hclosed].
  - destruct queue as [|current queue]; simpl; [|done]. intros [= <-] x. split; [auto|].
    intros Hreach. eapply closed_holds_the_reachable; [|exact Hreach|exact Hid].
    intros x' y' Hx' Hstep. eapply Hclosed; [exact Hx'|apply not_elem_of_nil|exact Hstep].
  - destruct queue as [|current queue]; simpl.
    + intros [= <-] x. split; [auto|].
      intros Hreach. eapply closed_holds_the_reachable; [|exact Hreach|exact Hid].
      intros x' y' Hx' Hstep. eapply Hclosed; [exact Hx'|apply not_elem_of_nil|exact Hstep].
    + destruct (discover_spec (blend_events rows current effective_at action_id)
                  (discovered, queue)) as [Hd Hq].
      destruct (discover _ _) as [discovered' queue'] eqn:Hdiscover. simpl in Hd, Hq.
      apply IH. split.
      * apply Hd. by left.
      * intros x Hx. apply Hd in Hx as [Hx|(event & Hevent & Hsource)]; [by apply Hsound|].
        eapply rtc_r; [apply Hsound, Hqueue; left|]. by exists event.
      * intros x Hx. apply Hq in Hx as [Hx|[Hx _]]; [|done].
        apply Hd. left. apply Hqueue. by right.
      * intros x y Hx Hleft Hstep.
        destruct (decide (x = current)) as [->|Hne].
        -- apply Hd. right. exact Hstep.
        -- assert (x ∈ discovered) as Hold.
           { destruct (decide (x ∈ discovered)) as [?|Hnew]; [done|].
             exfalso. apply Hleft, Hq. by right. }
           apply Hd. left. eapply Hclosed; [exact Hold| |exact Hstep].
           intros Hin. apply elem_of_cons in Hin as [?|Hin]; [done|].
           apply Hleft, Hq. by left.
Qed.

(** X22. [_get_all_lot_ids] returns, and the set it returns holds exactly the
    lots upstream of the target within the cutoff: the target itself and
    every lot that a chain of stored blends, each within the cutoff, leads
    from to the target. *)
Theorem lot_ids_are_the_upstream_lots (rows : list LotRow) (lot_id : string)
    (effective_at : option datetime) (action_id : option string) :
  ∃ lot_ids,
    _get_all_lot_ids rows lot_id effective_at action_id = Some lot_ids
    ∧ ∀ x, x ∈ lot_ids ↔ rtc (blended_from rows effective_at action_id) lot_id x.
Proof.
  destruct (_get_all_lot_ids_returns rows lot_id effective_at action_id) as [lot_ids Hids].
  exists lot_ids. split; [done|].
  eapply search_spec; [|exact Hids]. split.
  - by apply elem_of_singleton.
  - intros x Hx. by apply elem_of_singleton in Hx as ->.
  - intros x Hx. apply list_elem_of_singleton in Hx as ->. by apply elem_of_singleton.
  - intros x y Hx Hleft. apply elem_of_singleton in Hx as ->.
    exfalso. apply Hleft. by apply list_elem_of_singleton.
Qed.

End upstream_lots.

(** ** The blend in exact arithmetic *)

Section exact_blend.
Local Open Scope Q_scope.

(** The sum of a list of rationals, and of the values of a dictionary. *)
Definition Qsum (values : list Q) : Q := fold_right Qplus 0 values.

Definition total (components : pydict LotComponent Q) : Q := Qsum (dict_values components).

Lemma fold_left_dadd_Qsum (values : list Q) (start : Q) :
  fold_left dadd values start == start + Qsum values.
Proof.
  revert start. induction values as [|x values IH]; intros start; simpl.
  - ring.
  - rewrite IH, Qred_correct. ring.
Qed.

Lemma dsum_Qsum (values : list Q) : dsum values == Qsum values.
Proof. unfold dsum. rewrite fold_left_dadd_Qsum. simpl. ring. Qed.

Lemma total_dict_set (c : LotComponent) (share : Q) (acc : pydict LotComponent Q) :
  total (dict_set c (dadd (default d0 (dict_get c acc)) share) acc) == total acc + share.
Proof.
  unfold total. induction acc as [|[c' pct] acc IH]; simpl.
  - rewrite Qred_correct. ring.
  - destruct (decide (c = c')) as [->|Hne]; simpl.
    + rewrite Qred_correct. ring.
    + rewrite IH. ring.
Qed.

Lemma total_add_weighted (weight : Q) (components acc : pydict LotComponent Q) :
  total (add_weighted weight components acc) == total acc + total components * weight.
Proof.
  unfold add_weighted. revert acc.
  induction components as [|[c pct] rest IH]; intros acc; cbn [fold_left fst snd].
  - unfold total. simpl. ring.
  - rewrite IH, total_dict_set.
    change (dmul pct weight) with (Qred (pct * weight)). rewrite Qred_correct.
    unfold total. simpl. ring.
Qed.

(** What the source lots contribute: the positive volumes. *)
Definition contributing (volumes : pydict string Q) : list Q :=
  map (fun bv => if Qle_bool (snd bv) 0 then 0 else snd bv) volumes.

Lemma contributing_nonnegative (volumes : pydict string Q) :
  Forall (fun bv => 0 <= snd bv) volumes →
  Qsum (contributing volumes) == Qsum (dict_values volumes).
Proof.
  induction 1 as [|[id v] volumes Hv _ IH]; simpl; [reflexivity|].
  rewrite IH. destruct (Qle_bool v 0) eqn:Hle; [|reflexivity].
  apply Qle_bool_iff in Hle. simpl in Hv.
  assert (v == 0) as -> by (by apply Qle_antisym). reflexivity.
Qed.

Lemma total_add_blended (new_total_volume : Q)
    (lot_compositions : gmap string (@Composition Q)) (volumes : pydict string Q)
    (acc : pydict LotComponent Q) :
  ¬ new_total_volume == 0 →
  (∀ id v, (id, v) ∈ volumes → Qle_bool v 0 = false →
     ∃ c, lot_compositions !! id = Some c ∧ total (components c) == 1) →
  ∃ acc', add_blended new_total_volume lot_compositions volumes acc = Ok acc'
          ∧ total acc' == total acc + Qsum (contributing volumes) / new_total_volume.
Proof.
  intros Hpositive. revert acc.
  induction volumes as [|[id v] volumes IH]; intros acc Hsources; cbn [add_blended].
  - exists acc. split; [done|]. simpl. field. done.
  - change (dleb v d0) with (Qle_bool v 0).
    destruct (Qle_bool v 0) eqn:Hle.
    + destruct (IH acc) as (acc' & -> & Htotal).
      { intros id' v' Hin. apply Hsources. by right. }
      exists acc'. split; [done|]. rewrite Htotal. simpl. rewrite Hle. field. done.
    + change (ddiv v new_total_volume)
        with (if Qeq_bool new_total_volume 0 then None
              else Some (Qred (v / new_total_volume))).
      destruct (Qeq_bool new_total_volume 0) eqn:Hzero.
      { by apply Qeq_bool_iff in Hzero. }
      destruct (Hsources id v) as (c & -> & Hc); [left|done|].
      destruct (IH (add_weighted (Qred (v / new_total_volume)) (components c) acc))
        as (acc' & -> & Htotal).
      { intros id' v' Hin. apply Hsources. by right. }
      exists acc'. split; [done|].
      rewrite Htotal, total_add_weighted, Hc, Qred_correct. simpl. rewrite Hle. field. done.
Qed.

(** In exact arithmetic the blend of compositions that sum to 1 sums to 1,
    and the validator accepts it: for a receiving lot and source lots without
    negative volumes and a positive new total, the [VOLUME_BLENDED] branch
    returns. *)
Lemma blend_of_unit_compositions (lot_volume : Q) (lot_composition : @Composition Q)
    (volumes : pydict string Q) (lot_compositions : gmap string (@Composition Q)) :
  0 <= lot_volume → Forall (fun bv => 0 <= snd bv) volumes →
  0 < lot_volume + Qsum (dict_values volumes) →
  total (components lot_composition) == 1 →
  (∀ id v, (id, v) ∈ volumes → Qle_bool v 0 = false →
     ∃ c, lot_compositions !! id = Some c ∧ total (components c) == 1) →
  ∃ c, blend lot_volume lot_composition volumes lot_compositions = Ok c
       ∧ total (components c) == 1.
Proof.
  intros Hvolume Hvolumes Hpositive Hunit Hsources. unfold blend. cbv zeta.
  set (new_total_volume := dadd lot_volume (fold_left dadd (dict_values volumes) d0)).
  assert (new_total_volume == lot_volume + Qsum (dict_values volumes)) as Htotal.
  { unfold new_total_volume. change (dadd ?x ?y) with (Qred (x + y)) at 1.
    rewrite Qred_correct, fold_left_dadd_Qsum. simpl. ring. }
  assert (¬ new_total_volume == 0) as Hnonzero.
  { rewrite Htotal. intros Hzero. rewrite Hzero in Hpositive. by apply Qlt_irrefl in Hpositive. }
  assert (∃ current,
            (if dltb d0 lot_volume then
               match ddiv lot_volume new_total_volume with
               | None => Raise DivisionByZero
               | Some current_weight =>
                   Ok (add_weighted current_weight (components lot_composition) [])
               end
             else Ok []) = Ok current
            ∧ total current == lot_volume / new_total_volume) as (current & -> & Hcurrent).
  { change (dltb d0 lot_volume) with (negb (Qle_bool lot_volume 0)).
    destruct (Qle_bool lot_volume 0) eqn:Hle; simpl.
    - exists []. split; [done|]. apply Qle_bool_iff in Hle.
      assert (lot_volume == 0) as -> by (by apply Qle_antisym).
      unfold total. simpl. field. done.
    - destruct (Qeq_bool new_total_volume 0) eqn:Hzero.
      { by apply Qeq_bool_iff in Hzero. }
      eexists. split; [done|].
      rewrite total_add_weighted, Hunit, Qred_correct. unfold total. simpl. ring. }
  cbn [mbind result_bind rbind].
  destruct (total_add_blended new_total_volume lot_compositions volumes current Hnonzero Hsources)
    as (new_components & -> & Hnew).
  cbn [mbind result_bind rbind].
  assert (total new_components == 1) as Hone.
  { rewrite Hnew, Hcurrent, (contributing_nonnegative volumes Hvolumes).
    rewrite Htotal in *. field. done. }
  exists {| components := new_components |}. split; [|done].
  unfold Composition_new, validate_percentages. cbn [components].
  assert (dsum (dict_values new_components) == 1) as Hsum by (by rewrite dsum_Qsum).
  change (dltb ?x ?y) with (negb (Qle_bool y x)).
  destruct (Qle_bool (dsum (dict_values new_components)) d_lo) eqn:Hlo.
  { apply Qle_bool_iff in Hlo. rewrite Hsum in Hlo. by vm_compute in Hlo. }
  destruct (Qle_bool d_hi (dsum (dict_values new_components))) eqn:Hhi.
  { apply Qle_bool_iff in Hhi. rewrite Hsum in Hhi. by vm_compute in Hhi. }
  done.
Qed.

End exact_blend.

(** ** The WineLot aggregate *)

Section wine_lot_properties.
Context {D : Type} `{!DecimalArith D}.
Variable subscribers : @WineLotEvent D → option exn.
#[local] Instance wine_lot_aggregates :
  Aggregates (@WineLotEvent D) (@WineLotFields D) string Model := winemaking subscribers.
Local Abbreviation LotRow := (AggregateEventModel (@WineLotEvent D) Model).
Local Abbreviation Lot := (AggregateModel (@WineLotEvent D) (@WineLotFields D) Model).

Lemma WineLot_create_Ok (next_id code' : string) (composition : @Composition D)
    (w w' : @World (@WineLotEvent D) (@WineLotFields D) Model _ _) (r : ref) :
  WineLot_create subscribers next_id code' composition w = (Ok r, w') →
  ∃ lot,
    heap w' !! r = Some lot
    ∧ pk lot = next_id
    ∧ get_recorded_events lot
      = [WineLotCreated next_id code'
           (map (fun cp => {| component := fst cp; percent := snd cp |}) (components composition))
           CREATION_OCCURRED_AT].
Proof.
  unfold WineLot_create, st_bind, st_lift, alloc, apply, st_bind, deref, st_lift, assign,
    st_modify, st_ret.
  destruct (_validate_code code'); [|done]. simpl.
  rewrite list_lookup_middle by done. simpl.
  intros [= <- <-]. simpl. eexists. split.
  - apply list_lookup_insert_eq. rewrite length_app. simpl. lia.
  - done.
Qed.

(** C10, as the code has it. The [WineLotCreated] event of [WineLot.create]
    is stamped 1970-01-01T00:00:00 and carries no sequence number. Its row
    therefore precedes, in canonical order, every row that occurred later than
    that instant, or at that instant with a sequence number or a larger id; and
    it is selected by the inclusive cutoff [occurred_at ≤ t] when [t] is not
    before that instant, and by the cutoff at a point [(t, action_id)] when
    [t] is later than that instant. *)
Theorem creation_event_is_stamped_1970
    (next_id code' : string) (composition : @Composition D)
    (w w' : @World (@WineLotEvent D) (@WineLotFields D) Model _ _) (r : ref) :
  WineLot_create subscribers next_id code' composition w = (Ok r, w') →
  ∃ lot event,
    heap w' !! r = Some lot
    ∧ get_recorded_events lot = [event]
    ∧ event_type event = CREATED
    ∧ event_occurred_at event = Some CREATION_OCCURRED_AT
    ∧ ∀ (n : Z) (t : datetime),
        let created := store_row WineLot n t event in
        occurred_at created = CREATION_OCCURRED_AT
        ∧ sequence_number created = None
        ∧ aggregate_id created = next_id
        ∧ (∀ other : LotRow,
             CREATION_OCCURRED_AT < occurred_at other
             ∨ (occurred_at other = CREATION_OCCURRED_AT
                ∧ (is_Some (sequence_number other) ∨ n < ev_id other)) →
             canonical_leb created other = true ∧ canonical_leb other created = false)
        ∧ (∀ (rows : list LotRow) (lot_ids : gset string) (cutoff : datetime),
             created ∈ rows → next_id ∈ lot_ids → CREATION_OCCURRED_AT ≤ cutoff →
             created ∈ relevant_events rows lot_ids (Some cutoff) None
             ∧ created ∈ events_before_or_including WineLot (elements lot_ids) cutoff rows)
        ∧ (∀ (rows : list LotRow) (lot_ids : gset string) (cutoff : datetime) (s : string),
             created ∈ rows → next_id ∈ lot_ids → CREATION_OCCURRED_AT < cutoff →
             created ∈ relevant_events rows lot_ids (Some cutoff) (Some s)
             ∧ created ∈ events_after_and_including WineLot (elements lot_ids) cutoff s rows).
Proof.
  intros Hcreate. apply WineLot_create_Ok in Hcreate as (lot & Hlot & Hpk & Hrec).
  eexists lot, _. split_and!; [done|exact Hrec|done|done|].
  intros n t. simpl. split_and!; try done.
  - intros other Hother. unfold canonical_leb, CREATION_OCCURRED_AT in *. simpl.
    destruct Hother as [Hlater|[-> Hsame]].
    + replace (0 <? occurred_at other) with true by (symmetry; by apply Z.ltb_lt).
      replace (occurred_at other <? 0) with false by (symmetry; apply Z.ltb_ge; lia).
      done.
    + simpl. destruct (sequence_number other) as [x|] eqn:Hseq.
      * by rewrite !decide_False by done.
      * rewrite !decide_True by done. destruct Hsame as [[? [=]]|Hid].
        split; [apply Z.leb_le|apply Z.leb_gt]; lia.
  - intros rows lot_ids cutoff Hin Hid Hcut.
    rewrite <- relevant_events_before_or_including.
    split; apply relevant_events_effective_at; done.
  - intros rows lot_ids cutoff s Hin Hid Hcut.
    rewrite <- relevant_events_after_and_including.
    split; apply relevant_events_action_id; split_and!; try done; by left.
Qed.

End wine_lot_properties.

(** ** [AggregateModel.apply] *)

Section apply_properties.
Context {E F U M : Type} `{Countable M} `{!Aggregates E F U M}.
Local Abbreviation Agg := (AggregateModel E F M).
Local Abbreviation WorldT := (@World E F M _ _).

(** The world after [apply] has loaded the event onto [self]. *)
Definition applied (r : ref) (loaded : Agg) (event : E) (w : WorldT) : WorldT :=
  let self' := with_recorded_events loaded (get_recorded_events loaded ++ [event]) in
  let w1 := with_heap w (<[r := self']> (heap w)) in
  if is_persistable self' then with_repository w1 (add r self' (repository w1)) else w1.

Lemma apply_unfold (r : ref) (event : E) (u : U) (w : WorldT) :
  apply r event u w
  = match heap w !! r with
    | None => (Raise TypeError, w)
    | Some self =>
        match load self event u with
        | Raise e => (Raise e, w)
        | Ok loaded => (Ok tt, applied r loaded event w)
        end
    end.
Proof.
  unfold apply, applied, st_bind, deref, st_lift, assign, st_modify, st_ret.
  destruct (heap w !! r) as [self|]; [|done].
  destruct (load self event u) as [loaded|e]; [|done]. simpl.
  by destruct (is_persistable _).
Qed.

Lemma applied_frame (r : ref) (loaded : Agg) (event : E) (w : WorldT) :
  db (applied r loaded event w) = db w
  ∧ trace (applied r loaded event w) = trace w
  ∧ now (applied r loaded event w) = now w
  ∧ heap (applied r loaded event w)
    = <[r := with_recorded_events loaded (get_recorded_events loaded ++ [event])]> (heap w).
Proof. unfold applied. by destruct (is_persistable _). Qed.

Lemma applied_lookup (r : ref) (self loaded : Agg) (event : E) (w : WorldT) :
  heap w !! r = Some self →
  heap (applied r loaded event w) !! r
  = Some (with_recorded_events loaded (get_recorded_events loaded ++ [event])).
Proof.
  intros Hself. destruct (applied_frame r loaded event w) as (_ & _ & _ & ->).
  apply list_lookup_insert_eq. by eapply lookup_lt_Some.
Qed.

End apply_properties.

(** ** [AggregateModel.persist] *)

Section persist_properties.
Context {E F U M : Type} `{Countable M} `{!Aggregates E F U M}.
Local Abbreviation Agg := (AggregateModel E F M).
Local Abbreviation Table := (gmap (M * string) (StoredAggregate F)).

Lemma varchar_fits (n : nat) (s : string) : (len s ≤ n)%nat → varchar n s = Ok s.
Proof. intros Hfits. unfold varchar. by rewrite (proj2 (Nat.leb_le _ _) Hfits). Qed.

Lemma filter_pk_Some (model_class : M) (key : string) (rows : Table) (row : StoredAggregate F) :
  filter_pk model_class key rows = Some row ↔
  (len key ≤ 26)%nat ∧ rows !! (model_class, key) = Some row.
Proof.
  unfold filter_pk. destruct (Nat.leb_spec (len key) 26).
  - split; [by intros ?|by intros [_ ?]].
  - split; [done|]. intros [? _]. lia.
Qed.

(** A row that was not there under the stored id is not found under the id
    of the instance. *)
Lemma filter_pk_stored_id (self : Agg) (key : string) (rows : Table) :
  stored_id self = Ok key → rows !! (model self, key) = None →
  filter_pk (model self) (pk self) rows = None.
Proof.
  unfold stored_id, filter_pk. intros Hkey Hrow.
  destruct (Nat.leb_spec (len (pk self)) 26) as [Hfits|]; [|done].
  rewrite varchar_fits in Hkey by done. injection Hkey as <-. done.
Qed.

Lemma persisted_existing (self self' : Agg) (rows rows' : Table) (v : Z) :
  is_persistable self = true → adding self = false → version self = Some v →
  persist_instance self rows = (Ok tt, self', rows') →
  self' = with_version self (Some (v + 1))
  ∧ ∃ row columns,
      stored_columns (model self) (fields self) = Ok columns
      ∧ filter_pk (model self) (pk self) rows = Some row
      ∧ row_version row = v
      ∧ violates_unique (model self) (pk self) columns rows = false
      ∧ rows' = <[(model self, pk self) :=
                   {| row_version := v; row_fields := columns |}]> rows.
Proof.
  intros Hpersistable Hadding Hversion. unfold persist_instance.
  rewrite Hpersistable, Hadding, Hversion. simpl.
  destruct (stored_columns (model self) (fields self)) as [columns|]; [|done].
  destruct (filter_pk (model self) (pk self) rows) as [row|] eqn:Hrow; [|done].
  destruct (row_version row =? v) eqn:Hv; [|done].
  apply Z.eqb_eq in Hv.
  destruct (violates_unique (model self) (pk self) columns rows) eqn:Hunique; [done|].
  intros [= <- <-]. split; [done|]. exists row, columns. by rewrite Hv.
Qed.

(** X6. [persist] of an instance that is not new: the version of the
    instance goes up by one whether the update writes a row or not. When a
    value of the instance does not fit its column, the statement raises and
    the table is as before. Otherwise [OutOfDateVersionException] is raised
    exactly when the update matches no row, that is when no row with the
    primary key and the version of the instance is stored; when [persist]
    returns, the domain columns of that row are those of the instance as the
    table stores them (a volume rounded to two places), its stored version
    and every other row are as before; and when it raises, the table is as
    before. *)
Theorem persist_of_an_existing_instance (self : Agg) (rows : Table) (v : Z) :
  is_persistable self = true → adding self = false → version self = Some v →
  let '(res, self', rows') := persist_instance self rows in
  self' = with_version self (Some (v + 1))
  ∧ match stored_columns (model self) (fields self) with
    | Raise e => res = Raise e ∧ rows' = rows
    | Ok columns =>
        (res = Raise OutOfDateVersionException ↔ updated_rows self rows = 0)
        ∧ match res with
          | Ok _ =>
              ∃ row, rows !! (model self, pk self) = Some row
                     ∧ row_version row = v
                     ∧ rows' = <[(model self, pk self) :=
                                  {| row_version := v; row_fields := columns |}]> rows
          | Raise _ => rows' = rows
          end
    end.
Proof.
  intros Hpersistable Hadding Hversion. unfold persist_instance, updated_rows.
  rewrite Hpersistable, Hadding, Hversion. simpl.
  destruct (stored_columns (model self) (fields self)) as [columns|e]; [|done].
  destruct (filter_pk (model self) (pk self) rows) as [row|] eqn:Hrow; [|done].
  apply filter_pk_Some in Hrow as [_ Hrow].
  destruct (row_version row =? v) eqn:Hv; [|done].
  apply Z.eqb_eq in Hv.
  destruct (violates_unique (model self) (pk self) columns rows); [done|].
  split_and!; [done|done|]. exists row. by rewrite Hv.
Qed.

(** X7. The version check of [persist] does not reject a stale writer: when
    an instance that is not new has been persisted, a second instance of the
    same row that still carries the version the first one was read at, and
    whose values fit their columns, is persisted too, and its columns, as
    the table stores them, replace those the first one wrote. *)
Theorem persist_accepts_a_stale_writer (first second : Agg) (rows rows' : Table)
    (first' : Agg) (v : Z) (columns : F) :
  is_persistable first = true → adding first = false → version first = Some v →
  is_persistable second = true → adding second = false → version second = Some v →
  model second = model first → pk second = pk first →
  persist_instance first rows = (Ok tt, first', rows') →
  stored_columns (model second) (fields second) = Ok columns →
  violates_unique (model second) (pk second) columns rows' = false →
  persist_instance second rows'
  = (Ok tt, with_version second (Some (v + 1)),
     <[(model first, pk first) := {| row_version := v; row_fields := columns |}]> rows).
Proof.
  intros Hp1 Ha1 Hv1 Hp2 Ha2 Hv2 Hmodel Hpk Hfirst Hcolumns Hunique.
  destruct (persisted_existing first first' rows rows' v Hp1 Ha1 Hv1 Hfirst)
    as (_ & row & columns1 & _ & Hrow & Hrv & _ & ->).
  apply filter_pk_Some in Hrow as [Hfits Hrow].
  unfold persist_instance. rewrite Hp2, Ha2, Hv2, Hcolumns. simpl.
  rewrite Hunique, Hmodel, Hpk.
  rewrite (proj2 (filter_pk_Some _ _ _ {| row_version := v; row_fields := columns1 |}))
    by (split; [done|apply lookup_insert_eq]).
  simpl. rewrite Z.eqb_refl. by rewrite insert_insert_eq.
Qed.

(** X8. An instance that is not new can be persisted once: the update does
    not store the version it has counted up, so a second [persist] of the
    same instance finds no row with its version and raises
    [OutOfDateVersionException], and the table stays as the first [persist]
    left it. *)
Theorem persist_twice_is_out_of_date (self self' : Agg) (rows rows' : Table) (v : Z) :
  is_persistable self = true → adding self = false → version self = Some v →
  persist_instance self rows = (Ok tt, self', rows') →
  persist_instance self' rows'
  = (Raise OutOfDateVersionException, with_version self (Some (v + 1 + 1)), rows').
Proof.
  intros Hpersistable Hadding Hversion Hfirst.
  destruct (persisted_existing self self' rows rows' v Hpersistable Hadding Hversion Hfirst)
    as (-> & row & columns & Hcolumns & Hrow & Hrv & _ & ->).
  apply filter_pk_Some in Hrow as [Hfits Hrow].
  unfold persist_instance, is_persistable in *. simpl. rewrite Hpersistable, Hadding. simpl.
  rewrite Hcolumns.
  rewrite (proj2 (filter_pk_Some _ _ _ {| row_version := v; row_fields := columns |}))
    by (split; [done|apply lookup_insert_eq]).
  simpl. replace (v =? v + 1) with false by (symmetry; apply Z.eqb_neq; lia). done.
Qed.

(** X9. A new instance that was inserted in a unit of work that is rolled
    back cannot be persisted again: the instance is no longer [adding] and
    carries version 1, the table restored by the rollback has no row for it,
    so the retry raises [OutOfDateVersionException] and inserts nothing. The
    row that was inserted held the id and the columns of the instance as the
    table stores them. *)
Theorem rolled_back_insert_cannot_be_retried (self self' : Agg) (rows rows' : Table) :
  adding self = true →
  persist_instance self rows = (Ok tt, self', rows') →
  (∃ key columns,
     stored_id self = Ok key
     ∧ stored_columns (model self) (fields self) = Ok columns
     ∧ rows !! (model self, key) = None
     ∧ rows' = <[(model self, key) := {| row_version := 1; row_fields := columns |}]> rows)
  ∧ adding self' = false ∧ version self' = Some 1
  ∧ persist_instance self' rows
    = (Raise OutOfDateVersionException, with_version self' (Some (1 + 1)), rows).
Proof.
  intros Hadding. unfold persist_instance at 1. rewrite Hadding.
  destruct (is_persistable self) eqn:Hpersistable; [|done]. simpl.
  destruct (stored_id self) as [key|] eqn:Hkey; [|done].
  destruct (stored_columns (model self) (fields self)) as [columns|] eqn:Hcolumns; [|done].
  destruct (rows !! (model self, key)) eqn:Hrow; [done|].
  destruct (violates_unique _ _ _ _); [done|]. intros [= <- <-].
  split_and!; try done; [by exists key, columns|].
  unfold persist_instance, is_persistable in *. simpl. rewrite Hpersistable. simpl.
  rewrite Hcolumns.
  change (filter_pk (model self) (pk self) rows) with
    (filter_pk (model self) (pk self) rows).
  by rewrite (filter_pk_stored_id self key rows Hkey Hrow).
Qed.

End persist_properties.

(** ** The methods of [WineLot] *)

Section wine_lot_method_properties.
Context {D : Type} `{!DecimalArith D}.
Variable subscribers : @WineLotEvent D → option exn.
#[local] Instance wine_lot_methods_aggregates :
  Aggregates (@WineLotEvent D) (@WineLotFields D) string Model := winemaking subscribers.
Local Abbreviation Lot := (AggregateModel (@WineLotEvent D) (@WineLotFields D) Model).
Local Abbreviation LotWorld := (@World (@WineLotEvent D) (@WineLotFields D) Model _ _).
Local Abbreviation LotSt := (@St (@WineLotEvent D) (@WineLotFields D) Model _ _).

(** A call that raises [ValueError] and changes nothing. *)
Definition rejected {R : Type} (call : LotSt R) (w : LotWorld) : Prop :=
  ∃ msg, call w = (Raise (ValueError msg), w).

Lemma deleted_lot_rejects (self : ref) (lot : Lot) (w : LotWorld) (t : datetime) :
  heap w !! self = Some lot → deleted_at (fields lot) = Some t →
  (∀ code', rejected (WineLot_update subscribers self code') w)
  ∧ (∀ uuid4_hex, rejected (WineLot_destroy subscribers self uuid4_hex) w)
  ∧ (∀ action_id effective_at volume_received volumes,
       rejected (WineLot_blend_in_volume subscribers self action_id effective_at
                   volume_received volumes) w)
  ∧ (∀ action_id effective_at volume,
       rejected (WineLot_receive_volume subscribers self action_id effective_at volume) w)
  ∧ (∀ action_id effective_at volume to_wine_lot_id,
       rejected (WineLot_move_volume subscribers self action_id effective_at volume
                   to_wine_lot_id) w)
  ∧ (∀ action_id effective_at volume,
       rejected (WineLot_remeasure subscribers self action_id effective_at volume) w)
  ∧ (∀ action_id effective_at volume,
       rejected (WineLot_bottle subscribers self action_id effective_at volume) w).
Proof.
  intros Hlot Hdeleted.
  unfold rejected, WineLot_update, WineLot_destroy, WineLot_blend_in_volume,
    WineLot_receive_volume, WineLot_move_volume, WineLot_remeasure, WineLot_bottle,
    st_bind, deref, st_raise.
  rewrite Hlot, Hdeleted. split_and!; intros; eauto.
Qed.

(** X10. [destroy] is final. When it returns, the lot carries the time of
    the call as [deleted_at] and its code with "!" and the uuid appended, and
    has recorded one [WineLotDeleted] event; its volume is as before. From
    then on [update], [destroy], [blend_in_volume], [receive_volume],
    [move_volume], [remeasure] and [bottle] raise [ValueError] on it and
    change nothing. *)
Theorem destroy_is_final (self : ref) (uuid4_hex : string) (w w' : LotWorld) :
  WineLot_destroy subscribers self uuid4_hex w = (Ok tt, w') →
  ∃ lot lot',
    heap w !! self = Some lot ∧ heap w' !! self = Some lot'
    ∧ model lot = WineLot
    ∧ deleted_at (fields lot') = Some (now w)
    ∧ code (fields lot') = String.append (code (fields lot)) (String.append "!" uuid4_hex)
    ∧ volume (fields lot') = volume (fields lot)
    ∧ get_recorded_events lot' = get_recorded_events lot ++ [WineLotDeleted (pk lot) (now w)]
    ∧ (∀ code', rejected (WineLot_update subscribers self code') w')
    ∧ (∀ uuid4_hex', rejected (WineLot_destroy subscribers self uuid4_hex') w')
    ∧ (∀ action_id effective_at volume_received volumes,
         rejected (WineLot_blend_in_volume subscribers self action_id effective_at
                     volume_received volumes) w')
    ∧ (∀ action_id effective_at volume,
         rejected (WineLot_receive_volume subscribers self action_id effective_at volume) w')
    ∧ (∀ action_id effective_at volume to_wine_lot_id,
         rejected (WineLot_move_volume subscribers self action_id effective_at volume
                     to_wine_lot_id) w')
    ∧ (∀ action_id effective_at volume,
         rejected (WineLot_remeasure subscribers self action_id effective_at volume) w')
    ∧ (∀ action_id effective_at volume,
         rejected (WineLot_bottle subscribers self action_id effective_at volume) w').
Proof.
  intros Hrun. unfold WineLot_destroy in Hrun. unfold st_bind at 1, deref at 1 in Hrun.
  destruct (heap w !! self) as [lot|] eqn:Hlot; [|done].
  destruct (deleted_at (fields lot)) as [t|] eqn:Hlive; [done|].
  unfold st_bind at 1, st_get at 1, apply in Hrun.
  unfold st_bind at 1, deref at 1 in Hrun. rewrite Hlot in Hrun.
  unfold st_bind at 1, st_lift at 1, load, _validate_event_context, _apply_event in Hrun.
  simpl in Hrun. destruct (model lot) eqn:Hmodel; [|done]. simpl in Hrun.
  unfold st_bind at 1, assign at 1, st_modify in Hrun.
  set (lot' := with_recorded_events _ _) in Hrun.
  assert (heap w' !! self = Some lot') as Hlot'.
  { destruct (is_persistable lot'); injection Hrun as <-; simpl;
      apply list_lookup_insert_eq; by eapply lookup_lt_Some. }
  exists lot, lot'. split_and!; try done.
  all: by apply (deleted_lot_rejects self lot' w' (now w)).
Qed.

(** The handlers of [WineLot] write [id] and the domain columns only. *)
Lemma wine_lot_load_keeps_bookkeeping (a a' : Lot) (event : @WineLotEvent D) (u : string) :
  load a event u = Ok a' →
  model a' = model a ∧ version a' = version a ∧ adding a' = adding a
  ∧ is_before_creation a' = is_before_creation a ∧ _persistable a' = _persistable a
  ∧ get_recorded_events a' = get_recorded_events a.
Proof.
  unfold load, _validate_event_context, _apply_event. simpl.
  destruct (model a) eqn:Hmodel; [|done].
  destruct event; simpl;
    unfold validate_volume_bottled_context, validate_volume_moved_context;
    try destruct (dltb _ _); try done; by intros [= <-].
Qed.

(** A call that leaves no trace when it raises. *)
Definition all_or_nothing {R : Type} (call : LotSt R) : Prop :=
  ∀ w e w', call w = (Raise e, w') → w' = w.

Lemma apply_all_or_nothing (r : ref) (event : @WineLotEvent D) (u : string) :
  all_or_nothing (apply r event u).
Proof.
  intros w e w'. rewrite apply_unfold.
  destruct (heap w !! r) as [self|]; [|by intros [= _ <-]].
  destruct (load self event u); [done|by intros [= _ <-]].
Qed.

Ltac method_all_or_nothing :=
  let w := fresh "w" in let e := fresh "e" in let w' := fresh "w'" in
  let lot := fresh "lot" in
  intros w e w'; unfold st_bind at 1, deref at 1;
  destruct (heap w !! _) as [lot|]; [|by intros [= _ <-]];
  destruct (deleted_at (fields lot)); [by intros [= _ <-]|].

(** X11. A method of [WineLot] that raises leaves no trace: the instances,
    the repository, the rows and the notifications are as before the call. *)
Theorem wine_lot_methods_are_all_or_nothing :
  (∀ next_id code' composition,
     all_or_nothing (WineLot_create subscribers next_id code' composition))
  ∧ (∀ self code', all_or_nothing (WineLot_update subscribers self code'))
  ∧ (∀ self uuid4_hex, all_or_nothing (WineLot_destroy subscribers self uuid4_hex))
  ∧ (∀ self action_id effective_at received volumes,
       all_or_nothing (WineLot_blend_in_volume subscribers self action_id effective_at
                         received volumes))
  ∧ (∀ self action_id effective_at v,
       all_or_nothing (WineLot_receive_volume subscribers self action_id effective_at v))
  ∧ (∀ self action_id effective_at v to_wine_lot_id,
       all_or_nothing (WineLot_move_volume subscribers self action_id effective_at v
                         to_wine_lot_id))
  ∧ (∀ self action_id effective_at v,
       all_or_nothing (WineLot_remeasure subscribers self action_id effective_at v))
  ∧ (∀ self action_id effective_at v,
       all_or_nothing (WineLot_bottle subscribers self action_id effective_at v)).
Proof.
  split_and!; intros.
  - intros w e w'. unfold WineLot_create, st_bind, st_lift, alloc.
    destruct (_validate_code code'); [|by intros [= _ <-]].
    rewrite apply_unfold. simpl. rewrite list_lookup_middle by done.
    unfold load, _validate_event_context, _apply_event. simpl. done.
  - unfold WineLot_update. method_all_or_nothing.
    unfold st_bind, st_lift. destruct (_validate_code code'); [|by intros [= _ <-]].
    apply apply_all_or_nothing.
  - unfold WineLot_destroy. method_all_or_nothing.
    unfold st_bind, st_get. apply apply_all_or_nothing.
  - unfold WineLot_blend_in_volume. method_all_or_nothing.
    destruct (dleb received d0); [by intros [= _ <-]|]. apply apply_all_or_nothing.
  - unfold WineLot_receive_volume. method_all_or_nothing. apply apply_all_or_nothing.
  - unfold WineLot_move_volume. method_all_or_nothing.
    destruct (dltb v d0); [by intros [= _ <-]|]. apply apply_all_or_nothing.
  - unfold WineLot_remeasure. method_all_or_nothing.
    destruct (dltb v d0); [by intros [= _ <-]|]. apply apply_all_or_nothing.
  - unfold WineLot_bottle. method_all_or_nothing.
    destruct (dleb v d0); [by intros [= _ <-]|]. apply apply_all_or_nothing.
Qed.


Lemma live_lot_apply (self : ref) (lot : Lot) (event : @WineLotEvent D) (u : string)
    (w w' : LotWorld) :
  heap w !! self = Some lot →
  apply self event u w = (Ok tt, w') →
  model lot = WineLot
  ∧ ∃ loaded, load lot event u = Ok loaded
      ∧ heap w' !! self
        = Some (with_recorded_events loaded (get_recorded_events loaded ++ [event])).
Proof.
  intros Hlot. rewrite apply_unfold, Hlot.
  destruct (load lot event u) as [loaded|] eqn:Hload; [|done].
  intros [= <-]. split.
  - unfold load, _validate_event_context, _apply_event in Hload. simpl in Hload.
    by destruct (model lot).
  - exists loaded. split; [done|]. by eapply applied_lookup.
Qed.

(** What a volume method does to the lot behind [self] when it returns. *)
Definition volume_becomes (self : ref) (w w' : LotWorld) (new_volume : D → D)
    (event : string → @WineLotEvent D) : Prop :=
  ∃ lot lot',
    heap w !! self = Some lot ∧ heap w' !! self = Some lot'
    ∧ model lot = WineLot ∧ deleted_at (fields lot) = None
    ∧ fields lot' = {| code := code (fields lot); volume := new_volume (volume (fields lot));
                       deleted_at := None |}
    ∧ get_recorded_events lot' = get_recorded_events lot ++ [event (pk lot)].

Ltac live_lot_method Hrun lot Hlot :=
  unfold st_bind at 1, deref at 1 in Hrun;
  match type of Hrun with context [heap ?w !! ?self] =>
    destruct (heap w !! self) as [lot|] eqn:Hlot; [|done]
  end;
  let Hlive := fresh "Hlive" in
  destruct (deleted_at (fields lot)) eqn:Hlive; [done|].

Ltac volume_became Hrun lot Hlot :=
  let Hmodel := fresh "Hmodel" in let loaded := fresh "loaded" in
  let Hload := fresh "Hload" in let Hlot' := fresh "Hlot'" in
  destruct (live_lot_apply _ _ _ _ _ _ Hlot Hrun) as (Hmodel & loaded & Hload & Hlot');
  unfold load, _validate_event_context, _apply_event in Hload; simpl in Hload;
  rewrite Hmodel in Hload; simpl in Hload.

(** X12. [bottle] and [move_volume] return only when the lot holds the
    volume: the volume left is the difference and is not negative. [bottle]
    asks for a positive volume, [move_volume] for one that is not negative.
    [remeasure] returns only for a volume that is not negative, and sets it.
    Each records its event and leaves [code] and [deleted_at] alone. *)
Theorem withdrawals_never_overdraw
    (self : ref) (action_id : string) (effective_at : datetime) (v : D) (w w' : LotWorld) :
  (WineLot_bottle subscribers self action_id effective_at v w = (Ok tt, w') →
   dleb v d0 = false
   ∧ volume_becomes self w w' (fun held => dsub held v)
       (fun id => VolumeBottled id action_id effective_at v)
   ∧ ∃ lot', heap w' !! self = Some lot' ∧ dltb (volume (fields lot')) d0 = false)
  ∧ (∀ to_wine_lot_id,
       WineLot_move_volume subscribers self action_id effective_at v to_wine_lot_id w
       = (Ok tt, w') →
       dltb v d0 = false
       ∧ volume_becomes self w w' (fun held => dsub held v)
           (fun id => VolumeMoved id action_id effective_at v to_wine_lot_id)
       ∧ ∃ lot', heap w' !! self = Some lot' ∧ dltb (volume (fields lot')) d0 = false)
  ∧ (WineLot_remeasure subscribers self action_id effective_at v w = (Ok tt, w') →
     dltb v d0 = false
     ∧ volume_becomes self w w' (fun _ => v)
         (fun id => VolumeRemeasured id action_id effective_at v)).
Proof.
  split_and!.
  - intros Hrun. unfold WineLot_bottle in Hrun. live_lot_method Hrun lot Hlot.
    destruct (dleb v d0) eqn:Hv; [done|]. volume_became Hrun lot Hlot.
    unfold validate_volume_bottled_context in Hload.
    destruct (dltb (dsub _ v) d0) eqn:Hleft; [done|]. injection Hload as <-.
    split_and!; [done| |].
    + eexists lot, _. split_and!; [done|exact Hlot'|done|done| |done].
      simpl. by rewrite Hlive.
    + eexists. split; [exact Hlot'|]. exact Hleft.
  - intros to_wine_lot_id Hrun. unfold WineLot_move_volume in Hrun.
    live_lot_method Hrun lot Hlot.
    destruct (dltb v d0) eqn:Hv; [done|]. volume_became Hrun lot Hlot.
    unfold validate_volume_moved_context in Hload.
    destruct (dltb (dsub _ v) d0) eqn:Hleft; [done|]. injection Hload as <-.
    split_and!; [done| |].
    + eexists lot, _. split_and!; [done|exact Hlot'|done|done| |done].
      simpl. by rewrite Hlive.
    + eexists. split; [exact Hlot'|]. exact Hleft.
  - intros Hrun. unfold WineLot_remeasure in Hrun. live_lot_method Hrun lot Hlot.
    destruct (dltb v d0) eqn:Hv; [done|]. volume_became Hrun lot Hlot.
    injection Hload as <-. split; [done|].
    eexists lot, _. split_and!; [done|exact Hlot'|done|done| |done].
    simpl. by rewrite Hlive.
Qed.

(** X13. [receive_volume] checks nothing about the volume: on a live lot it
    returns for every volume, a negative one included, and adds it.
    [blend_in_volume] returns exactly for a positive received volume. *)
Theorem receive_volume_takes_any_volume
    (self : ref) (lot : Lot) (action_id : string) (effective_at : datetime) (w : LotWorld) :
  heap w !! self = Some lot → model lot = WineLot → deleted_at (fields lot) = None →
  (∀ v, ∃ w',
     WineLot_receive_volume subscribers self action_id effective_at v w = (Ok tt, w')
     ∧ volume_becomes self w w' (fun held => dadd held v)
         (fun id => VolumeReceived id action_id effective_at v))
  ∧ (∀ v volumes,
       if dleb v d0
       then WineLot_blend_in_volume subscribers self action_id effective_at v volumes w
            = (Raise (ValueError "Volume must be greater than zero."), w)
       else ∃ w',
         WineLot_blend_in_volume subscribers self action_id effective_at v volumes w
         = (Ok tt, w')
         ∧ volume_becomes self w w' (fun held => dadd held v)
             (fun id => VolumeBlended id action_id effective_at volumes v)).
Proof.
  intros Hlot Hmodel Hlive. split.
  - intros v. unfold WineLot_receive_volume, st_bind at 1, deref at 1.
    rewrite Hlot. cbv beta iota. rewrite Hlive, apply_unfold, Hlot.
    unfold load, _validate_event_context, _apply_event. simpl. rewrite Hmodel. simpl.
    eexists. split; [done|]. eexists lot, _.
    split_and!; [done|by eapply applied_lookup|done|done| |done].
    simpl. by rewrite Hlive.
  - intros v volumes.
    destruct (dleb v d0) eqn:Hv; unfold WineLot_blend_in_volume, st_bind at 1, deref at 1;
      rewrite Hlot; cbv beta iota; rewrite Hlive, Hv; [done|].
    rewrite apply_unfold, Hlot.
    unfold load, _validate_event_context, _apply_event. simpl. rewrite Hmodel. simpl.
    eexists. split; [done|]. eexists lot, _.
    split_and!; [done|by eapply applied_lookup|done|done| |done].
    simpl. by rewrite Hlive.
Qed.

End wine_lot_method_properties.

(** ** A lot in a unit of work *)

Section lot_in_a_unit_of_work.
Context {D : Type} `{!DecimalArith D}.
Variable subscribers : @WineLotEvent D → option exn.
#[local] Instance lot_in_a_unit_of_work_aggregates :
  Aggregates (@WineLotEvent D) (@WineLotFields D) string Model := winemaking subscribers.
Local Abbreviation Lot := (AggregateModel (@WineLotEvent D) (@WineLotFields D) Model).
Local Abbreviation LotWorld := (@World (@WineLotEvent D) (@WineLotFields D) Model _ _).
Local Abbreviation LotSt := (@St (@WineLotEvent D) (@WineLotFields D) Model _ _).

(** The methods of a lot that exists; [destroy] with the uuid it draws. *)
Inductive lot_call : Type :=
| Update (code : string)
| Destroy_lot (uuid4_hex : string)
| Blend_in_volume (action_id : string) (effective_at : datetime) (volume_received : D)
    (volumes : pydict string D)
| Receive_volume (action_id : string) (effective_at : datetime) (volume : D)
| Move_volume (action_id : string) (effective_at : datetime) (volume : D)
    (to_wine_lot_id : string)
| Remeasure (action_id : string) (effective_at : datetime) (volume : D)
| Bottle (action_id : string) (effective_at : datetime) (volume : D).

Definition call_lot (self : ref) (c : lot_call) : LotSt unit :=
  match c with
  | Update code' => WineLot_update subscribers self code'
  | Destroy_lot uuid4_hex => WineLot_destroy subscribers self uuid4_hex
  | Blend_in_volume action_id effective_at volume_received volumes =>
      WineLot_blend_in_volume subscribers self action_id effective_at volume_received volumes
  | Receive_volume action_id effective_at v =>
      WineLot_receive_volume subscribers self action_id effective_at v
  | Move_volume action_id effective_at v to_wine_lot_id =>
      WineLot_move_volume subscribers self action_id effective_at v to_wine_lot_id
  | Remeasure action_id effective_at v =>
      WineLot_remeasure subscribers self action_id effective_at v
  | Bottle action_id effective_at v => WineLot_bottle subscribers self action_id effective_at v
  end.

(** The uuid a call draws. *)
Definition draw_of (c : lot_call) : string :=
  match c with Destroy_lot uuid4_hex => uuid4_hex | _ => "" end.

(** Loading events one after the other, each with the draw made for it. *)
Fixpoint load_events (self : Lot) (events : list (@WineLotEvent D)) (draws : list string)
    : result Lot :=
  match events, draws with
  | event :: events', u :: draws' => self' ← load self event u; load_events self' events' draws'
  | _, _ => Ok self
  end.

Lemma load_events_snoc (self loaded : Lot) (events : list (@WineLotEvent D))
    (draws : list string) (event : @WineLotEvent D) (u : string) :
  length events = length draws →
  load_events self events draws = Ok loaded →
  load_events self (events ++ [event]) (draws ++ [u]) = load loaded event u.
Proof.
  revert self draws. induction events as [|e events IH]; intros self [|d draws]; simpl;
    try done.
  - intros _ [= ->]. by destruct (load loaded event u).
  - intros [= Hlen]. destruct (load self e d) as [self'|x]; [|done]. simpl. by apply IH.
Qed.

(** The handlers read and write the id and the domain columns only. *)
Lemma load_without_recorded_events (a loaded : Lot) (event : @WineLotEvent D) (u : string) :
  load a event u = Ok loaded →
  load (with_recorded_events a []) event u = Ok (with_recorded_events loaded []).
Proof.
  unfold load, _validate_event_context, _apply_event. simpl.
  destruct (model a); [|done].
  destruct event; simpl;
    unfold validate_volume_bottled_context, validate_volume_moved_context; simpl;
    try destruct (dltb _ _); try done; by intros [= <-].
Qed.


Local Abbreviation Repo := (@AggregateRepository (@WineLotEvent D) Model).

Lemma wine_lot_load_keeps_deleted_event_models (a a' : Lot) (event : @WineLotEvent D)
    (u : string) :
  load a event u = Ok a' → get_deleted_event_models a' = get_deleted_event_models a.
Proof.
  unfold load, _validate_event_context, _apply_event. simpl.
  destruct (model a); [|done].
  destruct event; simpl;
    unfold validate_volume_bottled_context, validate_volume_moved_context; simpl;
    try destruct (dltb _ _); try done; by intros [= <-].
Qed.

(** Only [WineLotCreated] sets the id. *)
Definition is_created (event : @WineLotEvent D) : bool :=
  match event with WineLotCreated _ _ _ _ => true | _ => false end.

Lemma wine_lot_load_keeps_pk (a a' : Lot) (event : @WineLotEvent D) (u : string) :
  is_created event = false → load a event u = Ok a' → pk a' = pk a.
Proof.
  unfold load, _validate_event_context, _apply_event. simpl.
  destruct (model a); [|done].
  destruct event; simpl;
    unfold validate_volume_bottled_context, validate_volume_moved_context; simpl;
    try destruct (dltb _ _); try done; by intros _ [= <-].
Qed.

(** The buffers of a repository that has been given one instance only, each
    time it recorded an event. *)
Definition buffers (self : ref) (lot : Lot) : Repo :=
  match get_recorded_events lot with
  | [] => empty_repository
  | recorded =>
      {| _events := recorded;
         _new_aggregate_events := [((WineLot, pk lot), (self, recorded))];
         _event_stores := [(WineLot, recorded)];
         _deleted_event_stores := [(WineLot, [])] |}
  end.

(** A lot that is being worked on since the world [w0]: it is the fold of
    the events it has recorded onto [seed], and the repository holds these
    events. *)
Definition working (self : ref) (seed : Lot) (draws : list string) (w0 w : LotWorld)
    (lot : Lot) : Prop :=
  heap w !! self = Some lot
  ∧ model lot = WineLot ∧ is_persistable lot = true ∧ get_deleted_event_models lot = []
  ∧ adding lot = adding seed ∧ version lot = version seed
  ∧ repository w = buffers self lot
  ∧ db w = db w0 ∧ trace w = trace w0 ∧ now w = now w0
  ∧ length (get_recorded_events lot) = length draws
  ∧ load_events seed (get_recorded_events lot) draws = Ok (with_recorded_events lot [])
  ∧ Forall (fun event => wine_lot_event_aggregate_id event = pk lot) (get_recorded_events lot).

Lemma applied_keeps_working (self : ref) (seed lot loaded : Lot) (draws : list string)
    (event : @WineLotEvent D) (u : string) (w0 w : LotWorld) :
  working self seed draws w0 w lot →
  load lot event u = Ok loaded →
  wine_lot_event_aggregate_id event = pk loaded →
  get_recorded_events lot = [] ∨ pk loaded = pk lot →
  working self seed (draws ++ [u]) w0 (applied self loaded event w)
    (with_recorded_events loaded (get_recorded_events lot ++ [event])).
Proof.
  intros (Hlot & Hmodel & Hpers & Hdel & Hadd & Hver & Hrepo & Hdb & Htrace & Hnow & Hlen
          & Hfold & Hids) Hload Hid Hpk.
  destruct (wine_lot_load_keeps_bookkeeping subscribers lot loaded event u Hload)
    as (Hmodel' & Hver' & Hadd' & _ & Hpers' & Hrec').
  pose proof (wine_lot_load_keeps_deleted_event_models lot loaded event u Hload) as Hdel'.
  assert (is_persistable
            (with_recorded_events loaded (get_recorded_events loaded ++ [event])) = true)
    as Hp.
  { unfold is_persistable in *. simpl. by rewrite Hpers'. }
  unfold working. split_and!.
  - rewrite <- Hrec'. by eapply applied_lookup.
  - simpl. congruence.
  - rewrite <- Hrec'. exact Hp.
  - simpl. unfold get_deleted_event_models in *. simpl. congruence.
  - simpl. congruence.
  - simpl. congruence.
  - unfold applied. rewrite Hp. simpl. rewrite Hrepo, <- Hrec'.
    unfold buffers, add, get_event_model, get_recorded_events, get_deleted_event_models in *.
    simpl. rewrite Hmodel', Hmodel, Hdel', Hdel. rewrite Hrec' in *.
    destruct (_recorded_events lot) as [|event0 recorded] eqn:Hrecorded; simpl.
    + done.
    + destruct Hpk as [?|Hpk]; [done|]. rewrite Hpk.
      rewrite decide_True by done. simpl.
      by rewrite (drop_app_length recorded [event]), decide_True.
  - by destruct (applied_frame self loaded event w) as (-> & _).
  - by destruct (applied_frame self loaded event w) as (_ & -> & _).
  - by destruct (applied_frame self loaded event w) as (_ & _ & -> & _).
  - simpl. unfold get_recorded_events in *. rewrite !length_app, Hlen. done.
  - simpl. unfold get_recorded_events at 1. simpl.
    rewrite (load_events_snoc _ _ _ _ _ _ Hlen Hfold).
    by rewrite (load_without_recorded_events _ _ _ _ Hload).
  - unfold get_recorded_events at 1. simpl. apply Forall_app. split.
    + destruct Hpk as [Hnil| ->]; [by rewrite Hnil|done].
    + by apply Forall_singleton.
Qed.

(** One call that returns loads one event, of the lot, and records it. *)
Lemma call_lot_spec (self : ref) (c : lot_call) (lot : Lot) (w w' : LotWorld) :
  heap w !! self = Some lot →
  call_lot self c w = (Ok tt, w') →
  ∃ event loaded,
    load lot event (draw_of c) = Ok loaded
    ∧ pk loaded = pk lot
    ∧ wine_lot_event_aggregate_id event = pk lot
    ∧ w' = applied self loaded event w.
Proof.
  intros Hlot Hrun.
  assert (∀ event u, apply self event u w = (Ok tt, w') → is_created event = false →
            ∃ loaded, load lot event u = Ok loaded ∧ pk loaded = pk lot
                      ∧ w' = applied self loaded event w) as Hstep.
  { intros event u. rewrite apply_unfold, Hlot.
    destruct (load lot event u) as [loaded|] eqn:Hload; [|done].
    intros [= <-] Hevent. exists loaded. split_and!; [done| |done].
    by eapply wine_lot_load_keeps_pk. }
  destruct c; simpl in Hrun;
    unfold WineLot_update, WineLot_destroy, WineLot_blend_in_volume, WineLot_receive_volume,
      WineLot_move_volume, WineLot_remeasure, WineLot_bottle in Hrun;
    unfold st_bind at 1, deref at 1 in Hrun; rewrite Hlot in Hrun;
    (destruct (deleted_at (fields lot)); [done|]).
  - unfold st_bind at 1, st_lift at 1 in Hrun. destruct (_validate_code _); [|done].
    destruct (Hstep _ _ Hrun eq_refl) as (loaded & ? & ? & ?). by eexists _, loaded.
  - unfold st_bind at 1, st_get at 1 in Hrun.
    destruct (Hstep _ _ Hrun eq_refl) as (loaded & ? & ? & ?). by eexists _, loaded.
  - destruct (dleb _ d0); [done|].
    destruct (Hstep _ _ Hrun eq_refl) as (loaded & ? & ? & ?). by eexists _, loaded.
  - destruct (Hstep _ _ Hrun eq_refl) as (loaded & ? & ? & ?). by eexists _, loaded.
  - destruct (dltb _ d0); [done|].
    destruct (Hstep _ _ Hrun eq_refl) as (loaded & ? & ? & ?). by eexists _, loaded.
  - destruct (dltb _ d0); [done|].
    destruct (Hstep _ _ Hrun eq_refl) as (loaded & ? & ? & ?). by eexists _, loaded.
  - destruct (dleb _ d0); [done|].
    destruct (Hstep _ _ Hrun eq_refl) as (loaded & ? & ? & ?). by eexists _, loaded.
Qed.

Lemma calls_keep_working (self : ref) (seed : Lot) (calls : list lot_call)
    (draws : list string) (w0 w w' : LotWorld) (lot : Lot) :
  working self seed draws w0 w lot →
  for_each calls (call_lot self) w = (Ok tt, w') →
  ∃ lot', working self seed (draws ++ map draw_of calls) w0 w' lot'
          ∧ pk lot' = pk lot
          ∧ length (get_recorded_events lot')
            = (length (get_recorded_events lot) + length calls)%nat.
Proof.
  revert draws w lot. induction calls as [|c calls IH]; intros draws w lot Hworking.
  - simpl. intros [= <-]. exists lot. rewrite app_nil_r. split_and!; [done|done|lia].
  - simpl. unfold st_bind at 1.
    destruct (call_lot self c w) as [[[]|e] w1] eqn:Hcall; [|done].
    destruct (call_lot_spec self c lot w w1 (proj1 Hworking) Hcall)
      as (event & loaded & Hload & Hpk & Hid & ->).
    intros Hrest.
    destruct (IH (draws ++ [draw_of c]) _ _
                (applied_keeps_working self seed lot loaded draws event (draw_of c) w0 w
                   Hworking Hload (eq_trans Hid (eq_sym Hpk)) (or_intror Hpk)) Hrest)
      as (lot' & Hworking' & Hpk' & Hlen').
    exists lot'. rewrite <- (assoc_L (++)) in Hworking'. split_and!; [done| |].
    + by rewrite Hpk'.
    + rewrite Hlen'. unfold get_recorded_events. simpl. rewrite length_app. simpl. lia.
Qed.

(** Steps 1 to 3 of [persist] for a lot that has been worked on: its row is
    written and the events it has recorded are stored. *)
Lemma persist_changes_of_a_lot (self : ref) (seed : Lot) (draws : list string)
    (w0 w w2 : LotWorld) (lot : Lot) :
  working self seed draws w0 w lot →
  get_recorded_events lot ≠ [] →
  persist_changes (repository w) w = (Ok tt, w2) →
  ∃ lot' rows',
    persist_instance lot (aggregate_rows (db w0)) = (Ok tt, lot', rows')
    ∧ aggregate_rows (db w2) = rows'
    ∧ event_rows (db w2)
      = event_rows (db w0)
        ++ store_rows WineLot (next_event_id (db w0)) (now w0) (get_recorded_events lot)
    ∧ trace w2 = trace w0.
Proof.
  intros (Hlot & Hmodel & Hpers & Hdel & _ & _ & Hrepo & Hdb & Htrace & Hnow & _) Hsome.
  rewrite Hrepo. unfold buffers.
  destruct (get_recorded_events lot) as [|event recorded] eqn:Hrec; [done|].
  unfold persist_changes. simpl.
  unfold st_bind at 1. unfold st_bind at 1. unfold AggregateModel_persist at 1.
  unfold st_bind at 1, deref at 1. rewrite Hlot, Hdb.
  destruct (persist_instance lot (aggregate_rows (db w0))) as [[res lot'] rows'] eqn:Hpersist.
  destruct res as [[]|e]; [|done].
  unfold st_ret at 1. unfold st_bind, store, st_modify, st_ret. simpl.
  intros [= <-]. exists lot', rows'. simpl. rewrite Hnow, Htrace. by split_and!.
Qed.

Lemma store_rows_event_data (n : Z) (t : datetime) (events : list (@WineLotEvent D)) :
  map event_data (store_rows WineLot n t events) = events.
Proof. revert n. induction events as [|event events IH]; intros n; simpl; [done|]. by rewrite IH. Qed.

Lemma create_starts_working (next_id code' : string) (composition : @Composition D)
    (w wc : LotWorld) (self : ref) :
  repository w = empty_repository →
  WineLot_create subscribers next_id code' composition w = (Ok self, wc) →
  ∃ lot, working self (new_instance WineLot) [""] w wc lot
         ∧ pk lot = next_id ∧ length (get_recorded_events lot) = 1%nat.
Proof.
  intros Hrepo. unfold WineLot_create. unfold st_bind at 1, st_lift at 1.
  destruct (_validate_code code'); [|done].
  unfold st_bind at 1, alloc at 1. unfold st_bind at 1. rewrite apply_unfold. simpl.
  rewrite list_lookup_middle by done.
  destruct (load (new_instance WineLot) _ "") as [loaded|] eqn:Hload; [|done].
  unfold st_ret. intros [= <- <-].
  eexists. split; [|split].
  - eapply (applied_keeps_working _ (new_instance WineLot) (new_instance WineLot) loaded []);
      [|exact Hload| |by left].
    + unfold working. simpl. rewrite list_lookup_middle by done. by split_and!.
    + by injection Hload as <-.
  - by injection Hload as <-.
  - done.
Qed.

Lemma fetch_starts_working (lot_id : string) (w wf : LotWorld) (self : ref) :
  repository w = empty_repository →
  objects_first WineLot lot_id w = (Ok (Some self), wf) →
  ∃ row, aggregate_rows (db w) !! (WineLot, lot_id) = Some row
         ∧ working self (from_db WineLot lot_id row) [] w wf (from_db WineLot lot_id row).
Proof.
  intros Hrepo. unfold objects_first, st_bind, st_get, alloc, st_ret.
  destruct (aggregate_rows (db w) !! (WineLot, lot_id)) as [row|]; [|done].
  intros [= <- <-]. exists row. split; [done|].
  unfold working. simpl. rewrite list_lookup_middle by done. by split_and!.
Qed.

(** X26. What a unit of work that creates a lot commits. When
    [store_aggregate_changes] runs, from an empty repository, a body that
    creates a lot and calls methods of it, and returns, then the lot has
    recorded one event for [create] and one per call, all with the id of the
    lot; it had no row and no other lot holds its code; the row inserted for
    it has version 1 and holds, as the table stores them (the volume rounded
    to two places), the columns obtained by loading these events, in order,
    onto a blank instance (with the uuid that [destroy] drew); one event row
    per event is appended to the event store, in the same order; each event
    is dispatched once, in order, before the commit; and the repository is
    empty again. *)
Theorem new_lot_is_committed_with_its_events
    (next_id code' : string) (composition : @Composition D) (calls : list lot_call)
    (w w' : LotWorld) :
  repository w = empty_repository →
  store_aggregate_changes
    (self <- WineLot_create subscribers next_id code' composition ;;
     for_each calls (call_lot self)) w = (Ok tt, w') →
  ∃ events lot key columns,
    length events = S (length calls)
    ∧ Forall (fun event => wine_lot_event_aggregate_id event = next_id) events
    ∧ load_events (new_instance WineLot) events ("" :: map draw_of calls) = Ok lot
    ∧ varchar 26 next_id = Ok key
    ∧ WineLot_columns (fields lot) = Ok columns
    ∧ aggregate_rows (db w) !! (WineLot, key) = None
    ∧ code_taken (WineLot, key) (code columns) (aggregate_rows (db w)) = false
    ∧ aggregate_rows (db w')
      = <[(WineLot, key) := {| row_version := 1; row_fields := columns |}]>
          (aggregate_rows (db w))
    ∧ event_rows (db w')
      = event_rows (db w) ++ store_rows WineLot (next_event_id (db w)) (now w) events
    ∧ trace w' = trace w ++ map Dispatched events ++ [Committed]
    ∧ repository w' = empty_repository.
Proof.
  intros Hrepo. rewrite store_aggregate_changes_unfold.
  destruct (st_bind _ _ w) as [[[]|e] w1] eqn:Hbody; [|done].
  unfold st_bind in Hbody.
  destruct (WineLot_create subscribers next_id code' composition w) as [[self|e] wc]
    eqn:Hcreate; [|done].
  destruct (create_starts_working _ _ _ _ _ _ Hrepo Hcreate) as (lot0 & Hworking0 & Hpk0 & Hlen0).
  destruct (calls_keep_working _ _ _ _ _ _ _ _ Hworking0 Hbody)
    as (lot1 & Hworking & Hpk & Hlen).
  assert (get_recorded_events lot1 ≠ []) as Hsome.
  { intros Hnil. rewrite Hnil in Hlen. simpl in Hlen. lia. }
  destruct (persist_changes (repository w1) w1) as [[[]|e] w2] eqn:Hpersist; [|done].
  destruct (persist_changes_of_a_lot _ _ _ _ _ _ _ Hworking Hsome Hpersist)
    as (lot' & rows' & Hinstance & Hrows & Hevents & Htrace).
  destruct Hworking as (_ & Hmodel & Hpers & _ & Hadding & _ & Hbuffers & _ & _ & _ & _
                        & Hfold & Hids).
  assert (_events (repository w1) = get_recorded_events lot1) as Hdispatched.
  { rewrite Hbuffers. unfold buffers. by destruct (get_recorded_events lot1). }
  rewrite Hdispatched.
  destruct (dispatch_failure (get_recorded_events lot1)) eqn:Hquiet; [done|].
  rewrite (dispatched_of_no_failure _ Hquiet).
  intros [= <-].
  rewrite Hpk, Hpk0 in Hids.
  unfold persist_instance, stored_id in Hinstance.
  rewrite Hpers, Hadding, Hmodel, Hpk, Hpk0 in Hinstance. simpl in Hinstance.
  destruct (varchar 26 next_id) as [key|] eqn:Hkey; [|done].
  destruct (WineLot_columns (fields lot1)) as [columns|] eqn:Hcolumns; [|done].
  destruct (aggregate_rows (db w) !! (WineLot, key)) eqn:Hrow; [done|].
  destruct (code_taken (WineLot, key) (code columns) (aggregate_rows (db w))) eqn:Hunique;
    [done|].
  injection Hinstance as _ <-.
  exists (get_recorded_events lot1), (with_recorded_events lot1 []), key, columns.
  simpl. rewrite Hrows, Hevents, Htrace, <- (assoc_L (++)).
  split_and!; try done. rewrite Hlen, Hlen0. done.
Qed.

(** X27. What a unit of work on a stored lot commits. When
    [store_aggregate_changes] runs, from an empty repository, a body that
    fetches a lot and calls methods of it, and returns, then the lot has a
    row and has recorded one event per call, all with its id; when there is
    a call, its row keeps its version and takes, as the table stores them
    (the volume rounded to two places), the columns obtained by loading
    these events, in order, onto the fetched instance, and no other lot
    holds its code; without a call the table is as before; one event row per
    event is appended to the event store, in the same order; each event is
    dispatched once, in order, before the commit; and the repository is
    empty again. *)
Theorem fetched_lot_is_committed_with_its_events
    (lot_id : string) (calls : list lot_call) (w w' : LotWorld) :
  repository w = empty_repository →
  store_aggregate_changes
    (found <- objects_first WineLot lot_id ;;
     match found with
     | Some self => for_each calls (call_lot self)
     | None =>
         st_raise (ValueError (String.append "Wine lot with ID "
                                 (String.append lot_id " does not exist.")))
     end) w = (Ok tt, w') →
  ∃ row events lot,
    aggregate_rows (db w) !! (WineLot, lot_id) = Some row
    ∧ length events = length calls
    ∧ Forall (fun event => wine_lot_event_aggregate_id event = lot_id) events
    ∧ load_events (from_db WineLot lot_id row) events (map draw_of calls) = Ok lot
    ∧ match calls with
      | [] => aggregate_rows (db w') = aggregate_rows (db w)
      | _ :: _ =>
          ∃ columns,
            WineLot_columns (fields lot) = Ok columns
            ∧ code_taken (WineLot, lot_id) (code columns) (aggregate_rows (db w)) = false
            ∧ aggregate_rows (db w')
              = <[(WineLot, lot_id) :=
                    {| row_version := row_version row; row_fields := columns |}]>
                  (aggregate_rows (db w))
      end
    ∧ event_rows (db w')
      = event_rows (db w) ++ store_rows WineLot (next_event_id (db w)) (now w) events
    ∧ trace w' = trace w ++ map Dispatched events ++ [Committed]
    ∧ repository w' = empty_repository.
Proof.
  intros Hrepo. rewrite store_aggregate_changes_unfold.
  destruct (st_bind _ _ w) as [[[]|e] w1] eqn:Hbody; [|done].
  unfold st_bind in Hbody.
  destruct (objects_first WineLot lot_id w) as [[[self|]|e] wf] eqn:Hfetch; [|done|done].
  destruct (fetch_starts_working _ _ _ _ Hrepo Hfetch) as (row & Hrow & Hworking0).
  destruct (calls_keep_working _ _ _ _ _ _ _ _ Hworking0 Hbody)
    as (lot1 & Hworking & Hpk & Hlen).
  simpl in Hpk, Hlen.
  pose proof Hworking as (_ & Hmodel & Hpers & _ & Hadding & Hversion & Hbuffers & Hdb
                          & Htrace1 & _ & _ & Hfold & Hids).
  simpl in Hadding, Hversion, Hfold. rewrite Hpk in Hids.
  assert (_events (repository w1) = get_recorded_events lot1) as Hdispatched.
  { rewrite Hbuffers. unfold buffers. by destruct (get_recorded_events lot1). }
  destruct (get_recorded_events lot1) as [|event recorded] eqn:Hrecorded.
  - (* Nothing was recorded: no call was made. *)
    rewrite Hbuffers. unfold buffers. rewrite Hrecorded.
    unfold persist_changes, st_bind, st_ret. simpl.
    intros [= <-]. destruct calls; [|done]. simpl in Hfold. injection Hfold as Hlot.
    exists row, [], (from_db WineLot lot_id row). simpl.
    rewrite Hdb, Htrace1. split_and!; try done.
    + by rewrite app_nil_r.
    + by rewrite app_nil_r.
  - assert (get_recorded_events lot1 ≠ []) as Hsome by by rewrite Hrecorded.
    destruct (persist_changes (repository w1) w1) as [[[]|e] w2] eqn:Hpersist; [|done].
    destruct (persist_changes_of_a_lot _ _ _ _ _ _ _ Hworking Hsome Hpersist)
      as (lot' & rows' & Hinstance & Hrows & Hevents & Htrace).
    rewrite Hdispatched.
    destruct (dispatch_failure (event :: recorded)) eqn:Hquiet; [done|].
    rewrite (dispatched_of_no_failure _ Hquiet).
    intros [= <-]. exists row, (event :: recorded), (with_recorded_events lot1 []).
    simpl. rewrite Hevents, Htrace, Hrecorded, <- (assoc_L (++)).
    unfold persist_instance in Hinstance.
    rewrite Hpers, Hadding, Hversion, Hmodel, Hpk in Hinstance. simpl in Hinstance.
    destruct (WineLot_columns (fields lot1)) as [columns|] eqn:Hcolumns; [|done].
    destruct (filter_pk WineLot lot_id (aggregate_rows (db w))) as [found|] eqn:Hfound;
      [|done].
    apply filter_pk_Some in Hfound as [_ Hfound].
    rewrite Hrow in Hfound. injection Hfound as <-.
    rewrite Z.eqb_refl in Hinstance.
    destruct (code_taken (WineLot, lot_id) (code columns) (aggregate_rows (db w)))
      eqn:Hunique; [done|].
    injection Hinstance as _ <-.
    destruct calls as [|c calls]; [done|].
    split_and!; try done.
    exists columns. by rewrite Hrows.
Qed.

End lot_in_a_unit_of_work.

(** ** Lot codes ([_validate_code]) *)

Section code_properties.

Lemma list_ascii_of_string_append (a b : string) :
  list_ascii_of_string (String.append a b) = list_ascii_of_string a ++ list_ascii_of_string b.
Proof. induction a as [|c a IH]; simpl; [done|]. by rewrite IH. Qed.

Lemma length_list_ascii_of_string (a : string) :
  length (list_ascii_of_string a) = String.length a.
Proof. induction a as [|c a IH]; simpl; [done|]. by rewrite IH. Qed.

Definition code_chars (body : list Ascii.ascii) : bool :=
  match body with
  | first :: rest =>
      match rev rest with
      | last :: middle =>
          is_upper_alnum first && is_upper_alnum last
          && forallb is_code_char middle && (length middle <=? 48)%nat
      | [] => false
      end
  | [] => false
  end.

Lemma code_chars_Forall (body : list Ascii.ascii) :
  code_chars body = true → Forall (fun c => is_code_char c = true) body.
Proof.
  destruct body as [|first rest]; [done|]. simpl.
  destruct (rev rest) as [|last middle] eqn:Hrev; [done|].
  rewrite !andb_true_iff. intros [[[Hfirst Hlast] Hmiddle] _].
  apply (f_equal (@rev _)) in Hrev. rewrite rev_involutive in Hrev. subst rest. simpl.
  constructor; [unfold is_code_char; by rewrite Hfirst|].
  apply Forall_app. split.
  - apply Forall_forall. intros c Hc. rewrite forallb_forall in Hmiddle.
    apply Hmiddle. apply in_rev. by apply list_elem_of_In.
  - constructor; [|done]. unfold is_code_char. by rewrite Hlast.
Qed.

Lemma matches_CODE_REGEX_body (code : string) :
  matches_CODE_REGEX code = true →
  ∃ body, code_chars body = true
    ∧ (list_ascii_of_string code = body ∨ list_ascii_of_string code = body ++ ["010"%char]).
Proof.
  unfold matches_CODE_REGEX. fold (code_chars (list_ascii_of_string code)).
  destruct (rev (list_ascii_of_string code)) as [|c before] eqn:Hrev.
  - intros Hbody. eexists. split; [exact Hbody|by left].
  - case_bool_decide as Hc.
    + intros Hbody. exists (rev before). split; [exact Hbody|]. right.
      apply (f_equal (@rev _)) in Hrev. rewrite rev_involutive in Hrev.
      rewrite Hrev. simpl. by rewrite Hc.
    + intros Hbody. eexists. split; [exact Hbody|by left].
Qed.

(** X14. The code that [destroy] leaves on a lot, the old code followed by
    [!] and a uuid, is never accepted by [_validate_code], whatever the old
    code and the uuid are: no lot can be created with it or renamed to it. *)
Theorem code_of_a_destroyed_lot_is_never_accepted (code uuid4_hex : string) :
  ∃ msg, _validate_code (String.append code (String.append "!" uuid4_hex))
         = Raise (ValueError msg).
Proof.
  unfold _validate_code. case_bool_decide; [by eexists|].
  destruct (_ || _)%bool; [by eexists|].
  destruct (matches_CODE_REGEX _) eqn:Hmatch; [|by eexists]. exfalso.
  apply matches_CODE_REGEX_body in Hmatch as (body & Hbody & Hchars).
  apply code_chars_Forall in Hbody. rewrite Forall_forall in Hbody.
  rewrite !list_ascii_of_string_append in Hchars. simpl in Hchars.
  assert ("!"%char ∈ body) as Hbang.
  { destruct Hchars as [<-|Hchars]; [set_solver|].
    assert ("!"%char ∈ body ++ ["010"%char]) as Hin by (rewrite <- Hchars; set_solver).
    apply elem_of_app in Hin as [Hin|Hin]; [done|].
    apply list_elem_of_singleton in Hin. discriminate. }
  apply Hbody in Hbang. discriminate.
Qed.

Lemma len_append (a b : string) : len (String.append a b) = (len a + len b)%nat.
Proof. unfold len. by rewrite list_ascii_of_string_append, List.filter_app, length_app. Qed.

Lemma is_code_char_not_continuation (c : Ascii.ascii) :
  is_code_char c = true → is_continuation_byte c = false.
Proof. destruct c as [[] [] [] [] [] [] [] []]; vm_compute; done. Qed.

(** A code that matches [_CODE_REGEX] is ASCII: it has as many characters as
    bytes. *)
Lemma len_of_a_matching_code (code : string) :
  matches_CODE_REGEX code = true → len code = String.length code.
Proof.
  intros Hmatch. apply matches_CODE_REGEX_body in Hmatch as (body & Hbody & Hchars).
  apply code_chars_Forall in Hbody.
  assert (Forall (fun c => is_continuation_byte c = false) (list_ascii_of_string code))
    as Hascii.
  { assert (Forall (fun c => is_continuation_byte c = false) body) as Hbody'.
    { eapply Forall_impl; [exact Hbody|]. apply is_code_char_not_continuation. }
    destruct Hchars as [->| ->]; [done|]. apply Forall_app. split; [done|].
    by apply Forall_singleton. }
  unfold len. rewrite <- length_list_ascii_of_string.
  clear Hchars. revert Hascii. generalize (list_ascii_of_string code). intros chars Hascii.
  induction Hascii as [|c chars Hc _ IH]; simpl; [done|]. rewrite Hc. simpl. by rewrite IH.
Qed.

(** X15. [$] in [_CODE_REGEX] also matches before a final newline: a code
    that is accepted and shorter than 50 characters is still accepted with a
    newline appended to it, unless it ends in a newline already. *)
Theorem accepted_code_with_a_final_newline_is_accepted (code : string) :
  _validate_code code = Ok tt →
  (String.length code < 50)%nat →
  last (list_ascii_of_string code) ≠ Some "010"%char →
  _validate_code (String.append code (String "010" EmptyString)) = Ok tt.
Proof.
  unfold _validate_code. case_bool_decide as Hempty; [done|].
  destruct (_ || _)%bool eqn:Hlen; [done|].
  destruct (matches_CODE_REGEX code) eqn:Hmatch; [|done]. intros _ Hshort Hlast.
  apply orb_false_iff in Hlen as [Hlo Hhi].
  apply Nat.ltb_ge in Hlo.
  rewrite <- (len_of_a_matching_code code Hmatch) in Hshort.
  assert (len (String.append code (String "010" EmptyString)) = S (len code)) as Hlength.
  { rewrite len_append. change (len (String "010" EmptyString)) with 1%nat. lia. }
  rewrite bool_decide_false by (intros Heq; by rewrite Heq in Hlength).
  rewrite Hlength.
  replace (S (len code) <? 2)%nat with false by (symmetry; apply Nat.ltb_ge; lia).
  replace (50 <? S (len code))%nat with false by (symmetry; apply Nat.ltb_ge; lia).
  simpl.
  replace (matches_CODE_REGEX (String.append code (String "010" EmptyString))) with true;
    [done|].
  symmetry. unfold matches_CODE_REGEX in *.
  rewrite list_ascii_of_string_append. simpl. rewrite rev_app_distr. simpl.
  rewrite rev_involutive.
  destruct (rev (list_ascii_of_string code)) as [|c before] eqn:Hrev; [done|].
  case_bool_decide as Hc; [|done]. exfalso. apply Hlast.
  apply (f_equal (@rev _)) in Hrev. rewrite rev_involutive in Hrev.
  rewrite Hrev. simpl. rewrite last_snoc. by rewrite Hc.
Qed.

End code_properties.

(** ** The composition of a created lot ([WineLotCreated.composition]) *)

Section created_composition.
Context {D : Type} `{!DecimalArith D}.
Variable subscribers : @WineLotEvent D → option exn.
#[local] Instance created_composition_aggregates :
  Aggregates (@WineLotEvent D) (@WineLotFields D) string Model := winemaking subscribers.

Lemma dict_set_fresh {K V : Type} `{EqDecision K} (k : K) (v : V) (d : pydict K V) :
  k ∉ dict_keys d → dict_set k v d = d ++ [(k, v)].
Proof.
  unfold dict_keys. induction d as [|[k0 v0] d IH]; simpl; [done|].
  rewrite not_elem_of_cons. intros [Hne Hd].
  rewrite decide_False by done. by rewrite IH.
Qed.

Lemma components_of_amounts (items acc : pydict LotComponent D) :
  NoDup (dict_keys (acc ++ items)) →
  fold_left
    (fun acc (c : @ComponentAmount D) =>
       dict_set {| variety := variety (component c);
                   appellation := appellation (component c);
                   vintage := vintage (component c) |} (percent c) acc)
    (map (fun cp => {| component := fst cp; percent := snd cp |}) items) acc
  = acc ++ items.
Proof.
  revert acc. induction items as [|[[x y z] pct] items IH]; intros acc Hkeys; simpl.
  - by rewrite app_nil_r.
  - unfold dict_keys in Hkeys. rewrite fmap_app in Hkeys. simpl in Hkeys.
    apply NoDup_app in Hkeys as (Hacc & Hfresh & Hitems).
    rewrite dict_set_fresh.
    + rewrite IH; [by rewrite <- (assoc_L (++))|].
      unfold dict_keys. rewrite !fmap_app. simpl.
      apply NoDup_app. split_and!.
      * apply NoDup_app. split_and!; [done| |apply NoDup_singleton].
        intros k Hk Hin. apply list_elem_of_singleton in Hin as ->.
        apply (Hfresh _ Hk). left.
      * intros k Hk Hin. apply elem_of_app in Hk as [Hk|Hk].
        -- apply (Hfresh _ Hk). by right.
        -- apply list_elem_of_singleton in Hk as ->. by apply NoDup_cons in Hitems as [? _].
      * by apply NoDup_cons in Hitems as [_ ?].
    + intros Hin. apply (Hfresh _ Hin). left.
Qed.

(** X16. The event of [WineLot.create] carries the composition it was
    given: when the composition is one that its validator accepts, reading
    [composition] off the recorded [WineLotCreated] event gives it back, with
    its components in the same order. *)
Theorem created_event_gives_the_composition_back
    (next_id code' : string) (c : @Composition D)
    (w w' : @World (@WineLotEvent D) (@WineLotFields D) Model _ _) (r : ref) :
  NoDup (dict_keys (components c)) →
  validate_percentages c = Ok c →
  WineLot_create subscribers next_id code' c w = (Ok r, w') →
  ∃ lot amounts,
    heap w' !! r = Some lot
    ∧ get_recorded_events lot = [WineLotCreated next_id code' amounts CREATION_OCCURRED_AT]
    ∧ composition amounts = Ok c.
Proof.
  intros Hkeys Hvalid Hcreate.
  apply WineLot_create_Ok in Hcreate as (lot & Hlot & _ & Hrecorded).
  eexists lot, _. split_and!; [done|exact Hrecorded|].
  unfold composition, Composition_new. rewrite (components_of_amounts _ []) by done.
  simpl. by destruct c.
Qed.

End created_composition.

(** ** The Action aggregate *)

Section action_properties.
Import action.
Context {D : Type} `{!DecimalArith D}.
Variable subscribers : @ActionEvent D → option exn.
#[local] Instance action_properties_aggregates :
  Aggregates (@ActionEvent D) (@ActionFields D) unit Model := actions subscribers.
Local Abbreviation Act := (AggregateModel (@ActionEvent D) (@ActionFields D) Model).
Local Abbreviation ActWorld := (@World (@ActionEvent D) (@ActionFields D) Model _ _).
Local Abbreviation ActSt := (@St (@ActionEvent D) (@ActionFields D) Model _ _).

(** The type and the lots that the details of an action stand for. *)
Definition type_of (data : @ActionData D) : ActionType :=
  match data with
  | ReceiveVolumeData _ _ => RECEIVE_VOLUME
  | MeasureVolumeData _ _ => REMEASURE
  | BlendData _ _ _ => BLEND
  | BottleData _ _ _ => BOTTLE
  end.

Definition involved_in (data : @ActionData D) : list string :=
  match data with
  | ReceiveVolumeData wine_lot_id _ | MeasureVolumeData wine_lot_id _
  | BottleData wine_lot_id _ _ => [wine_lot_id]
  | BlendData blend_volumes receiving_wine_lot_id _ =>
      receiving_wine_lot_id :: dict_keys blend_volumes
  end.

(** The type, the details and the involved lots of an action agree. *)
Definition consistent (a : Act) : Prop :=
  model a = Action
  ∧ ∃ data, details (fields a) = Some data
            ∧ action_type (fields a) = Some (type_of data)
            ∧ involved_wine_lot_ids (fields a) = Some (involved_in data).

(** The details an [ActionRecorded] event stands for. *)
Definition recorded_data (event_details : @ActionRecordedData D) : @ActionData D :=
  match event_details with
  | ReceiveVolumeRecordedData i v => ReceiveVolumeData i v
  | MeasureVolumeRecordedData i v => MeasureVolumeData i v
  | BlendRecordedData volumes i v => BlendData volumes i v
  | BottleRecordedData i v n => BottleData i v n
  end.

Lemma record_action_spec (next_id : string) (effective_at : option datetime)
    (event_details : @ActionRecordedData D) (w : ActWorld) :
  ∃ w' a,
    record_action subscribers next_id effective_at event_details w
    = (Ok (length (heap w)), w')
    ∧ heap w' = heap w ++ [a]
    ∧ db w' = db w ∧ now w' = now w
    ∧ consistent a
    ∧ pk a = next_id
    ∧ details (fields a) = Some (recorded_data event_details)
    ∧ action.effective_at (fields a) = Some (default (now w) effective_at)
    ∧ action.deleted_at (fields a) = None
    ∧ revision_number (fields a) = 0
    ∧ get_recorded_events a
      = [ActionRecorded next_id (default (now w) effective_at) (now w) event_details].
Proof.
  unfold record_action, st_bind, st_get, alloc, apply, st_bind, deref, st_lift, assign,
    st_modify, st_ret.
  simpl. rewrite list_lookup_middle by done.
  destruct event_details; simpl; (eexists _, _; split; [reflexivity|]); simpl;
    (split; [rewrite insert_app_r_alt, Nat.sub_diag by done; reflexivity|]);
    split_and!; try done; (split; [done|]); by eexists.
Qed.

(** The public methods of an action that exists. *)
Inductive action_call : Type :=
| Edit_receive_volume (wine_lot : string) (volume : D)
| Edit_remeasure (wine_lot : string) (volume : D)
| Edit_blend (blend_volumes : pydict string D) (receiving_wine_lot : string)
    (blended_volume : D)
| Edit_bottle (wine_lot : string) (volume_bottled : D) (bottles : Z)
| Destroy.

Definition call (self : ref) (c : action_call) : ActSt unit :=
  match c with
  | Edit_receive_volume wine_lot volume =>
      Action_edit_receive_volume subscribers self wine_lot volume
  | Edit_remeasure wine_lot volume => Action_edit_remeasure subscribers self wine_lot volume
  | Edit_blend blend_volumes receiving_wine_lot blended_volume =>
      Action_edit_blend subscribers self blend_volumes receiving_wine_lot blended_volume
  | Edit_bottle wine_lot volume_bottled bottles =>
      Action_edit_bottle subscribers self wine_lot volume_bottled bottles
  | Destroy => Action_destroy subscribers self
  end.

(** The details an edit asks for; [None] for [destroy]. *)
Definition edited_to (c : action_call) : option (@ActionData D) :=
  match c with
  | Edit_receive_volume wine_lot volume => Some (ReceiveVolumeData wine_lot volume)
  | Edit_remeasure wine_lot volume => Some (MeasureVolumeData wine_lot volume)
  | Edit_blend blend_volumes receiving_wine_lot blended_volume =>
      Some (BlendData blend_volumes receiving_wine_lot blended_volume)
  | Edit_bottle wine_lot volume_bottled bottles =>
      Some (BottleData wine_lot volume_bottled bottles)
  | Destroy => None
  end.

Definition is_edit (c : action_call) : bool :=
  match edited_to c with Some _ => true | None => false end.

(** The details before and after an [ActionEdited] event. *)
Definition edited_before (event_details : @ActionEditedData D) : @ActionData D :=
  match event_details with
  | ReceiveVolumeEditedData i v => ReceiveVolumeData (before i) (before v)
  | MeasureVolumeEditedData i v => MeasureVolumeData (before i) (before v)
  | BlendEditedData volumes i v => BlendData (before volumes) (before i) (before v)
  | BottleEditedData i v n => BottleData (before i) (before v) (before n)
  end.

Definition edited_after (event_details : @ActionEditedData D) : @ActionData D :=
  match event_details with
  | ReceiveVolumeEditedData i v => ReceiveVolumeData (after i) (after v)
  | MeasureVolumeEditedData i v => MeasureVolumeData (after i) (after v)
  | BlendEditedData volumes i v => BlendData (after volumes) (after i) (after v)
  | BottleEditedData i v n => BottleData (after i) (after v) (after n)
  end.

(** What one call that returns does to a consistent action. *)
Definition called (a a' : Act) (t : datetime) (c : action_call) : Prop :=
  consistent a'
  ∧ action.deleted_at (fields a) = None
  ∧ pk a' = pk a
  ∧ action_type (fields a') = action_type (fields a)
  ∧ action.effective_at (fields a') = action.effective_at (fields a)
  ∧ match edited_to c with
    | Some data =>
        ∃ event_details,
          get_recorded_events a' = get_recorded_events a ++ [ActionEdited (pk a) t event_details]
          ∧ Some (edited_before event_details) = details (fields a)
          ∧ edited_after event_details = data
          ∧ details (fields a') = Some data
          ∧ revision_number (fields a') = revision_number (fields a) + 1
          ∧ updated_at (fields a') = Some t
          ∧ action.deleted_at (fields a') = None
    | None =>
        get_recorded_events a' = get_recorded_events a ++ [ActionDeleted (pk a) t]
        ∧ details (fields a') = details (fields a)
        ∧ revision_number (fields a') = revision_number (fields a)
        ∧ updated_at (fields a') = updated_at (fields a)
        ∧ action.deleted_at (fields a') = Some t
    end.

Lemma action_apply (self : ref) (a : Act) (event : @ActionEvent D) (w w' : ActWorld) :
  heap w !! self = Some a → model a = Action →
  apply self event tt w = (Ok tt, w') →
  now w' = now w ∧ db w' = db w
  ∧ ∃ loaded, load a event tt = Ok loaded
      ∧ heap w' !! self
        = Some (with_recorded_events loaded (get_recorded_events loaded ++ [event])).
Proof.
  intros Ha Hmodel. rewrite apply_unfold, Ha.
  destruct (load a event tt) as [loaded|] eqn:Hload; [|done].
  intros [= <-]. destruct (applied_frame self loaded event w) as (Hdb & _ & Hnow & _).
  split_and!; [done..|]. exists loaded. split; [done|]. by eapply applied_lookup.
Qed.

Ltac called_edit Hrun a Ha Hmodel data Hdetails Htype Hinvolved :=
  unfold st_bind at 1, deref at 1 in Hrun; rewrite Ha in Hrun;
  rewrite Htype in Hrun; destruct data; try done; simpl in Hrun;
  let Hlive := fresh "Hlive" in
  destruct (action.deleted_at (fields a)) eqn:Hlive; [done|].

Lemma call_spec (self : ref) (c : action_call) (a : Act) (w w' : ActWorld) :
  heap w !! self = Some a → consistent a →
  call self c w = (Ok tt, w') →
  now w' = now w ∧ db w' = db w
  ∧ ∃ a', heap w' !! self = Some a' ∧ called a a' (now w) c.
Proof.
  intros Ha [Hmodel (data & Hdetails & Htype & Hinvolved)] Hrun.
  assert (∀ event,
            apply self event tt w = (Ok tt, w') →
            (∀ loaded, load a event tt = Ok loaded →
               called a (with_recorded_events loaded (get_recorded_events loaded ++ [event]))
                 (now w) c) →
            now w' = now w ∧ db w' = db w
            ∧ ∃ a', heap w' !! self = Some a' ∧ called a a' (now w) c) as Hstep.
  { intros event Happly Hcalled.
    destruct (action_apply self a event w w' Ha Hmodel Happly)
      as (Hnow & Hdb & loaded & Hload & Ha').
    split_and!; [done..|]. eexists. split; [exact Ha'|]. by apply Hcalled. }
  destruct c; simpl in Hrun.
  - unfold Action_edit_receive_volume in Hrun.
    called_edit Hrun a Ha Hmodel data Hdetails Htype Hinvolved.
    unfold st_bind at 1, st_get at 1 in Hrun. rewrite Hdetails in Hrun. simpl in Hrun.
    eapply Hstep; [exact Hrun|]. intros loaded.
    unfold load, _validate_event_context, _apply_event. simpl.
    rewrite Hmodel. simpl. intros [= <-]. unfold called. simpl.
    split_and!; try done.
    + split; [done|]. eexists. by split_and!.
    + eexists. by split_and!.
  - unfold Action_edit_remeasure in Hrun.
    called_edit Hrun a Ha Hmodel data Hdetails Htype Hinvolved.
    unfold st_bind at 1, st_get at 1 in Hrun. rewrite Hdetails in Hrun. simpl in Hrun.
    eapply Hstep; [exact Hrun|]. intros loaded.
    unfold load, _validate_event_context, _apply_event. simpl.
    rewrite Hmodel. simpl. intros [= <-]. unfold called. simpl.
    split_and!; try done.
    + split; [done|]. eexists. by split_and!.
    + eexists. by split_and!.
  - unfold Action_edit_blend in Hrun.
    called_edit Hrun a Ha Hmodel data Hdetails Htype Hinvolved.
    destruct (dleb blended_volume d0); [done|].
    destruct (is_zero _); [done|].
    unfold st_bind at 1, st_get at 1 in Hrun. rewrite Hdetails in Hrun. simpl in Hrun.
    eapply Hstep; [exact Hrun|]. intros loaded.
    unfold load, _validate_event_context, _apply_event. simpl.
    rewrite Hmodel. simpl. intros [= <-]. unfold called. simpl.
    split_and!; try done.
    + split; [done|]. eexists. by split_and!.
    + eexists. by split_and!.
  - unfold Action_edit_bottle in Hrun.
    called_edit Hrun a Ha Hmodel data Hdetails Htype Hinvolved.
    unfold st_bind at 1, st_get at 1 in Hrun. rewrite Hdetails in Hrun. simpl in Hrun.
    eapply Hstep; [exact Hrun|]. intros loaded.
    unfold load, _validate_event_context, _apply_event. simpl.
    rewrite Hmodel. simpl. intros [= <-]. unfold called. simpl.
    split_and!; try done.
    + split; [done|]. eexists. by split_and!.
    + eexists. by split_and!.
  - unfold Action_destroy, st_bind at 1, deref at 1 in Hrun. rewrite Ha in Hrun.
    destruct (action.deleted_at (fields a)) eqn:Hlive; [done|].
    unfold st_bind at 1, st_get at 1 in Hrun.
    eapply Hstep; [exact Hrun|]. intros loaded.
    unfold load, _validate_event_context, _apply_event. simpl.
    rewrite Hmodel. simpl. intros [= <-]. unfold called. simpl.
    split_and!; try done. split; [done|]. exists data. by split_and!.
Qed.

(** A call that makes a new action from one [ActionRecorded] event. *)
Definition records (next_id : string) (effective_at : option datetime)
    (event_details : @ActionRecordedData D) (c : ActSt ref) (w : ActWorld) : Prop :=
  ∃ w' a,
    c w = (Ok (length (heap w)), w')
    ∧ heap w' = heap w ++ [a]
    ∧ db w' = db w ∧ now w' = now w
    ∧ consistent a
    ∧ pk a = next_id
    ∧ details (fields a) = Some (recorded_data event_details)
    ∧ action.effective_at (fields a) = Some (default (now w) effective_at)
    ∧ action.deleted_at (fields a) = None
    ∧ revision_number (fields a) = 0
    ∧ get_recorded_events a
      = [ActionRecorded next_id (default (now w) effective_at) (now w) event_details].

(** X23. Each [record_*] class method makes a new action from one
    [ActionRecorded] event: the action has the next id, the details it was
    given, the type and the involved lots that go with them, the effective
    time it was given or else the time of the call, revision 0, and is not
    deleted. [record_blend] first raises [ValueError] for a blended volume
    that is not positive, and then for moved volumes that sum to zero; the
    other three check nothing. *)
Theorem record_methods_make_a_consistent_action
    (next_id : string) (effective_at : option datetime) (w : ActWorld) :
  (∀ wine_lot volume,
     records next_id effective_at (ReceiveVolumeRecordedData wine_lot volume)
       (Action_record_receive_volume subscribers next_id wine_lot volume effective_at) w)
  ∧ (∀ wine_lot volume,
       records next_id effective_at (MeasureVolumeRecordedData wine_lot volume)
         (Action_record_remeasure subscribers next_id wine_lot volume effective_at) w)
  ∧ (∀ wine_lot volume_bottled bottles,
       records next_id effective_at (BottleRecordedData wine_lot volume_bottled bottles)
         (Action_record_bottle subscribers next_id wine_lot volume_bottled bottles
            effective_at) w)
  ∧ (∀ blend_volumes receiving_wine_lot blended_volume,
       let recorded :=
         Action_record_blend subscribers next_id blend_volumes receiving_wine_lot
           blended_volume effective_at in
       if dleb blended_volume d0
       then recorded w = (Raise (ValueError "Blended volume must be greater than zero."), w)
       else if is_zero (dsum (dict_values blend_volumes))
       then recorded w = (Raise (ValueError "Total blended volume cannot be zero."), w)
       else records next_id effective_at
              (BlendRecordedData blend_volumes receiving_wine_lot blended_volume) recorded w).
Proof.
  split_and!; intros.
  - apply record_action_spec.
  - apply record_action_spec.
  - apply record_action_spec.
  - subst recorded. unfold Action_record_blend.
    destruct (dleb blended_volume d0); [done|].
    destruct (is_zero _); [done|]. apply record_action_spec.
Qed.

(** X24. The history of an action. Whatever public methods are called on a
    consistent action, as long as each of them returns: the action stays
    consistent and keeps its id, its type and its effective time; its
    revision number has gone up by the number of edits; it has recorded one
    event per call; its details are those of the last edit; and only the
    last call can be [destroy], after which the action is deleted. *)
Theorem action_history (self : ref) (calls : list action_call) (a : Act) (w w' : ActWorld) :
  heap w !! self = Some a → consistent a →
  for_each calls (call self) w = (Ok tt, w') →
  ∃ a',
    heap w' !! self = Some a'
    ∧ consistent a'
    ∧ pk a' = pk a
    ∧ action_type (fields a') = action_type (fields a)
    ∧ action.effective_at (fields a') = action.effective_at (fields a)
    ∧ revision_number (fields a')
      = revision_number (fields a) + Z.of_nat (length (List.filter is_edit calls))
    ∧ length (get_recorded_events a')
      = (length (get_recorded_events a) + length calls)%nat
    ∧ details (fields a')
      = foldl (fun current c => match edited_to c with Some data => Some data | None => current end)
          (details (fields a)) calls
    ∧ (∀ i c, calls !! i = Some c → is_edit c = false → S i = length calls)
    ∧ (calls ≠ [] →
       action.deleted_at (fields a) = None
       ∧ (is_Some (action.deleted_at (fields a')) ↔ last calls = Some Destroy)).
Proof.
  revert a w. induction calls as [|c calls IH]; intros a w Ha Hconsistent; simpl.
  - intros [= <-]. exists a. split_and!; try done; simpl; lia.
  - unfold st_bind at 1. destruct (call self c w) as [[[]|e] w1] eqn:Hcall; [|done].
    destruct (call_spec self c a w w1 Ha Hconsistent Hcall)
      as (Hnow & Hdb & a1 & Ha1 & Hconsistent1 & Hlive & Hpk & Htype & Heffective & Hcalled).
    intros Hrest. destruct (IH a1 w1 Ha1 Hconsistent1 Hrest)
      as (a' & Ha' & Hconsistent' & Hpk' & Htype' & Heffective' & Hrevision & Hlength
          & Hdetails & Hlast & Hdeleted).
    exists a'. unfold is_edit at 1.
    assert (calls ≠ [] → is_Some (edited_to c)) as Hedit.
    { intros Hmore. destruct (edited_to c) eqn:Hc; [by eexists|].
      destruct (Hdeleted Hmore) as [Hlive1 _]. destruct Hcalled as (_ & _ & _ & _ & Hdel).
      congruence. }
    split_and!; try congruence.
    + rewrite Hrevision. destruct (edited_to c) eqn:Hc.
      * destruct Hcalled as (event_details & _ & _ & _ & _ & -> & _). simpl. lia.
      * destruct Hcalled as (_ & _ & -> & _). lia.
    + rewrite Hlength. destruct (edited_to c) eqn:Hc.
      * destruct Hcalled as (event_details & -> & _). rewrite length_app. simpl. lia.
      * destruct Hcalled as (-> & _). rewrite length_app. simpl. lia.
    + rewrite Hdetails. f_equal. destruct (edited_to c) eqn:Hc.
      * by destruct Hcalled as (event_details & _ & _ & _ & -> & _).
      * by destruct Hcalled as (_ & -> & _).
    + intros [|i] c' Hi Hc'; simpl in *.
      * injection Hi as ->. destruct calls as [|c'' calls']; [done|].
        destruct Hedit as [data Hdata]; [done|]. unfold is_edit in Hc'. by rewrite Hdata in Hc'.
      * f_equal. by eapply Hlast.
    + intros _. split; [done|]. destruct calls as [|c' calls'].
      * injection Hrest as <-. rewrite Ha1 in Ha'. injection Ha' as <-. simpl.
        destruct c; simpl in Hcalled.
        1-4: destruct Hcalled as (event_details & _ & _ & _ & _ & _ & _ & ->);
          split; [by intros [? ?]|done].
        destruct Hcalled as (_ & _ & _ & _ & ->). split; [done|by eexists].
      * destruct (Hdeleted ltac:(done)) as [_ ->]. by rewrite last_cons_cons.
Qed.

(** X25. The guards of an action. A call that raises leaves no trace. A
    deleted action rejects every call with [ValueError]; and an edit for
    another type than the action's is rejected with [ValueError], also on an
    action that is not deleted. *)
Theorem action_guards (self : ref) (a : Act) (w : ActWorld) :
  heap w !! self = Some a →
  (∀ c e w', call self c w = (Raise e, w') → w' = w)
  ∧ (∀ c data, edited_to c = Some data → action_type (fields a) ≠ Some (type_of data) →
       ∃ msg, call self c w = (Raise (ValueError msg), w))
  ∧ (is_Some (action.deleted_at (fields a)) →
     ∀ c, ∃ msg, call self c w = (Raise (ValueError msg), w)).
Proof.
  intros Ha.
  assert (∀ event e w', apply self event tt w = (Raise e, w') → w' = w) as Hraise.
  { intros event e w'. rewrite apply_unfold, Ha.
    destruct (load a event tt); [done|by intros [= _ <-]]. }
  split_and!.
  - intros c e w'. destruct c; simpl;
      unfold Action_edit_receive_volume, Action_edit_remeasure, Action_edit_blend,
        Action_edit_bottle, Action_destroy, st_bind at 1, deref at 1; rewrite Ha;
      try (destruct (negb _); [by intros [= _ <-]|]);
      (destruct (action.deleted_at (fields a)); [by intros [= _ <-]|]);
      try (destruct (dleb _ d0); [by intros [= _ <-]|]);
      try (destruct (is_zero _); [by intros [= _ <-]|]);
      unfold st_bind at 1, st_get at 1;
      repeat match goal with
             | |- context [match ?x with Some _ => _ | None => _ end] =>
                 destruct x; [|by intros [= _ <-]]
             end;
      apply Hraise.
  - intros c data Hc Htype. destruct c; simpl in *; try done; injection Hc as <-;
      unfold Action_edit_receive_volume, Action_edit_remeasure, Action_edit_blend,
        Action_edit_bottle, cannot_edit_as, st_bind at 1, deref at 1; rewrite Ha;
      simpl in Htype; rewrite bool_decide_eq_false_2 by done; by eexists.
  - intros [t Hdeleted] c. destruct c; simpl;
      unfold Action_edit_receive_volume, Action_edit_remeasure, Action_edit_blend,
        Action_edit_bottle, Action_destroy, cannot_edit_as, st_bind at 1, deref at 1;
      rewrite Ha, Hdeleted; try (destruct (negb _)); by eexists.
Qed.

End action_properties.

(** * Scenarios

    Concrete runs, with exact decimal arithmetic ([Q_decimal]). *)

Definition no_subscribers : @WineLotEvent Q → option exn := fun _ => None.

(** A subscriber of [WineLotUpdated] that raises. *)
Definition failing_subscriber : @WineLotEvent Q → option exn :=
  fun event =>
    match event with
    | WineLotUpdated _ _ _ => Some (SubscriberError "subscriber failed")
    | _ => None
    end.

#[local] Instance Q_winemaking :
  Aggregates (@WineLotEvent Q) (@WineLotFields Q) string Model := winemaking no_subscribers.

Definition WineWorld : Type := @World (@WineLotEvent Q) (@WineLotFields Q) Model _ _.
Definition WineRow : Type := AggregateEventModel (@WineLotEvent Q) Model.
Definition WineLotInstance : Type := AggregateModel (@WineLotEvent Q) (@WineLotFields Q) Model.

Definition empty_world : WineWorld :=
  {| heap := []; repository := empty_repository;
     db := {| aggregate_rows := ∅; event_rows := []; next_event_id := 1 |};
     now := 1700000000000000; trace := [] |}.

Definition component_of_vintage (year : Z) : LotComponent :=
  {| variety := "Test"; appellation := "Test"; vintage := year |}.

Definition pure_composition (year : Z) : @Composition Q :=
  {| components := [(component_of_vintage year, 1%Q)] |}.

(** A use case body: fetch the lot, as [WineLot.objects.filter(id=lot_id).first()]
    does, and act on it. *)
Definition with_lot (subscribers : @WineLotEvent Q → option exn) {R : Type} (lot_id : string)
    (f : ref → @St (@WineLotEvent Q) (@WineLotFields Q) Model _ _ R)
    : @St (@WineLotEvent Q) (@WineLotFields Q) Model _ _ R :=
  found <- objects_first WineLot lot_id ;;
  match found with
  | Some r => f r
  | None => st_raise (ValueError "Wine lot does not exist.")
  end.

Definition unit_of_work (subscribers : @WineLotEvent Q → option exn) {R : Type}
    (f : @St (@WineLotEvent Q) (@WineLotFields Q) Model _ _ R) (w : WineWorld) : result R * WineWorld :=
  store_aggregate_changes (Aggregates0 := winemaking subscribers) f w.

(** One lot is created in a first unit of work. *)
Definition created_world : WineWorld :=
  snd (unit_of_work no_subscribers
         (WineLot_create no_subscribers "L1" "LOT001" (pure_composition 2022)) empty_world).

(** The lot is then deleted in a second unit of work; [uuid4] returns
    [aaaaaaaaaaaaaaaaaaaaaaaaaaaaaaaa]. *)
Definition deleted_lot_world : WineWorld :=
  snd (unit_of_work no_subscribers
         (with_lot no_subscribers "L1"
            (fun lot => WineLot_destroy no_subscribers lot "aaaaaaaaaaaaaaaaaaaaaaaaaaaaaaaa"))
         created_world).

(** Or the lot receives 5.00 effective 1969-12-31T23:59:59. *)
Definition backdated_world : WineWorld :=
  snd (unit_of_work no_subscribers
         (with_lot no_subscribers "L1"
            (fun lot => WineLot_receive_volume no_subscribers lot "A1" (-1000000) 5%Q))
         created_world).

(** C10, counterexample. The lot of [created_world] receives volume with an
    effective date of 1969-12-31T23:59:59. In canonical order the
    [VolumeReceived] row (id 2) then comes before the creation row (id 1); the
    window [occurred_at ≤ 1969-12-31T23:59:59] holds the received row only;
    and so does the window at the point (1970-01-01T00:00:00, "A1"), in which
    the creation row, whose sequence number is NULL, is not selected. *)
Lemma creation_event_is_not_always_first :
  map (fun r : WineRow => (ev_id r, event_type (event_data r), occurred_at r, sequence_number r))
    (objects_filter WineLot (fun _ => true) (event_rows (db backdated_world)))
  = [(2, VOLUME_RECEIVED, -1000000, Some "A1"); (1, CREATED, 0, None)]
  ∧ map ev_id (events_before_or_including WineLot ["L1"] (-1000000)
                 (event_rows (db backdated_world))) = [2]
  ∧ map ev_id (relevant_events (event_rows (db backdated_world)) {["L1"]}
                 (Some (-1000000)) None) = [2]
  ∧ map ev_id (events_after_and_including WineLot ["L1"] CREATION_OCCURRED_AT "A1"
                 (event_rows (db backdated_world))) = [2]
  ∧ map ev_id (relevant_events (event_rows (db backdated_world)) {["L1"]}
                 (Some CREATION_OCCURRED_AT) (Some "A1")) = [2].
Proof. repeat split; vm_compute; reflexivity. Qed.

(** [WineLot.create] alone, before the unit of work persists. *)
Definition lot_created : result ref * WineWorld :=
  WineLot_create no_subscribers "L1" "LOT001" (pure_composition 2022) empty_world.

(** C10, witness: the creation of the lot [L1]. *)
Lemma creation_event_of_the_created_lot :
  ∃ (lot : WineLotInstance) (event : @WineLotEvent Q),
    heap (snd lot_created) !! 0%nat = Some lot
    ∧ get_recorded_events lot = [event]
    ∧ event_type event = CREATED
    ∧ event_occurred_at event = Some CREATION_OCCURRED_AT.
Proof.
  destruct (creation_event_is_stamped_1970 no_subscribers "L1" "LOT001" (pure_composition 2022)
              empty_world (snd lot_created) 0%nat)
    as (lot & event & Hlot & Hrec & Htype & Hat & _).
  - vm_compute. reflexivity.
  - by exists lot, event.
Defined.

(** *** C2: the order of dispatch and commit *)

(** The claim about the trace of a unit of work: a notification is
    dispatched only after the commit. *)
Definition dispatched_only_after_commit (t : list (@Effect (@WineLotEvent Q))) : Prop :=
  ∀ (i : nat) (event : @WineLotEvent Q),
    t !! i = Some (Dispatched event) → ∃ j : nat, (j < i)%nat ∧ t !! j = Some Committed.

(** A unit of work that creates a lot and renames it, while a subscriber of
    [WineLotUpdated] raises. *)
Definition create_and_rename : result unit * WineWorld :=
  unit_of_work failing_subscriber
    (lot <- WineLot_create failing_subscriber "L1" "LOT001" (pure_composition 2022) ;;
     WineLot_update failing_subscriber lot "LOT002")
    empty_world.

(** C2, counterexample. In the unit of work that creates a lot the
    notification is dispatched first and the transaction commits afterwards;
    and when a subscriber raises on the second of two notifications, the unit
    of work fails and no row changes, but the first notification has been
    dispatched (and handled) already. *)
Lemma dispatch_precedes_commit :
  (trace created_world
   = [Dispatched (WineLotCreated "L1" "LOT001"
                    [{| component := component_of_vintage 2022; percent := 1%Q |}] 0);
      Committed]
   ∧ ¬ dispatched_only_after_commit (trace created_world))
  ∧ (fst create_and_rename = Raise (SubscriberError "subscriber failed")
     ∧ db (snd create_and_rename) = db empty_world
     ∧ trace (snd create_and_rename)
       = [Dispatched (WineLotCreated "L1" "LOT001"
                        [{| component := component_of_vintage 2022; percent := 1%Q |}] 0);
          Dispatched (WineLotUpdated "L1" "LOT001" "LOT002");
          RolledBack]).
Proof.
  assert (trace created_world
          = [Dispatched (WineLotCreated "L1" "LOT001"
                           [{| component := component_of_vintage 2022; percent := 1%Q |}] 0);
             Committed]) as Htrace by (vm_compute; reflexivity).
  split; [split; [done|]|].
  - rewrite Htrace. intros Hclaim.
    destruct (Hclaim 0%nat _ eq_refl) as (j & Hj & _). lia.
  - split_and!; vm_compute; reflexivity.
Qed.

(** *** C4: the stored version *)

(** The row of [created_world], and two instances fetched from it by two
    units of work; the first sets the volume to 5, the second to 7. *)
Definition stored_lot : StoredAggregate (@WineLotFields Q) :=
  {| row_version := 1;
     row_fields := {| code := "LOT001"; volume := 0%Q; deleted_at := None |} |}.

Definition first_writer : WineLotInstance := with_volume (from_db WineLot "L1" stored_lot) 5%Q.
Definition second_writer : WineLotInstance := with_volume (from_db WineLot "L1" stored_lot) 7%Q.

(** C4, the defect. An existing aggregate is persisted: the instance moves
    from version 1 to version 2, and the stored row keeps version 1, because
    the update writes the editable fields only and [version] is declared
    [editable=False]. A second writer that fetched the row at version 1
    before the first one persisted therefore still matches one row,
    [OutOfDateVersion] is not raised, and the first writer's volume is
    overwritten. *)
Theorem persist_leaves_the_stored_version_unchanged :
  aggregate_rows (db created_world) !! (WineLot, "L1") = Some stored_lot
  ∧ (let '(outcome, instance, rows) :=
       persist_instance first_writer (aggregate_rows (db created_world)) in
     outcome = Ok tt
     ∧ version first_writer = Some 1 ∧ version instance = Some 2
     ∧ rows !! (WineLot, "L1")
       = Some {| row_version := 1;
                 row_fields := {| code := "LOT001"; volume := 5%Q; deleted_at := None |} |}
     ∧ updated_rows second_writer rows = 1
     ∧ let '(outcome', instance', rows') := persist_instance second_writer rows in
       outcome' = Ok tt
       ∧ version instance' = Some 2
       ∧ rows' !! (WineLot, "L1")
         = Some {| row_version := 1;
                   row_fields := {| code := "LOT001"; volume := 7%Q; deleted_at := None |} |}).
Proof. split; vm_compute; repeat split; reflexivity. Qed.

(** *** C9: an instance that outlives its unit of work *)

(** The instance that [create] returned in the first unit of work, at
    reference 0, receives 5.00 under the action [A1] in a second unit of
    work. *)
Definition receipt_on_the_created_instance : result unit * WineWorld :=
  WineLot_receive_volume no_subscribers 0%nat "A1" 1000000 5%Q created_world.

Definition reused_instance_world : WineWorld :=
  snd (unit_of_work no_subscribers
         (WineLot_receive_volume no_subscribers 0%nat "A1" 1000000 5%Q) created_world).

(** C9, counterexample. The creation event of the lot was buffered, stored
    (row 1) and dispatched in the first unit of work, which left the
    repository empty and the event among the recorded events of the
    instance. The [add] of the second unit of work buffers it again, before
    the receipt: it is stored a second time (row 2) and dispatched a second
    time. *)
Lemma committed_event_is_buffered_again :
  (repository created_world = empty_repository
   ∧ map (fun r : WineRow => (ev_id r, event_type (event_data r)))
       (event_rows (db created_world)) = [(1, CREATED)]
   ∧ ∃ lot : WineLotInstance,
       heap created_world !! 0%nat = Some lot
       ∧ map event_type (get_recorded_events lot) = [CREATED])
  ∧ (fst receipt_on_the_created_instance = Ok tt
     ∧ map event_type (_events (repository (snd receipt_on_the_created_instance)))
       = [CREATED; VOLUME_RECEIVED])
  ∧ map (fun r : WineRow => (ev_id r, event_type (event_data r)))
      (event_rows (db reused_instance_world))
    = [(1, CREATED); (2, CREATED); (3, VOLUME_RECEIVED)]
  ∧ trace reused_instance_world
    = [Dispatched (WineLotCreated "L1" "LOT001"
                     [{| component := component_of_vintage 2022; percent := 1%Q |}] 0);
       Committed;
       Dispatched (WineLotCreated "L1" "LOT001"
                     [{| component := component_of_vintage 2022; percent := 1%Q |}] 0);
       Dispatched (VolumeReceived "L1" "A1" 1000000 5%Q);
       Committed].
Proof.
  split_and!; try (vm_compute; reflexivity).
  eexists. split; vm_compute; reflexivity.
Qed.

(** *** C6 and C7: blends *)

(** A lot of vintage 2025 without volume receives 8.00 from a lot that is
    40% vintage 2020 and 60% vintage 2021. *)
Definition intermediate_composition : @Composition Q :=
  {| components := [(component_of_vintage 2020, 0.4%Q); (component_of_vintage 2021, 0.6%Q)] |}.

(** A lot of vintage 2022 holding -1.00 (it received -1.00) receives
    20000.00 from a lot of vintage 2023. *)
Definition overdrawn_blend : result (@Composition Q) :=
  blend (-1)%Q (pure_composition 2022) [("B", 20000%Q)] {["B" := pure_composition 2023]}.

(** C6, counterexample. For a receiving lot without volume the code leaves
    the existing composition out: vintage 2025 is not a key of the result,
    while the formula of the claim scales the existing composition by 0/8
    and keeps the key with fraction 0. For a receiving lot with a negative
    volume the code still leaves the existing composition out, while the
    formula gives vintage 2022 the fraction -1/19999. *)
Lemma blend_skips_existing_contents_without_volume :
  (blend 0%Q (pure_composition 2025) [("INT", 8%Q)] {["INT" := intermediate_composition]}
   = Ok {| components := [(component_of_vintage 2020, (2 # 5)%Q);
                          (component_of_vintage 2021, (3 # 5)%Q)] |}
   ∧ spec_blend 0%Q (pure_composition 2025) [("INT", 8%Q)] {["INT" := intermediate_composition]}
     = Some [(component_of_vintage 2025, 0%Q);
             (component_of_vintage 2020, (2 # 5)%Q);
             (component_of_vintage 2021, (3 # 5)%Q)])
  ∧ (overdrawn_blend = Ok {| components := [(component_of_vintage 2023, (20000 # 19999)%Q)] |}
     ∧ spec_blend (-1)%Q (pure_composition 2022) [("B", 20000%Q)] {["B" := pure_composition 2023]}
       = Some [(component_of_vintage 2022, (-1 # 19999)%Q);
               (component_of_vintage 2023, (20000 # 19999)%Q)]).
Proof. repeat split; vm_compute; reflexivity. Qed.

(** The simple blend of the specification: lots R (2022) and B (2023),
    5.00 received into R and 10.00 into B, then 5.00 blended from B into R. *)
Definition blended_world : WineWorld :=
  let uow := @unit_of_work no_subscribers unit in
  let w1 := snd (unit_of_work no_subscribers
                   (WineLot_create no_subscribers "R" "CC-REC-1" (pure_composition 2022))
                   empty_world) in
  let w2 := snd (unit_of_work no_subscribers
                   (WineLot_create no_subscribers "B" "CC-BLD-1" (pure_composition 2023)) w1) in
  let w3 := snd (uow (with_lot no_subscribers "B" (fun b =>
                   WineLot_receive_volume no_subscribers b "A1" 1000000 10%Q)) w2) in
  let w4 := snd (uow (with_lot no_subscribers "R" (fun r =>
                   WineLot_receive_volume no_subscribers r "A2" 2000000 5%Q)) w3) in
  snd (uow (with_lot no_subscribers "R" (fun r =>
         with_lot no_subscribers "B" (fun b =>
           WineLot_move_volume no_subscribers b "A3" 3000000 5%Q "R" ;;;
           WineLot_blend_in_volume no_subscribers r "A3" 3000000 5%Q [("B", 5%Q)]))) w4).

Example simple_blend_volumes :
  (volume ∘ row_fields <$> aggregate_rows (db blended_world) !! (WineLot, "R")) = Some 10%Q
  ∧ (volume ∘ row_fields <$> aggregate_rows (db blended_world) !! (WineLot, "B")) = Some 5%Q.
Proof. split; vm_compute; reflexivity. Qed.

Example simple_blend_composition :
  calculate_composition no_subscribers (db blended_world) (fun _ => "") "R" None None
  = Ok {| components := [(component_of_vintage 2022, (1 # 2)%Q);
                         (component_of_vintage 2023, (1 # 2)%Q)] |}.
Proof. vm_compute. reflexivity. Qed.

(** The composition of R after the simple blend. *)
Definition half_and_half : @Composition Q :=
  {| components := [(component_of_vintage 2022, (1 # 2)%Q);
                    (component_of_vintage 2023, (1 # 2)%Q)] |}.

(** C7, witness: the compositions of the simple blend. *)
Lemma simple_blend_sums_to_one :
  (∃ lot_compositions : gmap string (@Composition Q),
     _build_lot_compositions no_subscribers (event_rows (db blended_world)) (fun _ => "")
       {["R"; "B"]} None None = Ok lot_compositions
     ∧ lot_compositions !! "R" = Some half_and_half)
  ∧ within_tolerance half_and_half.
Proof.
  assert (∃ lot_compositions : gmap string (@Composition Q),
            _build_lot_compositions no_subscribers (event_rows (db blended_world)) (fun _ => "")
              {["R"; "B"]} None None = Ok lot_compositions
            ∧ lot_compositions !! "R" = Some half_and_half)
    as (lot_compositions & Hbuild & Hlookup).
  { eexists. split; vm_compute; reflexivity. }
  split; [exact (ex_intro _ lot_compositions (conj Hbuild Hlookup))|].
  exact (proj1 (compositions_sum_to_one_within_tolerance no_subscribers _ _ _ _ _ _ Hbuild)
           "R" half_and_half Hlookup).
Defined.

(** C8, witness: a lot that does not exist. *)
Lemma composition_of_a_missing_lot :
  ∃ msg, calculate_composition no_subscribers (db blended_world) (fun _ => "") "missing"
           (Some 1500000) None
         = Raise (ValueError msg).
Proof.
  apply (calculate_composition_checks_then_truncates no_subscribers (db blended_world)
           (fun _ => "") "missing" (Some 1500000) None).
  vm_compute. reflexivity.
Defined.

(** The state of the fold of the simple blend before its blend event, and
    the row of that event. *)
Definition simple_blend_state
    : gmap string (@Composition Q) * gmap string WineLotInstance :=
  ({["R" := pure_composition 2022; "B" := pure_composition 2023]},
   {["R" := with_volume (from_db WineLot "R" stored_lot) 5%Q;
     "B" := with_volume (from_db WineLot "B" stored_lot) 5%Q]}).

Definition simple_blend_event : WineRow :=
  {| ev_model := WineLot; ev_id := 6; aggregate_id := "R";
     event_data := VolumeBlended "R" "A3" 3000000 [("B", 5%Q)] 5%Q;
     created_at := 1700000000000000; occurred_at := 3000000;
     sequence_number := Some "A3" |}.

(** C6, witness: the blend step of the simple blend. *)
Lemma simple_blend_step :
  ∃ (st' : gmap string (@Composition Q) * gmap string WineLotInstance)
    (new_composition : @Composition Q),
    build_step no_subscribers (fun _ => "") simple_blend_event simple_blend_state = Ok st'
    ∧ fst st' = <["R" := new_composition]> (fst simple_blend_state)
    ∧ ∀ c, dict_get c (components new_composition)
           = accumulate None
               (current_shares c 5%Q 10%Q (pure_composition 2022)
                ++ blended_shares c 10%Q (fst simple_blend_state) [("B", 5%Q)]).
Proof.
  destruct (build_step no_subscribers (fun _ => "") simple_blend_event simple_blend_state)
    as [st'|x] eqn:Hstep; [|vm_compute in Hstep; discriminate].
  pose proof (blend_replaces_the_composition_by_the_weighted_mix no_subscribers (fun _ => "")
                simple_blend_event (fst simple_blend_state) (snd simple_blend_state) st' Hstep)
    as Hblend.
  simpl in Hblend. destruct Hblend as (lot & lot_composition & new_composition & Hlot & Hlc & Hfst & Hget).
  exists st', new_composition. split_and!; [done|done|].
  revert Hget. vm_compute in Hlot. injection Hlot as <-.
  vm_compute in Hlc. injection Hlc as <-. intros Hget c. apply Hget.
Defined.

(** *** C5: a cutoff within a second *)

(** As [blended_world], with the blend recorded half a second later, at
    1970-01-01T00:00:03.500000. *)
Definition late_blend_world : WineWorld :=
  let uow := @unit_of_work no_subscribers unit in
  let w1 := snd (unit_of_work no_subscribers
                   (WineLot_create no_subscribers "R" "CC-REC-1" (pure_composition 2022))
                   empty_world) in
  let w2 := snd (unit_of_work no_subscribers
                   (WineLot_create no_subscribers "B" "CC-BLD-1" (pure_composition 2023)) w1) in
  let w3 := snd (uow (with_lot no_subscribers "B" (fun b =>
                   WineLot_receive_volume no_subscribers b "A1" 1000000 10%Q)) w2) in
  let w4 := snd (uow (with_lot no_subscribers "R" (fun r =>
                   WineLot_receive_volume no_subscribers r "A2" 2000000 5%Q)) w3) in
  snd (uow (with_lot no_subscribers "R" (fun r =>
         with_lot no_subscribers "B" (fun b =>
           WineLot_move_volume no_subscribers b "A3" 3500000 5%Q "R" ;;;
           WineLot_blend_in_volume no_subscribers r "A3" 3500000 5%Q [("B", 5%Q)]))) w4).

Definition late_blend_fetched : result (option ref) * WineWorld :=
  objects_first WineLot "R" late_blend_world.

(** C5, counterexample. The blend into [R] under the action [A3] occurred at
    1970-01-01T00:00:03.500000 (row 6). At the point (that time, [A3]) the
    replay fetches the rows 1, 4 and 6 of [R] and queues row 6 for deletion;
    [calculate_composition] at the same point takes the rows up to
    1970-01-01T00:00:03, rows 1 and 4, and returns the composition of [R]
    before the blend, where the fold of the rows that the replay selects for
    the two lots gives the blended composition. *)
Lemma composition_leaves_out_the_blend_within_the_second :
  map (fun r : WineRow =>
         (ev_id r, aggregate_id r, event_type (event_data r), occurred_at r, sequence_number r))
    (event_rows (db late_blend_world))
  = [(1, "R", CREATED, 0, None); (2, "B", CREATED, 0, None);
     (3, "B", VOLUME_RECEIVED, 1000000, Some "A1");
     (4, "R", VOLUME_RECEIVED, 2000000, Some "A2");
     (5, "B", VOLUME_MOVED, 3500000, Some "A3");
     (6, "R", VOLUME_BLENDED, 3500000, Some "A3")]
  ∧ fst late_blend_fetched = Ok (Some 6%nat)
  ∧ map ev_id (events_after_and_including WineLot ["R"] 3500000 "A3"
                 (event_rows (db late_blend_world))) = [1; 4; 6]
  ∧ (∃ (by_id : pydict string ref) (w' : WineWorld),
       load_editable_aggregates_at_time_and_point [6%nat] 3500000 "A3" (fun _ => "")
         (snd late_blend_fetched) = (Ok by_id, w')
       ∧ map ev_id (default [] (dict_get WineLot (_deleted_event_stores (repository w'))))
         = [6])
  ∧ map ev_id (relevant_events (event_rows (db late_blend_world)) {["R"]}
                 (Some (replace_microsecond_0 3500000)) (Some "A3")) = [1; 4]
  ∧ calculate_composition no_subscribers (db late_blend_world) (fun _ => "") "R"
      (Some 3500000) (Some "A3")
    = Ok (pure_composition 2022)
  ∧ (st ← build_loop no_subscribers (fun _ => "")
            (events_after_and_including WineLot ["B"; "R"] 3500000 "A3"
               (event_rows (db late_blend_world))) (∅, ∅);
     match fst st !! "R" with
     | Some c => Ok c
     | None => Raise (KeyError "R")
     end)
    = Ok half_and_half
  ∧ pure_composition 2022 ≠ half_and_half.
Proof.
  split_and!; try (vm_compute; reflexivity); [|discriminate].
  eexists _, _. split; vm_compute; reflexivity.
Qed.

(** *** C3: the replay at a point *)

(** The lot of [created_world] receives 5.00 under the action [A1], effective
    1970-01-01T00:00:01. *)
Definition received_world : WineWorld :=
  snd (unit_of_work no_subscribers
         (with_lot no_subscribers "L1"
            (fun lot => WineLot_receive_volume no_subscribers lot "A1" 1000000 5%Q))
         created_world).

(** The lot is fetched again; the instance is at reference 2. *)
Definition fetched_world : WineWorld := snd (objects_first WineLot "L1" received_world).

(** C3, counterexample. The lot [L1] holds the creation row (id 1, NULL
    sequence number) and the receipt row (id 2, sequence number [A1],
    1970-01-01T00:00:01). At the point (1970-01-01T00:00:01, [A1]) both rows
    are in the window, and their fold onto [identity()] has volume 5; the
    replay does not fold the receipt row and gives volume 0. At the point
    (1969-12-31T23:59:59, [A1]) the window is empty, its fold is [identity()];
    the replay loads the creation row and marks the lot for backdating. *)
Lemma replay_leaves_out_the_edited_event :
  ∃ (lot rebuilt folded seeded : WineLotInstance) (by_id by_id' : pydict string ref)
    (w' w'' : WineWorld),
    (heap fetched_world !! 2%nat = Some lot ∧ adding lot = false)
    ∧ (load_editable_aggregates_at_time_and_point [2%nat] 1000000 "A1" (fun _ => "")
         fetched_world = (Ok by_id, w')
       ∧ object_at by_id (heap w') "L1" = Some rebuilt
       ∧ map ev_id (events_after_and_including WineLot ["L1"] 1000000 "A1"
                      (event_rows (db fetched_world))) = [1; 2]
       ∧ load_all (fun _ => "") (identity lot)
           (events_after_and_including WineLot ["L1"] 1000000 "A1"
              (event_rows (db fetched_world))) = Ok folded
       ∧ volume (fields folded) = 5%Q
       ∧ volume (fields rebuilt) = 0%Q
       ∧ rebuilt ≠ folded)
    ∧ (load_editable_aggregates_at_time_and_point [2%nat] (-1000000) "A1" (fun _ => "")
         fetched_world = (Ok by_id', w'')
       ∧ object_at by_id' (heap w'') "L1" = Some seeded
       ∧ events_after_and_including WineLot ["L1"] (-1000000) "A1"
           (event_rows (db fetched_world)) = []
       ∧ code (fields (identity lot)) = ""
       ∧ code (fields seeded) = "LOT001"
       ∧ is_before_creation seeded = true
       ∧ seeded ≠ identity lot).
Proof.
  eexists _, _, _, _, _, _, _, _.
  split; [split; vm_compute; reflexivity|].
  split.
  - split; [vm_compute; reflexivity|].
    split; [vm_compute; reflexivity|].
    split; [vm_compute; reflexivity|].
    split; [vm_compute; reflexivity|].
    repeat split; discriminate.
  - split; [vm_compute; reflexivity|].
    split; [vm_compute; reflexivity|].
    split; [vm_compute; reflexivity|].
    repeat split; discriminate.
Qed.

(** C3, witness: the replay of the lot [L1] at the point of its receipt. The
    creation row is folded, the receipt row is queued for deletion. *)
Lemma replay_at_the_receipt_folds_the_creation :
  ∃ (lot final : WineLotInstance) (by_id : pydict string ref) (w' : WineWorld),
    heap fetched_world !! 2%nat = Some lot
    ∧ load_editable_aggregates_at_time_and_point [2%nat] 1000000 "A1" (fun _ => "")
        fetched_world = (Ok by_id, w')
    ∧ object_at by_id (heap w') (pk lot) = Some final
    ∧ replayed_at_point (fun _ => "") (get_event_model lot)
        (omap (fun r => pk <$> heap fetched_world !! r) [2%nat]) 1000000 "A1"
        (event_rows (db fetched_world)) (pk lot) (editable_seed lot) = Ok final
    ∧ map ev_id (default [] (dict_get WineLot (_deleted_event_stores (repository w')))) = [2]
    ∧ code (fields final) = "LOT001" ∧ volume (fields final) = 0%Q.
Proof.
  destruct (heap fetched_world !! 2%nat) as [lot|] eqn:Hlot; [|vm_compute in Hlot; discriminate].
  destruct (load_editable_aggregates_at_time_and_point [2%nat] 1000000 "A1" (fun _ => "")
              fetched_world) as [[by_id|x] w'] eqn:Hrun; [|vm_compute in Hrun; discriminate].
  assert (Forall (fun r => is_Some (heap fetched_world !! r)) [2%nat]) as Hvalid.
  { apply Forall_singleton. exists lot. exact Hlot. }
  assert (NoDup (omap (fun r => pk <$> heap fetched_world !! r) [2%nat])) as Hpks.
  { vm_compute. apply NoDup_singleton. }
  destruct (editable_replay_folds_the_window_without_the_edited_events
              [2%nat] 1000000 "A1" (fun _ => "") fetched_world 2%nat lot
              Hvalid Hpks eq_refl Hlot) as [_ Hspec].
  destruct (Hspec by_id w' Hrun) as (_ & _ & Hobj & Hdel).
  destruct (Hobj 2%nat lot (list_elem_of_here _ _) Hlot) as (final & Hfinal & Hreplayed).
  exists lot, final, by_id, w'.
  split; [exact eq_refl|]. split; [exact eq_refl|].
  split; [exact Hfinal|]. split; [exact Hreplayed|].
  clear Hobj Hfinal Hrun. vm_compute in Hlot. injection Hlot as <-.
  split; [rewrite Hdel; vm_compute; reflexivity|].
  vm_compute in Hreplayed. injection Hreplayed as <-. split; reflexivity.
Defined.

(** The same replay as a unit of work: at the commit the receipt row leaves
    the event store. *)
Definition replay_committed : result (pydict string ref) * WineWorld :=
  unit_of_work no_subscribers
    (with_lot no_subscribers "L1"
       (fun lot => load_editable_aggregates_at_time_and_point [lot] 1000000 "A1" (fun _ => "")))
    received_world.

Example edited_row_is_deleted_at_commit :
  map ev_id (event_rows (db received_world)) = [1; 2]
  ∧ fst replay_committed = Ok [("L1", 3%nat)]
  ∧ map ev_id (event_rows (db (snd replay_committed))) = [1].
Proof. repeat split; vm_compute; reflexivity. Qed.

(** *** C1: replay equivalence *)

(** The [WineLot] side of [record_receive_volume] called with an effective
    date: the lot is replayed up to one second after the effective date,
    receives the volume at the effective date, and its downstream events are
    reapplied. [action_id] is the id of the action that
    [Action.record_receive_volume] records at that point. *)
Definition record_receive_volume_backdated (lot_id : string) (volume : Q)
    (effective_at : datetime) (action_id : string)
    : @St (@WineLotEvent Q) (@WineLotFields Q) Model _ _ unit :=
  let effective_at := replace_microsecond_0 effective_at in
  w <- st_get ;;
  if now w - 2000000 <? effective_at
  then st_raise (ValueError "Effective date must be functionally in the past if provided.")
  else
    found <- objects_first WineLot lot_id ;;
    match found with
    | None =>
        st_raise (ValueError (String.append "Wine lot with ID "
                                (String.append lot_id " does not exist.")))
    | Some lot =>
        by_id <- load_editable_aggregates_at_time [lot] (effective_at + 1000000) (fun _ => "") ;;
        match dict_get lot_id by_id with
        | None => st_raise (KeyError lot_id)
        | Some lot =>
            WineLot_receive_volume no_subscribers lot action_id effective_at volume ;;;
            reapply_downstream_events_from lot effective_at action_id (fun _ => "")
        end
    end.

(** The lot of [received_world], which received 5.00 at 1970-01-01T00:00:01,
    receives 2.00 effective 1970-01-01T00:00:00 under the action [A2]. *)
Definition backdated_receipt : result unit * WineWorld :=
  unit_of_work no_subscribers (record_receive_volume_backdated "L1" 2%Q 0 "A2") received_world.

(** The events of a lot in canonical order, as [rebuild_aggregates] fetches
    them for a chunk that holds the lot. *)
Definition history_of (lot_id : string) (w : WineWorld) : list WineRow :=
  objects_filter WineLot (fun r => bool_decide (aggregate_id r ∈ [lot_id])) (event_rows (db w)).

(** C1, the defect. The fold of the history of a lot onto [identity()] is
    not its row.
    - After a receipt with an effective date, the row of the lot holds
      12.00 where its three events (the creation, 2.00 received at
      1970-01-01T00:00:00 and 5.00 received one second later) fold to 7.00:
      the receipt of 5.00 lies within the second after the effective date, so
      it was loaded by [load_editable_aggregates_at_time] and again by
      [reapply_downstream_events_from].
    - The row of a deleted lot holds the code with the uuid drawn when it
      was deleted; the fold draws another.
    - [rebuild_aggregates], which would write the fold to the row, raises
      [TypeError] for [WineLot]: [get_event_model] is called on the class and
      lacks its argument. *)
Theorem replay_differs_from_the_persisted_row :
  (fst backdated_receipt = Ok tt
   ∧ map (fun r : WineRow => (ev_id r, event_data r)) (history_of "L1" (snd backdated_receipt))
     = [(1, WineLotCreated "L1" "LOT001"
               [{| component := component_of_vintage 2022; percent := 1%Q |}] 0);
        (3, VolumeReceived "L1" "A2" 0 2%Q);
        (2, VolumeReceived "L1" "A1" 1000000 5%Q)]
   ∧ ∃ (row : StoredAggregate (@WineLotFields Q)) (replayed : WineLotInstance),
       aggregate_rows (db (snd backdated_receipt)) !! (WineLot, "L1") = Some row
       ∧ load_all (fun _ => "") (identity_of_row WineLot ("L1", row_version row))
           (history_of "L1" (snd backdated_receipt)) = Ok replayed
       ∧ volume (row_fields row) = 12%Q
       ∧ volume (fields replayed) = 7%Q)
  ∧ (∃ (row : StoredAggregate (@WineLotFields Q)) (replayed : WineLotInstance),
       aggregate_rows (db deleted_lot_world) !! (WineLot, "L1") = Some row
       ∧ load_all (fun _ => "bbbbbbbbbbbbbbbbbbbbbbbbbbbbbbbb")
           (identity_of_row WineLot ("L1", row_version row))
           (history_of "L1" deleted_lot_world) = Ok replayed
       ∧ code (row_fields row) = "LOT001!aaaaaaaaaaaaaaaaaaaaaaaaaaaaaaaa"
       ∧ code (fields replayed) = "LOT001!bbbbbbbbbbbbbbbbbbbbbbbbbbbbbbbb")
  ∧ (∀ (chunk_size : nat) (model_id : option string) (omega : WineRow → string)
       (w : WineWorld),
       rebuild_aggregates WineLot chunk_size model_id omega w = (Raise TypeError, w)).
Proof.
  split_and!.
  - vm_compute. reflexivity.
  - vm_compute. reflexivity.
  - eexists _, _. split; [vm_compute; reflexivity|].
    split; [vm_compute; reflexivity|]. split; reflexivity.
  - eexists _, _. split; [vm_compute; reflexivity|].
    split; [vm_compute; reflexivity|]. split; reflexivity.
  - done.
Qed.

(** *** Pagination *)

Lemma Z_ltb_strict_total : strict_total Z.ltb.
Proof.
  split.
  - intros a. apply Z.ltb_irrefl.
  - intros a b c Hab Hbc. apply Z.ltb_lt in Hab, Hbc. apply Z.ltb_lt. lia.
  - intros a b Hne. destruct (Z.ltb_spec a b); [by left|right]. apply Z.ltb_lt. lia.
Qed.

(** Pairs ordered by their first component, ties broken by the second
    component in descending order, in pages of two. *)
Lemma cursor_of_five_pairs :
  cursor Z.ltb Z.ltb [(2, 1); (1, 5); (2, 7); (1, 3); (3, 0)]
    {| lookup := fst; descending := false |}
    (Some {| lookup := snd; descending := true |}) 2
  = Some ([(1, 5); (1, 3); (2, 7); (2, 1); (3, 0)], StopIteration).
Proof.
  destruct (cursor_yields_the_ordered_queryset Z.ltb Z.ltb
              {| lookup := fst; descending := false |}
              (Some {| lookup := snd; descending := true |})
              Z_ltb_strict_total Z_ltb_strict_total
              [(2, 1); (1, 5); (2, 7); (1, 3); (3, 0)] 2)
    as (yielded & -> & -> & _).
  - apply (bool_decide_unpack _). vm_compute. exact I.
  - lia.
  - vm_compute. reflexivity.
Defined.

(** The two lots of [blended_world], one per page. *)
Lemma rebuild_cursor_of_two_lots :
  cursor String.ltb (fun _ _ : unit => false)
    (all_instances WineLot None (aggregate_rows (db blended_world))) pk_key None 1
  = Some ([("B", 1); ("R", 1)], StopIteration).
Proof.
  destruct (rebuild_cursor_yields_every_aggregate_once WineLot None
              (aggregate_rows (db blended_world)) 1) as (-> & _); [lia|].
  vm_compute. reflexivity.
Defined.

(** *** Persisting twice *)

(** The first writer of [created_world] is persisted. *)
Lemma first_writer_is_persisted :
  ∃ (self' : WineLotInstance) rows',
    persist_instance first_writer (aggregate_rows (db created_world)) = (Ok tt, self', rows')
    ∧ self' = with_version first_writer (Some (1 + 1))
    ∧ rows' = <[(WineLot, "L1") :=
                 {| row_version := 1;
                    row_fields := {| code := "LOT001"; volume := 5%Q; deleted_at := None |} |}]>
                (aggregate_rows (db created_world)).
Proof.
  pose proof (persist_of_an_existing_instance first_writer
                (aggregate_rows (db created_world)) 1 eq_refl eq_refl eq_refl) as Hpersist.
  destruct (persist_instance first_writer (aggregate_rows (db created_world)))
    as [[res self'] rows'] eqn:Hrun.
  destruct Hpersist as [-> Hcolumns].
  assert (res = Ok tt) as -> by (vm_compute in Hrun; congruence).
  change (stored_columns (model first_writer) (fields first_writer))
    with (Ok {| code := "LOT001"; volume := 5%Q; deleted_at := None |}
          : result (@WineLotFields Q)) in Hcolumns.
  destruct Hcolumns as (_ & row & _ & _ & ->).
  eexists _, _. split; [reflexivity|]. split; reflexivity.
Defined.

Definition first_writer_persisted
    : result unit * WineLotInstance * gmap (Model * string) (StoredAggregate (@WineLotFields Q)) :=
  persist_instance first_writer (aggregate_rows (db created_world)).

(** A writer that read the row at the same version and sets the volume to
    0.005. *)
Definition fine_writer : WineLotInstance :=
  with_volume (from_db WineLot "L1" stored_lot) 0.005%Q.

(** It is persisted after the first writer, and the row holds 0.01. *)
Lemma second_writer_is_persisted_too :
  persist_instance fine_writer (snd first_writer_persisted)
  = (Ok tt, with_version fine_writer (Some (1 + 1)),
     <[(WineLot, "L1") :=
         {| row_version := 1;
            row_fields := {| code := "LOT001"; volume := 0.01%Q; deleted_at := None |} |}]>
       (aggregate_rows (db created_world))).
Proof.
  apply (persist_accepts_a_stale_writer first_writer fine_writer
           (aggregate_rows (db created_world)) (snd first_writer_persisted)
           (snd (fst first_writer_persisted)) 1
           {| code := "LOT001"; volume := 0.01%Q; deleted_at := None |}); reflexivity.
Defined.

(** The first writer cannot be persisted a second time. *)
Lemma first_writer_is_out_of_date :
  persist_instance (snd (fst first_writer_persisted)) (snd first_writer_persisted)
  = (Raise OutOfDateVersionException, with_version first_writer (Some (1 + 1 + 1)),
     snd first_writer_persisted).
Proof.
  apply (persist_twice_is_out_of_date first_writer (snd (fst first_writer_persisted))
           (aggregate_rows (db created_world)) (snd first_writer_persisted) 1); reflexivity.
Defined.

(** A lot that was created and inserted, after the rollback of the insert. *)
Definition new_lot : WineLotInstance :=
  apply_wine_lot_created (new_instance WineLot) "L2" "LOT002".

Lemma new_lot_cannot_be_inserted_again :
  ∃ inserted rows',
    persist_instance new_lot (aggregate_rows (db created_world)) = (Ok tt, inserted, rows')
    ∧ rows' !! (WineLot, "L2")
      = Some {| row_version := 1; row_fields := fields new_lot |}
    ∧ persist_instance inserted (aggregate_rows (db created_world))
      = (Raise OutOfDateVersionException, with_version inserted (Some (1 + 1)),
         aggregate_rows (db created_world)).
Proof.
  destruct (persist_instance new_lot (aggregate_rows (db created_world)))
    as [[res inserted] rows'] eqn:Hinsert.
  assert (res = Ok tt) as -> by (vm_compute in Hinsert; congruence).
  destruct (rolled_back_insert_cannot_be_retried new_lot inserted
              (aggregate_rows (db created_world)) rows' eq_refl Hinsert)
    as ((key & columns & Hkey & Hcolumns & _ & ->) & _ & _ & Hretry).
  vm_compute in Hkey. injection Hkey as <-.
  vm_compute in Hcolumns. injection Hcolumns as <-.
  eexists _, _. split; [reflexivity|]. split; [|exact Hretry].
  apply lookup_insert_eq.
Defined.

(** *** The methods of a fetched lot *)

(** The lot of [fetched_world], at reference 2, is destroyed. *)
Definition destroyed_world : WineWorld :=
  snd (WineLot_destroy no_subscribers 2%nat "aaaaaaaaaaaaaaaaaaaaaaaaaaaaaaaa" fetched_world).

Lemma destroyed_lot_takes_no_volume :
  ∃ lot' : WineLotInstance,
    heap destroyed_world !! 2%nat = Some lot'
    ∧ code (fields lot') = "LOT001!aaaaaaaaaaaaaaaaaaaaaaaaaaaaaaaa"
    ∧ volume (fields lot') = 5%Q
    ∧ rejected (WineLot_receive_volume no_subscribers 2%nat "A2" 2000000 1%Q) destroyed_world.
Proof.
  destruct (destroy_is_final no_subscribers 2%nat "aaaaaaaaaaaaaaaaaaaaaaaaaaaaaaaa"
              fetched_world destroyed_world eq_refl)
    as (lot & lot' & Hlot & Hlot' & _ & _ & Hcode & Hvolume & _ & _ & _ & _ & Hreceive & _).
  exists lot'. vm_compute in Hlot. injection Hlot as <-.
  split; [exact Hlot'|]. split; [exact Hcode|]. split; [exact Hvolume|]. apply Hreceive.
Defined.

(** The lot of [fetched_world], which holds 5.00, receives -7.00. *)
Lemma fetched_lot_receives_a_negative_volume :
  ∃ (w' : WineWorld) (lot' : WineLotInstance),
    WineLot_receive_volume no_subscribers 2%nat "A2" 2000000 (-7)%Q fetched_world = (Ok tt, w')
    ∧ heap w' !! 2%nat = Some lot'
    ∧ volume (fields lot') = (-2)%Q.
Proof.
  destruct (heap fetched_world !! 2%nat) as [lot|] eqn:Hlot; [|vm_compute in Hlot; discriminate].
  assert (model lot = WineLot ∧ deleted_at (fields lot) = None ∧ volume (fields lot) = 5%Q)
    as (Hmodel & Hlive & Hheld).
  { vm_compute in Hlot. injection Hlot as <-. by split_and!. }
  destruct (receive_volume_takes_any_volume no_subscribers 2%nat lot "A2" 2000000
              fetched_world Hlot Hmodel Hlive) as [Hreceive _].
  destruct (Hreceive (-7)%Q) as (w' & Hrun & lot0 & lot' & Hlot0 & Hlot' & _ & _ & Hfields & _).
  exists w', lot'. split; [exact Hrun|]. split; [exact Hlot'|].
  pose proof (eq_trans (eq_sym Hlot0) Hlot) as Hsame. injection Hsame as ->.
  rewrite Hfields. simpl. by rewrite Hheld.
Defined.

Lemma LOT001_with_a_newline_is_accepted :
  _validate_code (String.append "LOT001" (String "010" EmptyString)) = Ok tt.
Proof.
  apply accepted_code_with_a_final_newline_is_accepted; [reflexivity|simpl; lia|discriminate].
Defined.

(** The lot of [lot_created] was created with 100% of vintage 2022. *)
Lemma created_lot_gives_its_composition_back :
  ∃ (lot : WineLotInstance) (amounts : list (@ComponentAmount Q)),
    heap (snd lot_created) !! 0%nat = Some lot
    ∧ get_recorded_events lot = [WineLotCreated "L1" "LOT001" amounts CREATION_OCCURRED_AT]
    ∧ composition amounts = Ok (pure_composition 2022).
Proof.
  apply (created_event_gives_the_composition_back no_subscribers "L1" "LOT001"
           (pure_composition 2022) empty_world (snd lot_created) 0%nat).
  - apply NoDup_singleton.
  - reflexivity.
  - reflexivity.
Defined.

(** *** Replays of the fetched lot *)

(** The events of the lot of [fetched_world] after 1970-01-01T00:00:00 are
    replayed onto the fetched instance, which holds 5.00: the receipt of
    5.00 is loaded again. *)
Lemma downstream_replay_of_the_fetched_lot :
  ∃ lot' : WineLotInstance,
    fst (reapply_downstream_events_from 2%nat 0 "" (fun _ => "") fetched_world) = Ok tt
    ∧ heap (snd (reapply_downstream_events_from 2%nat 0 "" (fun _ => "") fetched_world))
        !! 2%nat = Some lot'
    ∧ volume (fields lot') = 10%Q
    ∧ get_recorded_events lot' = [].
Proof.
  assert (∃ lot : WineLotInstance, heap fetched_world !! 2%nat = Some lot) as [lot Hlot]
    by (eexists; vm_compute; reflexivity).
  pose proof (downstream_replay_folds_the_later_events 2%nat 0 "" (fun _ => "") fetched_world
              lot Hlot) as (_ & _ & _ & _ & Hfold & _).
  assert (∃ lot' : WineLotInstance,
            load_all (fun _ => "") lot
              (events_downstream (get_event_model lot) (pk lot) 0 ""
                 (event_rows (db fetched_world))) = Ok lot'
            ∧ volume (fields lot') = 10%Q ∧ get_recorded_events lot' = [])
    as (lot' & Hlot' & Hvolume & Hrecorded).
  { vm_compute in Hlot. injection Hlot as <-. eexists. vm_compute. by split_and!. }
  rewrite Hlot' in Hfold.
  destruct Hfold as [Hrun Hheap]. exists lot'. split; [exact Hrun|]. split; [exact Hheap|].
  by split.
Defined.

(** The creation row of the lot occurred at 1970-01-01T00:00:00 and has no
    sequence number: at the point (1970-01-01T00:00:00, [A1]) it is in
    neither window. *)
Lemma creation_row_is_in_neither_window :
  ∃ created : WineRow,
    head (event_rows (db received_world)) = Some created
    ∧ ev_id created = 1
    ∧ ¬ (created ∈ events_after_and_including WineLot ["L1"] 0 "A1"
                     (event_rows (db received_world))
         ∨ created ∈ events_downstream WineLot "L1" 0 "A1" (event_rows (db received_world))).
Proof.
  destruct (event_rows (db received_world)) as [|created rest] eqn:Hrows;
    [vm_compute in Hrows; discriminate|].
  exists created. split; [reflexivity|].
  assert (ev_model created = WineLot ∧ aggregate_id created = "L1" ∧ ev_id created = 1
          ∧ occurred_at created = 0 ∧ sequence_number created = None)
    as (Hmodel & Hid & Hrow & Ht & Hs).
  { vm_compute in Hrows. injection Hrows as <- _. by split_and!. }
  split; [exact Hrow|].
  apply (replay_windows_leave_out_unsequenced_events_at_the_time WineLot ["L1"] "L1" 0 "A1"
           (created :: rest) created); [apply list_elem_of_here|left|done|done|].
  by split.
Defined.

(** The lot of [fetched_world] as of 1970-01-01T00:00:00: its creation is
    folded, its receipt is not. *)
Lemma replay_at_the_creation_folds_the_creation :
  ∃ (lot final : WineLotInstance) (by_id : pydict string ref) (w' : WineWorld),
    heap fetched_world !! 2%nat = Some lot
    ∧ load_editable_aggregates_at_time [2%nat] 0 (fun _ => "") fetched_world = (Ok by_id, w')
    ∧ object_at by_id (heap w') (pk lot) = Some final
    ∧ code (fields final) = "LOT001" ∧ volume (fields final) = 0%Q
    ∧ is_before_creation final = false.
Proof.
  destruct (heap fetched_world !! 2%nat) as [lot|] eqn:Hlot; [|vm_compute in Hlot; discriminate].
  destruct (load_editable_aggregates_at_time [2%nat] 0 (fun _ => "") fetched_world)
    as [[by_id|x] w'] eqn:Hrun; [|vm_compute in Hrun; discriminate].
  assert (Forall (fun r => is_Some (heap fetched_world !! r)) [2%nat]) as Hvalid.
  { apply Forall_singleton. exists lot. exact Hlot. }
  assert (NoDup (omap (fun r => pk <$> heap fetched_world !! r) [2%nat])) as Hpks.
  { vm_compute. apply NoDup_singleton. }
  destruct (replay_at_a_time_folds_the_events_up_to_it
              [2%nat] 0 (fun _ => "") fetched_world w' by_id 2%nat lot
              Hrun Hvalid Hpks eq_refl Hlot) as (_ & _ & _ & Hobj).
  destruct (Hobj 2%nat lot (list_elem_of_here _ _) Hlot) as (final & Hfinal & Hreplayed).
  exists lot, final, by_id, w'.
  split; [exact eq_refl|]. split; [exact eq_refl|]. split; [exact Hfinal|].
  clear Hobj Hfinal Hrun. vm_compute in Hlot. injection Hlot as <-.
  vm_compute in Hreplayed. injection Hreplayed as <-. by split_and!.
Defined.

(** The receipt of the lot occurred at 1970-01-01T00:00:01: it is in the
    window up to one second after 1970-01-01T00:00:00.5 and in the window
    downstream of that time. *)
Lemma receipt_row_is_in_both_windows :
  ∃ receipt : WineRow,
    last (event_rows (db received_world)) = Some receipt
    ∧ ev_id receipt = 2
    ∧ receipt ∈ events_before_or_including WineLot ["L1"] (500000 + 1000000)
                  (event_rows (db received_world))
    ∧ receipt ∈ events_downstream WineLot "L1" 500000 "A2" (event_rows (db received_world)).
Proof.
  destruct (last (event_rows (db received_world))) as [receipt|] eqn:Hlast;
    [|vm_compute in Hlast; discriminate].
  exists receipt. split; [reflexivity|].
  assert (receipt ∈ event_rows (db received_world)) as Hin.
  { apply last_Some in Hlast as [l' ->]. apply elem_of_app. right. left. }
  assert (ev_model receipt = WineLot ∧ aggregate_id receipt = "L1" ∧ ev_id receipt = 2
          ∧ occurred_at receipt = 1000000) as (Hmodel & Hid & Hrow & Ht).
  { vm_compute in Hlast. injection Hlast as <-. by split_and!. }
  split; [exact Hrow|].
  apply (backdating_windows_overlap WineLot ["L1"] "L1" 500000 1000000 "A2"
           (event_rows (db received_world)) receipt); [lia|left|].
  split_and!; [exact Hin|exact Hmodel|exact Hid|]. left. lia.
Defined.

(** *** Views *)

(** The fetched lot [L1] and a lot [L2] that is not stored. *)
Definition two_lots_world : WineWorld :=
  with_heap fetched_world (heap fetched_world ++ [new_lot]).

(** The view of [L1] before 1970-01-01T00:00:01, the time of its receipt:
    [L2] is left out, the receipt is not folded. *)
Lemma view_of_the_fetched_lot_before_its_receipt :
  ∃ (by_id : pydict string ref) (w' : WineWorld) (view : WineLotInstance),
    load_aggregate_states_before [2%nat; 3%nat] 1000000 None (fun _ => "") two_lots_world
    = (Ok by_id, w')
    ∧ dict_keys by_id = ["L1"]
    ∧ object_at by_id (heap w') "L1" = Some view
    ∧ code (fields view) = "LOT001" ∧ volume (fields view) = 0%Q
    ∧ persist_instance view (aggregate_rows (db w'))
      = (Raise CannotPersistAggregateView, view, aggregate_rows (db w')).
Proof.
  assert (∃ lot : WineLotInstance, heap two_lots_world !! 2%nat = Some lot ∧ pk lot = "L1"
                                   ∧ model lot = WineLot)
    as (lot & Hlot & Hpk & Hmodel) by (eexists; vm_compute; by split_and!).
  destruct (load_aggregate_states_before [2%nat; 3%nat] 1000000 None (fun _ => "")
              two_lots_world) as [[by_id|x] w'] eqn:Hrun; [|vm_compute in Hrun; discriminate].
  assert (Forall (fun r => is_Some (heap two_lots_world !! r)) [2%nat; 3%nat]) as Hvalid.
  { repeat constructor; vm_compute; eauto. }
  destruct (views_are_folds_of_the_events_before [2%nat; 3%nat] 1000000 None (fun _ => "")
              two_lots_world w' by_id 2%nat lot Hrun Hvalid eq_refl Hlot)
    as (_ & _ & _ & _ & _ & _ & Hviews).
  assert (dict_keys by_id = ["L1"]
          ∧ ∃ r (view : WineLotInstance),
              dict_get "L1" by_id = Some r ∧ heap w' !! r = Some view
              ∧ code (fields view) = "LOT001" ∧ volume (fields view) = 0%Q)
    as (Hkeys & r & view & Hr & Hview & Hcode & Hvolume).
  { vm_compute in Hrun. injection Hrun as <- <-. split; [reflexivity|].
    eexists _, _. vm_compute. by split_and!. }
  exists by_id, w', view. split; [reflexivity|]. split; [exact Hkeys|].
  split; [unfold object_at; rewrite Hr; exact Hview|].
  split; [exact Hcode|]. split; [exact Hvolume|].
  apply (Hviews (fun a event u a' Hload =>
                   proj1 (proj2 (proj2 (proj2 (proj2
                     (wine_lot_load_keeps_bookkeeping no_subscribers a a' event u Hload))))))
           "L1" r view Hr Hview).
Defined.

(** *** What a unit of work commits *)

(** In one unit of work a lot is created, receives 5.005, is bottled for
    2.00, renamed and destroyed. *)
Definition calls_of_a_lot : list (@lot_call Q) :=
  [Receive_volume "A1" 1000000 5.005%Q; Bottle "A2" 2000000 2%Q; Update "LOT002";
   Destroy_lot "aaaaaaaaaaaaaaaaaaaaaaaaaaaaaaaa"].

Definition lot_of_five_events_world : WineWorld :=
  snd (unit_of_work no_subscribers
         (self <- WineLot_create no_subscribers "L1" "LOT001" (pure_composition 2022) ;;
          for_each calls_of_a_lot (call_lot no_subscribers self))
         empty_world).

(** The lot holds 3.005 and its row 3.01. *)
Lemma lot_of_five_events_is_committed :
  ∃ (events : list (@WineLotEvent Q)) (lot : WineLotInstance),
    length events = 5%nat
    ∧ load_events no_subscribers (new_instance WineLot) events
        [""; ""; ""; ""; "aaaaaaaaaaaaaaaaaaaaaaaaaaaaaaaa"] = Ok lot
    ∧ code (fields lot) = "LOT002!aaaaaaaaaaaaaaaaaaaaaaaaaaaaaaaa"
    ∧ volume (fields lot) = Qred 3.005%Q
    ∧ aggregate_rows (db lot_of_five_events_world) !! (WineLot, "L1")
      = Some {| row_version := 1;
                row_fields := {| code := "LOT002!aaaaaaaaaaaaaaaaaaaaaaaaaaaaaaaa";
                                 volume := 3.01%Q;
                                 deleted_at := Some 1700000000000000 |} |}
    ∧ map event_data (event_rows (db lot_of_five_events_world)) = events
    ∧ map ev_id (event_rows (db lot_of_five_events_world)) = [1; 2; 3; 4; 5].
Proof.
  destruct (new_lot_is_committed_with_its_events no_subscribers "L1" "LOT001"
              (pure_composition 2022) calls_of_a_lot empty_world lot_of_five_events_world)
    as (events & lot & key & columns & Hlen & _ & Hfold & Hkey & Hcolumns & _ & _ & Hrows
        & Hevents & _).
  { reflexivity. }
  { vm_compute. reflexivity. }
  exists events, lot.
  assert (map event_data (event_rows (db lot_of_five_events_world)) = events) as Hdata.
  { rewrite Hevents, map_app. apply (store_rows_event_data no_subscribers). }
  vm_compute in Hdata. destruct Hdata.
  vm_compute in Hkey. injection Hkey as <-.
  vm_compute in Hfold. injection Hfold as <-.
  vm_compute in Hcolumns. injection Hcolumns as <-.
  split; [reflexivity|]. split; [reflexivity|]. split; [reflexivity|]. split; [reflexivity|].
  split; [rewrite Hrows; apply lookup_insert_eq|].
  split; vm_compute; reflexivity.
Defined.

(** The lot of [created_world] is fetched, receives 5.005 and is bottled for
    2.00. *)
Definition calls_of_a_fetched_lot : list (@lot_call Q) :=
  [Receive_volume "A1" 1000000 5.005%Q; Bottle "A2" 2000000 2%Q].

Definition fetched_lot_of_two_events_world : WineWorld :=
  snd (unit_of_work no_subscribers
         (with_lot no_subscribers "L1"
            (fun self => for_each calls_of_a_fetched_lot (call_lot no_subscribers self)))
         created_world).

(** The lot holds 3.005 and its row 3.01, at the version it had. *)
Lemma fetched_lot_of_two_events_is_committed :
  ∃ (row : StoredAggregate (@WineLotFields Q)) (events : list (@WineLotEvent Q))
    (lot : WineLotInstance),
    aggregate_rows (db created_world) !! (WineLot, "L1") = Some row
    ∧ length events = 2%nat
    ∧ load_events no_subscribers (from_db WineLot "L1" row) events [""; ""] = Ok lot
    ∧ volume (fields lot) = Qred 3.005%Q
    ∧ aggregate_rows (db fetched_lot_of_two_events_world) !! (WineLot, "L1")
      = Some {| row_version := 1;
                row_fields := {| code := "LOT001"; volume := 3.01%Q; deleted_at := None |} |}
    ∧ map ev_id (event_rows (db fetched_lot_of_two_events_world)) = [1; 2; 3].
Proof.
  destruct (fetched_lot_is_committed_with_its_events no_subscribers "L1"
              calls_of_a_fetched_lot created_world fetched_lot_of_two_events_world)
    as (row & events & lot & Hrow & Hlen & _ & Hfold & Hwritten & Hevents & _).
  { reflexivity. }
  { vm_compute. reflexivity. }
  exists row, events, lot.
  assert (map event_data (event_rows (db fetched_lot_of_two_events_world))
          = map event_data (event_rows (db created_world)) ++ events) as Hdata.
  { by rewrite Hevents, map_app, (store_rows_event_data no_subscribers). }
  vm_compute in Hdata. injection Hdata as <-.
  split; [exact Hrow|]. vm_compute in Hrow. injection Hrow as <-.
  vm_compute in Hfold. injection Hfold as <-.
  cbv beta iota delta [calls_of_a_fetched_lot] in Hwritten.
  destruct Hwritten as (columns & Hcolumns & _ & Hrows).
  vm_compute in Hcolumns. injection Hcolumns as <-.
  split; [reflexivity|]. split; [reflexivity|]. split; [reflexivity|].
  split; [rewrite Hrows; apply lookup_insert_eq|].
  vm_compute; reflexivity.
Defined.

(** *** An action *)

Section action_scenarios.
Import action.

Definition no_action_subscribers : @ActionEvent Q → option exn := fun _ => None.

#[local] Instance Q_actions :
  Aggregates (@ActionEvent Q) (@ActionFields Q) unit Model := actions no_action_subscribers.

Definition ActionWorld : Type := @World (@ActionEvent Q) (@ActionFields Q) Model _ _.

Definition empty_action_world : ActionWorld :=
  {| heap := []; repository := empty_repository;
     db := {| aggregate_rows := ∅; event_rows := []; next_event_id := 1 |};
     now := 1700000000000000; trace := [] |}.

(** The receipt of 5.00 by the lot [L1], effective 1970-01-01T00:00:01, is
    recorded as the action [A1], at reference 0. *)
Definition recorded_world : ActionWorld :=
  snd (Action_record_receive_volume no_action_subscribers "A1" "L1" 5%Q (Some 1000000)
         empty_action_world).

(** The receipt is edited twice and then deleted. *)
Definition edited_twice_and_deleted : list (@action_call Q) :=
  [Edit_receive_volume "L1" 7%Q; Edit_receive_volume "L2" 8%Q; Destroy].

Definition deleted_action_world : ActionWorld :=
  snd (for_each edited_twice_and_deleted (call no_action_subscribers 0%nat) recorded_world).

Lemma history_of_an_edited_receipt :
  ∃ a' : AggregateModel (@ActionEvent Q) (@ActionFields Q) Model,
    heap deleted_action_world !! 0%nat = Some a'
    ∧ revision_number (fields a') = 2
    ∧ details (fields a') = Some (ReceiveVolumeData "L2" 8%Q)
    ∧ action_type (fields a') = Some RECEIVE_VOLUME
    ∧ length (get_recorded_events a') = 4%nat
    ∧ is_Some (action.deleted_at (fields a')).
Proof.
  assert (∃ a : AggregateModel (@ActionEvent Q) (@ActionFields Q) Model,
            heap recorded_world !! 0%nat = Some a
            ∧ consistent a
            ∧ revision_number (fields a) = 0
            ∧ action_type (fields a) = Some RECEIVE_VOLUME
            ∧ length (get_recorded_events a) = 1%nat) as (a & Ha & Hconsistent & Hr & Ht & Hl).
  { eexists. split; [vm_compute; reflexivity|]. split; [|by split_and!].
    split; [reflexivity|]. eexists. by split_and!. }
  destruct (action_history no_action_subscribers 0%nat edited_twice_and_deleted a
              recorded_world deleted_action_world Ha Hconsistent)
    as (a' & Ha' & _ & _ & Htype & _ & Hrevision & Hlength & Hdetails & _ & Hdeleted).
  { vm_compute. reflexivity. }
  exists a'. split; [exact Ha'|]. split; [rewrite Hrevision, Hr; reflexivity|].
  split; [rewrite Hdetails; reflexivity|]. split; [by rewrite Htype|].
  split; [rewrite Hlength, Hl; reflexivity|].
  apply Hdeleted; done.
Defined.

(** The deleted action rejects a third edit, and an edit as a blend is
    rejected before the action is deleted. *)
Lemma deleted_action_rejects_an_edit :
  (∃ msg, call no_action_subscribers 0%nat (Edit_receive_volume "L1" 1%Q) deleted_action_world
          = (Raise (ValueError msg), deleted_action_world))
  ∧ call no_action_subscribers 0%nat (Edit_blend [("L2", 1%Q)] "L1" 1%Q) recorded_world
    = (Raise (ValueError "Cannot edit a RECEIVE_VOLUME action as a blend."), recorded_world).
Proof.
  assert (∃ a : AggregateModel (@ActionEvent Q) (@ActionFields Q) Model,
            heap deleted_action_world !! 0%nat = Some a
            ∧ is_Some (action.deleted_at (fields a))) as (a & Ha & Hdeleted).
  { eexists. split; [vm_compute; reflexivity|]. by eexists. }
  destruct (action_guards no_action_subscribers 0%nat a deleted_action_world Ha)
    as (_ & _ & Hrejects).
  split; [apply (Hrejects Hdeleted)|]. vm_compute. reflexivity.
Defined.

End action_scenarios.
